(** * antigravity-proxy: the translation and resilience core

    A shallow embedding of the Go sources of the proxy
    ([internal/antigravity], [internal/server], [internal/transform])
    together with the properties its specification states about them.

    Conventions of the embedding:
    - a Go [string] is a Rocq [string] (a sequence of bytes);
    - a Go [map[string]T] is a [gmap string T];
    - a value of type [interface{}] produced by [encoding/json] is a [JSON];
    - a Go slice is a [list] (the functions modelled never alias two views
      of one backing array, see [removeFirstMatch]);
    - a pointer that may be [nil] is an [option]. *)

From Stdlib Require QArith.
From Stdlib Require Import ZArith Ascii String.
From stdpp Require Import gmap strings list fin_maps pretty sorting.

Local Open Scope string_scope.
#[local] Set Warnings "-register-all".

(** ** Strings *)

Module Strings.

(** [strings.HasPrefix]. *)
Fixpoint HasPrefix (s p : string) {struct p} : bool :=
  match p, s with
  | EmptyString, _ => true
  | String b p', String c s' => if Ascii.eqb b c then HasPrefix s' p' else false
  | String _ _, EmptyString => false
  end.

(** [strings.TrimPrefix]. *)
Fixpoint drop_bytes (n : nat) (s : string) : string :=
  match n, s with
  | S n', String _ s' => drop_bytes n' s'
  | _, _ => s
  end.

Definition TrimPrefix (s p : string) : string :=
  if HasPrefix s p then drop_bytes (String.length p) s else s.

(** [strings.ToLower] on the ASCII range; bytes of 0x80 and above are left
    alone.  The sources only compare the result with ["user"] and
    ["tool"], and no code point outside ASCII lowers to one of the letters
    of these words. *)
Definition lower_byte (c : ascii) : ascii :=
  let n := nat_of_ascii c in
  if (65 <=? n)%nat && (n <=? 90)%nat then ascii_of_nat (n + 32) else c.

Fixpoint ToLower (s : string) : string :=
  match s with
  | EmptyString => EmptyString
  | String c s' => String (lower_byte c) (ToLower s')
  end.

(** [strings.ToUpper] on the ASCII range. *)
Definition upper_byte (c : ascii) : ascii :=
  let n := nat_of_ascii c in
  if (97 <=? n)%nat && (n <=? 122)%nat then ascii_of_nat (n - 32) else c.

Fixpoint ToUpper (s : string) : string :=
  match s with
  | EmptyString => EmptyString
  | String c s' => String (upper_byte c) (ToUpper s')
  end.

(** [strings.Contains]. *)
Fixpoint Contains (s substr : string) : bool :=
  HasPrefix s substr ||
  match s with
  | EmptyString => false
  | String _ s' => Contains s' substr
  end.

(** [strings.Join]. *)
Fixpoint Join (elems : list string) (sep : string) : string :=
  match elems with
  | [] => ""
  | [e] => e
  | e :: rest => e ++ sep ++ Join rest sep
  end.

(** The UTF-8 encodings of the code points for which [unicode.IsSpace]
    holds: the six ASCII ones, U+0085, U+00A0, U+1680, U+2000..U+200A,
    U+2028, U+2029, U+202F, U+205F and U+3000. *)
Definition bytes (l : list nat) : string :=
  foldr (λ n s, String (ascii_of_nat n) s) EmptyString l.

Definition spaces : list string :=
  bytes <$> [ [9]; [10]; [11]; [12]; [13]; [32];
              [194; 133]; [194; 160]; [225; 154; 128];
              [226; 128; 128]; [226; 128; 129]; [226; 128; 130];
              [226; 128; 131]; [226; 128; 132]; [226; 128; 133];
              [226; 128; 134]; [226; 128; 135]; [226; 128; 136];
              [226; 128; 137]; [226; 128; 138]; [226; 128; 168];
              [226; 128; 169]; [226; 128; 175]; [226; 129; 159];
              [227; 128; 128] ]%nat.

(** The leading white-space rune of [s], if it has one. *)
Definition leading_space (s : string) : option string :=
  List.find (HasPrefix s) spaces.

Fixpoint TrimLeft_fuel (fuel : nat) (s : string) : string :=
  match fuel with
  | O => s
  | S fuel' =>
      match leading_space s with
      | Some sp => TrimLeft_fuel fuel' (drop_bytes (String.length sp) s)
      | None => s
      end
  end.

Definition TrimLeft (s : string) : string := TrimLeft_fuel (String.length s) s.

Definition rev_string (s : string) : string :=
  string_of_list_ascii (List.rev (list_ascii_of_string s)).

(** Trailing white space is found by scanning the reversed bytes for the
    reversed encodings. *)
Definition trailing_space (r : string) : option string :=
  List.find (λ sp, HasPrefix r (rev_string sp)) spaces.

Fixpoint TrimRight_fuel (fuel : nat) (r : string) : string :=
  match fuel with
  | O => r
  | S fuel' =>
      match trailing_space r with
      | Some sp => TrimRight_fuel fuel' (drop_bytes (String.length sp) r)
      | None => r
      end
  end.

Definition TrimRight (s : string) : string :=
  rev_string (TrimRight_fuel (String.length s) (rev_string s)).

(** [strings.TrimSpace] (exact on valid UTF-8). *)
Definition TrimSpace (s : string) : string := TrimRight (TrimLeft s).

End Strings.

(** ** JSON values

    What [json.Unmarshal] stores in an [interface{}]: [nil], [bool],
    [float64] (every finite one is a rational), [string],
    [[]interface{}] and [map[string]interface{}]. *)

Inductive JSON : Type :=
| JNull
| JBool (b : bool)
| JNum (q : QArith_base.Q)
| JStr (s : string)
| JArr (l : list JSON)
| JObj (m : gmap string JSON).

(** The type assertions [v.(string)], [v.([]interface{})] and
    [v.(map[string]interface{})] in their comma-ok form, applied to the
    result of a map index (a missing key indexes to [nil]). *)
Definition as_string (v : option JSON) : option string :=
  match v with Some (JStr s) => Some s | _ => None end.

Definition as_array (v : option JSON) : option (list JSON) :=
  match v with Some (JArr l) => Some l | _ => None end.

Definition as_object (v : option JSON) : option (gmap string JSON) :=
  match v with Some (JObj m) => Some m | _ => None end.

(** ** The data model of [internal/antigravity] *)

Record FunctionCall : Type := mkFunctionCall {
  fcID : string;
  fcName : string;
  fcArgs : gmap string JSON
}.

Record FunctionResponse : Type := mkFunctionResponse {
  frID : string;
  frName : string;
  frResponse : gmap string JSON
}.

Record ContentPart : Type := mkContentPart {
  Text : string;
  ThoughtSignature : string;
  PartFunctionCall : option FunctionCall;
  PartFunctionResponse : option FunctionResponse
}.

Record Content : Type := mkContent {
  Role : string;
  Parts : list ContentPart
}.

Record SystemInstruction : Type := mkSystemInstruction {
  siRole : string;
  siParts : list ContentPart
}.

(** [ContentPart{Text: s}], [ContentPart{FunctionCall: &fc}] and
    [ContentPart{FunctionResponse: &fr}]. *)
Definition textPart (s : string) : ContentPart :=
  mkContentPart s "" None None.

Definition callPart (fc : FunctionCall) : ContentPart :=
  mkContentPart "" "" (Some fc) None.

Definition responsePart (fr : FunctionResponse) : ContentPart :=
  mkContentPart "" "" None (Some fr).

(** ** Request preparation: sanitizing contents ([request.go]) *)

Definition isEmptyContentPart (part : ContentPart) : bool :=
  match PartFunctionCall part, PartFunctionResponse part with
  | None, None => if decide (Text part = "") then true else false
  | _, _ => false
  end.

(** The inner loop of [sanitizeContents]: [parts] is the slice being built,
    [prunedParts] the running counter. *)
Fixpoint sanitizeParts (todo parts : list ContentPart) (prunedParts : nat)
  : list ContentPart * nat :=
  match todo with
  | [] => (parts, prunedParts)
  | part :: todo' =>
      if isEmptyContentPart part
      then sanitizeParts todo' parts (S prunedParts)
      else sanitizeParts todo' (parts ++ [part]) prunedParts
  end.

(** The outer loop. *)
Fixpoint sanitizeLoop (todo cleaned : list Content) (prunedParts prunedContents : nat)
  : list Content * nat * nat :=
  match todo with
  | [] => (cleaned, prunedParts, prunedContents)
  | content :: todo' =>
      match Parts content with
      | [] => sanitizeLoop todo' cleaned prunedParts (S prunedContents)
      | _ :: _ =>
          let '(parts, prunedParts') := sanitizeParts (Parts content) [] prunedParts in
          match parts with
          | [] => sanitizeLoop todo' cleaned prunedParts' (S prunedContents)
          | _ :: _ =>
              sanitizeLoop todo' (cleaned ++ [mkContent (Role content) parts])
                prunedParts' prunedContents
          end
      end
  end.

(** [sanitizeContents] on the slice its argument points to: the new value
    of the slice, and the two counters returned. *)
Definition sanitizeContents (contents : list Content) : list Content * nat * nat :=
  match contents with
  | [] => ([], 0, 0)
  | _ :: _ => sanitizeLoop contents [] 0 0
  end.

Definition sanitized (contents : list Content) : list Content :=
  (sanitizeContents contents).1.1.

(** ** [crypto/sha256] and [encoding/hex]

    [Sum256] after FIPS 180-4, on 32-bit words carried as [Z] with the
    wrap-around written out. *)

Module SHA256.
Local Open Scope Z_scope.

Definition wrap (x : Z) : Z := x mod 2 ^ 32.
Definition add32 (x y : Z) : Z := wrap (x + y).
Definition rotr (n x : Z) : Z :=
  Z.lor (Z.shiftr x n) (wrap (Z.shiftl x (32 - n))).
Definition Ch (x y z : Z) : Z :=
  Z.lxor (Z.land x y) (Z.land (wrap (Z.lnot x)) z).
Definition Maj (x y z : Z) : Z :=
  Z.lxor (Z.lxor (Z.land x y) (Z.land x z)) (Z.land y z).
Definition Sigma0 (x : Z) : Z := Z.lxor (Z.lxor (rotr 2 x) (rotr 13 x)) (rotr 22 x).
Definition Sigma1 (x : Z) : Z := Z.lxor (Z.lxor (rotr 6 x) (rotr 11 x)) (rotr 25 x).
Definition sigma0 (x : Z) : Z := Z.lxor (Z.lxor (rotr 7 x) (rotr 18 x)) (Z.shiftr x 3).
Definition sigma1 (x : Z) : Z := Z.lxor (Z.lxor (rotr 17 x) (rotr 19 x)) (Z.shiftr x 10).

(** The constants are defined as the standard defines them: the first 32
    bits of the fractional parts of the cube roots ([K]) and of the square
    roots ([init]) of the first primes. *)
Definition is_prime (p : nat) : bool :=
  forallb (λ d, negb (p mod d =? 0)%nat) (seq 2 (p - 2)).

Definition primes (count : nat) : list Z :=
  Z.of_nat <$> take count (filter (λ p, is_prime p = true) (seq 2 310)).

(** The integer cube root, one bit at a time from bit [bits - 1] down. *)
Fixpoint cube_root (bits : nat) (r x : Z) : Z :=
  match bits with
  | O => r
  | S b =>
      let r' := r + 2 ^ Z.of_nat b in
      cube_root b (if r' * r' * r' <=? x then r' else r) x
  end.

Definition K : list Z :=
  (λ p, wrap (cube_root 40 0 (p * 2 ^ 96))) <$> primes 64.

(** The eight working variables, also the chaining value. *)
Record state : Type := mkState { ha : Z; hb : Z; hc : Z; hd : Z; he : Z; hf : Z; hg : Z; hh : Z }.

Definition frac_sqrt (p : Z) : Z := wrap (Z.sqrt (p * 2 ^ 64)).

Definition init : state :=
  match frac_sqrt <$> primes 8 with
  | [a; b; c; d; e; f; g; h] => mkState a b c d e f g h
  | _ => mkState 0 0 0 0 0 0 0 0
  end.

(** Message padding: a 1 bit, zeros up to 56 mod 64, the bit length on
    64 bits, big-endian. *)
Definition be_bytes (width : nat) (x : Z) : list Z :=
  (λ i, Z.land (Z.shiftr x (8 * Z.of_nat i)) 255) <$> rev (seq 0 width).

Definition pad (msg : list Z) : list Z :=
  let len := Z.of_nat (length msg) in
  let zeros := Z.to_nat ((55 - len) mod 64) in
  msg ++ [128] ++ replicate zeros 0 ++ be_bytes 8 ((8 * len) mod 2 ^ 64).

Definition be_word (b : list Z) : Z :=
  foldl (λ acc x, Z.lor (Z.shiftl acc 8) x) 0 b.

Fixpoint words (n : nat) (b : list Z) : list Z :=
  match n with
  | O => []
  | S n' => be_word (take 4 b) :: words n' (drop 4 b)
  end.

(** The message schedule, grown from the 16 words of the block. *)
Fixpoint schedule (n : nat) (w : list Z) : list Z :=
  match n with
  | O => w
  | S n' =>
      let i := length w in
      let at_ k := nth (i - k) w 0 in
      schedule n' (w ++ [add32 (add32 (sigma1 (at_ 2%nat)) (at_ 7%nat))
                                (add32 (sigma0 (at_ 15%nat)) (at_ 16%nat))])
  end.

Definition round (s : state) (kw : Z * Z) : state :=
  let t1 := add32 (add32 (add32 (hh s) (Sigma1 (he s))) (Ch (he s) (hf s) (hg s)))
                  (add32 kw.1 kw.2) in
  let t2 := add32 (Sigma0 (ha s)) (Maj (ha s) (hb s) (hc s)) in
  mkState (add32 t1 t2) (ha s) (hb s) (hc s) (add32 (hd s) t1) (he s) (hf s) (hg s).

Definition compress (s : state) (block : list Z) : state :=
  let w := schedule 48 (words 16 block) in
  let r := foldl round s (zip K w) in
  mkState (add32 (ha s) (ha r)) (add32 (hb s) (hb r)) (add32 (hc s) (hc r))
          (add32 (hd s) (hd r)) (add32 (he s) (he r)) (add32 (hf s) (hf r))
          (add32 (hg s) (hg r)) (add32 (hh s) (hh r)).

Fixpoint blocks (n : nat) (s : state) (b : list Z) : state :=
  match n with
  | O => s
  | S n' => blocks n' (compress s (take 64 b)) (drop 64 b)
  end.

Definition digest_words (s : state) : list Z :=
  [ha s; hb s; hc s; hd s; he s; hf s; hg s; hh s].

Definition string_bytes (s : string) : list Z :=
  (λ c, Z.of_nat (nat_of_ascii c)) <$> list_ascii_of_string s.

(** [sha256.Sum256([]byte(s))]: the 32 bytes of the digest. *)
Definition Sum256 (s : string) : list Z :=
  let p := pad (string_bytes s) in
  digest_words (blocks (length p / 64) init p) ≫= be_bytes 4.

End SHA256.

Module Hex.
Definition hextable : list ascii :=
  list_ascii_of_string "0123456789abcdef".

Definition digit (n : Z) : ascii := nth (Z.to_nat n) hextable "0"%char.

(** [hex.EncodeToString]. *)
Fixpoint EncodeToString (src : list Z) : string :=
  match src with
  | [] => EmptyString
  | b :: src' =>
      String (digit (Z.shiftr b 4)) (String (digit (Z.land b 15)) (EncodeToString src'))
  end.
End Hex.

(** ** Request preparation: the session id ([request.go])

    [uuid.NewString] draws from the process's random source.  Here the
    source is a stream [uuid : nat -> string] and a position in it; each
    call returns the string at the position and advances. *)

Definition newline : string := String (ascii_of_nat 10) EmptyString.

(** The slice expression [s[:n]] (it panics beyond the end of [s]; the one
    use below applies it to the 64 bytes of a hex digest). *)
Definition slice_to (n : nat) (s : string) : string := String.substring 0 n s.

(** The inner loop of [deriveSessionID]: the non-empty texts of the parts. *)
Fixpoint collectTexts (todo : list ContentPart) (parts : list string) : list string :=
  match todo with
  | [] => parts
  | part :: todo' =>
      if decide (Text part = "") then collectTexts todo' parts
      else collectTexts todo' (parts ++ [Text part])
  end.

Fixpoint deriveSessionID (uuid : nat -> string) (contents : list Content) (n : nat)
  : string * nat :=
  match contents with
  | [] => (uuid n, S n)
  | msg :: contents' =>
      if decide (Strings.ToLower (Role msg) = "user") then
        match collectTexts (Parts msg) [] with
        | [] => deriveSessionID uuid contents' n
        | parts =>
            (slice_to 32 (Hex.EncodeToString (SHA256.Sum256 (Strings.Join parts newline))), n)
        end
      else deriveSessionID uuid contents' n
  end.

(** ** Request preparation: function-call and function-response ids
    ([request.go]) *)

(** [perName[name]]: a missing key indexes to the nil slice. *)
Definition queue (perName : gmap string (list string)) (name : string) : list string :=
  default [] (perName !! name).

(** The loop of [removeFirstMatch].  [append(values[:i], values[i+1:]...)]
    shifts the tail down inside the backing array of [values]; every caller
    overwrites the one variable holding that slice with the result, so no
    second view of the array observes the shift. *)
Fixpoint removeFirst (values : list string) (target : string) : list string :=
  match values with
  | [] => []
  | v :: values' =>
      if decide (v = target) then values' else v :: removeFirst values' target
  end.

Definition removeFirstMatch (values : list string) (target : string) : list string :=
  if decide (target = "") then values else removeFirst values target.

(** The state of [ensureFunctionResponseIDs] between two parts. *)
Record Queues : Type := mkQueues {
  pending : list string;
  perName : gmap string (list string);
  missing : nat
}.

Definition setResponseID (part : ContentPart) (fr : FunctionResponse) (id : string)
  : ContentPart :=
  mkContentPart (Text part) (ThoughtSignature part) (PartFunctionCall part)
    (Some (mkFunctionResponse id (frName fr) (frResponse fr))).

(** An id-less response, first step: the head of the queue of the
    response's own name ([name] is the trimmed name).  The result is
    [assigned] with the two queues. *)
Definition takeFromName (q : Queues) (name : string)
  : string * list string * gmap string (list string) :=
  if decide (name = "") then ("", pending q, perName q)
  else
    match queue (perName q) name with
    | id0 :: ids => (id0, removeFirstMatch (pending q) id0, <[name := ids]> (perName q))
    | [] => ("", pending q, perName q)
    end.

(** Second step, when nothing is assigned yet: the head of the global
    queue. *)
Definition takeFromPending (name : string)
  (a : string * list string * gmap string (list string))
  : string * list string * gmap string (list string) :=
  let '(assigned, pending1, perName1) := a in
  match decide (assigned = ""), pending1 with
  | left _, id0 :: pending' =>
      (id0, pending',
       if decide (name = "") then perName1
       else <[name := removeFirstMatch (queue perName1 name) id0]> perName1)
  | _, _ => a
  end.

(** A response that carries an id: the id is taken out of the queues. *)
Definition consumeID (q : Queues) (name id : string) : Queues :=
  mkQueues (removeFirstMatch (pending q) id)
    (if decide (name = "") then perName q
     else <[name := removeFirstMatch (queue (perName q) name) id]> (perName q))
    (missing q).

(** A call: its id joins the queues. *)
Definition enqueueCall (q : Queues) (name id : string) : Queues :=
  mkQueues (pending q ++ [id])
    (if decide (name = "") then perName q
     else <[name := (queue (perName q) name ++ [id])%list]> (perName q))
    (missing q).

(** The body of the inner loop: one part. *)
Definition reconcilePart (q : Queues) (part : ContentPart) : Queues * ContentPart :=
  match PartFunctionCall part with
  | Some fc =>
      let id := Strings.TrimSpace (fcID fc) in
      if decide (id = "") then (q, part)
      else (enqueueCall q (Strings.TrimSpace (fcName fc)) id, part)
  | None =>
      match PartFunctionResponse part with
      | None => (q, part)
      | Some fr =>
          let name := Strings.TrimSpace (frName fr) in
          if decide (Strings.TrimSpace (frID fr) = "") then
            let '(assigned, pending2, perName2) :=
              takeFromPending name (takeFromName q name) in
            if decide (assigned = "") then (mkQueues pending2 perName2 (missing q), part)
            else (mkQueues pending2 perName2 (S (missing q)), setResponseID part fr assigned)
          else (consumeID q name (frID fr), part)
      end
  end.

Fixpoint reconcileParts (q : Queues) (parts : list ContentPart) : Queues * list ContentPart :=
  match parts with
  | [] => (q, [])
  | part :: parts' =>
      let '(q1, part1) := reconcilePart q part in
      let '(q2, parts1) := reconcileParts q1 parts' in
      (q2, part1 :: parts1)
  end.

Fixpoint reconcileContents (q : Queues) (contents : list Content) : Queues * list Content :=
  match contents with
  | [] => (q, [])
  | content :: contents' =>
      let '(q1, parts1) := reconcileParts q (Parts content) in
      let '(q2, contents1) := reconcileContents q1 contents' in
      (q2, mkContent (Role content) parts1 :: contents1)
  end.

(** [ensureFunctionResponseIDs]: the contents after the in-place updates
    and the number of ids filled in. *)
Definition ensureFunctionResponseIDs (contents : list Content) : list Content * nat :=
  let '(q, contents1) := reconcileContents (mkQueues [] ∅ 0) contents in
  (contents1, missing q).

(** [ensureFunctionCallIDs]: every call whose id is blank receives a fresh
    one. *)
Definition setCallID (part : ContentPart) (fc : FunctionCall) (id : string) : ContentPart :=
  mkContentPart (Text part) (ThoughtSignature part)
    (Some (mkFunctionCall id (fcName fc) (fcArgs fc))) (PartFunctionResponse part).

Fixpoint fillCallIDs (uuid : nat -> string) (parts : list ContentPart) (n missing : nat)
  : list ContentPart * nat * nat :=
  match parts with
  | [] => ([], n, missing)
  | part :: parts' =>
      match PartFunctionCall part with
      | Some fc =>
          if decide (Strings.TrimSpace (fcID fc) = "") then
            let '(parts1, n1, missing1) := fillCallIDs uuid parts' (S n) (S missing) in
            (setCallID part fc ("toolu_" ++ uuid n) :: parts1, n1, missing1)
          else
            let '(parts1, n1, missing1) := fillCallIDs uuid parts' n missing in
            (part :: parts1, n1, missing1)
      | None =>
          let '(parts1, n1, missing1) := fillCallIDs uuid parts' n missing in
          (part :: parts1, n1, missing1)
      end
  end.

Fixpoint ensureFunctionCallIDs_loop (uuid : nat -> string) (contents : list Content)
  (n missing : nat) : list Content * nat * nat :=
  match contents with
  | [] => ([], n, missing)
  | content :: contents' =>
      let '(parts1, n1, missing1) := fillCallIDs uuid (Parts content) n missing in
      let '(contents1, n2, missing2) := ensureFunctionCallIDs_loop uuid contents' n1 missing1 in
      (mkContent (Role content) parts1 :: contents1, n2, missing2)
  end.

Definition ensureFunctionCallIDs (uuid : nat -> string) (contents : list Content) (n : nat)
  : list Content * nat * nat :=
  ensureFunctionCallIDs_loop uuid contents n 0.

(** ** Errors

    An [error] is either made by [fmt.Errorf] (a message, and the error it
    wraps with [%w] if any) or is an [*UpstreamError]. *)

Inductive error : Type :=
| Errorf (msg : string) (cause : option error)
| UpstreamError (StatusCode : Z) (Body : string) (ContentType : string) (Endpoint : string).

Inductive result (A : Type) : Type :=
| Ok (a : A)
| Err (e : error).

Arguments Ok {A} a.
Arguments Err {A} e.

Definition is_err {A : Type} (r : result A) : Prop :=
  match r with Ok _ => False | Err _ => True end.

(** ** Message translation ([internal/transform]) *)

(** Modelled from the spec: the declarations of [openai.Message] and
    [openai.ToolCall] are not among the sources; these records have the
    fields the translator reads ([Content] is an [interface{}] holding the
    decoded JSON, [JNull] standing for [nil]). *)
Record ToolCall : Type := mkToolCall {
  tcID : string;
  tcFunctionName : string;
  tcFunctionArguments : string
}.

Record Message : Type := mkMessage {
  msgRole : string;
  msgContent : JSON;
  msgName : string;
  msgToolCallID : string;
  msgToolCalls : list ToolCall
}.

(** The state of [convertMessagesToGeminiContents] between two messages. *)
Record Translation : Type := mkTranslation {
  toolCallNameByID : gmap string string;
  toolCallIDByName : gmap string string;
  pendingToolParts : list ContentPart;
  geminiContents : list Content;
  systemInstruction : option SystemInstruction;
  nextUUID : nat
}.

(** The first loop: [tool_call_id -> function name] over the assistant
    messages of the whole list. *)
Definition recordNames (names : gmap string string) (tcs : list ToolCall)
  : gmap string string :=
  foldl (λ names tc,
           if decide (tcID tc = "" ∨ tcFunctionName tc = "") then names
           else <[tcID tc := tcFunctionName tc]> names) names tcs.

Definition toolCallNames (messages : list Message) : gmap string string :=
  foldl (λ names m,
           if decide (msgRole m = "assistant") then recordNames names (msgToolCalls m)
           else names) ∅ messages.

(** [p["type"] == "text"] followed by [p["text"].(string)] on one element
    of an array content. *)
Definition textItem (part : JSON) : option string :=
  match part with
  | JObj p =>
      match p !! "type" with
      | Some (JStr ty) => if decide (ty = "text") then as_string (p !! "text") else None
      | _ => None
      end
  | _ => None
  end.

Definition nonEmptyTextItems (content : list JSON) : list string :=
  filter (λ txt, txt ≠ "") (omap textItem content).

(** The [system] case: the texts appended to the system instruction. *)
Definition systemTexts (content : JSON) : list string :=
  match content with
  | JStr s => if decide (s = "") then [] else [s]
  | JArr items => nonEmptyTextItems items
  | _ => []
  end.

Definition appendSystem (si : option SystemInstruction) (content : JSON)
  : option SystemInstruction :=
  let parts := match si with Some i => siParts i | None => [] end in
  Some (mkSystemInstruction "system" (parts ++ (textPart <$> systemTexts content))).

(** The role of the content a message becomes. *)
Definition geminiRole (role : string) : string :=
  if decide (role = "user") then "user"
  else if decide (role = "assistant") then "model"
  else "user".

(** Name and id of a tool response. *)
Definition resolveName (names : gmap string string) (msg : Message) : string :=
  if decide (msgName msg = "") then
    if decide (msgToolCallID msg = "") then ""
    else default "" (names !! msgToolCallID msg)
  else msgName msg.

Definition resolveID (ids : gmap string string) (msg : Message) (resolvedName : string)
  : string :=
  let resolvedID := Strings.TrimSpace (msgToolCallID msg) in
  if decide (resolvedID = "") then
    if decide (resolvedName = "") then resolvedID
    else default resolvedID (ids !! resolvedName)
  else resolvedID.

Definition MissingFunctionName : error :=
  Errorf "tool response missing function name and unresolved tool_call_id" None.

Definition toolResponse (st : Translation) (msg : Message) (output : string)
  : result (list ContentPart) :=
  let resolvedName := resolveName (toolCallNameByID st) msg in
  if decide (resolvedName = "") then Err MissingFunctionName
  else
    let resolvedID := resolveID (toolCallIDByName st) msg resolvedName in
    Ok [responsePart (mkFunctionResponse resolvedID resolvedName {["output" := JStr output]})].

(** The switch on the dynamic type of [msg.Content]. *)
Definition contentParts (st : Translation) (msg : Message) : result (list ContentPart) :=
  match msgContent msg with
  | JStr content =>
      if decide (msgRole msg = "tool") then toolResponse st msg content
      else Ok [textPart content]
  | JArr content =>
      if decide (msgRole msg = "tool")
      then toolResponse st msg (Strings.Join (nonEmptyTextItems content) newline)
      else Ok (textPart <$> omap textItem content)
  | _ => Ok []
  end.

Section Translator.

(** [json.Unmarshal] into a [map[string]interface{}]: an error, or the
    map, [None] being the nil map that the literal [null] leaves. *)
Variable json_Unmarshal : string -> result (option (gmap string JSON)).

(** The random source behind [uuid.NewString]. *)
Variable uuid : nat -> string.

Definition parseArguments (arguments : string) : gmap string JSON :=
  match json_Unmarshal arguments with
  | Ok (Some args) => args
  | Ok None => ∅
  | Err _ => ∅
  end.

(** The loop over the tool calls of an assistant message: the maps and
    the position in the random source afterwards, and the parts made. *)
Fixpoint callParts (names ids : gmap string string) (n : nat) (tcs : list ToolCall)
  : gmap string string * gmap string string * nat * list ContentPart :=
  match tcs with
  | [] => (names, ids, n, [])
  | tc :: tcs' =>
      let args := parseArguments (tcFunctionArguments tc) in
      let '(id, n1) :=
        if decide (Strings.TrimSpace (tcID tc) = "")
        then ("toolu_" ++ uuid n, S n) else (tcID tc, n) in
      let '(names1, ids1) :=
        if decide (tcFunctionName tc = "") then (names, ids)
        else (<[id := tcFunctionName tc]> names, <[tcFunctionName tc := id]> ids) in
      let '(names2, ids2, n2, parts) := callParts names1 ids1 n1 tcs' in
      (names2, ids2, n2, callPart (mkFunctionCall id (tcFunctionName tc) args) :: parts)
  end.

(** The body of the main loop: one message. *)
Definition translateMessage (st : Translation) (msg : Message) : result Translation :=
  if decide (msgRole msg = "system") then
    Ok (mkTranslation (toolCallNameByID st) (toolCallIDByName st) (pendingToolParts st)
          (geminiContents st) (appendSystem (systemInstruction st) (msgContent msg))
          (nextUUID st))
  else
    let role := geminiRole (msgRole msg) in
    match contentParts st msg with
    | Err e => Err e
    | Ok parts0 =>
        let '(names, ids, n, calls) :=
          if decide (msgRole msg = "assistant")
          then callParts (toolCallNameByID st) (toolCallIDByName st) (nextUUID st)
                 (msgToolCalls msg)
          else (toolCallNameByID st, toolCallIDByName st, nextUUID st, []) in
        let parts := (parts0 ++ calls)%list in
        let '(pending1, parts1) :=
          if decide (Strings.ToLower (msgRole msg) = "tool")
          then ((pendingToolParts st ++ parts)%list, []) else (pendingToolParts st, parts) in
        let contents1 :=
          match parts1 with
          | [] => geminiContents st
          | _ :: _ => (geminiContents st ++ [mkContent role parts1])%list
          end in
        Ok (mkTranslation names ids pending1 contents1 (systemInstruction st) n)
    end.

(** The main loop.  It stops at the first error; the second component is
    the position reached in the random source. *)
Fixpoint translateMessages (st : Translation) (messages : list Message)
  : result Translation * nat :=
  match messages with
  | [] => (Ok st, nextUUID st)
  | msg :: messages' =>
      match translateMessage st msg with
      | Err e => (Err e, nextUUID st)
      | Ok st1 => translateMessages st1 messages'
      end
  end.

(** The synthetic content that closes the sequence. *)
Definition trailing (pendingToolParts : list ContentPart) : list Content :=
  match pendingToolParts with
  | [] => []
  | _ :: _ => [mkContent "user" pendingToolParts]
  end.

Definition convertMessagesToGeminiContents (messages : list Message) (n : nat)
  : result (list Content * option SystemInstruction) * nat :=
  let st0 := mkTranslation (toolCallNames messages) ∅ [] [] None n in
  match translateMessages st0 messages with
  | (Err e, n1) => (Err e, n1)
  | (Ok st, n1) =>
      (Ok ((geminiContents st ++ trailing (pendingToolParts st))%list, systemInstruction st),
       n1)
  end.

(** What a message does to the recorded names and ids and to the random
    source, whether or not the translation goes on. *)
Definition advance (s : gmap string string * gmap string string * nat) (msg : Message)
  : gmap string string * gmap string string * nat :=
  if decide (msgRole msg = "assistant")
  then (callParts s.1.1 s.1.2 s.2 (msgToolCalls msg)).1
  else s.

(** The names recorded when the message after [before] is reached. *)
Definition namesAfter (messages before : list Message) (n : nat) : gmap string string :=
  (foldl advance (toolCallNames messages, ∅, n) before).1.1.

End Translator.

(** ** Schema conversion ([ConvertSchema]) *)

Inductive GeminiParameterSchema : Type := mkSchema {
  SchemaType : string;
  Description : string;
  Properties : option (gmap string GeminiParameterSchema);
  Items : option GeminiParameterSchema;
  Required : list string;
  Enum : list string
}.

(** [&GeminiParameterSchema{}]. *)
Definition emptySchema : GeminiParameterSchema := mkSchema "" "" None None [] [].

(** [subSchemaMap["type"] == "array"]. *)
Definition isArraySchema (subSchemaMap : gmap string JSON) : bool :=
  match subSchemaMap !! "type" with
  | Some (JStr t) => bool_decide (t = "array")
  | _ => false
  end.

(** The scan of the sub-schemas: the first one that is a map of type
    ["array"]. *)
Fixpoint firstArraySchema (subSchemas : list JSON) : option (gmap string JSON) :=
  match subSchemas with
  | [] => None
  | JObj subSchemaMap :: subSchemas' =>
      if isArraySchema subSchemaMap then Some subSchemaMap
      else firstArraySchema subSchemas'
  | _ :: subSchemas' => firstArraySchema subSchemas'
  end.

(** [anyOf] if it is a list, else [oneOf] if it is a list. *)
Definition subSchemasOf (input : gmap string JSON) : option (list JSON) :=
  match as_array (input !! "anyOf") with
  | Some anyOf => Some anyOf
  | None => as_array (input !! "oneOf")
  end.

(** The entries of a list that are strings. *)
Definition stringEntries (v : option JSON) : list string :=
  match as_array v with
  | Some l => omap (λ x, as_string (Some x)) l
  | None => []
  end.

(** The part of [ConvertSchema] after the scan: the supported fields of
    [input] itself. *)
Definition convertFields (rec : gmap string JSON -> GeminiParameterSchema)
  (input : gmap string JSON) : GeminiParameterSchema :=
  mkSchema
    (match as_string (input !! "type") with Some t => Strings.ToUpper t | None => "" end)
    (default "" (as_string (input !! "description")))
    (match as_object (input !! "properties") with
     | Some p => Some (omap (λ v, match v with JObj vMap => Some (rec vMap) | _ => None end) p)
     | None => None
     end)
    (match as_object (input !! "items") with
     | Some i => Some (rec i)
     | None => None
     end)
    (stringEntries (input !! "required"))
    (stringEntries (input !! "enum")).

(** The chosen array branch as the recursive call receives it: the
    assignment [subSchemaMap["description"] = parentDesc] is made when the
    parent's description is a string.  (The assignment writes into the map
    held by [input]; the value returned does not depend on that.) *)
Definition withParentDescription (input subSchemaMap : gmap string JSON)
  : gmap string JSON :=
  match as_string (input !! "description") with
  | Some parentDesc => <["description" := JStr parentDesc]> subSchemaMap
  | None => subSchemaMap
  end.

(** The body of [ConvertSchema] on a non-nil map, [rec] standing for the
    recursive calls. *)
Definition convertBody (rec : gmap string JSON -> GeminiParameterSchema)
  (input : gmap string JSON) : GeminiParameterSchema :=
  match subSchemasOf input ≫= firstArraySchema with
  | Some subSchemaMap => rec (withParentDescription input subSchemaMap)
  | None => convertFields rec input
  end.

(** Nesting depth of a JSON value; it bounds the recursion. *)
Fixpoint depth (j : JSON) : nat :=
  match j with
  | JArr l => S (foldr (λ x acc, max (depth x) acc) 0%nat l)
  | JObj m => S (map_fold (λ _ x acc, max (depth x) acc) 0%nat m)
  | _ => 0%nat
  end.

Fixpoint convert_fuel (fuel : nat) (input : gmap string JSON) : GeminiParameterSchema :=
  match fuel with
  | O => emptySchema
  | S fuel' => convertBody (convert_fuel fuel') input
  end.

Definition convertMap (input : gmap string JSON) : GeminiParameterSchema :=
  convert_fuel (depth (JObj input)) input.

(** [ConvertSchema]: [None] is the nil map on input and the nil pointer on
    output. *)
Definition ConvertSchema (input : option (gmap string JSON)) : option GeminiParameterSchema :=
  convertMap <$> input.

(** ** The request envelope and its preparation ([request.go],
    [thinking.go], [constants.go]) *)

Record ThinkingConfig : Type := mkThinkingConfig {
  IncludeThoughts : bool;
  ThinkingLevel : string;
  ThinkingBudget : option Z
}.

Record GeminiGenerationConfig : Type := mkGenerationConfig {
  Temperature : QArith_base.Q;
  TopP : QArith_base.Q;
  GenThinkingConfig : option ThinkingConfig;
  MaxOutputTokens : Z
}.

Record FunctionDeclaration : Type := mkFunctionDeclaration {
  fdName : string;
  fdDescription : string;
  fdParameters : option GeminiParameterSchema
}.

Record Tool : Type := mkTool {
  FunctionDeclarations : list FunctionDeclaration
}.

Record GeminiInternalRequest : Type := mkInternalRequest {
  Contents : list Content;
  ReqSystemInstruction : option SystemInstruction;
  Tools : list Tool;
  GenerationConfig : option GeminiGenerationConfig;
  SessionID : string
}.

Record GenerateContentRequest : Type := mkRequest {
  Model : string;
  Project : string;
  UserPromptID : string;
  Request : GeminiInternalRequest;
  EnvelopeSessionID : string;
  UserAgent : string;
  RequestType : string;
  RequestID : string
}.

Definition endpointDaily : string := "https://daily-cloudcode-pa.googleapis.com".
Definition endpointProd : string := "https://cloudcode-pa.googleapis.com".
Definition RequestUserAgent : string := "antigravity".
Definition RequestTypeAgent : string := "agent".
Definition SystemInstructionText : string :=
  "You are Antigravity, a powerful agentic AI coding assistant designed by the Google Deepmind team working on Advanced Agentic Coding.You are pair programming with a USER to solve their coding task. The task may require creating a new codebase, modifying or debugging an existing codebase, or simply answering a question.**Absolute paths only****Proactiveness**".

Definition Endpoints : list string := [endpointDaily; endpointProd].

Definition buildAntigravitySystemInstruction (existing : option SystemInstruction)
  : SystemInstruction :=
  let parts :=
    [ textPart SystemInstructionText;
      textPart ("Please ignore the following [ignore]" ++ SystemInstructionText ++ "[/ignore]") ] in
  let extra :=
    match existing with
    | Some si => textPart <$> filter (λ t, t ≠ "") (Text <$> siParts si)
    | None => []
    end in
  mkSystemInstruction "user" (parts ++ extra).

Definition zeroQ : QArith_base.Q := QArith_base.Qmake 0 1.

Definition thinkingLevelOf (model : string) : string :=
  let modelLower := Strings.ToLower model in
  if negb (Strings.Contains modelLower "gemini") then ""
  else if Strings.Contains modelLower "-low" then "low"
  else if Strings.Contains modelLower "-high" then "high"
  else "".

Definition applyGeminiThinkingPreset (model : string)
  (cfg : option GeminiGenerationConfig) : option GeminiGenerationConfig :=
  let level := thinkingLevelOf model in
  if decide (level = "") then cfg
  else
    let g := default (mkGenerationConfig zeroQ zeroQ None 0%Z) cfg in
    let t := default (mkThinkingConfig false "" None) (GenThinkingConfig g) in
    Some (mkGenerationConfig (Temperature g) (TopP g)
            (Some (mkThinkingConfig (IncludeThoughts t) level None)) (MaxOutputTokens g)).

Definition fillMissingParameters (tools : list Tool) : list Tool :=
  (λ tool,
     mkTool ((λ fn,
                match fdParameters fn with
                | Some _ => fn
                | None => mkFunctionDeclaration (fdName fn) (fdDescription fn)
                            (Some (mkSchema "OBJECT" "" None None [] []))
                end) <$> FunctionDeclarations tool)) <$> tools.

(** What [prepareAntigravityRequest] does to [req.Request.Contents]:
    sanitizing, then the call ids, then the response ids. *)
Definition prepareContents (uuid : nat -> string) (contents : list Content) (n : nat)
  : list Content * nat :=
  let '(contents1, _, _) := sanitizeContents contents in
  let '(contents2, n1, _) := ensureFunctionCallIDs uuid contents1 n in
  let '(contents3, _) := ensureFunctionResponseIDs contents2 in
  (contents3, n1).

(** [prepareAntigravityRequest] on a non-nil request: the request after the
    in-place updates and the position reached in the random source. *)
Definition prepareAntigravityRequest (uuid : nat -> string) (req : GenerateContentRequest)
  (n : nat) : GenerateContentRequest * nat :=
  let '(requestID, n1) :=
    if decide (RequestID req = "") then ("agent-" ++ uuid n, S n) else (RequestID req, n) in
  let r := Request req in
  let '(sessionID, n2) :=
    if decide (SessionID r = "") then deriveSessionID uuid (Contents r) n1
    else (SessionID r, n1) in
  let '(contents, n3) := prepareContents uuid (Contents r) n2 in
  (mkRequest (Model req) (Project req) (UserPromptID req)
     (mkInternalRequest contents
        (Some (buildAntigravitySystemInstruction (ReqSystemInstruction r)))
        (fillMissingParameters (Tools r))
        (applyGeminiThinkingPreset (Model req) (GenerationConfig r))
        sessionID)
     (EnvelopeSessionID req) RequestUserAgent RequestTypeAgent requestID,
   n3).

(** ** The SSE transformer ([internal/server]) *)

(** The two copying loops of [unwrapCloudCodeResponse]. *)
Definition copyTopLevel (cloudCodeResp : gmap string JSON) : gmap string JSON :=
  map_fold (λ k v geminiResp,
              if decide (k = "response") then geminiResp else <[k := v]> geminiResp)
    ∅ cloudCodeResp.

Definition overlay (response geminiResp : gmap string JSON) : gmap string JSON :=
  map_fold (λ k v geminiResp, <[k := v]> geminiResp) geminiResp response.

(** [None] is the nil map (indexing it yields [nil], so it is returned as
    it is). *)
Definition unwrapCloudCodeResponse (cloudCodeResp : option (gmap string JSON))
  : option (gmap string JSON) :=
  match cloudCodeResp with
  | None => None
  | Some m =>
      match as_object (m !! "response") with
      | None => cloudCodeResp
      | Some response => Some (overlay response (copyTopLevel m))
      end
  end.

Section SSE.

(** [json.Unmarshal] into a [map[string]interface{}] and [json.Marshal]
    of such a map. *)
Variable json_Unmarshal : string -> result (option (gmap string JSON)).
Variable json_Marshal : option (gmap string JSON) -> result string.

Definition TransformSSELine (line : string) : string :=
  if negb (Strings.HasPrefix line "data: ") then line
  else
    let jsonData := Strings.TrimPrefix line "data: " in
    match json_Unmarshal jsonData with
    | Err _ => line
    | Ok cloudCodeResp =>
        match json_Marshal (unwrapCloudCodeResponse cloudCodeResp) with
        | Err _ => line
        | Ok transformedJSON => "data: " ++ transformedJSON
        end
    end.

End SSE.

(** ** The upstream client ([client.go]) *)

Record OAuthCredentials : Type := mkCredentials {
  AccessToken : string;
  RefreshToken : string;
  ExpiryDate : Z;
  TokenType : string;
  Scope : string;
  IDToken : string
}.

(** What the client reads of an [*http.Response]: the status, the outcome
    of [ioutil.ReadAll] on the body, and the [Content-Type] header. *)
Record Response : Type := mkResponse {
  StatusCode : Z;
  Body : result string;
  ContentType : string
}.

Record HTTPRequest : Type := mkHTTPRequest {
  Method : string;
  URL : string;
  RequestBody : string;
  Accept : string;
  Token : string
}.

Record GenerateContentResponse : Type := mkGenerateContentResponse {
  ResponseField : option (gmap string JSON)
}.

(** The calls the client makes to its collaborators, with what they
    answered. *)
Inductive Event : Type :=
| GetCredentialsEvent (answer : result OAuthCredentials)
| RefreshTokenEvent (answer : option error)
| DoEvent (req : HTTPRequest) (answer : result Response).

Definition StatusUnauthorized : Z := 401.
Definition StatusOK : Z := 200.

Section Client.

(** The state of everything outside the client (the credential store,
    the network), and the three operations the client has on it:
    [provider.GetCredentials], [provider.RefreshToken] and
    [httpClient.Do]. *)
Context {World : Type}.
Variable provider_GetCredentials : World -> result OAuthCredentials * World.
Variable provider_RefreshToken : World -> option error * World.
Variable httpClient_Do : HTTPRequest -> World -> result Response * World.

(** [json.Marshal] of the request and [json.Unmarshal] of a response
    body. *)
Variable json_Marshal : GenerateContentRequest -> result string.
Variable json_Unmarshal : string -> result GenerateContentResponse.

(** The random source behind [uuid.NewString]. *)
Variable uuid : nat -> string.

(** A run threads the world and the log of the calls made so far. *)
Definition Run (A : Type) : Type := World * list Event -> A * (World * list Event).

Definition GetCredentials : Run (result OAuthCredentials) :=
  λ '(w, log),
    let '(answer, w1) := provider_GetCredentials w in
    (answer, (w1, log ++ [GetCredentialsEvent answer])%list).

Definition RefreshTokenCall : Run (option error) :=
  λ '(w, log),
    let '(answer, w1) := provider_RefreshToken w in
    (answer, (w1, log ++ [RefreshTokenEvent answer])%list).

Definition Do (req : HTTPRequest) : Run (result Response) :=
  λ '(w, log),
    let '(answer, w1) := httpClient_Do req w in
    (answer, (w1, log ++ [DoEvent req answer])%list).

Definition doRequestWithToken (method url body accept token : string)
  : Run (result Response) :=
  λ s,
    let '(answer, s1) := Do (mkHTTPRequest method url body accept token) s in
    match answer with
    | Err e => (Err (Errorf "request execution error" (Some e)), s1)
    | Ok resp => (Ok resp, s1)
    end.

Definition doRequest (method url body accept : string) : Run (result Response) :=
  λ s,
    let '(creds, s1) := GetCredentials s in
    match creds with
    | Err e => (Err (Errorf "unable to get credentials" (Some e)), s1)
    | Ok creds =>
        if decide (AccessToken creds = "")
        then (Err (Errorf "access token is empty" None), s1)
        else
          let '(answer, s2) :=
            doRequestWithToken method url body accept (AccessToken creds) s1 in
          match answer with
          | Err e => (Err e, s2)
          | Ok resp =>
              if decide (StatusCode resp = StatusUnauthorized) then
                let '(failed, s3) := RefreshTokenCall s2 in
                match failed with
                | Some e => (Err (Errorf "failed to refresh token" (Some e)), s3)
                | None =>
                    let '(refreshed, s4) := GetCredentials s3 in
                    match refreshed with
                    | Err e =>
                        (Err (Errorf "failed to reload credentials after refresh" (Some e)),
                         s4)
                    | Ok refreshedCreds =>
                        doRequestWithToken method url body accept
                          (AccessToken refreshedCreds) s4
                    end
                end
              else (Ok resp, s2)
          end
    end.

Definition generateContentURL (endpoint : string) : string :=
  endpoint ++ "/v1internal:generateContent".

(** The loop of [GenerateContent] over the endpoints still to try. *)
Fixpoint generateContentLoop (endpoints : list string) (bodyBytes : string)
  (lastErr : option error) : Run (result GenerateContentResponse) :=
  λ s,
    match endpoints with
    | [] =>
        match lastErr with
        | Some e => (Err e, s)
        | None => (Err (Errorf "generateContent failed with no endpoints available" None), s)
        end
    | endpoint :: endpoints' =>
        let '(answer, s1) :=
          doRequest "POST" (generateContentURL endpoint) bodyBytes "application/json" s in
        match answer with
        | Err e => generateContentLoop endpoints' bodyBytes (Some e) s1
        | Ok resp =>
            match Body resp with
            | Err e =>
                generateContentLoop endpoints' bodyBytes
                  (Some (Errorf "could not read response body" (Some e))) s1
            | Ok respBody =>
                if decide (StatusCode resp = StatusOK) then
                  match json_Unmarshal respBody with
                  | Err e => (Err (Errorf "could not unmarshal response body" (Some e)), s1)
                  | Ok result => (Ok result, s1)
                  end
                else
                  generateContentLoop endpoints' bodyBytes
                    (Some (UpstreamError (StatusCode resp) respBody (ContentType resp)
                             endpoint)) s1
            end
        end
    end.

(** [GenerateContent] on a non-nil request; [n] is the position in the
    random source. *)
Definition GenerateContent (req : GenerateContentRequest) (n : nat)
  : Run (result GenerateContentResponse) :=
  λ s,
    let '(req1, _) := prepareAntigravityRequest uuid req n in
    match json_Marshal req1 with
    | Err e => (Err (Errorf "could not marshal request body" (Some e)), s)
    | Ok bodyBytes => generateContentLoop Endpoints bodyBytes None s
    end.

Definition parsed (respBody : string) : result GenerateContentResponse :=
  match json_Unmarshal respBody with
  | Ok v => Ok v
  | Err e => Err (Errorf "could not unmarshal response body" (Some e))
  end.

End Client.

(** ** The tool declarations without parameters ([thinking.go]) *)

(** The number [fillMissingParameters] returns: the assignments it made. *)
Definition fillMissingParameters_missing (tools : list Tool) : nat :=
  foldl (λ missing tool,
           foldl (λ missing fn,
                    match fdParameters fn with
                    | None => S missing
                    | Some _ => missing
                    end) missing (FunctionDeclarations tool)) 0%nat tools.

(** The inner loop of [missingParameterNames]: [inl names] when the
    function returns from inside the loop, [inr names] when the loop runs
    to its end. *)
Fixpoint missingNames_fns (fns : list FunctionDeclaration) (limit : Z) (names : list string)
  : list string + list string :=
  match fns with
  | [] => inr names
  | fn :: fns' =>
      match fdParameters fn with
      | None =>
          let names1 := (names ++ [fdName fn])%list in
          if (limit <=? Z.of_nat (length names1))%Z then inl names1
          else missingNames_fns fns' limit names1
      | Some _ => missingNames_fns fns' limit names
      end
  end.

Fixpoint missingNames_tools (tools : list Tool) (limit : Z) (names : list string)
  : list string + list string :=
  match tools with
  | [] => inr names
  | tool :: tools' =>
      match missingNames_fns (FunctionDeclarations tool) limit names with
      | inl names1 => inl names1
      | inr names1 => missingNames_tools tools' limit names1
      end
  end.

Definition missingParameterNames (tools : list Tool) (limit : Z) : string :=
  if (limit <=? 0)%Z then ""
  else
    match missingNames_tools tools limit [] with
    | inl names => Strings.Join names ","
    | inr names => Strings.Join names ","
    end.

(** [hasFunctionDeclarations]. *)
Definition hasFunctionDeclarations (tools : list Tool) : bool :=
  existsb (λ tool, (0 <? length (FunctionDeclarations tool))%nat) tools.

(** ** Raw tools ([thinking.go]) *)

Module Utf8.

Definition between (lo hi b : nat) : bool := (lo <=? b)%nat && (b <=? hi)%nat.

(** The byte values of a string. *)
Definition values (s : string) : list nat := nat_of_ascii <$> list_ascii_of_string s.

(** The width [utf8.DecodeRuneInString] returns: the length of the
    encoding when [s] starts with a well-formed one, else 1 (the byte is
    decoded as [RuneError]), and 0 for the empty string.  The second byte
    of an encoding is restricted after the lead bytes 0xE0, 0xED, 0xF0
    and 0xF4 (no overlong forms, no surrogates, nothing above
    U+10FFFF). *)
Definition width (s : string) : nat :=
  match values s with
  | [] => 0
  | b0 :: rest =>
      if (b0 <? 194)%nat then 1
      else if (b0 <? 224)%nat then
        match rest with
        | b1 :: _ => if between 128 191 b1 then 2 else 1
        | _ => 1
        end
      else if (b0 <? 240)%nat then
        let lo := if (b0 =? 224)%nat then 160 else 128 in
        let hi := if (b0 =? 237)%nat then 159 else 191 in
        match rest with
        | b1 :: b2 :: _ => if between lo hi b1 && between 128 191 b2 then 3 else 1
        | _ => 1
        end
      else if (b0 <? 245)%nat then
        let lo := if (b0 =? 240)%nat then 144 else 128 in
        let hi := if (b0 =? 244)%nat then 143 else 191 in
        match rest with
        | b1 :: b2 :: b3 :: _ =>
            if between lo hi b1 && between 128 191 b2 && between 128 191 b3 then 4 else 1
        | _ => 1
        end
      else 1
  end.

End Utf8.

(** The function [sanitizeToolName] maps over the runes: letters, digits,
    [_] and [-] stay, every other rune becomes [_].  Only a rune of one
    byte can stay, so the function is given the first byte of the rune. *)
Definition keepsByte (b : ascii) : bool :=
  let n := nat_of_ascii b in
  Utf8.between 97 122 n || Utf8.between 65 90 n || Utf8.between 48 57 n ||
  (n =? 95)%nat || (n =? 45)%nat.

Definition sanitizeRune (b : ascii) : ascii := if keepsByte b then b else ascii_of_nat 95.

(** [strings.Map] with that function: one byte for each rune of [s]. *)
Fixpoint mapRunes (fuel : nat) (s : string) : string :=
  match fuel, s with
  | S fuel', String b _ =>
      String (sanitizeRune b) (mapRunes fuel' (Strings.drop_bytes (Utf8.width s) s))
  | _, _ => ""
  end.

Definition sanitizeToolName (name : string) : string :=
  if decide (name = "") then ""
  else
    let name1 := Strings.TrimSpace name in
    let name2 := mapRunes (String.length name1) name1 in
    if (64 <? String.length name2)%nat then slice_to 64 name2 else name2.

(** [getString] and [getSchema]; the nil map reads as the empty one. *)
Definition getString (source : gmap string JSON) (key : string) : string :=
  default "" (as_string (source !! key)).

Definition getSchema (source : gmap string JSON) : option (gmap string JSON) :=
  match as_object (source !! "input_schema") with
  | Some schema => Some schema
  | None =>
      match as_object (source !! "inputSchema") with
      | Some schema => Some schema
      | None => as_object (source !! "parameters")
      end
  end.

(** One of the two fall-back steps of [extractToolFields]: the fields
    still missing are read from [source]. *)
Definition fillFrom (source : option (gmap string JSON))
  (fields : string * string * option (gmap string JSON))
  : string * string * option (gmap string JSON) :=
  match source with
  | None => fields
  | Some src =>
      let '(name, description, schema) := fields in
      (if decide (name = "") then getString src "name" else name,
       if decide (description = "") then getString src "description" else description,
       match schema with None => getSchema src | Some _ => schema end)
  end.

Definition extractToolFields (item : gmap string JSON)
  : string * string * option (gmap string JSON) :=
  let fields := (getString item "name", getString item "description", getSchema item) in
  let fields := fillFrom (as_object (item !! "custom")) fields in
  let '(name, description, schema) := fillFrom (as_object (item !! "function")) fields in
  (sanitizeToolName name, description, schema).

(** The body of the loop of [buildFunctionDeclarations]: the declaration
    an item gives, if any. *)
Definition declarationOf (item : gmap string JSON) : option FunctionDeclaration :=
  let '(name, description, schema) := extractToolFields item in
  if decide (name = "") then None
  else
    let schema1 := default {[ "type" := JStr "object" ]} schema in
    let parameters :=
      default (mkSchema "OBJECT" "" None None [] []) (ConvertSchema (Some schema1)) in
    Some (mkFunctionDeclaration name description (Some parameters)).

Fixpoint buildFunctionDeclarations_loop (items : list (gmap string JSON))
  (fns : list FunctionDeclaration) : list FunctionDeclaration :=
  match items with
  | [] => fns
  | item :: items' =>
      match declarationOf item with
      | None => buildFunctionDeclarations_loop items' fns
      | Some fn => buildFunctionDeclarations_loop items' (fns ++ [fn])
      end
  end.

Definition buildFunctionDeclarations (items : list (gmap string JSON))
  : list FunctionDeclaration :=
  match items with
  | [] => []
  | _ :: _ => buildFunctionDeclarations_loop items []
  end.

Record toolStats : Type := mkToolStats {
  rawCount : nat;
  missingSchema : nat;
  missingName : nat;
  customCount : nat;
  names : list string
}.

Definition previewNames (s : toolStats) : string :=
  match names s with
  | [] => ""
  | _ :: _ =>
      let limit := if (length (names s) <? 6)%nat then length (names s) else 6%nat in
      Strings.Join (take limit (names s)) ","
  end.

Definition summarizeItem (stats : toolStats) (item : gmap string JSON) : toolStats :=
  let '(name, _, schema) := extractToolFields item in
  let stats1 :=
    if decide (name = "")
    then mkToolStats (rawCount stats) (missingSchema stats) (S (missingName stats))
           (customCount stats) (names stats)
    else mkToolStats (rawCount stats) (missingSchema stats) (missingName stats)
           (customCount stats) (names stats ++ [name]) in
  let stats2 :=
    match schema with
    | None => mkToolStats (rawCount stats1) (S (missingSchema stats1)) (missingName stats1)
                (customCount stats1) (names stats1)
    | Some _ => stats1
    end in
  match as_object (item !! "custom") with
  | Some _ => mkToolStats (rawCount stats2) (missingSchema stats2) (missingName stats2)
                (S (customCount stats2)) (names stats2)
  | None => stats2
  end.

Definition summarizeRawTools (items : list (gmap string JSON)) : toolStats :=
  foldl summarizeItem (mkToolStats (length items) 0 0 0 []) items.

Section RawTools.

(** [parseToolMaps]: the decoding of the raw message as an array of
    objects or as one object; [None] when neither decoding succeeds. *)
Variable parseToolMaps : string → option (list (gmap string JSON)).

Definition convertRawTools (raw : string) : list Tool * bool :=
  match parseToolMaps raw with
  | None => ([], false)
  | Some toolMaps =>
      match buildFunctionDeclarations toolMaps with
      | [] => ([], true)
      | fns => ([mkTool fns], true)
      end
  end.

End RawTools.

(** ** The other upstream calls ([client.go], [fetch_models.go]) *)

(** [Error()]: the text of an error.  [fmt.Errorf("msg: %w", err)] prints
    the message and the text of the wrapped error; the method [Error] of
    an [UpstreamError] (on a receiver that is not nil) prints the endpoint
    when it has one, the status, and at most 1024 bytes of the body. *)
Fixpoint errorString (e : error) : string :=
  match e with
  | Errorf msg cause =>
      match cause with
      | None => msg
      | Some e' => msg ++ ": " ++ errorString e'
      end
  | UpstreamError statusCode body _ endpoint =>
      let preview :=
        if (1024 <? String.length body)%nat then slice_to 1024 body ++ "..." else body in
      if decide (endpoint = "")
      then "upstream returned status " ++ pretty statusCode ++ ": " ++ preview
      else "upstream " ++ endpoint ++ " returned status " ++ pretty statusCode ++ ": " ++ preview
  end.

Record Tier : Type := mkTier {
  TierID : string;
  TierName : string;
  TierDescription : string;
  UserDefinedCloudAICompanionProject : bool;
  PrivacyNotice : option (gmap string JSON);
  IsDefault : bool
}.

Record LoadCodeAssistResponse : Type := mkLoadCodeAssistResponse {
  CurrentTier : Tier;
  AllowedTiers : list Tier;
  CloudAICompanionProject : string;
  GCPManaged : bool;
  ManageSubscriptionURI : string
}.

Record AvailableModel : Type := mkAvailableModel {
  DisplayName : string;
  QuotaInfo : string
}.

Record FetchAvailableModelsResponse : Type := mkFetchAvailableModelsResponse {
  Models : gmap string AvailableModel
}.

Section UpstreamCalls.

Context {World : Type}.
Variable provider_GetCredentials : World -> result OAuthCredentials * World.
Variable provider_RefreshToken : World -> option error * World.
Variable httpClient_Do : HTTPRequest -> World -> result Response * World.

(** [json.Marshal] of the three request bodies and [json.Unmarshal] of the
    two response bodies that are parsed. *)
Variable json_Marshal_LoadCodeAssistRequest : result string.
Variable json_Marshal_emptyMap : result string.
Variable json_Marshal : GenerateContentRequest -> result string.
Variable json_Unmarshal_LoadCodeAssistResponse : string -> result LoadCodeAssistResponse.
Variable json_Unmarshal_FetchAvailableModelsResponse :
  string -> result FetchAvailableModelsResponse.

Variable uuid : nat -> string.

Local Abbreviation doRequest' :=
  (doRequest provider_GetCredentials provider_RefreshToken httpClient_Do).

Definition loadCodeAssistURL (endpoint : string) : string :=
  endpoint ++ "/v1internal:loadCodeAssist".

Fixpoint loadCodeAssistLoop (endpoints : list string) (bodyBytes : string)
  (lastErr : option error) : Run (World := World) (result LoadCodeAssistResponse) :=
  λ s,
    match endpoints with
    | [] =>
        match lastErr with
        | Some e => (Err e, s)
        | None => (Err (Errorf "loadCodeAssist failed with no endpoints available" None), s)
        end
    | endpoint :: endpoints' =>
        let '(answer, s1) :=
          doRequest' "POST" (loadCodeAssistURL endpoint) bodyBytes "application/json" s in
        match answer with
        | Err e => loadCodeAssistLoop endpoints' bodyBytes (Some e) s1
        | Ok resp =>
            match Body resp with
            | Err e =>
                loadCodeAssistLoop endpoints' bodyBytes
                  (Some (Errorf "could not read response body" (Some e))) s1
            | Ok respBody =>
                if decide (StatusCode resp = StatusOK) then
                  match json_Unmarshal_LoadCodeAssistResponse respBody with
                  | Err e => (Err (Errorf "could not unmarshal response body" (Some e)), s1)
                  | Ok result => (Ok result, s1)
                  end
                else
                  loadCodeAssistLoop endpoints' bodyBytes
                    (Some (Errorf ("auth check failed with status " ++
                                   pretty (StatusCode resp) ++ ": " ++ respBody) None)) s1
            end
        end
    end.

Definition LoadCodeAssist : Run (World := World) (result LoadCodeAssistResponse) :=
  λ s,
    match json_Marshal_LoadCodeAssistRequest with
    | Err e => (Err (Errorf "could not marshal request body" (Some e)), s)
    | Ok bodyBytes => loadCodeAssistLoop Endpoints bodyBytes None s
    end.

Definition fetchAvailableModelsURL (endpoint : string) : string :=
  endpoint ++ "/v1internal:fetchAvailableModels".

Fixpoint fetchAvailableModelsLoop (endpoints : list string) (bodyBytes : string)
  (lastErr : option error) : Run (World := World) (result FetchAvailableModelsResponse) :=
  λ s,
    match endpoints with
    | [] =>
        match lastErr with
        | Some e => (Err e, s)
        | None =>
            (Err (Errorf "fetchAvailableModels failed with no endpoints available" None), s)
        end
    | endpoint :: endpoints' =>
        let '(answer, s1) :=
          doRequest' "POST" (fetchAvailableModelsURL endpoint) bodyBytes "application/json" s in
        match answer with
        | Err e => fetchAvailableModelsLoop endpoints' bodyBytes (Some e) s1
        | Ok resp =>
            match Body resp with
            | Err e =>
                fetchAvailableModelsLoop endpoints' bodyBytes
                  (Some (Errorf "could not read response body" (Some e))) s1
            | Ok respBody =>
                if decide (StatusCode resp = StatusOK) then
                  match json_Unmarshal_FetchAvailableModelsResponse respBody with
                  | Err e => (Err (Errorf "could not unmarshal response body" (Some e)), s1)
                  | Ok result => (Ok result, s1)
                  end
                else
                  fetchAvailableModelsLoop endpoints' bodyBytes
                    (Some (Errorf ("fetchAvailableModels failed with status " ++
                                   pretty (StatusCode resp) ++ ": " ++ respBody) None)) s1
            end
        end
    end.

Definition FetchAvailableModels : Run (World := World) (result FetchAvailableModelsResponse) :=
  λ s,
    match json_Marshal_emptyMap with
    | Err e => (Err (Errorf "failed to marshal request body" (Some e)), s)
    | Ok bodyBytes => fetchAvailableModelsLoop Endpoints bodyBytes None s
    end.

Definition streamGenerateContentURL (endpoint : string) : string :=
  endpoint ++ "/v1internal:streamGenerateContent?alt=sse".

(** The loop of [StreamGenerateContent].  [Ok resp] stands for the return
    of [nil] after the goroutine that forwards the lines of [resp.Body] to
    the channel has been started; the goroutine itself is not modelled.
    The body of a 200 response is not read by the loop. *)
Fixpoint streamGenerateContentLoop (endpoints : list string) (bodyBytes : string)
  (lastErr : option error) : Run (World := World) (result Response) :=
  λ s,
    match endpoints with
    | [] =>
        match lastErr with
        | Some e => (Err e, s)
        | None =>
            (Err (Errorf "streamGenerateContent failed with no endpoints available" None), s)
        end
    | endpoint :: endpoints' =>
        let '(answer, s1) :=
          doRequest' "POST" (streamGenerateContentURL endpoint) bodyBytes
            "text/event-stream" s in
        match answer with
        | Err e => streamGenerateContentLoop endpoints' bodyBytes (Some e) s1
        | Ok resp =>
            if decide (StatusCode resp = StatusOK) then (Ok resp, s1)
            else
              match Body resp with
              | Err readErr =>
                  streamGenerateContentLoop endpoints' bodyBytes
                    (Some (Errorf ("streamGenerateContent failed with status " ++
                                   pretty (StatusCode resp) ++ " and read error: " ++
                                   errorString readErr) None)) s1
              | Ok respBody =>
                  streamGenerateContentLoop endpoints' bodyBytes
                    (Some (UpstreamError (StatusCode resp) respBody (ContentType resp)
                             endpoint)) s1
              end
        end
    end.

Definition StreamGenerateContent (req : GenerateContentRequest) (n : nat)
  : Run (World := World) (result Response) :=
  λ s,
    let '(req1, _) := prepareAntigravityRequest uuid req n in
    match json_Marshal req1 with
    | Err e => (Err (Errorf "could not marshal request body" (Some e)), s)
    | Ok bodyBytes => streamGenerateContentLoop Endpoints bodyBytes None s
    end.

End UpstreamCalls.

(** ** Project discovery ([internal/project]) *)

Definition CodeAssistAPIVersion : string := "v1internal".

Section Project.

Context {World : Type}.
Variable provider_GetCredentials : World -> result OAuthCredentials * World.
Variable provider_RefreshToken : World -> option error * World.

(** [Do] of the [http.Client] that [callEndpoint] makes for itself. *)
Variable httpClient_Do : HTTPRequest -> World -> result Response * World.

(** [json.Marshal] of a request body and [json.Unmarshal] of a response
    body into a map (the nil map that [null] leaves reads as the empty
    one). *)
Variable json_Marshal : JSON -> result string.
Variable json_Unmarshal : string -> result (gmap string JSON).

Local Abbreviation GetCredentials' := (GetCredentials provider_GetCredentials).
Local Abbreviation RefreshTokenCall' := (RefreshTokenCall provider_RefreshToken).
Local Abbreviation Do' := (Do httpClient_Do).

(** The block of [callEndpoint] entered on a 401: refresh, reload, send
    again.  [inl e] is the error the function returns from inside the
    block; [inr (resp, accessToken)] is what the code after the block
    goes on with. *)
Definition reauthorize (url reqBody : string)
  : Run (World := World) (error + Response * string) :=
  λ s,
    let '(failed, s1) := RefreshTokenCall' s in
    match failed with
    | Some e => (inl (Errorf "failed to refresh token" (Some e)), s1)
    | None =>
        let '(refreshedCreds, s2) := GetCredentials' s1 in
        match refreshedCreds with
        | Err e => (inl (Errorf "failed to get credentials after refresh" (Some e)), s2)
        | Ok refreshedCreds =>
            let accessToken := AccessToken refreshedCreds in
            let '(answer, s3) :=
              Do' (mkHTTPRequest "POST" url reqBody "application/json" accessToken) s2 in
            match answer with
            | Err e =>
                (inl (Errorf "failed to make request after token refresh" (Some e)), s3)
            | Ok resp => (inr (resp, accessToken), s3)
            end
        end
    end.

(** The loop of [callEndpoint]; [accessToken] and [lastErr] are the two
    variables it carries from one endpoint to the next. *)
Fixpoint callEndpointLoop (method reqBody : string) (endpoints : list string)
  (accessToken : string) (lastErr : option error)
  : Run (World := World) (result (gmap string JSON)) :=
  λ s,
    match endpoints with
    | [] =>
        match lastErr with
        | Some e => (Err e, s)
        | None => (Err (Errorf "project discovery failed with no endpoints available" None), s)
        end
    | endpoint :: endpoints' =>
        let url := endpoint ++ "/" ++ CodeAssistAPIVersion ++ ":" ++ method in
        let '(answer, s1) :=
          Do' (mkHTTPRequest "POST" url reqBody "application/json" accessToken) s in
        match answer with
        | Err e => callEndpointLoop method reqBody endpoints' accessToken (Some e) s1
        | Ok resp =>
            let '(outcome, s2) :=
              if decide (StatusCode resp = StatusUnauthorized)
              then reauthorize url reqBody s1
              else (inr (resp, accessToken), s1) in
            match outcome with
            | inl e => (Err e, s2)
            | inr (resp1, accessToken1) =>
                match Body resp1 with
                | Err e =>
                    callEndpointLoop method reqBody endpoints' accessToken1 (Some e) s2
                | Ok respBody =>
                    if decide (StatusCode resp1 = StatusOK) then
                      match json_Unmarshal respBody with
                      | Err e => (Err e, s2)
                      | Ok result => (Ok result, s2)
                      end
                    else
                      callEndpointLoop method reqBody endpoints' accessToken1
                        (Some (Errorf ("API call failed with status " ++
                                       pretty (StatusCode resp1) ++ ": " ++ respBody) None))
                        s2
                end
            end
        end
    end.

Definition callEndpoint (method : string) (body : JSON)
  : Run (World := World) (result (gmap string JSON)) :=
  λ s,
    let '(creds, s1) := GetCredentials' s in
    match creds with
    | Err e => (Err (Errorf "failed to get credentials" (Some e)), s1)
    | Ok creds =>
        match json_Marshal body with
        | Err e => (Err e, s1)
        | Ok reqBody => callEndpointLoop method reqBody Endpoints (AccessToken creds) None s1
        end
    end.

(** The tier chosen for onboarding: the id of the first default tier,
    [free-tier] when there is none or its id is empty. *)
Fixpoint defaultTierID (tiers : list Tier) : string :=
  match tiers with
  | [] => ""
  | tier :: tiers' => if IsDefault tier then TierID tier else defaultTierID tiers'
  end.

Definition onboardingTier (loadResponse : LoadCodeAssistResponse) : string :=
  let tierID := defaultTierID (AllowedTiers loadResponse) in
  if decide (tierID = "") then "free-tier" else tierID.

Definition onboardRequest (tierID : string) : JSON :=
  JObj {[ "tierId" := JStr tierID;
          "cloudaicompanionProject" := JStr "default";
          "metadata" := JObj {[ "ideType" := JStr "IDE_UNSPECIFIED";
                                "platform" := JStr "PLATFORM_UNSPECIFIED";
                                "pluginType" := JStr "GEMINI";
                                "duetProject" := JStr "default" ]} ]}.

(** [lroResponse["done"].(bool)] holding [true]. *)
Definition isDone (lroResponse : gmap string JSON) : bool :=
  match lroResponse !! "done" with
  | Some (JBool true) => true
  | _ => false
  end.

(** What a finished operation yields. *)
Definition onboardedProject (lroResponse : gmap string JSON) : result string :=
  match as_object (lroResponse !! "response") with
  | Some response =>
      match as_object (response !! "cloudaicompanionProject") with
      | Some companionProject =>
          match as_string (companionProject !! "id") with
          | Some id =>
              if decide (id = "")
              then Err (Errorf "onboarding completed but no project ID found" None)
              else Ok id
          | None => Err (Errorf "onboarding completed but no project ID found" None)
          end
      | None => Err (Errorf "onboarding completed but no project ID found" None)
      end
  | None => Err (Errorf "onboarding completed but no project ID found" None)
  end.

(** The polling loop, which has no bound of its own: [None] when [fuel]
    polls were not enough (the two-second sleep between polls leaves no
    trace in the world). *)
Fixpoint pollOnboarding (fuel : nat) (request : JSON) (lroResponse : gmap string JSON)
  : Run (World := World) (option (result string)) :=
  λ s,
    if isDone lroResponse then (Some (onboardedProject lroResponse), s)
    else
      match fuel with
      | O => (None, s)
      | S fuel' =>
          let '(answer, s1) := callEndpoint "onboardUser" request s in
          match answer with
          | Err e => (Some (Err (Errorf "failed to poll onboardUser" (Some e))), s1)
          | Ok lroResponse1 => pollOnboarding fuel' request lroResponse1 s1
          end
      end.

Definition runOnboardingFlow (fuel : nat) (loadResponse : LoadCodeAssistResponse)
  : Run (World := World) (option (result string)) :=
  λ s,
    if decide (CloudAICompanionProject loadResponse = "") then
      let request := onboardRequest (onboardingTier loadResponse) in
      let '(answer, s1) := callEndpoint "onboardUser" request s in
      match answer with
      | Err e => (Some (Err (Errorf "failed to call onboardUser" (Some e))), s1)
      | Ok lroResponse => pollOnboarding fuel request lroResponse s1
      end
    else (Some (Ok (CloudAICompanionProject loadResponse)), s).

Definition Discover (fuel : nat) (envProjectID : string)
  (loadAssist : option LoadCodeAssistResponse)
  : Run (World := World) (option (result string)) :=
  λ s,
    if decide (envProjectID = "") then
      match loadAssist with
      | None => (Some (Err (Errorf "loadAssist response is nil" None)), s)
      | Some loadAssist =>
          if GCPManaged loadAssist then runOnboardingFlow fuel loadAssist s
          else (Some (Ok (CloudAICompanionProject loadAssist)), s)
      end
    else (Some (Ok envProjectID), s).

End Project.

(** ** The callback page ([internal/auth]) *)

(** The replacement [htmlEscape] makes for one byte.  All five patterns of
    its [strings.Replacer] are single bytes, so the replacer works byte by
    byte. *)
Definition escapeByte (b : ascii) : string :=
  let n := nat_of_ascii b in
  if (n =? 38)%nat then "&amp;"
  else if (n =? 60)%nat then "&lt;"
  else if (n =? 62)%nat then "&gt;"
  else if (n =? 34)%nat then "&quot;"
  else if (n =? 39)%nat then "&#39;"
  else String b EmptyString.

Fixpoint htmlEscape (s : string) : string :=
  match s with
  | EmptyString => EmptyString
  | String b s' => escapeByte b ++ htmlEscape s'
  end.

(** ** State and PKCE verifier ([internal/auth]) *)

Module Base64.
Local Open Scope Z_scope.

(** The alphabet of [base64.RawURLEncoding]. *)
Definition encodeURL : list ascii :=
  list_ascii_of_string "ABCDEFGHIJKLMNOPQRSTUVWXYZabcdefghijklmnopqrstuvwxyz0123456789-_".

Definition digit (n : Z) : ascii := nth (Z.to_nat n) encodeURL "A"%char.

(** [RawURLEncoding.EncodeToString]: three bytes give four digits; the one
    or two bytes left over give two or three, without padding. *)
Fixpoint EncodeToString (src : list Z) : string :=
  match src with
  | [] => EmptyString
  | [a] => String (digit (a / 4)) (String (digit (a mod 4 * 16)) EmptyString)
  | [a; b] =>
      String (digit (a / 4))
        (String (digit (a mod 4 * 16 + b / 16)) (String (digit (b mod 16 * 4)) EmptyString))
  | a :: b :: c :: src' =>
      String (digit (a / 4))
        (String (digit (a mod 4 * 16 + b / 16))
           (String (digit (b mod 16 * 4 + c / 64))
              (String (digit (c mod 64)) (EncodeToString src'))))
  end.

End Base64.

(** [GenerateState] and [GeneratePKCEVerifier]; [random] is what
    [rand.Read] puts into the buffer of 16, respectively 32, bytes, or its
    error. *)
Definition GenerateState (random : result (list Z)) : result string :=
  match random with
  | Err e => Err e
  | Ok b => Ok (Base64.EncodeToString b)
  end.

Definition GeneratePKCEVerifier (random : result (list Z)) : result (string * string) :=
  match random with
  | Err e => Err e
  | Ok b =>
      let verifier := Base64.EncodeToString b in
      let h := SHA256.Sum256 verifier in
      let challenge := Base64.EncodeToString h in
      Ok (verifier, challenge)
  end.

(** ** The models endpoint ([internal/server]) *)

(** [modelFamily] lowers the id with [strings.ToLower], modelled on the
    ASCII range: the embedding is exact for ids made of ASCII bytes. *)
Definition modelFamily (modelID : string) : string :=
  let lower := Strings.ToLower modelID in
  if Strings.Contains lower "claude" then "claude"
  else if Strings.Contains lower "gemini" then "gemini"
  else "unknown".

Definition isSupportedModel (modelID : string) : bool :=
  let family := modelFamily modelID in
  bool_decide (family = "claude") || bool_decide (family = "gemini").

Record openAIModel : Type := mkOpenAIModel {
  omID : string;
  omObject : string;
  omCreated : Z;
  omOwnedBy : string;
  omDescription : string
}.

(** The body of the loop over [data.Models]: the entry appended for a
    supported model. *)
Definition modelEntry (created : Z) (modelID : string) (modelData : AvailableModel)
  : openAIModel :=
  let description :=
    if decide (DisplayName modelData = "") then modelID else DisplayName modelData in
  mkOpenAIModel modelID "model" created "anthropic" description.

(** The loop over [data.Models].  Go visits the entries of a map in an
    unspecified order; the slice is sorted afterwards. *)
Definition collectModels (created : Z) (data : FetchAvailableModelsResponse)
  : list openAIModel :=
  (λ entry, modelEntry created entry.1 entry.2) <$>
    filter (λ entry, isSupportedModel entry.1 = true) (map_to_list (Models data)).

(** [sort.Slice(models, less)] with [less] comparing the ids by [<] on
    strings (byte-wise).  The ids are the keys of one map, hence pairwise
    distinct, so every correct sort returns the same slice; it is given
    here by insertion. *)
Definition less (a b : openAIModel) : bool := String.ltb (omID a) (omID b).

Fixpoint insertModel (m : openAIModel) (models : list openAIModel) : list openAIModel :=
  match models with
  | [] => [m]
  | x :: models' => if less x m then x :: insertModel m models' else m :: models
  end.

Definition sortModels (models : list openAIModel) : list openAIModel :=
  foldr insertModel [] models.

(** [strings.Trim(s, cutset)] for a cutset of one ASCII byte [c], which
    the library computes as [trimLeftByte(trimRightByte(s, c), c)]. *)
Fixpoint trimLeftByte (s : string) (c : ascii) : string :=
  match s with
  | EmptyString => EmptyString
  | String b s' => if Ascii.eqb b c then trimLeftByte s' c else s
  end.

Definition trimRightByte (s : string) (c : ascii) : string :=
  Strings.rev_string (trimLeftByte (Strings.rev_string s) c).

Definition Trim (s : string) (c : ascii) : string :=
  trimLeftByte (trimRightByte s c) c.

(** [strings.Split(s, sep)] for a separator of one byte: the pieces
    between the occurrences of the separator, one more than there are
    occurrences. *)
Fixpoint Split (s : string) (sep : ascii) : list string :=
  match s with
  | EmptyString => [EmptyString]
  | String b s' =>
      if Ascii.eqb b sep then EmptyString :: Split s' sep
      else
        match Split s' sep with
        | piece :: pieces => String b piece :: pieces
        | [] => [String b EmptyString]
        end
  end.

Definition slash : ascii := ascii_of_nat 47.

(** What [modelsHandler] writes to the [http.ResponseWriter]: the text and
    status of [http.Error], the status and message of [writeAPIError]
    (type ["error"], error type ["api_error"]), the JSON encoding of one
    model or of the list ([Content-Type: application/json]), or
    [http.NotFound]. *)
Inductive Written : Type :=
| httpError (message : string) (code : Z)
| apiError (status : Z) (message : string)
| encodedModel (m : openAIModel)
| httpNotFound
| encodedList (object : string) (data : list openAIModel).

Definition StatusMethodNotAllowed : Z := 405.
Definition StatusInternalServerError : Z := 500.

Section ModelsEndpoint.

Context {World : Type}.
Variable provider_GetCredentials : World -> result OAuthCredentials * World.
Variable provider_RefreshToken : World -> option error * World.
Variable httpClient_Do : HTTPRequest -> World -> result Response * World.
Variable json_Marshal_emptyMap : result string.
Variable json_Unmarshal_FetchAvailableModelsResponse :
  string -> result FetchAvailableModelsResponse.

(** [modelsHandler] on a request with method [method] and path [path],
    where [created] is [time.Now().Unix()] when the models have been
    fetched. *)
Definition modelsHandler (method path : string) (created : Z)
  : Run (World := World) Written :=
  λ s,
    if decide (method ≠ "GET") then (httpError "Method not allowed" StatusMethodNotAllowed, s)
    else
      let '(answer, s1) :=
        FetchAvailableModels provider_GetCredentials provider_RefreshToken httpClient_Do
          json_Marshal_emptyMap json_Unmarshal_FetchAvailableModelsResponse s in
      match answer with
      | Err err => (apiError StatusInternalServerError (errorString err), s1)
      | Ok data =>
          let models := sortModels (collectModels created data) in
          let pathParts := Split (Trim path slash) slash in
          match pathParts !! 2%nat with
          | Some requestedModelID =>
              match List.find (λ m, bool_decide (omID m = requestedModelID)) models with
              | Some m => (encodedModel m, s1)
              | None => (httpNotFound, s1)
              end
          | None => (encodedList "list" models, s1)
          end
      end.

End ModelsEndpoint.

(** ** The callback server ([internal/auth]) *)

(** [url.Values] and its method [Get]: the first value of the key, or the
    empty string. *)
Definition Values : Type := gmap string (list string).

Definition Values_Get (v : Values) (key : string) : string :=
  match v !! key with
  | Some (first :: _) => first
  | _ => ""
  end.

Record CallbackResult : Type := mkCallbackResult {
  Code : string;
  State : string
}.

(** What [writeHTML] sends: the status and the page (with
    [Content-Type: text/html; charset=utf-8]). *)
Record Page : Type := mkPage {
  pageStatus : Z;
  pageText : string
}.

Definition quote : string := String (ascii_of_nat 34) EmptyString.

Definition writeHTML (status : Z) (title body : string) : Page :=
  mkPage status
    ("<!doctype html><html><head><meta charset=" ++ quote ++ "utf-8" ++ quote ++ "><title>"
     ++ htmlEscape title ++ "</title></head><body style=" ++ quote
     ++ "font-family:system-ui;padding:40px;" ++ quote ++ "><h1>" ++ htmlEscape title
     ++ "</h1><p>" ++ body ++ "</p></body></html>").

(** The two channels of [WaitForCallback], each with a buffer of one
    value. *)
Record Channels : Type := mkChannels {
  resultCh : option CallbackResult;
  errCh : option error
}.

(** [sendResultOnce] and [sendErrOnce]: a send that is dropped when it
    would block. *)
Definition sendResultOnce (ch : option CallbackResult) (res : CallbackResult)
  : option CallbackResult :=
  match ch with
  | None => Some res
  | Some _ => ch
  end.

Definition sendErrOnce (ch : option error) (err : error) : option error :=
  match ch with
  | None => Some err
  | Some _ => ch
  end.

Definition StatusBadRequest : Z := 400.

(** The handler that [WaitForCallback] registers, on a request whose
    parsed query is [q]: the page written and the channels afterwards. *)
Definition callbackHandler (q : Values) (chans : Channels) : Page * Channels :=
  let errStr := Values_Get q "error" in
  if decide (errStr ≠ "") then
    (writeHTML StatusBadRequest "Authentication failed" ("OAuth error: " ++ htmlEscape errStr),
     mkChannels (resultCh chans)
       (sendErrOnce (errCh chans) (Errorf ("oauth error: " ++ errStr) None)))
  else
    let code := Values_Get q "code" in
    let state := Values_Get q "state" in
    if decide (code = "") then
      (writeHTML StatusBadRequest "Authentication failed" "No authorization code received.",
       mkChannels (resultCh chans)
         (sendErrOnce (errCh chans) (Errorf "no authorization code received" None)))
    else
      (writeHTML StatusOK "Authentication successful"
         "You can close this window and return to the terminal.",
       mkChannels (sendResultOnce (resultCh chans) (mkCallbackResult code state))
         (errCh chans)).

(** What reaches the channels while [WaitForCallback] waits: a request
    handled by [callbackHandler], or an error of [srv.Serve] other than
    [http.ErrServerClosed], offered on [errCh] by the serving goroutine.
    Each is one non-blocking send, so every interleaving of the goroutines
    is a sequence of arrivals. *)
Inductive Arrival : Type :=
| Callback (q : Values)
| ServeError (serveErr : error).

Definition arrive (chans : Channels) (a : Arrival) : Channels :=
  match a with
  | Callback q => (callbackHandler q chans).2
  | ServeError serveErr => mkChannels (resultCh chans) (sendErrOnce (errCh chans) serveErr)
  end.

(** The [select] that ends [WaitForCallback]: one of the cases that are
    ready, [ctxErr] being [ctx.Err()] once the context is done. *)
Inductive WaitForCallback_select (ctxErr : option error) (chans : Channels)
  : result CallbackResult -> Prop :=
| select_done (err : error) :
    ctxErr = Some err -> WaitForCallback_select ctxErr chans (Err err)
| select_err (err : error) :
    errCh chans = Some err -> WaitForCallback_select ctxErr chans (Err err)
| select_result (res : CallbackResult) :
    resultCh chans = Some res -> WaitForCallback_select ctxErr chans (Ok res).

(** ** The authorization URL ([internal/auth]) *)

Definition googleAuthURL : string := "https://accounts.google.com/o/oauth2/v2/auth".

Record Config : Type := mkConfig {
  ClientID : string;
  ClientSecret : string;
  RedirectURI : string;
  Scopes : list string
}.

(** [url.QueryEscape]: letters, digits, [-], [_], [.] and [~] are kept,
    the space becomes [+], every other byte becomes [%] and its two
    upper-case hexadecimal digits. *)
Definition shouldEscape (c : ascii) : bool :=
  let n := nat_of_ascii c in
  if ((97 <=? n) && (n <=? 122) || (65 <=? n) && (n <=? 90) || (48 <=? n) && (n <=? 57))%nat
  then false
  else if ((n =? 45) || (n =? 95) || (n =? 46) || (n =? 126))%nat then false
  else true.

Definition upperhex : list ascii := list_ascii_of_string "0123456789ABCDEF".

Definition escapeQueryByte (c : ascii) : string :=
  let n := nat_of_ascii c in
  if (n =? 32)%nat then "+"
  else if shouldEscape c
       then String (ascii_of_nat 37)
              (String (nth (n / 16) upperhex (ascii_of_nat 48))
                 (String (nth (n mod 16) upperhex (ascii_of_nat 48)) EmptyString))
       else String c EmptyString.

Fixpoint QueryEscape (s : string) : string :=
  match s with
  | EmptyString => EmptyString
  | String c s' => escapeQueryByte c ++ QueryEscape s'
  end.

(** [Values.Set] replaces the values of a key by one value. *)
Definition Values_Set (v : Values) (key value : string) : Values := <[key := [value]]> v.

(** [Values.Encode]: the keys in sorted order, every value of a key as
    [key=value], both escaped, with [&] between the entries. *)
Definition keyOrder (a b : string) : Prop := String.leb a b = true.

#[local] Instance keyOrder_dec (a b : string) : Decision (keyOrder a b).
Proof. unfold keyOrder. apply _. Defined.

Definition sortedKeys (v : Values) : list string :=
  merge_sort keyOrder (map_to_list v).*1.

Definition Values_Encode (v : Values) : string :=
  Strings.Join
    (sortedKeys v ≫= λ k,
       (λ value, QueryEscape k ++ "=" ++ QueryEscape value) <$> default [] (v !! k))
    "&".

Definition AuthorizationURL (cfg : Config) (state pkceChallenge : string) : result string :=
  if decide (ClientID cfg = "" ∨ RedirectURI cfg = "")
  then Err (Errorf "missing client_id or redirect_uri" None)
  else if decide (length (Scopes cfg) = 0%nat)
  then Err (Errorf "no scopes configured" None)
  else
    let params : Values := ∅ in
    let params := Values_Set params "client_id" (ClientID cfg) in
    let params := Values_Set params "redirect_uri" (RedirectURI cfg) in
    let params := Values_Set params "response_type" "code" in
    let params := Values_Set params "scope" (Strings.Join (Scopes cfg) " ") in
    let params := Values_Set params "access_type" "offline" in
    let params := Values_Set params "prompt" "consent" in
    let params := Values_Set params "include_granted_scopes" "true" in
    let params := Values_Set params "state" state in
    let params := Values_Set params "code_challenge" pkceChallenge in
    let params := Values_Set params "code_challenge_method" "S256" in
    Ok (googleAuthURL ++ "?" ++ Values_Encode params).

(** * The vocabulary of the properties *)

(** ** Sanitizing *)

(** A part survives sanitizing when it is not empty. *)
Definition keptPart (part : ContentPart) : Prop := isEmptyContentPart part = false.

#[local] Instance keptPart_dec (part : ContentPart) : Decision (keptPart part).
Proof. unfold keptPart. apply _. Defined.

(** A content survives when parts remain in it. *)
Definition keptContent (content : Content) : Prop := length (Parts content) ≠ 0%nat.

#[local] Instance keptContent_dec (content : Content) : Decision (keptContent content).
Proof. unfold keptContent. apply _. Defined.

Definition pruneContent (content : Content) : Content :=
  mkContent (Role content) (filter keptPart (Parts content)).

Definition allKept (contents : list Content) : Prop :=
  Forall (λ c, Forall keptPart (Parts c)) contents.

(** ** The session id *)

(** The non-empty texts of a content, and the text of the first user-role
    content that has some: the words of the specification. *)
Definition textsOf (c : Content) : list string :=
  filter (λ t, t ≠ "") (Text <$> Parts c).

Definition isUserText (c : Content) : Prop :=
  Strings.ToLower (Role c) = "user" ∧ textsOf c ≠ [].

#[local] Instance isUserText_dec (c : Content) : Decision (isUserText c).
Proof. unfold isUserText. apply _. Defined.

Definition firstUserText (contents : list Content) : option string :=
  (λ c, Strings.Join (textsOf c) newline) <$> head (filter isUserText contents).

Definition sessionIDOf (joined : string) : string :=
  slice_to 32 (Hex.EncodeToString (SHA256.Sum256 joined)).

(** ** Schema conversion *)

Definition maxDepth (m : gmap string JSON) : nat :=
  map_fold (λ _ x acc, max (depth x) acc) 0%nat m.

(** A sub-schema "of type array": a map whose [type] is the string
    ["array"]. *)
Definition hasArrayType (j : JSON) : Prop :=
  match j with
  | JObj m => as_string (m !! "type") = Some "array"
  | _ => False
  end.

#[local] Instance hasArrayType_dec (j : JSON) : Decision (hasArrayType j).
Proof. destruct j; simpl; apply _. Defined.

(** Closed decidable facts are settled by evaluation. *)
Ltac by_evaluation :=
  match goal with |- ?P => apply (bool_decide_unpack P) end; vm_compute; exact I.

(** ** The SSE transformer *)

(** A codec for the examples: objects of integers, printed with their keys
    in increasing order as [json.Marshal] prints a map, and one payload
    that parses. *)
Definition dquote : string := String (ascii_of_nat 34) EmptyString.

Definition demoEntry (kv : string * JSON) : option string :=
  match kv.2 with
  | JNum q =>
      if decide (QArith_base.Qden q = 1%positive)
      then Some (dquote ++ kv.1 ++ dquote ++ ":" ++ pretty (QArith_base.Qnum q))
      else None
  | _ => None
  end.

Definition keyLeb (a b : string * JSON) : Prop := String.leb a.1 b.1.

#[local] Instance keyLeb_dec (a b : string * JSON) : Decision (keyLeb a b).
Proof. unfold keyLeb. apply _. Defined.

Definition demoMarshal (m : option (gmap string JSON)) : result string :=
  match m with
  | None => Ok "null"
  | Some m =>
      match mapM demoEntry (merge_sort keyLeb (map_to_list m)) with
      | Some entries => Ok ("{" ++ Strings.Join entries "," ++ "}")
      | None => Err (Errorf "json: unsupported value" None)
      end
  end.

Definition jint (n : Z) : JSON := JNum (QArith_base.Qmake n 1).

Definition demoPayload : string :=
  "{" ++ dquote ++ "a" ++ dquote ++ ":1," ++ dquote ++ "response" ++ dquote ++ ":{"
      ++ dquote ++ "a" ++ dquote ++ ":2," ++ dquote ++ "b" ++ dquote ++ ":3}}".

Definition demoWrapped : gmap string JSON :=
  {[ "a" := jint 1; "response" := JObj {[ "a" := jint 2; "b" := jint 3 ]} ]}.

Definition demoUnmarshal (data : string) : result (option (gmap string JSON)) :=
  if decide (data = demoPayload) then Ok (Some demoWrapped)
  else Err (Errorf "invalid character" None).

(** ** Function-response ids *)

Definition call (name id : string) : ContentPart :=
  callPart (mkFunctionCall id name ∅).

Definition response (name id : string) : ContentPart :=
  responsePart (mkFunctionResponse id name ∅).

(** The ids the responses of the contents carry, in order. *)
Definition responseIDs (contents : list Content) : list string :=
  frID <$> omap PartFunctionResponse (concat (Parts <$> contents)).

(** ** Message translation *)

(** A message handled as a tool response: its role is ["tool"] and its
    content is a string or an array; [toolOutput] is the text put in its
    response. *)
Definition hasTextContent (msg : Message) : Prop :=
  match msgContent msg with JStr _ | JArr _ => True | _ => False end.

#[local] Instance hasTextContent_dec (msg : Message) : Decision (hasTextContent msg).
Proof. unfold hasTextContent. destruct (msgContent msg); apply _. Defined.

Definition respondsAsTool (msg : Message) : Prop :=
  msgRole msg = "tool" ∧ hasTextContent msg.

#[local] Instance respondsAsTool_dec (msg : Message) : Decision (respondsAsTool msg).
Proof. unfold respondsAsTool. apply _. Defined.

Definition toolOutput (msg : Message) : gmap string JSON :=
  match msgContent msg with
  | JStr content => {[ "output" := JStr content ]}
  | JArr content => {[ "output" := JStr (Strings.Join (nonEmptyTextItems content) newline) ]}
  | _ => ∅
  end.

(** A message whose parts are set aside for the closing content, and a
    message that may become a content where it stands. *)
Definition deferred (msg : Message) : Prop := Strings.ToLower (msgRole msg) = "tool".

Definition takesTurn (msg : Message) : Prop := ¬ deferred msg ∧ msgRole msg ≠ "system".

#[local] Instance takesTurn_dec (msg : Message) : Decision (takesTurn msg).
Proof. unfold takesTurn, deferred. apply _. Defined.

Definition noResponse (parts : list ContentPart) : Prop :=
  Forall (λ p, PartFunctionResponse p = None) parts.

Definition responsesOf (parts : list ContentPart) : list (gmap string JSON) :=
  frResponse <$> omap PartFunctionResponse parts.

(** A tool response whose function name cannot be found: no name of its
    own, and no [tool_call_id] with a name recorded in [names]. *)
Definition unresolvedTool (names : gmap string string) (msg : Message) : Prop :=
  respondsAsTool msg ∧ msgName msg = "" ∧
  (msgToolCallID msg = "" ∨ names !! msgToolCallID msg = None).

Definition recorded (st : Translation) : gmap string string * gmap string string * nat :=
  (toolCallNameByID st, toolCallIDByName st, nextUUID st).

Definition named (names : gmap string string) : Prop :=
  ∀ id name, names !! id = Some name → name ≠ "".

(** What holds of the state once the messages [before] are translated. *)
Definition translated (st : Translation) (before : list Message) : Prop :=
  Forall (λ c, noResponse (Parts c)) (geminiContents st) ∧
  sublist (Role <$> geminiContents st)
          ((λ m, geminiRole (msgRole m)) <$> filter takesTurn before) ∧
  responsesOf (pendingToolParts st) = toolOutput <$> filter respondsAsTool before.

(** The translator in the examples: arguments never parse to anything but
    the nil map, and the random source counts. *)
Definition demoArguments (arguments : string) : result (option (gmap string JSON)) :=
  Ok None.

Definition demoUUID (n : nat) : string := pretty n.

Definition demoConversation : list Message :=
  [ mkMessage "user" (JStr "list files") "" "" [];
    mkMessage "assistant" (JStr "") "" "" [mkToolCall "c1" "ls" "{}"];
    mkMessage "tool" (JStr "a.txt") "" "c1" [];
    mkMessage "user" (JStr "thanks") "" "" [] ].

Definition demoContents : list Content :=
  [ mkContent "user" [textPart "list files"];
    mkContent "model" [textPart ""; callPart (mkFunctionCall "c1" "ls" ∅)];
    mkContent "user" [textPart "thanks"];
    mkContent "user"
      [responsePart (mkFunctionResponse "c1" "ls" {[ "output" := JStr "a.txt" ]})] ].

(** ** The upstream client *)

(** The request [doRequest] sends for [GenerateContent]. *)
Definition postJSON (url body token : string) : HTTPRequest :=
  mkHTTPRequest "POST" url body "application/json" token.

Definition executionError (answer : result Response) : result Response :=
  match answer with
  | Ok resp => Ok resp
  | Err e => Err (Errorf "request execution error" (Some e))
  end.

(** The calls one attempt at an endpoint can make, with what the attempt
    yields.  A second request is sent only after a 401 and a refresh that
    succeeded, to the same URL; no attempt refreshes twice. *)
Inductive attempt (url body : string) : list Event → result Response → Prop :=
| attempt_no_credentials (e : error) :
    attempt url body [GetCredentialsEvent (Err e)]
      (Err (Errorf "unable to get credentials" (Some e)))
| attempt_empty_token (creds : OAuthCredentials) :
    AccessToken creds = "" →
    attempt url body [GetCredentialsEvent (Ok creds)]
      (Err (Errorf "access token is empty" None))
| attempt_transport (creds : OAuthCredentials) (e : error) :
    AccessToken creds ≠ "" →
    attempt url body
      [GetCredentialsEvent (Ok creds);
       DoEvent (postJSON url body (AccessToken creds)) (Err e)]
      (Err (Errorf "request execution error" (Some e)))
| attempt_answered (creds : OAuthCredentials) (resp : Response) :
    AccessToken creds ≠ "" → StatusCode resp ≠ StatusUnauthorized →
    attempt url body
      [GetCredentialsEvent (Ok creds);
       DoEvent (postJSON url body (AccessToken creds)) (Ok resp)]
      (Ok resp)
| attempt_refresh_failed (creds : OAuthCredentials) (resp : Response) (e : error) :
    AccessToken creds ≠ "" → StatusCode resp = StatusUnauthorized →
    attempt url body
      [GetCredentialsEvent (Ok creds);
       DoEvent (postJSON url body (AccessToken creds)) (Ok resp);
       RefreshTokenEvent (Some e)]
      (Err (Errorf "failed to refresh token" (Some e)))
| attempt_reload_failed (creds : OAuthCredentials) (resp : Response) (e : error) :
    AccessToken creds ≠ "" → StatusCode resp = StatusUnauthorized →
    attempt url body
      [GetCredentialsEvent (Ok creds);
       DoEvent (postJSON url body (AccessToken creds)) (Ok resp);
       RefreshTokenEvent None;
       GetCredentialsEvent (Err e)]
      (Err (Errorf "failed to reload credentials after refresh" (Some e)))
| attempt_retried (creds refreshed : OAuthCredentials) (resp : Response)
    (answer : result Response) :
    AccessToken creds ≠ "" → StatusCode resp = StatusUnauthorized →
    attempt url body
      [GetCredentialsEvent (Ok creds);
       DoEvent (postJSON url body (AccessToken creds)) (Ok resp);
       RefreshTokenEvent None;
       GetCredentialsEvent (Ok refreshed);
       DoEvent (postJSON url body (AccessToken refreshed)) answer]
      (executionError answer).

Definition isRefresh (ev : Event) : Prop :=
  match ev with RefreshTokenEvent _ => True | _ => False end.

#[local] Instance isRefresh_dec (ev : Event) : Decision (isRefresh ev).
Proof. destruct ev; simpl; apply _. Defined.

Definition isDo (ev : Event) : Prop :=
  match ev with DoEvent _ _ => True | _ => False end.

#[local] Instance isDo_dec (ev : Event) : Decision (isDo ev).
Proof. destruct ev; simpl; apply _. Defined.

Definition sentTo (url : string) (ev : Event) : Prop :=
  match ev with DoEvent req _ => URL req = url | _ => True end.

(** What the loop of [GenerateContent] records for an endpoint that did
    not give a readable 200 response; [None] for one that did. *)
Definition recordedError (endpoint : string) (answer : result Response) : option error :=
  match answer with
  | Err e => Some e
  | Ok resp =>
      match Body resp with
      | Err e => Some (Errorf "could not read response body" (Some e))
      | Ok respBody =>
          if decide (StatusCode resp = StatusOK) then None
          else Some (UpstreamError (StatusCode resp) respBody (ContentType resp) endpoint)
      end
  end.

(** One endpoint tried: the endpoint, the calls made, the answer. *)
Record Tried : Type := mkTried {
  triedEndpoint : string;
  triedCalls : list Event;
  triedAnswer : result Response
}.

Definition failedOver (t : Tried) : Prop :=
  is_Some (recordedError (triedEndpoint t) (triedAnswer t)).

Definition wellFormed (body : string) (t : Tried) : Prop :=
  attempt (generateContentURL (triedEndpoint t)) body (triedCalls t) (triedAnswer t).

(** The error held in [lastErr] after the endpoints of [failures]. *)
Definition lastRecorded (lastErr : option error) (failures : list Tried) : option error :=
  foldl (λ acc t, match recordedError (triedEndpoint t) (triedAnswer t) with
                  | Some e => Some e
                  | None => acc
                  end) lastErr failures.

Definition noEndpoints : error :=
  Errorf "generateContent failed with no endpoints available" None.

(** A run for the examples.  The world counts the requests sent; the
    credentials are always there and the refresh always succeeds. *)
Definition demoCredentials (token : string) : OAuthCredentials :=
  mkCredentials token "refresh" 0 "Bearer" "" "".

Definition demoGetCredentials (w : nat) : result OAuthCredentials * nat :=
  (Ok (demoCredentials ("token-" ++ pretty w)), w).

Definition demoRefresh (w : nat) : option error * nat := (None, w).

Definition demoRequest : GenerateContentRequest :=
  mkRequest "gemini-3-pro" "project" ""
    (mkInternalRequest [mkContent "user" [textPart "hello"]] None [] None "")
    "" "" "" "".

Definition demoMarshalRequest (req : GenerateContentRequest) : result string := Ok "{}".

(** The first endpoint answers 401, then 500 after the refresh; the second
    answers 200. *)
Definition demoDo (req : HTTPRequest) (w : nat) : result Response * nat :=
  (Ok (match w with
       | 0%nat => mkResponse 401 (Ok "") "text/plain"
       | 1%nat => mkResponse 500 (Ok "busy") "text/plain"
       | _ => mkResponse 200 (Ok "{}") "application/json"
       end), S w).

Definition demoUnmarshalResponse (respBody : string) : result GenerateContentResponse :=
  if decide (respBody = "{}") then Ok (mkGenerateContentResponse None)
  else Err (Errorf "invalid character" None).

(** The first endpoint answers 200 with a body that is not JSON. *)
Definition brokenDo (req : HTTPRequest) (w : nat) : result Response * nat :=
  (Ok (mkResponse 200 (Ok "<html>") "text/html"), S w).

(** ** Function-response ids: what a run may change *)

(** The id a part adds to the queues: the trimmed id of its function call,
    when that is not blank. *)
Definition queuedID (part : ContentPart) : list string :=
  match PartFunctionCall part with
  | Some fc =>
      if decide (Strings.TrimSpace (fcID fc) = "") then []
      else [Strings.TrimSpace (fcID fc)]
  | None => []
  end.

(** A part that is a function response without an id (and not a call). *)
Definition idlessResponse (part : ContentPart) : option FunctionResponse :=
  match PartFunctionCall part, PartFunctionResponse part with
  | None, Some fr => if decide (Strings.TrimSpace (frID fr) = "") then Some fr else None
  | _, _ => None
  end.

(** [filled seen parts parts' k]: [parts'] is [parts] where [k] id-less
    responses have received the id of a call met before them ([seen] holds
    the ids of the calls before [parts]); every other part is as it
    was. *)
Inductive filled : list string → list ContentPart → list ContentPart → nat → Prop :=
| filled_nil (seen : list string) : filled seen [] [] 0
| filled_same (seen : list string) (part : ContentPart) (parts parts' : list ContentPart)
    (k : nat) :
    filled (seen ++ queuedID part) parts parts' k →
    filled seen (part :: parts) (part :: parts') k
| filled_assigned (seen : list string) (part : ContentPart) (fr : FunctionResponse)
    (id : string) (parts parts' : list ContentPart) (k : nat) :
    idlessResponse part = Some fr → id ∈ seen → id ≠ "" →
    filled seen parts parts' k →
    filled seen (part :: parts) (setResponseID part fr id :: parts') (S k).

(** The queues hold nothing but ids of calls already met. *)
Definition known (seen : list string) (q : Queues) : Prop :=
  (∀ id, id ∈ pending q → id ∈ seen) ∧
  (∀ name id, id ∈ queue (perName q) name → id ∈ seen).

(** The two fixed parts every system instruction starts with. *)
Definition preamble : list ContentPart :=
  [ textPart SystemInstructionText;
    textPart ("Please ignore the following [ignore]" ++ SystemInstructionText ++ "[/ignore]") ].

Definition plainText (part : ContentPart) : Prop :=
  Text part ≠ "" ∧ ThoughtSignature part = "" ∧
  PartFunctionCall part = None ∧ PartFunctionResponse part = None.

(** ** Function-call ids *)

(** A part whose function call has a blank id. *)
Definition blankCall (part : ContentPart) : Prop :=
  match PartFunctionCall part with
  | Some fc => Strings.TrimSpace (fcID fc) = ""
  | None => False
  end.

#[local] Instance blankCall_dec (part : ContentPart) : Decision (blankCall part).
Proof. unfold blankCall. destruct (PartFunctionCall part); apply _. Defined.

(** [freshened uuid n n1 p p1]: [p1] is [p], or [p] was a call with a blank
    id and [p1] is [p] with the id made from a string the random source
    held between [n] and [n1]. *)
Definition freshened (uuid : nat → string) (n n1 : nat) (p p1 : ContentPart) : Prop :=
  (¬ blankCall p ∧ p1 = p) ∨
  (∃ fc i, PartFunctionCall p = Some fc ∧ Strings.TrimSpace (fcID fc) = "" ∧
           (n ≤ i < n1)%nat ∧ p1 = setCallID p fc ("toolu_" ++ uuid i)).

(** ** Tool declarations *)

(** All function declarations of a tool list, in order. *)
Definition declarations (tools : list Tool) : list FunctionDeclaration :=
  concat (FunctionDeclarations <$> tools).

Definition withoutParameters (fn : FunctionDeclaration) : Prop := fdParameters fn = None.

#[local] Instance withoutParameters_dec (fn : FunctionDeclaration) : Decision (withoutParameters fn).
Proof. unfold withoutParameters. apply _. Defined.

(** The schema a declaration without parameters is given. *)
Definition objectSchema : GeminiParameterSchema := mkSchema "OBJECT" "" None None [] [].

(** The queues hold no blank id. *)
Definition solidQueues (q : Queues) : Prop :=
  (∀ id, id ∈ pending q → Strings.TrimSpace id ≠ "") ∧
  (∀ name id, id ∈ queue (perName q) name → Strings.TrimSpace id ≠ "").

(** The queues [q] with another count of ids filled in. *)
Definition recount (q : Queues) (k : nat) : Queues := mkQueues (pending q) (perName q) k.

(** ** Message translation: the shape of the result *)

Definition isSystem (msg : Message) : Prop := msgRole msg = "system".

#[local] Instance isSystem_dec (msg : Message) : Decision (isSystem msg).
Proof. unfold isSystem. apply _. Defined.

(** The parts the system messages contribute, in the order of the
    messages. *)
Definition systemParts (messages : list Message) : list ContentPart :=
  textPart <$> (filter isSystem messages ≫= λ msg, systemTexts (msgContent msg)).

(** The tool calls the translator turns into parts: those of the messages
    of role [assistant]. *)
Definition assistantCalls (msg : Message) : list ToolCall :=
  if decide (msgRole msg = "assistant") then msgToolCalls msg else [].

Definition blankID (tc : ToolCall) : Prop := Strings.TrimSpace (tcID tc) = "".

#[local] Instance blankID_dec (tc : ToolCall) : Decision (blankID tc).
Proof. unfold blankID. apply _. Defined.

Definition callsOf (contents : list Content) : list FunctionCall :=
  omap PartFunctionCall (concat (Parts <$> contents)).

(** [fc] is the function call made from the tool call [tc]: same name, the
    arguments parsed, the id kept unless it is blank, in which case it is
    made from a string the random source held between [n] and [n1]. *)
Definition madeFrom (json_Unmarshal : string → result (option (gmap string JSON)))
  (uuid : nat → string) (n n1 : nat) (tc : ToolCall) (fc : FunctionCall) : Prop :=
  fcName fc = tcFunctionName tc ∧
  fcArgs fc = parseArguments json_Unmarshal (tcFunctionArguments tc) ∧
  if decide (blankID tc) then ∃ i, (n ≤ i < n1)%nat ∧ fcID fc = "toolu_" ++ uuid i
  else fcID fc = tcID tc.

Definition shaped (json_Unmarshal : string → result (option (gmap string JSON)))
  (uuid : nat → string) (n : nat) (st : Translation) (before : list Message) : Prop :=
  systemInstruction st =
    match filter isSystem before with
    | [] => None
    | _ :: _ => Some (mkSystemInstruction "system" (systemParts before))
    end ∧
  Forall (λ c, (Role c = "user" ∨ Role c = "model") ∧ Parts c ≠ []) (geminiContents st) ∧
  Forall (λ p, PartFunctionCall p = None) (pendingToolParts st) ∧
  nextUUID st = (n + length (filter blankID (before ≫= assistantCalls)))%nat ∧
  Forall2 (madeFrom json_Unmarshal uuid n (nextUUID st))
    (before ≫= assistantCalls) (callsOf (geminiContents st)).

(** A conversation with two system messages and a tool call without id. *)
Definition demoSystemConversation : list Message :=
  [ mkMessage "system" (JStr "be brief") "" "" [];
    mkMessage "user" (JStr "list files") "" "" [];
    mkMessage "system" (JArr [JObj {[ "type" := JStr "text"; "text" := JStr "no emoji" ]};
                              JObj {[ "type" := JStr "image" ]}]) "" "" [];
    mkMessage "assistant" JNull "" "" [mkToolCall " " "ls" "{}"; mkToolCall "c2" "pwd" "{}"];
    mkMessage "tool" (JStr "a.txt") "ls" "" [] ].

Definition demoSystemContents : list Content :=
  [ mkContent "user" [textPart "list files"];
    mkContent "model" [callPart (mkFunctionCall "toolu_7" "ls" ∅);
                       callPart (mkFunctionCall "c2" "pwd" ∅)];
    mkContent "user"
      [responsePart (mkFunctionResponse "toolu_7" "ls" {[ "output" := JStr "a.txt" ]})] ].

(** ** Schema conversion: the keys that are read *)

Definition schemaKeys : list string :=
  ["type"; "description"; "properties"; "items"; "required"; "enum"; "anyOf"; "oneOf"].

(** ** Tool names *)

(** A name the upstream accepts: letters, digits, [_] and [-], at most 64
    bytes. *)
Definition validName (name : string) : Prop :=
  Forall (λ b, keepsByte b = true) (list_ascii_of_string name) ∧
  (String.length name ≤ 64)%nat.

(** The byte a string starts with is not one that tool names keep. *)
Definition startsOutside (s : string) : bool :=
  match s with
  | String c _ => negb (keepsByte c)
  | EmptyString => false
  end.

(** ** Raw tools *)

(** What [extractToolFields] finds in an item. *)
Definition nameOf (item : gmap string JSON) : string := (extractToolFields item).1.1.

Definition unnamed (item : gmap string JSON) : Prop := nameOf item = "".

#[local] Instance unnamed_dec (item : gmap string JSON) : Decision (unnamed item).
Proof. unfold unnamed. apply _. Defined.

Definition schemaless (item : gmap string JSON) : Prop := (extractToolFields item).2 = None.

#[local] Instance schemaless_dec (item : gmap string JSON) : Decision (schemaless item).
Proof. unfold schemaless. apply _. Defined.

Definition isCustom (item : gmap string JSON) : Prop :=
  as_object (item !! "custom") ≠ None.

#[local] Instance isCustom_dec (item : gmap string JSON) : Decision (isCustom item).
Proof. unfold isCustom. apply _. Defined.

(** A raw tool in the three shapes the proxy accepts. *)
Definition demoRawTools : list (gmap string JSON) :=
  [ {[ "name" := JStr "read file"; "input_schema" := JObj {[ "type" := JStr "object" ]} ]};
    {[ "custom" := JObj {[ "name" := JStr "grep"; "description" := JStr "search" ]} ]};
    {[ "type" := JStr "function";
       "function" := JObj {[ "parameters" := JObj {[ "type" := JStr "object" ]} ]} ]} ].

(** ** The upstream calls: one discipline for the four loops *)

(** The calls one [doRequest] can make, [send token] being the request it
    sends with a token: as [attempt], for any method and [Accept]
    header. *)
Inductive exchange (send : string → HTTPRequest) : list Event → result Response → Prop :=
| exchange_no_credentials (e : error) :
    exchange send [GetCredentialsEvent (Err e)]
      (Err (Errorf "unable to get credentials" (Some e)))
| exchange_empty_token (creds : OAuthCredentials) :
    AccessToken creds = "" →
    exchange send [GetCredentialsEvent (Ok creds)]
      (Err (Errorf "access token is empty" None))
| exchange_transport (creds : OAuthCredentials) (e : error) :
    AccessToken creds ≠ "" →
    exchange send
      [GetCredentialsEvent (Ok creds); DoEvent (send (AccessToken creds)) (Err e)]
      (Err (Errorf "request execution error" (Some e)))
| exchange_answered (creds : OAuthCredentials) (resp : Response) :
    AccessToken creds ≠ "" → StatusCode resp ≠ StatusUnauthorized →
    exchange send
      [GetCredentialsEvent (Ok creds); DoEvent (send (AccessToken creds)) (Ok resp)]
      (Ok resp)
| exchange_refresh_failed (creds : OAuthCredentials) (resp : Response) (e : error) :
    AccessToken creds ≠ "" → StatusCode resp = StatusUnauthorized →
    exchange send
      [GetCredentialsEvent (Ok creds); DoEvent (send (AccessToken creds)) (Ok resp);
       RefreshTokenEvent (Some e)]
      (Err (Errorf "failed to refresh token" (Some e)))
| exchange_reload_failed (creds : OAuthCredentials) (resp : Response) (e : error) :
    AccessToken creds ≠ "" → StatusCode resp = StatusUnauthorized →
    exchange send
      [GetCredentialsEvent (Ok creds); DoEvent (send (AccessToken creds)) (Ok resp);
       RefreshTokenEvent None; GetCredentialsEvent (Err e)]
      (Err (Errorf "failed to reload credentials after refresh" (Some e)))
| exchange_retried (creds refreshed : OAuthCredentials) (resp : Response)
    (answer : result Response) :
    AccessToken creds ≠ "" → StatusCode resp = StatusUnauthorized →
    exchange send
      [GetCredentialsEvent (Ok creds); DoEvent (send (AccessToken creds)) (Ok resp);
       RefreshTokenEvent None; GetCredentialsEvent (Ok refreshed);
       DoEvent (send (AccessToken refreshed)) answer]
      (executionError answer).

(** What a loop makes of a response: stop with a result, or record an
    error and go on to the next endpoint. *)
Inductive verdict (A : Type) : Type :=
| Stop (r : result A)
| Next (e : error).

Arguments Stop {A} r.
Arguments Next {A} e.

(** The loop the four upstream calls share: [request] sends to an
    endpoint, [judge] reads the response, [none] is the error of an empty
    endpoint list. *)
Fixpoint endpointLoop {World A : Type}
  (request : string → Run (World := World) (result Response))
  (judge : string → Response → verdict A) (none : error)
  (endpoints : list string) (lastErr : option error) : Run (World := World) (result A) :=
  λ s,
    match endpoints with
    | [] => (Err (default none lastErr), s)
    | endpoint :: endpoints' =>
        let '(answer, s1) := request endpoint s in
        match answer with
        | Err e => endpointLoop request judge none endpoints' (Some e) s1
        | Ok resp =>
            match judge endpoint resp with
            | Stop r => (r, s1)
            | Next e => endpointLoop request judge none endpoints' (Some e) s1
            end
        end
    end.

(** The error an endpoint leaves in [lastErr], if the loop goes on after
    it. *)
Definition leftError {A : Type} (judge : string → Response → verdict A) (t : Tried)
  : option error :=
  match triedAnswer t with
  | Err e => Some e
  | Ok resp =>
      match judge (triedEndpoint t) resp with
      | Next e => Some e
      | Stop _ => None
      end
  end.

(** The verdicts of the three loops. *)
Definition judgeParsed {A : Type} (parse : string → result A)
  (failed : Z → string → error) (endpoint : string) (resp : Response) : verdict A :=
  match Body resp with
  | Err e => Next (Errorf "could not read response body" (Some e))
  | Ok respBody =>
      if decide (StatusCode resp = StatusOK) then
        Stop match parse respBody with
             | Ok v => Ok v
             | Err e => Err (Errorf "could not unmarshal response body" (Some e))
             end
      else Next (failed (StatusCode resp) respBody)
  end.

Definition statusError (what : string) (statusCode : Z) (respBody : string) : error :=
  Errorf (what ++ " failed with status " ++ pretty statusCode ++ ": " ++ respBody) None.

Definition judgeStream (endpoint : string) (resp : Response) : verdict Response :=
  if decide (StatusCode resp = StatusOK) then Stop (Ok resp)
  else
    match Body resp with
    | Err readErr =>
        Next (Errorf ("streamGenerateContent failed with status " ++
                      pretty (StatusCode resp) ++ " and read error: " ++
                      errorString readErr) None)
    | Ok respBody =>
        Next (UpstreamError (StatusCode resp) respBody (ContentType resp) endpoint)
    end.

(** A run of a loop: the endpoints tried, each with the calls of one
    exchange, all but the last leaving an error; the last one stops the
    loop with the result, or the list is used up and the result is the
    error left last. *)
Definition failsOver {World A : Type} (send : string → string → HTTPRequest)
  (judge : string → Response → verdict A) (none : error) (endpoints : list string)
  (log : list Event) (out : result A * (World * list Event)) : Prop :=
  ∃ (failures : list Tried) (final : option Tried),
    let tried := (failures ++ option_list final)%list in
    (triedEndpoint <$> tried) `prefix_of` endpoints ∧
    out.2.2 = (log ++ concat (triedCalls <$> tried))%list ∧
    Forall (λ t, exchange (send (triedEndpoint t)) (triedCalls t) (triedAnswer t)) tried ∧
    Forall (λ t, is_Some (leftError judge t)) failures ∧
    match final with
    | Some t =>
        ∃ resp, triedAnswer t = Ok resp ∧ judge (triedEndpoint t) resp = Stop out.1
    | None =>
        triedEndpoint <$> failures = endpoints ∧
        out.1 = Err (default none (last failures ≫= leftError judge))
    end.

(** The parsers of the examples. *)
Definition demoTier : Tier := mkTier "free-tier" "Free" "" false None true.

Definition demoUnmarshalLoad (respBody : string) : result LoadCodeAssistResponse :=
  if decide (respBody = "{}")
  then Ok (mkLoadCodeAssistResponse demoTier [demoTier] "project" false "")
  else Err (Errorf "invalid character" None).

Definition demoUnmarshalModels (respBody : string) : result FetchAvailableModelsResponse :=
  if decide (respBody = "{}")
  then Ok (mkFetchAvailableModelsResponse
             {[ "gemini-3-pro" := mkAvailableModel "Gemini 3 Pro" "" ]})
  else Err (Errorf "invalid character" None).

(** ** Project discovery *)

(** Every request in [calls] carries the access token of the credentials
    fetched last before it; [token] is the one held when [calls]
    start. *)
Fixpoint authorized (token : option string) (calls : list Event) : Prop :=
  match calls with
  | [] => True
  | GetCredentialsEvent (Ok creds) :: calls' => authorized (Some (AccessToken creds)) calls'
  | DoEvent req _ :: calls' => token = Some (Token req) ∧ authorized token calls'
  | _ :: calls' => authorized token calls'
  end.

(** A request of [callEndpoint]: a POST of [reqBody] to the method's URL
    at one of the endpoints. *)
Definition callsMethod (method reqBody : string) (endpoints : list string) (ev : Event)
  : Prop :=
  match ev with
  | DoEvent req _ =>
      Method req = "POST" ∧ RequestBody req = reqBody ∧ Accept req = "application/json" ∧
      ∃ endpoint, endpoint ∈ endpoints ∧ URL req = endpoint ++ "/v1internal:" ++ method
  | _ => True
  end.

(** The errors with which [callEndpoint] gives up on the spot. *)
Definition aborts (calls : list Event) (e : error) : Prop :=
  match last calls with
  | Some (RefreshTokenEvent (Some cause)) => e = Errorf "failed to refresh token" (Some cause)
  | Some (GetCredentialsEvent (Err cause)) =>
      e = Errorf "failed to get credentials after refresh" (Some cause)
  | Some (DoEvent _ (Err cause)) =>
      e = Errorf "failed to make request after token refresh" (Some cause)
  | _ => False
  end.

(** A 401 that was not followed by a working refresh, reload and
    retry. *)
Definition refreshBroke (ev : Event) : Prop :=
  match ev with
  | RefreshTokenEvent (Some _) => True
  | GetCredentialsEvent (Err _) => True
  | _ => False
  end.

#[local] Instance refreshBroke_dec (ev : Event) : Decision (refreshBroke ev).
Proof. destruct ev as [[?|?]|[?|]|? ?]; simpl; apply _. Defined.

(** A world for the examples of discovery: the operation is done at the
    third call. *)
Definition demoUnmarshalOperation (respBody : string) : result (gmap string JSON) :=
  if decide (respBody = "done")
  then Ok {[ "done" := JBool true;
             "response" := JObj {[ "cloudaicompanionProject" :=
                                     JObj {[ "id" := JStr "project-1" ]} ]} ]}
  else Ok ∅.

Definition demoOperationDo (req : HTTPRequest) (w : nat) : result Response * nat :=
  (Ok (match w with
       | 0%nat => mkResponse 401 (Ok "") "text/plain"
       | 1%nat | 2%nat => mkResponse 200 (Ok "pending") "application/json"
       | _ => mkResponse 200 (Ok "done") "application/json"
       end), S w).

Definition demoManaged : LoadCodeAssistResponse :=
  mkLoadCodeAssistResponse demoTier [demoTier] "" true "".

(** What holds of the calls a run of [callEndpoint] makes over
    [endpoints], starting with the token [token]. *)
Definition disciplined {A : Type} (method reqBody : string) (endpoints : list string)
  (token : option string) (calls : list Event) (answer : result A) : Prop :=
  authorized token calls ∧
  Forall (callsMethod method reqBody endpoints) calls ∧
  (length (filter isDo calls) ≤ 2 * length endpoints)%nat ∧
  (length (filter isRefresh calls) ≤ length endpoints)%nat ∧
  ∀ ev, ev ∈ calls → refreshBroke ev → last calls = Some ev ∧ is_err answer.

(** ** The callback page *)

(** The bytes that open or close markup or an attribute value: [<], [>],
    the double quote and the single quote. *)
Definition markupByte (b : ascii) : bool :=
  let n := nat_of_ascii b in
  (n =? 60)%nat || (n =? 62)%nat || (n =? 34)%nat || (n =? 39)%nat.

Definition plainByte (b : ascii) : bool :=
  negb (markupByte b) && negb (nat_of_ascii b =? 38)%nat.

(** ** State and PKCE verifier *)

(** Bytes, as [rand.Read] and [sha256.Sum256] give them. *)
Definition isByte (x : Z) : Prop := (0 ≤ x < 256)%Z.

(** A string over the URL-safe alphabet of base 64. *)
Definition urlSafe (s : string) : Prop :=
  Forall (λ c, c ∈ Base64.encodeURL) (list_ascii_of_string s).

(** ** The models endpoint *)

(** Made of ASCII bytes only. *)
Definition asciiOnly (s : string) : Prop :=
  Forall (λ b, (nat_of_ascii b < 128)%nat) (list_ascii_of_string s).

(** A path segment: not empty and without a slash. *)
Definition segment (s : string) : Prop :=
  s ≠ "" ∧ slash ∉ list_ascii_of_string s.

(** Ids in strictly increasing order. *)
Definition increasingIDs (models : list openAIModel) : Prop :=
  StronglySorted (λ a b, less a b = true) models.

(** A catalogue for the examples. *)
Definition demoCatalogue : FetchAvailableModelsResponse :=
  mkFetchAvailableModelsResponse
    {[ "gemini-3-pro" := mkAvailableModel "Gemini 3 Pro" "";
       "claude-sonnet-4-5" := mkAvailableModel "" "";
       "gpt-oss-120b" := mkAvailableModel "GPT-OSS" "";
       "Gemini-Flash" := mkAvailableModel "Flash" "" ]}.

(** ** The callback server *)

(** A callback that delivers a code: no error parameter and a code. *)
Definition accepted (q : Values) : Prop :=
  Values_Get q "error" = "" ∧ Values_Get q "code" ≠ "".

#[local] Instance accepted_dec (q : Values) : Decision (accepted q).
Proof. unfold accepted. apply _. Defined.

Definition callbacks (arrivals : list Arrival) : list Values :=
  omap (λ a, match a with Callback q => Some q | ServeError _ => None end) arrivals.

(** The error an arrival offers on the error channel, if any. *)
Definition failureOf (a : Arrival) : option error :=
  match a with
  | Callback q =>
      if decide (Values_Get q "error" ≠ "")
      then Some (Errorf ("oauth error: " ++ Values_Get q "error") None)
      else if decide (Values_Get q "code" = "")
           then Some (Errorf "no authorization code received" None)
           else None
  | ServeError serveErr => Some serveErr
  end.

(** The number of bytes of a text that open or close markup. *)
Definition markupCount (s : string) : nat :=
  length (filter (λ b, markupByte b = true) (list_ascii_of_string s)).

Definition emptyChannels : Channels := mkChannels None None.

(** ** The authorization URL *)

(** The number of occurrences of a byte in a string. *)
Definition countByte (c : ascii) (s : string) : nat :=
  length (filter (λ b, b = c) (list_ascii_of_string s)).

Definition ampersand : ascii := ascii_of_nat 38.
Definition equalsSign : ascii := ascii_of_nat 61.

(** * Properties *)

(** ** Sanitizing contents *)

Lemma isEmptyContentPart_true (part : ContentPart) :
  isEmptyContentPart part = true ↔
  Text part = "" ∧ PartFunctionCall part = None ∧ PartFunctionResponse part = None.
Proof.
  unfold isEmptyContentPart.
  destruct (PartFunctionCall part), (PartFunctionResponse part);
    try (split; [discriminate | intros (_ & ? & ?); discriminate]).
  destruct (decide (Text part = "")); split; intros; intuition discriminate.
Qed.

Lemma sanitizeParts_filter (todo parts : list ContentPart) (k : nat) :
  (sanitizeParts todo parts k).1 = (parts ++ filter keptPart todo)%list.
Proof.
  revert parts k. induction todo as [|part todo IH]; intros parts k; simpl.
  - by rewrite app_nil_r.
  - destruct (isEmptyContentPart part) eqn:E.
    + rewrite IH. rewrite filter_cons_False; [done|].
      unfold keptPart. by rewrite E.
    + rewrite IH. rewrite filter_cons_True by done.
      by rewrite <- app_assoc.
Qed.

Lemma sanitizeLoop_filter (todo cleaned : list Content) (pp pc : nat) :
  (sanitizeLoop todo cleaned pp pc).1.1 =
  (cleaned ++ filter keptContent (pruneContent <$> todo))%list.
Proof.
  revert cleaned pp pc.
  induction todo as [|content todo IH]; intros cleaned pp pc; simpl.
  - by rewrite app_nil_r.
  - destruct (Parts content) as [|p ps] eqn:EP.
    + rewrite IH. rewrite filter_cons_False; [done|].
      unfold keptContent, pruneContent. simpl. rewrite EP. simpl. lia.
    + pose proof (sanitizeParts_filter (p :: ps) [] pp) as HF.
      destruct (sanitizeParts (p :: ps) [] pp) as [parts pp'] eqn:ES.
      simpl in HF. subst parts.
      destruct (filter keptPart (p :: ps)) as [|q qs] eqn:EF.
      * rewrite IH. rewrite filter_cons_False; [done|].
        unfold keptContent, pruneContent. simpl. rewrite EP, EF. simpl. lia.
      * rewrite IH. rewrite filter_cons_True.
        -- rewrite <- app_assoc. simpl. unfold pruneContent at 2. by rewrite EP, EF.
        -- unfold keptContent, pruneContent. simpl. by rewrite EP, EF.
Qed.

Lemma sanitized_filter (contents : list Content) :
  sanitized contents = filter keptContent (pruneContent <$> contents).
Proof.
  unfold sanitized, sanitizeContents.
  destruct contents as [|c cs]; [done|].
  by rewrite sanitizeLoop_filter.
Qed.

Lemma filter_concat_prune (contents : list Content) :
  concat (Parts <$> filter keptContent (pruneContent <$> contents)) =
  filter keptPart (concat (Parts <$> contents)).
Proof.
  induction contents as [|c cs IH]; [done|].
  rewrite !fmap_cons, concat_cons, filter_app, <- IH.
  destruct (decide (keptContent (pruneContent c))) as [Hk|Hk].
  - by rewrite filter_cons_True.
  - rewrite filter_cons_False by done.
    unfold keptContent, pruneContent in Hk. simpl in Hk.
    destruct (filter keptPart (Parts c)); [done|]. simpl in Hk. exfalso. apply Hk. lia.
Qed.

Lemma roles_sublist (contents : list Content) :
  sublist (Role <$> filter keptContent (pruneContent <$> contents)) (Role <$> contents).
Proof.
  induction contents as [|c cs IH]; [constructor|].
  simpl. destruct (decide (keptContent (pruneContent c))).
  - rewrite filter_cons_True by done. simpl. by constructor.
  - rewrite filter_cons_False by done. by constructor.
Qed.

(** C7.  Sanitizing removes exactly the parts that have an empty text and
    neither a function call nor a function response, then the contents
    left without parts; a content whose only part is a blank text goes, a
    content whose only part is a function call with a blank text stays;
    the survivors keep their order. *)
Theorem sanitizeContents_removes_exactly_the_empty (contents : list Content) :
  (∀ part, keptPart part ↔
           ¬ (Text part = "" ∧ PartFunctionCall part = None ∧
              PartFunctionResponse part = None)) ∧
  sanitized contents = filter keptContent (pruneContent <$> contents) ∧
  concat (Parts <$> sanitized contents) = filter keptPart (concat (Parts <$> contents)) ∧
  sublist (Role <$> sanitized contents) (Role <$> contents) ∧
  (∀ role sig, sanitized [mkContent role [mkContentPart "" sig None None]] = []) ∧
  (∀ role sig fc,
     sanitized [mkContent role [mkContentPart "" sig (Some fc) None]] =
     [mkContent role [mkContentPart "" sig (Some fc) None]]).
Proof.
  repeat split.
  - intros Hk He. apply isEmptyContentPart_true in He. unfold keptPart in Hk. congruence.
  - intros Hn. unfold keptPart. destruct (isEmptyContentPart part) eqn:E; [|done].
    apply isEmptyContentPart_true in E. contradiction.
  - apply sanitized_filter.
  - rewrite sanitized_filter. apply filter_concat_prune.
  - rewrite sanitized_filter. apply roles_sublist.
Qed.

(** ** What request preparation keeps of the contents *)

Lemma sanitized_allKept (contents : list Content) : allKept (sanitized contents).
Proof.
  rewrite sanitized_filter. unfold allKept.
  apply Forall_forall. intros c [_ Hc]%list_elem_of_filter.
  apply list_elem_of_fmap in Hc as (c0 & -> & _). simpl.
  apply Forall_forall. by intros p [Hp _]%list_elem_of_filter.
Qed.

Lemma fillCallIDs_kept (uuid : nat -> string) (parts : list ContentPart) (n k : nat) :
  Forall keptPart parts → Forall keptPart (fillCallIDs uuid parts n k).1.1.
Proof.
  revert n k. induction parts as [|part parts IH]; intros n k HF; [done|].
  apply Forall_cons in HF as [Hp HF]. simpl.
  destruct (PartFunctionCall part) as [fc|] eqn:EC.
  - destruct (decide (Strings.TrimSpace (fcID fc) = "")).
    + specialize (IH (S n) (S k) HF).
      destruct (fillCallIDs uuid parts (S n) (S k)) as [[ps n1] k1]. simpl in *.
      constructor; [done|done].
    + specialize (IH n k HF).
      destruct (fillCallIDs uuid parts n k) as [[ps n1] k1]. simpl in *.
      by constructor.
  - specialize (IH n k HF).
    destruct (fillCallIDs uuid parts n k) as [[ps n1] k1]. simpl in *.
    by constructor.
Qed.

Lemma ensureFunctionCallIDs_kept (uuid : nat -> string) (contents : list Content)
  (n k : nat) :
  allKept contents → allKept (ensureFunctionCallIDs_loop uuid contents n k).1.1.
Proof.
  revert n k. induction contents as [|c cs IH]; intros n k HF; [done|].
  apply Forall_cons in HF as [Hc HF]. simpl.
  pose proof (fillCallIDs_kept uuid (Parts c) n k Hc) as H1.
  destruct (fillCallIDs uuid (Parts c) n k) as [[ps n1] k1]. simpl in H1.
  specialize (IH n1 k1 HF).
  destruct (ensureFunctionCallIDs_loop uuid cs n1 k1) as [[cs1 n2] k2]. simpl in *.
  by constructor.
Qed.

Lemma reconcilePart_kept (q : Queues) (part : ContentPart) :
  keptPart part → keptPart (reconcilePart q part).2.
Proof.
  intros Hp. unfold reconcilePart.
  destruct (PartFunctionCall part) as [fc|] eqn:EC.
  { by destruct (decide (Strings.TrimSpace (fcID fc) = "")). }
  destruct (PartFunctionResponse part) as [fr|] eqn:ER; [|done].
  destruct (decide (Strings.TrimSpace (frID fr) = "")); [|done].
  destruct (takeFromPending _ _) as [[assigned p2] m2].
  destruct (decide (assigned = "")); [done|].
  simpl. unfold keptPart, isEmptyContentPart. simpl. by rewrite EC.
Qed.

Lemma reconcileParts_kept (q : Queues) (parts : list ContentPart) :
  Forall keptPart parts → Forall keptPart (reconcileParts q parts).2.
Proof.
  revert q. induction parts as [|part parts IH]; intros q HF; [done|].
  apply Forall_cons in HF as [Hp HF]. simpl.
  pose proof (reconcilePart_kept q part Hp) as H1.
  destruct (reconcilePart q part) as [q1 part1]. simpl in H1.
  specialize (IH q1 HF).
  destruct (reconcileParts q1 parts) as [q2 parts1]. simpl in *.
  by constructor.
Qed.

Lemma reconcileContents_kept (q : Queues) (contents : list Content) :
  allKept contents → allKept (reconcileContents q contents).2.
Proof.
  revert q. induction contents as [|c cs IH]; intros q HF; [done|].
  apply Forall_cons in HF as [Hc HF]. simpl.
  pose proof (reconcileParts_kept q (Parts c) Hc) as H1.
  destruct (reconcileParts q (Parts c)) as [q1 ps]. simpl in H1.
  specialize (IH q1 HF).
  destruct (reconcileContents q1 cs) as [q2 cs1]. simpl in *.
  by constructor.
Qed.

Lemma prepareContents_allKept (uuid : nat -> string) (contents : list Content) (n : nat) :
  allKept (prepareContents uuid contents n).1.
Proof.
  unfold prepareContents.
  pose proof (sanitized_allKept contents) as H0. unfold sanitized in H0.
  destruct (sanitizeContents contents) as [[c1 pp] pc]. simpl in H0.
  pose proof (ensureFunctionCallIDs_kept uuid c1 n 0 H0) as H1.
  unfold ensureFunctionCallIDs.
  destruct (ensureFunctionCallIDs_loop uuid c1 n 0) as [[c2 n1] k1]. simpl in H1.
  pose proof (reconcileContents_kept (mkQueues [] ∅ 0) c2 H1) as H2.
  unfold ensureFunctionResponseIDs.
  destruct (reconcileContents (mkQueues [] ∅ 0) c2) as [q c3]. by simpl in *.
Qed.

Lemma prepared_contents (uuid : nat -> string) (req : GenerateContentRequest) (n : nat) :
  ∃ n2, Contents (Request (prepareAntigravityRequest uuid req n).1) =
        (prepareContents uuid (Contents (Request req)) n2).1.
Proof.
  unfold prepareAntigravityRequest.
  destruct (decide (RequestID req = "")); simpl;
    (destruct (decide (SessionID (Request req) = "")); simpl;
     [ match goal with
       | |- context [deriveSessionID ?u ?c ?m] => destruct (deriveSessionID u c m) as [sid n2]
       end
     | ]);
    match goal with
    | |- context [prepareContents ?u ?c ?m] =>
        exists m; destruct (prepareContents u c m) as [cs n3]
    end; done.
Qed.

(** C10.  A part that carries only a thought signature (empty text, no
    function call, no function response) counts as empty: sanitizing
    removes it, and no content of the prepared request holds it. *)
Theorem thought_signature_only_part_is_dropped (sig : string) :
  let part := mkContentPart "" sig None None in
  isEmptyContentPart part = true ∧
  (∀ contents c, c ∈ sanitized contents → part ∉ Parts c) ∧
  (∀ role others,
     sanitized [mkContent role (part :: others)] = sanitized [mkContent role others]) ∧
  (∀ uuid req n c,
     c ∈ Contents (Request (prepareAntigravityRequest uuid req n).1) → part ∉ Parts c).
Proof.
  intros part. split; [done|]. split; [|split].
  - intros contents c Hc Hin.
    pose proof (sanitized_allKept contents) as HK.
    eapply Forall_forall in HK; [|exact Hc].
    eapply Forall_forall in HK; [|exact Hin]. done.
  - intros role others. rewrite !sanitized_filter. done.
  - intros uuid req n c Hc Hin.
    destruct (prepared_contents uuid req n) as [n2 E]. rewrite E in Hc.
    pose proof (prepareContents_allKept uuid (Contents (Request req)) n2) as HK.
    eapply Forall_forall in HK; [|exact Hc].
    eapply Forall_forall in HK; [|exact Hin]. done.
Qed.

(** ** The session id *)

Lemma collectTexts_filter (todo : list ContentPart) (parts : list string) :
  collectTexts todo parts = (parts ++ filter (λ t, t ≠ "") (Text <$> todo))%list.
Proof.
  revert parts. induction todo as [|p todo IH]; intros parts; simpl.
  - by rewrite app_nil_r.
  - destruct (decide (Text p = "")) as [E|E].
    + rewrite IH. by rewrite filter_cons_False by (intros H; by apply H).
    + rewrite IH. rewrite filter_cons_True by done. by rewrite <- app_assoc.
Qed.

Lemma deriveSessionID_first_user_text (uuid : nat -> string) (contents : list Content)
  (n : nat) (joined : string) :
  firstUserText contents = Some joined →
  deriveSessionID uuid contents n = (sessionIDOf joined, n).
Proof.
  unfold firstUserText.
  induction contents as [|c cs IH]; [done|].
  simpl. rewrite collectTexts_filter. simpl. fold (textsOf c).
  destruct (decide (isUserText c)) as [[Hr Ht]|Hn].
  - rewrite filter_cons_True by done. simpl. intros [= <-].
    destruct (decide (Strings.ToLower (Role c) = "user")); [|done].
    by destruct (textsOf c).
  - rewrite filter_cons_False by done. intros H. specialize (IH H).
    destruct (decide (Strings.ToLower (Role c) = "user")) as [Hr|Hr]; [|done].
    destruct (textsOf c) eqn:E; [done|].
    exfalso. apply Hn. split; [done|]. by rewrite E.
Qed.

Lemma substring_length (n : nat) (s : string) :
  (n ≤ String.length s)%nat → String.length (String.substring 0 n s) = n.
Proof.
  revert s. induction n as [|n IH]; intros s Hn.
  - by destruct s.
  - destruct s as [|c s]; simpl in *; [lia|]. rewrite IH; [done|lia].
Qed.

Lemma hex_length (l : list Z) :
  String.length (Hex.EncodeToString l) = (2 * length l)%nat.
Proof. induction l as [|b l IH]; simpl; [done|]. rewrite IH. lia. Qed.

Lemma Sum256_length (s : string) : length (SHA256.Sum256 s) = 32%nat.
Proof. reflexivity. Qed.

(** The digests of the empty message and of ["abc"], as FIPS 180-4 gives
    them. *)
Example Sum256_empty :
  Hex.EncodeToString (SHA256.Sum256 "") =
  "e3b0c44298fc1c149afbf4c8996fb92427ae41e4649b934ca495991b7852b855".
Proof. vm_compute. reflexivity. Qed.

Example Sum256_abc :
  Hex.EncodeToString (SHA256.Sum256 "abc") =
  "ba7816bf8f01cfea414140de5dae2223b00361a396177a9cb410ff61f20015ad".
Proof. vm_compute. reflexivity. Qed.

Example deriveSessionID_hello :
  deriveSessionID (λ _, "unused") [mkContent "user" [textPart "hello"]] 0 =
  ("2cf24dba5fb0a30e26e83b2ac5b9e29e", 0%nat).
Proof. vm_compute. reflexivity. Qed.

Lemma sessionIDOf_length (joined : string) : String.length (sessionIDOf joined) = 32%nat.
Proof.
  unfold sessionIDOf, slice_to. apply substring_length.
  rewrite hex_length, Sum256_length. lia.
Qed.

(** C6.  Two content lists whose first user-role entry with non-empty text
    parts gives the same newline-joined text get the same session id: the
    first 32 hexadecimal characters of the SHA-256 digest of that text,
    whatever the random source holds. *)
Theorem deriveSessionID_deterministic
  (uuid1 uuid2 : nat -> string) (contents1 contents2 : list Content) (n1 n2 : nat)
  (joined : string) :
  firstUserText contents1 = Some joined →
  firstUserText contents2 = Some joined →
  (deriveSessionID uuid1 contents1 n1).1 = (deriveSessionID uuid2 contents2 n2).1 ∧
  (deriveSessionID uuid1 contents1 n1).1 =
    slice_to 32 (Hex.EncodeToString (SHA256.Sum256 joined)) ∧
  String.length (deriveSessionID uuid1 contents1 n1).1 = 32%nat.
Proof.
  intros H1 H2.
  rewrite (deriveSessionID_first_user_text uuid1 contents1 n1 joined H1).
  rewrite (deriveSessionID_first_user_text uuid2 contents2 n2 joined H2).
  cbn [fst]. split; [done|]. split; [done|]. apply sessionIDOf_length.
Qed.

Lemma deriveSessionID_deterministic_witness :
  let c1 := [mkContent "user" [textPart "list the files"; textPart ""; textPart "then stop"]] in
  let c2 := [mkContent "model" [textPart "earlier"];
             mkContent "user" [callPart (mkFunctionCall "1" "ls" ∅)];
             mkContent "USER" [textPart "list the files"; textPart "then stop"];
             mkContent "user" [textPart "later"]] in
  (deriveSessionID (λ _, "a") c1 0).1 = (deriveSessionID (λ _, "b") c2 7).1 ∧
  (deriveSessionID (λ _, "a") c1 0).1 =
    slice_to 32 (Hex.EncodeToString
                   (SHA256.Sum256 ("list the files" ++ newline ++ "then stop"))) ∧
  String.length (deriveSessionID (λ _, "a") c1 0).1 = 32%nat.
Proof.
  intros c1 c2.
  apply (deriveSessionID_deterministic (λ _, "a") (λ _, "b") c1 c2 0 7
           ("list the files" ++ newline ++ "then stop")); reflexivity.
Defined.

(** ** Schema conversion *)

Lemma depth_JObj (m : gmap string JSON) : depth (JObj m) = S (maxDepth m).
Proof. done. Qed.

Lemma maxDepth_lookup (m : gmap string JSON) (k : string) (v : JSON) :
  m !! k = Some v → maxDepth m = max (depth v) (maxDepth (delete k m)).
Proof.
  intros H. unfold maxDepth.
  apply (map_fold_delete_L (λ _ x acc, max (depth x) acc)); [|done].
  intros. lia.
Qed.

Lemma depth_lookup (m : gmap string JSON) (k : string) (v : JSON) :
  m !! k = Some v → (depth v < depth (JObj m))%nat.
Proof. intros H. rewrite depth_JObj, (maxDepth_lookup m k v H). lia. Qed.

Lemma depth_elem (l : list JSON) (v : JSON) :
  v ∈ l → (depth v < depth (JArr l))%nat.
Proof.
  simpl. induction 1 as [v l|v w l _ IH]; simpl; lia.
Qed.

Lemma maxDepth_delete (m : gmap string JSON) (k : string) :
  (maxDepth (delete k m) ≤ maxDepth m)%nat.
Proof.
  destruct (m !! k) as [v|] eqn:E.
  - rewrite (maxDepth_lookup m k v E). lia.
  - by rewrite delete_id.
Qed.

Lemma depth_insert_string (m : gmap string JSON) (k s : string) :
  (depth (JObj (<[k := JStr s]> m)) ≤ depth (JObj m))%nat.
Proof.
  rewrite !depth_JObj.
  rewrite (maxDepth_lookup (<[k := JStr s]> m) k (JStr s)) by apply lookup_insert_eq.
  rewrite delete_insert_eq. simpl. pose proof (maxDepth_delete m k). lia.
Qed.

Lemma firstArraySchema_elem (l : list JSON) (sub : gmap string JSON) :
  firstArraySchema l = Some sub → JObj sub ∈ l.
Proof.
  induction l as [|j l IH]; [done|]. simpl.
  destruct j; try (intros H; right; by apply IH).
  destruct (isArraySchema m).
  - intros [= ->]. by left.
  - intros H; right; by apply IH.
Qed.

Lemma depth_withParentDescription (input sub : gmap string JSON) :
  (depth (JObj (withParentDescription input sub)) ≤ depth (JObj sub))%nat.
Proof.
  unfold withParentDescription.
  destruct (as_string (input !! "description")); [apply depth_insert_string|done].
Qed.

Lemma subSchemasOf_depth (input : gmap string JSON) (l : list JSON) :
  subSchemasOf input = Some l → (depth (JArr l) < depth (JObj input))%nat.
Proof.
  unfold subSchemasOf, as_array.
  destruct (input !! "anyOf") as [[]|] eqn:E1;
    try (destruct (input !! "oneOf") as [[]|] eqn:E2; try done;
         intros [= <-]; by eapply depth_lookup).
Qed.

(** Two recursors that agree below the depth of [input] give the same
    body. *)
Lemma convertBody_ext (rec1 rec2 : gmap string JSON → GeminiParameterSchema)
  (input : gmap string JSON) :
  (∀ m, (depth (JObj m) < depth (JObj input))%nat → rec1 m = rec2 m) →
  convertBody rec1 input = convertBody rec2 input.
Proof.
  intros Hrec. unfold convertBody.
  destruct (subSchemasOf input) as [l|] eqn:EL; simpl.
  - destruct (firstArraySchema l) as [sub|] eqn:EF.
    + apply Hrec.
      pose proof (depth_withParentDescription input sub).
      pose proof (depth_elem l _ (firstArraySchema_elem l sub EF)).
      pose proof (subSchemasOf_depth input l EL). lia.
    + unfold convertFields. f_equal.
      * destruct (as_object (input !! "properties")) as [p|] eqn:EP; [|done].
        f_equal. apply omap_ext. intros k v Hv. destruct v; try done.
        f_equal. apply Hrec.
        unfold as_object in EP. destruct (input !! "properties") as [[]|] eqn:E; try done.
        injection EP as ->.
        pose proof (depth_lookup _ _ _ Hv). pose proof (depth_lookup _ _ _ E). lia.
      * destruct (as_object (input !! "items")) as [i|] eqn:EI; [|done].
        f_equal. apply Hrec.
        unfold as_object in EI. destruct (input !! "items") as [[]|] eqn:E; try done.
        injection EI as ->. by eapply depth_lookup.
  - unfold convertFields. f_equal.
    + destruct (as_object (input !! "properties")) as [p|] eqn:EP; [|done].
      f_equal. apply omap_ext. intros k v Hv. destruct v; try done.
      f_equal. apply Hrec.
      unfold as_object in EP. destruct (input !! "properties") as [[]|] eqn:E; try done.
      injection EP as ->.
      pose proof (depth_lookup _ _ _ Hv). pose proof (depth_lookup _ _ _ E). lia.
    + destruct (as_object (input !! "items")) as [i|] eqn:EI; [|done].
      f_equal. apply Hrec.
      unfold as_object in EI. destruct (input !! "items") as [[]|] eqn:E; try done.
      injection EI as ->. by eapply depth_lookup.
Qed.

(** Beyond the depth of the input, more fuel changes nothing. *)
Lemma convert_fuel_stable (fuel1 fuel2 : nat) (input : gmap string JSON) :
  (depth (JObj input) ≤ fuel1)%nat → (depth (JObj input) ≤ fuel2)%nat →
  convert_fuel fuel1 input = convert_fuel fuel2 input.
Proof.
  revert fuel2 input. induction fuel1 as [|fuel1 IH]; intros fuel2 input H1 H2.
  - rewrite depth_JObj in H1. lia.
  - destruct fuel2 as [|fuel2]; [rewrite depth_JObj in H2; lia|].
    simpl. apply convertBody_ext. intros m Hm. apply IH; lia.
Qed.

(** [convertMap] satisfies the recursive equation of [ConvertSchema]. *)
Lemma convertMap_unfold (input : gmap string JSON) :
  convertMap input = convertBody convertMap input.
Proof.
  unfold convertMap at 1. rewrite depth_JObj. simpl.
  apply convertBody_ext. intros m Hm. unfold convertMap.
  apply convert_fuel_stable; [rewrite (depth_JObj input) in Hm; lia | done].
Qed.

Lemma isArraySchema_hasArrayType (m : gmap string JSON) :
  isArraySchema m = true ↔ hasArrayType (JObj m).
Proof.
  unfold isArraySchema, hasArrayType, as_string.
  destruct (m !! "type") as [[]|]; try (split; [discriminate|by intros [=]]).
  rewrite bool_decide_eq_true. split; [by intros ->|by intros [=]].
Qed.

Lemma firstArraySchema_None (l : list JSON) :
  firstArraySchema l = None ↔ Forall (λ j, ¬ hasArrayType j) l.
Proof.
  induction l as [|j l IH]; simpl; [by split|].
  rewrite Forall_cons, <- IH.
  destruct j; try (split; [by intros ?; split; [intros []|]|by intros [_ ?]]).
  destruct (isArraySchema m) eqn:E.
  - apply isArraySchema_hasArrayType in E. split; [done|]. by intros [? _].
  - split; [|by intros [_ ?]]. intros H. split; [|done].
    rewrite <- isArraySchema_hasArrayType. by rewrite E.
Qed.

Lemma firstArraySchema_first (before after : list JSON) (branch : gmap string JSON) :
  Forall (λ j, ¬ hasArrayType j) before → hasArrayType (JObj branch) →
  firstArraySchema (before ++ JObj branch :: after) = Some branch.
Proof.
  intros Hb Hbr. induction before as [|j before IH]; simpl.
  - apply isArraySchema_hasArrayType in Hbr. by rewrite Hbr.
  - apply Forall_cons in Hb as [Hj Hb]. specialize (IH Hb).
    destruct j; try done.
    destruct (isArraySchema m) eqn:E; [|done].
    apply isArraySchema_hasArrayType in E. contradiction.
Qed.

Lemma convertFields_without_union (rec : gmap string JSON → GeminiParameterSchema)
  (input : gmap string JSON) :
  convertFields rec (delete "anyOf" (delete "oneOf" input)) = convertFields rec input.
Proof.
  unfold convertFields. by rewrite !lookup_delete_ne by done.
Qed.

Lemma subSchemasOf_without_union (input : gmap string JSON) :
  subSchemasOf (delete "anyOf" (delete "oneOf" input)) = None.
Proof.
  unfold subSchemasOf. rewrite lookup_delete_eq. simpl.
  rewrite lookup_delete_ne by done. by rewrite lookup_delete_eq.
Qed.

(** The description of a schema map that has one is the description of its
    conversion, however many array branches are descended into. *)
Lemma convertMap_description (n : nat) (m : gmap string JSON) (d : string) :
  (depth (JObj m) ≤ n)%nat →
  as_string (m !! "description") = Some d →
  Description (convertMap m) = d.
Proof.
  revert m. induction n as [|n IH]; intros m Hn Hd.
  { rewrite depth_JObj in Hn. lia. }
  rewrite convertMap_unfold. unfold convertBody.
  destruct (subSchemasOf m) as [l|] eqn:EL; simpl.
  - destruct (firstArraySchema l) as [sub|] eqn:EF.
    + apply IH.
      * pose proof (depth_withParentDescription m sub).
        pose proof (depth_elem l _ (firstArraySchema_elem l sub EF)).
        pose proof (subSchemasOf_depth m l EL). lia.
      * unfold withParentDescription. rewrite Hd. by rewrite lookup_insert_eq.
    + simpl. by rewrite Hd.
  - by rewrite Hd.
Qed.

(** The first two cases of the source's test of the converter, and its
    [oneOf] case. *)
Example ConvertSchema_simple :
  ConvertSchema
    (Some {[ "type" := JStr "object"; "description" := JStr "A simple object.";
             "properties" := JObj {[ "name" := JObj {[ "type" := JStr "string";
                                                       "description" := JStr "The name." ]} ]};
             "required" := JArr [JStr "name"] ]}) =
  Some (mkSchema "OBJECT" "A simple object."
          (Some {[ "name" := mkSchema "STRING" "The name." None None [] [] ]})
          None ["name"] []).
Proof. vm_compute. reflexivity. Qed.

Example ConvertSchema_oneOf :
  ConvertSchema
    (Some {[ "description" := JStr "D";
             "oneOf" := JArr [ JObj {[ "type" := JStr "string" ]};
                               JObj {[ "type" := JStr "array";
                                       "items" := JObj {[ "type" := JStr "number" ]} ]} ] ]}) =
  Some (mkSchema "ARRAY" "D" None (Some (mkSchema "NUMBER" "" None None [] [])) [] []).
Proof. vm_compute. reflexivity. Qed.

(** C1, as the specification states it, fails: with no array among the
    sub-schemas the first one is not selected. *)
Lemma ConvertSchema_first_branch_counterexample :
  let first : gmap string JSON := {[ "type" := JStr "string" ]} in
  let subSchemas := [JObj first; JObj {[ "type" := JStr "number" ]}] in
  let input : gmap string JSON := {[ "anyOf" := JArr subSchemas ]} in
  subSchemasOf input = Some subSchemas ∧
  Forall (λ j, ¬ hasArrayType j) subSchemas ∧
  ConvertSchema (Some input) = Some emptySchema ∧
  ConvertSchema (Some first) = Some (mkSchema "STRING" "" None None [] []) ∧
  ConvertSchema (Some input) ≠ ConvertSchema (Some first).
Proof.
  intros first subSchemas input.
  split; [reflexivity|]. split; [by_evaluation|].
  split; [vm_compute; reflexivity|]. split; [vm_compute; reflexivity|].
  vm_compute. discriminate.
Qed.

(** C1, amended.  When the list the converter scans ([anyOf] if it is a
    list, else [oneOf]) has no sub-schema of type array, the list is
    ignored: the result is made of the supported fields of the input
    itself, and equals the conversion of the input without the two
    keys. *)
Theorem ConvertSchema_union_without_array
  (input : gmap string JSON) (subSchemas : list JSON) :
  subSchemasOf input = Some subSchemas →
  Forall (λ j, ¬ hasArrayType j) subSchemas →
  ConvertSchema (Some input) = Some (convertFields convertMap input) ∧
  ConvertSchema (Some input) =
    ConvertSchema (Some (delete "anyOf" (delete "oneOf" input))).
Proof.
  intros HL HF. apply firstArraySchema_None in HF.
  assert (convertMap input = convertFields convertMap input) as E.
  { rewrite convertMap_unfold at 1. unfold convertBody. rewrite HL. simpl. by rewrite HF. }
  split; simpl; f_equal; [done|].
  rewrite E. rewrite (convertMap_unfold (delete _ _)). unfold convertBody.
  rewrite subSchemasOf_without_union. simpl. by rewrite convertFields_without_union.
Qed.

Lemma ConvertSchema_union_without_array_witness :
  let subSchemas := [JObj {[ "type" := JStr "string" ]}; JNull;
                     JObj {[ "type" := JStr "number" ]}] in
  let input : gmap string JSON :=
    {[ "type" := JStr "object"; "description" := JStr "either";
       "oneOf" := JArr subSchemas ]} in
  ConvertSchema (Some input) = Some (convertFields convertMap input) ∧
  ConvertSchema (Some input) =
    ConvertSchema (Some (delete "anyOf" (delete "oneOf" input))).
Proof.
  intros subSchemas input.
  apply (ConvertSchema_union_without_array input subSchemas);
    [reflexivity | by_evaluation].
Defined.

(** C2, as the specification states it, fails: a chosen branch that has a
    description of its own does not keep it when the parent has one. *)
Lemma ConvertSchema_branch_description_counterexample :
  let branch : gmap string JSON :=
    {[ "type" := JStr "array"; "description" := JStr "B" ]} in
  let subSchemas := [JObj {[ "type" := JStr "string" ]}; JObj branch] in
  let input : gmap string JSON :=
    {[ "description" := JStr "P"; "anyOf" := JArr subSchemas ]} in
  subSchemasOf input = Some subSchemas ∧
  hasArrayType (JObj branch) ∧
  Description <$> ConvertSchema (Some branch) = Some "B" ∧
  Description <$> ConvertSchema (Some input) = Some "P" ∧
  ConvertSchema (Some input) ≠ ConvertSchema (Some branch).
Proof.
  intros branch subSchemas input.
  split; [reflexivity|]. split; [by_evaluation|].
  split; [vm_compute; reflexivity|]. split; [vm_compute; reflexivity|].
  vm_compute. discriminate.
Qed.

(** C2, amended.  The first sub-schema of type array is chosen wherever it
    stands in the list the converter scans, and the result is its
    conversion after the parent's description, when the parent has one,
    has replaced the branch's own; the branch keeps its description only
    when the parent has none. *)
Theorem ConvertSchema_prefers_array_branch
  (input branch : gmap string JSON) (before after : list JSON) :
  subSchemasOf input = Some (before ++ JObj branch :: after)%list →
  Forall (λ j, ¬ hasArrayType j) before →
  hasArrayType (JObj branch) →
  ConvertSchema (Some input) = ConvertSchema (Some (withParentDescription input branch)) ∧
  (∀ parentDesc, as_string (input !! "description") = Some parentDesc →
     ConvertSchema (Some input) =
       ConvertSchema (Some (<["description" := JStr parentDesc]> branch)) ∧
     Description <$> ConvertSchema (Some input) = Some parentDesc) ∧
  (as_string (input !! "description") = None →
     ConvertSchema (Some input) = ConvertSchema (Some branch)).
Proof.
  intros HL Hb Hbr.
  assert (convertMap input = convertMap (withParentDescription input branch)) as E.
  { rewrite convertMap_unfold at 1. unfold convertBody. rewrite HL. simpl.
    by rewrite (firstArraySchema_first before after branch Hb Hbr). }
  split; [simpl; by f_equal|]. split.
  - intros d Hd. split.
    + simpl. f_equal. rewrite E. unfold withParentDescription. by rewrite Hd.
    + simpl. f_equal. by eapply convertMap_description.
  - intros Hd. simpl. f_equal. rewrite E. unfold withParentDescription. by rewrite Hd.
Qed.

Lemma ConvertSchema_prefers_array_branch_witness :
  let branch : gmap string JSON :=
    {[ "type" := JStr "array"; "items" := JObj {[ "type" := JStr "number" ]} ]} in
  let input : gmap string JSON :=
    {[ "description" := JStr "D";
       "oneOf" := JArr ([JObj {[ "type" := JStr "string" ]}; JStr "x"] ++
                        JObj branch :: [JObj {[ "type" := JStr "array" ]}])%list ]} in
  ConvertSchema (Some input) = ConvertSchema (Some (withParentDescription input branch)) ∧
  (∀ parentDesc, as_string (input !! "description") = Some parentDesc →
     ConvertSchema (Some input) =
       ConvertSchema (Some (<["description" := JStr parentDesc]> branch)) ∧
     Description <$> ConvertSchema (Some input) = Some parentDesc) ∧
  (as_string (input !! "description") = None →
     ConvertSchema (Some input) = ConvertSchema (Some branch)).
Proof.
  intros branch input.
  apply (ConvertSchema_prefers_array_branch input branch
           [JObj {[ "type" := JStr "string" ]}; JStr "x"]
           [JObj {[ "type" := JStr "array" ]}]);
    [reflexivity | by_evaluation | by_evaluation].
Defined.

(** ** The SSE transformer *)

Lemma HasPrefix_app (p r : string) : Strings.HasPrefix (p ++ r) p = true.
Proof.
  induction p as [|c p IH]; simpl; [done|]. by rewrite Ascii.eqb_refl.
Qed.

Lemma HasPrefix_true (s p : string) :
  Strings.HasPrefix s p = true → ∃ r, s = p ++ r.
Proof.
  revert s. induction p as [|c p IH]; intros s; simpl.
  - intros _. by exists s.
  - destruct s as [|d s]; [done|].
    destruct (Ascii.eqb c d) eqn:E; [|done].
    apply Ascii.eqb_eq in E as ->. intros [r ->]%IH. by exists r.
Qed.

Lemma drop_bytes_app (p r : string) : Strings.drop_bytes (String.length p) (p ++ r) = r.
Proof. induction p as [|c p IH]; simpl; [by destruct r|done]. Qed.

Lemma TrimPrefix_app (p r : string) : Strings.TrimPrefix (p ++ r) p = r.
Proof. unfold Strings.TrimPrefix. by rewrite HasPrefix_app, drop_bytes_app. Qed.

Lemma copyTopLevel_delete (m : gmap string JSON) : copyTopLevel m = delete "response" m.
Proof.
  unfold copyTopLevel.
  apply (map_fold_weak_ind (λ acc m, acc = delete "response" m)).
  - by rewrite delete_empty.
  - intros k v m' acc Hk ->. destruct (decide (k = "response")) as [->|Hne].
    + by rewrite delete_insert_eq.
    + by rewrite delete_insert_ne.
Qed.

Lemma overlay_union (response geminiResp : gmap string JSON) :
  overlay response geminiResp = response ∪ geminiResp.
Proof.
  unfold overlay.
  apply (map_fold_weak_ind (λ acc r, acc = r ∪ geminiResp)).
  - by rewrite (left_id_L ∅ (∪)).
  - intros k v r acc Hk ->. by rewrite insert_union_l.
Qed.

Lemma unwrap_nested (m response : gmap string JSON) :
  m !! "response" = Some (JObj response) →
  unwrapCloudCodeResponse (Some m) = Some (response ∪ delete "response" m).
Proof.
  intros H. unfold unwrapCloudCodeResponse. rewrite H. simpl.
  by rewrite overlay_union, copyTopLevel_delete.
Qed.

Lemma flattened_lookup (m response : gmap string JSON) (k : string) :
  (response ∪ delete "response" m) !! k =
  match response !! k with
  | Some v => Some v
  | None => if decide (k = "response") then None else m !! k
  end.
Proof.
  rewrite lookup_union. destruct (response !! k) as [v|] eqn:E.
  - by destruct (delete "response" m !! k).
  - rewrite (left_id_L None _). destruct (decide (k = "response")) as [->|Hne].
    + apply lookup_delete_eq.
    + by apply lookup_delete_ne.
Qed.

Section SSEProperties.

Variable json_Unmarshal : string → result (option (gmap string JSON)).
Variable json_Marshal : option (gmap string JSON) → result string.

Lemma TransformSSELine_data (payload : string) :
  TransformSSELine json_Unmarshal json_Marshal ("data: " ++ payload) =
  match json_Unmarshal payload with
  | Err _ => "data: " ++ payload
  | Ok cloudCodeResp =>
      match json_Marshal (unwrapCloudCodeResponse cloudCodeResp) with
      | Err _ => "data: " ++ payload
      | Ok transformedJSON => "data: " ++ transformedJSON
      end
  end.
Proof.
  unfold TransformSSELine. rewrite HasPrefix_app, TrimPrefix_app. done.
Qed.

(** C5.  A line without the prefix ["data: "] is returned as it is; so is
    a data line whose payload does not parse; a data line whose payload
    holds a nested [response] object becomes ["data: "] and the
    serialization of the flattened object, which has every key of the
    nested object with its nested value and every other top-level key
    except [response]: the payload [{a:1, response:{a:2, b:3}}] is
    flattened to [{a:2, b:3}]. *)
Theorem TransformSSELine_unwraps :
  (∀ line, (∀ rest, line ≠ "data: " ++ rest) →
     TransformSSELine json_Unmarshal json_Marshal line = line) ∧
  (∀ payload e, json_Unmarshal payload = Err e →
     TransformSSELine json_Unmarshal json_Marshal ("data: " ++ payload) =
     "data: " ++ payload) ∧
  (∀ payload m response serialized,
     json_Unmarshal payload = Ok (Some m) →
     m !! "response" = Some (JObj response) →
     json_Marshal (Some (response ∪ delete "response" m)) = Ok serialized →
     TransformSSELine json_Unmarshal json_Marshal ("data: " ++ payload) =
     "data: " ++ serialized) ∧
  (∀ (m response : gmap string JSON) k,
     (response ∪ delete "response" m) !! k =
     match response !! k with
     | Some v => Some v
     | None => if decide (k = "response") then None else m !! k
     end) ∧
  unwrapCloudCodeResponse
    (Some {[ "a" := jint 1; "response" := JObj {[ "a" := jint 2; "b" := jint 3 ]} ]}) =
  Some {[ "a" := jint 2; "b" := jint 3 ]}.
Proof.
  split; [|split; [|split; [|split]]].
  - intros line Hline. unfold TransformSSELine.
    destruct (Strings.HasPrefix line "data: ") eqn:E; [|done].
    apply HasPrefix_true in E as [r ->]. by destruct (Hline r).
  - intros payload e He. by rewrite TransformSSELine_data, He.
  - intros payload m response serialized Hp Hr Hs.
    rewrite TransformSSELine_data, Hp. by rewrite (unwrap_nested m response Hr), Hs.
  - apply flattened_lookup.
  - vm_compute. reflexivity.
Qed.

End SSEProperties.

Lemma TransformSSELine_unwraps_witness :
  TransformSSELine demoUnmarshal demoMarshal "event: message" = "event: message" ∧
  TransformSSELine demoUnmarshal demoMarshal "data: {not json" = "data: {not json" ∧
  TransformSSELine demoUnmarshal demoMarshal ("data: " ++ demoPayload) =
    "data: {" ++ dquote ++ "a" ++ dquote ++ ":2," ++ dquote ++ "b" ++ dquote ++ ":3}".
Proof.
  destruct (TransformSSELine_unwraps demoUnmarshal demoMarshal) as (H1 & H2 & H3 & _).
  split; [|split].
  - apply H1. intros rest. vm_compute. discriminate.
  - apply (H2 "{not json" (Errorf "invalid character" None)). reflexivity.
  - apply (H3 demoPayload demoWrapped {[ "a" := jint 2; "b" := jint 3 ]});
      vm_compute; reflexivity.
Defined.

(** ** Function-response ids *)

(** The example of the specification: calls [x/1] and [y/2], then the
    id-less responses [y] and [x], get 2 and 1. *)
Example ensureFunctionResponseIDs_by_name :
  ensureFunctionResponseIDs
    [mkContent "model" [call "x" "1"; call "y" "2"];
     mkContent "user" [response "y" ""; response "x" ""]] =
  ([mkContent "model" [call "x" "1"; call "y" "2"];
    mkContent "user" [response "y" "2"; response "x" "1"]], 2%nat).
Proof. vm_compute. reflexivity. Qed.

(** An id-less response whose own queue is not empty takes its head, and
    the id leaves both queues. *)
Lemma takeFromName_head (q : Queues) (name id0 : string) (ids : list string) :
  name ≠ "" → queue (perName q) name = id0 :: ids → id0 ≠ "" →
  takeFromPending name (takeFromName q name) =
  (id0, removeFirst (pending q) id0, <[name := ids]> (perName q)).
Proof.
  intros Hn Hq Hid. unfold takeFromName. rewrite decide_False by done. rewrite Hq.
  unfold takeFromPending. rewrite (decide_False (P := id0 = "")) by done.
  unfold removeFirstMatch. by rewrite decide_False by done.
Qed.

(** The fall-back on the global queue: its head is popped, and the only
    per-name queue written is the (empty) one of the response's name, so
    every per-name queue reads as before.  The id stays in the queue of
    the name of its call. *)
Lemma takeFromPending_fallback (q : Queues) (name id0 : string) (rest : list string) :
  queue (perName q) name = [] → pending q = id0 :: rest →
  ∃ perName', takeFromPending name (takeFromName q name) = (id0, rest, perName') ∧
              ∀ other, queue perName' other = queue (perName q) other.
Proof.
  intros Hq Hp. unfold takeFromName, takeFromPending.
  destruct (decide (name = "")) as [Hn|Hn].
  - rewrite Hp. eexists. split; [done|done].
  - rewrite Hq, Hp. simpl. eexists. split; [done|].
    intros other. unfold queue at 1. destruct (decide (name = other)) as [<-|Hne].
    + rewrite lookup_insert_eq. simpl. rewrite Hq. unfold removeFirstMatch.
      by destruct (decide (id0 = "")).
    + by rewrite lookup_insert_ne.
Qed.

(** C3.  At the failing input the call [x/1] is followed by the id-less
    responses [y] and [x].  The first falls back on the global queue and
    gets 1; the id is not taken out of the queue of [x], and the second
    response gets 1 again. *)
Theorem ensureFunctionResponseIDs_reuses_id :
  ensureFunctionResponseIDs
    [mkContent "model" [call "x" "1"];
     mkContent "user" [response "y" ""; response "x" ""]] =
  ([mkContent "model" [call "x" "1"];
    mkContent "user" [response "y" "1"; response "x" "1"]], 2%nat).
Proof. vm_compute. reflexivity. Qed.

(** The same with a response that carries the id of a call of another
    name: the id is then assigned a second time. *)
Example ensureFunctionResponseIDs_reuses_carried_id :
  responseIDs
    (ensureFunctionResponseIDs
       [mkContent "model" [call "x" "1"];
        mkContent "user" [response "y" "1"; response "x" ""]]).1 = ["1"; "1"].
Proof. vm_compute. reflexivity. Qed.

(** ** Message translation *)

Section TranslatorProperties.

Variable json_Unmarshal : string → result (option (gmap string JSON)).
Variable uuid : nat → string.

Lemma recordNames_named (names : gmap string string) (tcs : list ToolCall) :
  named names → named (recordNames names tcs).
Proof.
  revert names. induction tcs as [|tc tcs IH]; intros names Hn; [done|].
  simpl. apply IH. destruct (decide _) as [|Hd]; [done|].
  intros id name. destruct (decide (tcID tc = id)) as [<-|Hne].
  - rewrite lookup_insert_eq. intros [= <-]. tauto.
  - rewrite lookup_insert_ne by done. apply Hn.
Qed.

Lemma toolCallNames_named (messages : list Message) : named (toolCallNames messages).
Proof.
  unfold toolCallNames.
  assert (∀ names, named names →
            named (foldl (λ names m,
                     if decide (msgRole m = "assistant")
                     then recordNames names (msgToolCalls m) else names) names messages))
    as H; [|apply H; by intros ??; rewrite lookup_empty].
  induction messages as [|m ms IH]; intros names Hn; [done|].
  simpl. apply IH. destruct (decide _); [by apply recordNames_named|done].
Qed.

Lemma callParts_named (names ids : gmap string string) (n : nat) (tcs : list ToolCall) :
  named names → named (callParts json_Unmarshal uuid names ids n tcs).1.1.1.
Proof.
  revert names ids n. induction tcs as [|tc tcs IH]; intros names ids n Hn; [done|].
  simpl.
  destruct (decide (Strings.TrimSpace (tcID tc) = "")) as [|];
    destruct (decide (tcFunctionName tc = "")) as [|Hname];
    match goal with
    | |- context [callParts _ _ ?a ?b ?c tcs] =>
        specialize (IH a b c); destruct (callParts json_Unmarshal uuid a b c tcs)
          as [[[names2 ids2] n2] parts]
    end; simpl in *; apply IH; try done;
    intros id name;
    match goal with
    | |- <[?k := _]> _ !! _ = _ → _ =>
        destruct (decide (k = id)) as [<-|Hne];
        [rewrite lookup_insert_eq; by intros [= <-]
        |rewrite lookup_insert_ne by done; apply Hn]
    end.
Qed.

Lemma callParts_noResponse (names ids : gmap string string) (n : nat) (tcs : list ToolCall) :
  noResponse (callParts json_Unmarshal uuid names ids n tcs).2.
Proof.
  revert names ids n. induction tcs as [|tc tcs IH]; intros names ids n; [constructor|].
  simpl.
  destruct (decide (Strings.TrimSpace (tcID tc) = "")) as [|];
    destruct (decide (tcFunctionName tc = "")) as [|Hname];
    match goal with
    | |- context [callParts _ _ ?a ?b ?c tcs] =>
        specialize (IH a b c); destruct (callParts json_Unmarshal uuid a b c tcs)
          as [[[names2 ids2] n2] parts]
    end; simpl in *; by constructor.
Qed.

Lemma resolveName_empty (names : gmap string string) (msg : Message) :
  named names →
  resolveName names msg = "" ↔
  msgName msg = "" ∧ (msgToolCallID msg = "" ∨ names !! msgToolCallID msg = None).
Proof.
  intros Hn. unfold resolveName.
  destruct (decide (msgName msg = "")) as [E|E]; [|by split; [|intros []]].
  destruct (decide (msgToolCallID msg = "")) as [E2|E2]; [by split; [split; [|left]|]|].
  destruct (names !! msgToolCallID msg) as [name|] eqn:EL; simpl.
  - split.
    + intros ->. by destruct (Hn _ _ EL).
    + by intros [_ [?|?]].
  - split; [by split; [|right]|done].
Qed.

Lemma toolResponse_err (st : Translation) (msg : Message) (output : string) (e : error) :
  toolResponse st msg output = Err e →
  resolveName (toolCallNameByID st) msg = "" ∧ e = MissingFunctionName.
Proof.
  unfold toolResponse. destruct (decide _); [by intros [= <-]|done].
Qed.

Lemma toolResponse_ok (st : Translation) (msg : Message) (output : string)
  (parts : list ContentPart) :
  toolResponse st msg output = Ok parts →
  resolveName (toolCallNameByID st) msg ≠ "" ∧
  responsesOf parts = [ {[ "output" := JStr output ]} ].
Proof.
  unfold toolResponse. destruct (decide _); [done|]. by intros [= <-].
Qed.

Lemma contentParts_err (st : Translation) (msg : Message) (e : error) :
  named (toolCallNameByID st) →
  contentParts st msg = Err e →
  unresolvedTool (toolCallNameByID st) msg ∧ e = MissingFunctionName.
Proof.
  intros Hn. unfold contentParts, unresolvedTool, respondsAsTool, hasTextContent.
  destruct (msgContent msg); try done;
    (destruct (decide (msgRole msg = "tool")); [|done]);
    intros [Hr ->]%toolResponse_err; apply resolveName_empty in Hr; tauto.
Qed.

Lemma contentParts_unresolved (st : Translation) (msg : Message) :
  named (toolCallNameByID st) →
  unresolvedTool (toolCallNameByID st) msg →
  contentParts st msg = Err MissingFunctionName.
Proof.
  intros Hn ([Hrole Htext] & Hname). apply resolveName_empty in Hname; [|done].
  unfold contentParts, hasTextContent in *.
  destruct (msgContent msg); try done;
    rewrite decide_True by done; unfold toolResponse; by rewrite decide_True.
Qed.

Lemma contentParts_tool (st : Translation) (msg : Message) (parts : list ContentPart) :
  msgRole msg = "tool" → contentParts st msg = Ok parts →
  responsesOf parts = toolOutput <$> filter respondsAsTool [msg].
Proof.
  intros Hr. unfold contentParts.
  destruct (msgContent msg) eqn:EC;
    try (intros [= <-]; rewrite filter_cons_False;
         [done|unfold respondsAsTool, hasTextContent; rewrite EC; tauto]);
    rewrite decide_True by done; intros [_ ->]%toolResponse_ok;
    (rewrite filter_cons_True;
     [simpl; unfold toolOutput; by rewrite EC
     |unfold respondsAsTool, hasTextContent; by rewrite EC]).
Qed.

Lemma contentParts_other (st : Translation) (msg : Message) (parts : list ContentPart) :
  msgRole msg ≠ "tool" → contentParts st msg = Ok parts → noResponse parts.
Proof.
  intros Hr. unfold contentParts.
  destruct (msgContent msg); try (intros [= <-]; constructor);
    rewrite decide_False by done; intros [= <-].
  - by repeat constructor.
  - apply Forall_fmap. by apply Forall_true.
Qed.

Lemma noResponse_responsesOf (parts : list ContentPart) :
  noResponse parts → responsesOf parts = [].
Proof.
  unfold responsesOf. induction 1 as [|p ps Hp _ IH]; [done|].
  simpl. by rewrite Hp.
Qed.

Lemma responsesOf_app (ps qs : list ContentPart) :
  responsesOf (ps ++ qs) = (responsesOf ps ++ responsesOf qs)%list.
Proof. unfold responsesOf. by rewrite omap_app, fmap_app. Qed.

(** The outcome of one message, case by case. *)
Lemma translateMessage_ok (st st1 : Translation) (msg : Message) :
  translateMessage json_Unmarshal uuid st msg = Ok st1 →
  recorded st1 = (advance json_Unmarshal uuid) (recorded st) msg ∧
  ((msgRole msg = "system" ∧ geminiContents st1 = geminiContents st ∧
    pendingToolParts st1 = pendingToolParts st) ∨
   (msgRole msg ≠ "system" ∧ deferred msg ∧ geminiContents st1 = geminiContents st ∧
    ∃ parts, pendingToolParts st1 = (pendingToolParts st ++ parts)%list ∧
             responsesOf parts = toolOutput <$> filter respondsAsTool [msg]) ∨
   (takesTurn msg ∧ pendingToolParts st1 = pendingToolParts st ∧
    ∃ parts, noResponse parts ∧
             (geminiContents st1 = geminiContents st ∨
              geminiContents st1 =
                (geminiContents st ++ [mkContent (geminiRole (msgRole msg)) parts])%list))).
Proof.
  unfold translateMessage, advance, recorded.
  destruct (decide (msgRole msg = "system")) as [Hs|Hs].
  { intros [= <-]. simpl. rewrite decide_False by (rewrite Hs; done). auto. }
  destruct (contentParts st msg) as [parts0|e] eqn:EC; [|done].
  destruct (decide (msgRole msg = "assistant")) as [Ha|Ha].
  - pose proof (callParts_noResponse (toolCallNameByID st) (toolCallIDByName st)
                  (nextUUID st) (msgToolCalls msg)) as Hcalls.
    destruct (callParts json_Unmarshal uuid _ _ _ _) as [[[names ids] n] calls].
    simpl in Hcalls.
    assert (msgRole msg ≠ "tool") as Ht by (rewrite Ha; done).
    pose proof (contentParts_other st msg parts0 Ht EC) as H0.
    assert (noResponse (parts0 ++ calls)) as Hparts by (by apply Forall_app).
    rewrite decide_False by (rewrite Ha; done).
    intros [= <-]. simpl. split; [done|]. right. right.
    split; [split; [unfold deferred; rewrite Ha; done|done]|]. split; [done|].
    exists (parts0 ++ calls)%list. split; [done|].
    destruct (parts0 ++ calls)%list; auto.
  - rewrite app_nil_r.
    destruct (decide (Strings.ToLower (msgRole msg) = "tool")) as [Hd|Hd].
    + intros [= <-]. simpl. split; [done|]. right. left.
      split; [done|]. split; [done|]. split; [done|].
      exists parts0. split; [done|].
      destruct (decide (msgRole msg = "tool")) as [Ht|Ht].
      * by apply (contentParts_tool st).
      * rewrite (noResponse_responsesOf parts0) by (by apply (contentParts_other st msg)).
        rewrite filter_cons_False; [done|]. unfold respondsAsTool. tauto.
    + assert (msgRole msg ≠ "tool") as Ht by (intros E; apply Hd; by rewrite E).
      pose proof (contentParts_other st msg parts0 Ht EC) as H0.
      intros [= <-]. simpl. split; [done|]. right. right.
      split; [done|]. split; [done|]. exists parts0. split; [done|].
      destruct parts0; auto.
Qed.

Lemma translateMessage_step (st st1 : Translation) (msg : Message) (before : list Message) :
  translateMessage json_Unmarshal uuid st msg = Ok st1 →
  translated st before → translated st1 (before ++ [msg]).
Proof.
  intros [_ H]%translateMessage_ok (Hc & Hs & Hp). unfold translated.
  rewrite !filter_app, !fmap_app.
  destruct H as [(Hsys & -> & ->)|[(Hsys & Hd & -> & parts & -> & Hparts)
                                  |(Ht & -> & parts & Hparts & Hcs)]].
  - rewrite filter_cons_False by (unfold takesTurn; tauto).
    rewrite filter_cons_False by (unfold respondsAsTool; rewrite Hsys; intros [[=] _]).
    simpl. by rewrite !app_nil_r.
  - rewrite filter_cons_False by (unfold takesTurn; tauto).
    simpl. rewrite app_nil_r. split; [done|]. split; [done|].
    by rewrite responsesOf_app, Hp, Hparts.
  - rewrite (filter_cons_True takesTurn) by done.
    rewrite filter_cons_False
      by (unfold respondsAsTool; intros [E _]; apply (proj1 Ht); unfold deferred;
          by rewrite E).
    simpl. rewrite app_nil_r. destruct Hcs as [->| ->].
    + split; [done|]. split; [|done]. by apply sublist_inserts_r.
    + split; [apply Forall_app; split; [done|by repeat constructor]|].
      split; [|done]. rewrite fmap_app. simpl. by apply sublist_app.
Qed.

Lemma translateMessages_translated (st st1 : Translation) (messages before : list Message)
  (n : nat) :
  translateMessages json_Unmarshal uuid st messages = (Ok st1, n) →
  translated st before → translated st1 (before ++ messages).
Proof.
  revert st before. induction messages as [|msg messages IH]; intros st before.
  - simpl. intros [= <- _]. by rewrite app_nil_r.
  - simpl. destruct (translateMessage json_Unmarshal uuid st msg) as [st2|e] eqn:E; [|done].
    intros H Ht. rewrite (cons_middle msg), app_assoc.
    apply (IH st2); [done|]. by eapply translateMessage_step.
Qed.

(** C9.  In a successful translation the contents are the turns of the
    messages that are not tool messages, in order and without any function
    response among their parts, followed by at most one content, of role
    [user], which holds the responses of all the tool messages in
    order. *)
Theorem tool_responses_trail (messages : list Message) (n n1 : nat)
  (contents : list Content) (si : option SystemInstruction) :
  convertMessagesToGeminiContents json_Unmarshal uuid messages n = (Ok (contents, si), n1) →
  ∃ turns pendingToolParts,
    contents =
      (turns ++ match pendingToolParts with
                | [] => []
                | _ :: _ => [mkContent "user" pendingToolParts]
                end)%list ∧
    Forall (λ c, noResponse (Parts c)) turns ∧
    sublist (Role <$> turns) ((λ m, geminiRole (msgRole m)) <$> filter takesTurn messages) ∧
    responsesOf pendingToolParts = toolOutput <$> filter respondsAsTool messages ∧
    (∀ msg, msg ∈ messages → msgRole msg = "tool" → ¬ takesTurn msg).
Proof.
  unfold convertMessagesToGeminiContents.
  destruct (translateMessages _ _ _ _) as [[st|e] n2] eqn:E; [|done].
  intros [= <- <- <-].
  pose proof (translateMessages_translated _ st messages [] n2 E) as (Hc & Hs & Hp).
  { split; [constructor|]. split; [constructor|done]. }
  exists (geminiContents st), (pendingToolParts st).
  split; [done|]. split; [done|]. split; [done|]. split; [done|].
  intros msg _ Hr [Hd _]. apply Hd. unfold deferred. by rewrite Hr.
Qed.

Lemma translateMessage_err (st : Translation) (msg : Message) (e : error) :
  named (toolCallNameByID st) →
  translateMessage json_Unmarshal uuid st msg = Err e →
  unresolvedTool (toolCallNameByID st) msg ∧ e = MissingFunctionName.
Proof.
  intros Hn. unfold translateMessage.
  destruct (decide (msgRole msg = "system")); [done|].
  destruct (contentParts st msg) as [parts0|e0] eqn:EC.
  - destruct (decide (msgRole msg = "assistant"));
      [destruct (callParts _ _ _ _ _ _) as [[[? ?] ?] ?]|];
      by destruct (decide (Strings.ToLower (msgRole msg) = "tool")).
  - intros [= <-]. by apply (contentParts_err st).
Qed.

Lemma translateMessage_unresolved (st : Translation) (msg : Message) :
  named (toolCallNameByID st) →
  unresolvedTool (toolCallNameByID st) msg →
  translateMessage json_Unmarshal uuid st msg = Err MissingFunctionName.
Proof.
  intros Hn Hu. unfold translateMessage.
  rewrite decide_False by (destruct Hu as [[-> _] _]; done).
  by rewrite (contentParts_unresolved st msg Hn Hu).
Qed.

Lemma advance_named (st st1 : Translation) (msg : Message) :
  named (toolCallNameByID st) → recorded st1 = (advance json_Unmarshal uuid) (recorded st) msg →
  named (toolCallNameByID st1).
Proof.
  intros Hn. unfold advance, recorded. simpl.
  destruct (decide (msgRole msg = "assistant")).
  - pose proof (callParts_named (toolCallNameByID st) (toolCallIDByName st) (nextUUID st)
                  (msgToolCalls msg) Hn) as H.
    destruct (callParts _ _ _ _ _ _) as [[[names ids] n] parts]. simpl in *.
    by intros [= -> _ _].
  - by intros [= -> _ _].
Qed.

Lemma translateMessages_err (st : Translation) (messages : list Message) :
  named (toolCallNameByID st) →
  is_err (translateMessages json_Unmarshal uuid st messages).1 ↔
  ∃ before msg rest,
    messages = (before ++ msg :: rest)%list ∧
    unresolvedTool (foldl (advance json_Unmarshal uuid) (recorded st) before).1.1 msg.
Proof.
  revert st. induction messages as [|m messages IH]; intros st Hn.
  - simpl. split; [done|]. intros (before & msg & rest & E & _). by destruct before.
  - simpl. destruct (translateMessage json_Unmarshal uuid st m) as [st1|e] eqn:E.
    + pose proof (translateMessage_ok st st1 m E) as [Hrec _].
      rewrite (IH st1 (advance_named st st1 m Hn Hrec)). rewrite Hrec.
      split.
      * intros (before & msg & rest & -> & Hu). by exists (m :: before), msg, rest.
      * intros (before & msg & rest & Heq & Hu). destruct before as [|m0 before].
        -- simpl in *. injection Heq as <- <-.
           by rewrite (translateMessage_unresolved st m Hn Hu) in E.
        -- simpl in *. injection Heq as <- ->. by exists before, msg, rest.
    + simpl. split; [|done]. intros _.
      apply (translateMessage_err st m e Hn) in E as [Hu _].
      by exists [], m, messages.
Qed.

Lemma translateMessages_error (st : Translation) (messages : list Message) (e : error) :
  named (toolCallNameByID st) →
  (translateMessages json_Unmarshal uuid st messages).1 = Err e → e = MissingFunctionName.
Proof.
  revert st. induction messages as [|m messages IH]; intros st Hn; [done|].
  simpl. destruct (translateMessage json_Unmarshal uuid st m) as [st1|e1] eqn:E.
  - pose proof (translateMessage_ok st st1 m E) as [Hrec _].
    apply IH. by eapply advance_named.
  - simpl. intros [= <-]. by apply (translateMessage_err st m e1 Hn) in E as [_ ->].
Qed.

(** C8, amended.  The translation fails exactly when some tool message
    whose content is a string or an array has no name of its own and no
    [tool_call_id] with a name recorded when the message is reached; the
    error is then the missing-function-name error.  The name of a
    response is the message's own name when it has one, else the name
    recorded for its [tool_call_id].  (A tool message with any other
    content makes no part and no error.) *)
Theorem missing_function_name_iff (messages : list Message) (n : nat) :
  (is_err (convertMessagesToGeminiContents json_Unmarshal uuid messages n).1 ↔
   ∃ before msg rest,
     messages = (before ++ msg :: rest)%list ∧
     unresolvedTool (namesAfter json_Unmarshal uuid messages before n) msg) ∧
  (∀ e, (convertMessagesToGeminiContents json_Unmarshal uuid messages n).1 = Err e →
        e = MissingFunctionName) ∧
  (∀ names msg,
     (msgName msg ≠ "" → resolveName names msg = msgName msg) ∧
     (∀ name, msgName msg = "" → msgToolCallID msg ≠ "" →
              names !! msgToolCallID msg = Some name → resolveName names msg = name)).
Proof.
  set (st0 := mkTranslation (toolCallNames messages) ∅ [] [] None n).
  assert (named (toolCallNameByID st0)) as Hn by apply toolCallNames_named.
  assert ((convertMessagesToGeminiContents json_Unmarshal uuid messages n).1 =
          match (translateMessages json_Unmarshal uuid st0 messages).1 with
          | Ok st => Ok ((geminiContents st ++ trailing (pendingToolParts st))%list,
                         systemInstruction st)
          | Err e => Err e
          end) as Hconv.
  { unfold convertMessagesToGeminiContents. fold st0.
    by destruct (translateMessages json_Unmarshal uuid st0 messages) as [[st|e] n1]. }
  split; [|split].
  - rewrite Hconv.
    transitivity (is_err (translateMessages json_Unmarshal uuid st0 messages).1);
      [by destruct (translateMessages json_Unmarshal uuid st0 messages).1|].
    apply (translateMessages_err st0 messages Hn).
  - intros e. rewrite Hconv.
    destruct (translateMessages json_Unmarshal uuid st0 messages).1 as [st|e1] eqn:E; [done|].
    intros [= <-]. by apply (translateMessages_error st0 messages e1 Hn).
  - intros names msg. unfold resolveName. split.
    + intros H. by rewrite decide_False.
    + intros name H1 H2 H3. rewrite decide_True by done. rewrite decide_False by done.
      by rewrite H3.
Qed.

End TranslatorProperties.

(** C8, as the specification states it, fails: a tool message without
    content has neither a name nor a [tool_call_id], and the translation
    succeeds, leaving the message out. *)
Lemma tool_message_without_text_counterexample :
  let msg := mkMessage "tool" JNull "" "" [] in
  msgRole msg = "tool" ∧ msgName msg = "" ∧ msgToolCallID msg = "" ∧
  convertMessagesToGeminiContents demoArguments demoUUID [msg] 0 =
    (Ok ([], None), 0%nat) ∧
  ¬ is_err (convertMessagesToGeminiContents demoArguments demoUUID [msg] 0).1.
Proof.
  intros msg. repeat split; try reflexivity. vm_compute. tauto.
Qed.

Lemma tool_responses_trail_witness :
  ∃ turns pendingToolParts,
    demoContents =
      (turns ++ match pendingToolParts with
                | [] => []
                | _ :: _ => [mkContent "user" pendingToolParts]
                end)%list ∧
    Forall (λ c, noResponse (Parts c)) turns ∧
    sublist (Role <$> turns)
            ((λ m, geminiRole (msgRole m)) <$> filter takesTurn demoConversation) ∧
    responsesOf pendingToolParts = toolOutput <$> filter respondsAsTool demoConversation ∧
    (∀ msg, msg ∈ demoConversation → msgRole msg = "tool" → ¬ takesTurn msg).
Proof.
  apply (tool_responses_trail demoArguments demoUUID demoConversation 0 0 demoContents None).
  vm_compute. reflexivity.
Defined.

(** ** The upstream client *)

Lemma attempt_shape (url body : string) (calls : list Event) (answer : result Response) :
  attempt url body calls answer →
  (length (filter isRefresh calls) ≤ 1)%nat ∧
  (length (filter isDo calls) ≤ 2)%nat ∧
  Forall (sentTo url) calls.
Proof.
  destruct 1; (split; [|split]);
    try (vm_compute; lia); repeat constructor.
Qed.

Section ClientProperties.

Context {World : Type}.
Variable provider_GetCredentials : World → result OAuthCredentials * World.
Variable provider_RefreshToken : World → option error * World.
Variable httpClient_Do : HTTPRequest → World → result Response * World.
Variable json_Marshal : GenerateContentRequest → result string.
Variable json_Unmarshal : string → result GenerateContentResponse.
Variable uuid : nat → string.

Local Abbreviation doRequest' :=
  (doRequest provider_GetCredentials provider_RefreshToken httpClient_Do).
Local Abbreviation loop' :=
  (generateContentLoop provider_GetCredentials provider_RefreshToken httpClient_Do
     json_Unmarshal).

(** One call of [doRequest] appends the calls of one attempt to the log. *)
Lemma doRequest_attempt (url body : string) (w : World) (log : list Event) :
  ∃ calls,
    (doRequest' "POST" url body "application/json" (w, log)).2.2 = (log ++ calls)%list ∧
    attempt url body calls (doRequest' "POST" url body "application/json" (w, log)).1.
Proof.
  unfold doRequest, doRequestWithToken, GetCredentials, RefreshTokenCall, Do.
  destruct (provider_GetCredentials w) as [[creds|e] w1]; simpl;
    [|eexists; split; [done|constructor]].
  destruct (decide (AccessToken creds = "")) as [Ht|Ht]; simpl;
    [eexists; split; [done|by constructor]|].
  destruct (httpClient_Do _ w1) as [[resp|e] w2]; simpl;
    [|eexists; split; [by rewrite <- app_assoc|by constructor]].
  destruct (decide (StatusCode resp = StatusUnauthorized)) as [Hs|Hs]; simpl;
    [|eexists; split; [by rewrite <- app_assoc|by constructor]].
  destruct (provider_RefreshToken w2) as [[e|] w3]; simpl;
    [eexists; split; [by rewrite <- !app_assoc|by constructor]|].
  destruct (provider_GetCredentials w3) as [[refreshed|e] w4]; simpl;
    [|eexists; split; [by rewrite <- !app_assoc|by constructor]].
  destruct (httpClient_Do _ w4) as [answer w5] eqn:E; simpl.
  exists [GetCredentialsEvent (Ok creds);
          DoEvent (postJSON url body (AccessToken creds)) (Ok resp);
          RefreshTokenEvent None; GetCredentialsEvent (Ok refreshed);
          DoEvent (postJSON url body (AccessToken refreshed)) answer].
  split.
  - destruct answer; simpl; by rewrite <- !app_assoc.
  - pose proof (attempt_retried url body creds refreshed resp answer Ht Hs) as H.
    by destruct answer.
Qed.

(** The loop over the endpoints: a run is a sequence of endpoints that
    failed over, in the order of the list, closed either by the endpoint
    that answered 200 with a readable body or by the end of the list. *)
Lemma generateContentLoop_spec (endpoints : list string) (body : string)
  (lastErr : option error) (w : World) (log : list Event) :
  ∃ (failures : list Tried) (final : option Tried),
    let out := loop' endpoints body lastErr (w, log) in
    let tried := (failures ++ option_list final)%list in
    Forall (wellFormed body) tried ∧
    (triedEndpoint <$> tried) `prefix_of` endpoints ∧
    out.2.2 = (log ++ concat (triedCalls <$> tried))%list ∧
    Forall failedOver failures ∧
    match final with
    | None =>
        triedEndpoint <$> failures = endpoints ∧
        out.1 = Err (default noEndpoints (lastRecorded lastErr failures))
    | Some t =>
        ∃ resp respBody,
          triedAnswer t = Ok resp ∧ StatusCode resp = StatusOK ∧
          Body resp = Ok respBody ∧ out.1 = (parsed json_Unmarshal) respBody
    end.
Proof.
  revert lastErr w log.
  induction endpoints as [|endpoint endpoints IH]; intros lastErr w log.
  { exists [], None. simpl. rewrite app_nil_r.
    split; [constructor|]. split; [done|]. split; [by destruct lastErr|].
    split; [constructor|]. split; [done|]. by destruct lastErr. }
  destruct (doRequest_attempt (generateContentURL endpoint) body w log)
    as (calls & Hlog & Hatt).
  simpl.
  destruct (doRequest' "POST" (generateContentURL endpoint) body "application/json" (w, log))
    as [answer [w1 log1]] eqn:ED.
  simpl in Hlog, Hatt. subst log1.
  set (t := mkTried endpoint calls answer).
  assert (wellFormed body t) as Hwf by done.
  assert (∀ e, recordedError endpoint answer = Some e →
            ∃ failures final,
              let out := loop' endpoints body (Some e) (w1, (log ++ calls)%list) in
              let tried := (failures ++ option_list final)%list in
              Forall (wellFormed body) tried ∧
              (triedEndpoint <$> tried) `prefix_of` (endpoint :: endpoints) ∧
              out.2.2 = (log ++ concat (triedCalls <$> tried))%list ∧
              Forall failedOver failures ∧
              match final with
              | None =>
                  triedEndpoint <$> failures = endpoint :: endpoints ∧
                  out.1 = Err (default noEndpoints (lastRecorded lastErr failures))
              | Some t =>
                  ∃ resp respBody,
                    triedAnswer t = Ok resp ∧ StatusCode resp = StatusOK ∧
                    Body resp = Ok respBody ∧ out.1 = (parsed json_Unmarshal) respBody
              end) as Hfail.
  { intros e He.
    destruct (IH (Some e) w1 (log ++ calls)%list) as (failures & final & H1 & H2 & H3 & H4 & H5).
    exists (t :: failures), final. simpl.
    split; [by constructor|].
    split; [by apply prefix_cons|].
    split; [by rewrite H3, <- app_assoc|].
    split; [constructor; [by unfold failedOver; simpl; rewrite He|done]|].
    destruct final as [tf|]; [done|].
    destruct H5 as [H5 H6]. split; [by f_equal|].
    rewrite He. exact H6. }
  destruct answer as [resp|e]; [|by apply (Hfail e)].
  destruct (Body resp) as [respBody|e] eqn:EB;
    [|apply (Hfail (Errorf "could not read response body" (Some e))); simpl; by rewrite EB].
  destruct (decide (StatusCode resp = StatusOK)) as [Hs|Hs].
  - exists [], (Some t). simpl. rewrite app_nil_r.
    split; [by repeat constructor|].
    split; [apply prefix_cons, prefix_nil|].
    split; [by destruct (json_Unmarshal respBody)|].
    split; [constructor|].
    exists resp, respBody. unfold parsed. by destruct (json_Unmarshal respBody).
  - apply (Hfail (UpstreamError (StatusCode resp) respBody (ContentType resp) endpoint)).
    simpl. rewrite EB. by rewrite decide_False.
Qed.

Lemma lastRecorded_last (lastErr : option error) (failures : list Tried) (t : Tried) :
  Forall failedOver failures → last failures = Some t →
  lastRecorded lastErr failures = recordedError (triedEndpoint t) (triedAnswer t).
Proof.
  intros HF HL. destruct failures as [|t0 fs] using rev_ind; [done|].
  rewrite last_snoc in HL. injection HL as ->.
  unfold lastRecorded. rewrite foldl_app. simpl.
  apply Forall_app in HF as [_ Ht]. apply Forall_singleton in Ht as [e He].
  by rewrite He.
Qed.

(** C4, amended.  A unary call whose request serializes tries the
    endpoints in the order of [Endpoints].  Each attempt makes the calls of
    one of the shapes of [attempt]: a 401 is followed by one refresh and,
    when the refresh and the reload of the credentials succeed, by one
    more request to the same URL; no attempt refreshes twice or sends to
    another endpoint.  An attempt that fails, or whose answer is not a
    readable 200, is recorded and the next endpoint is tried.  The call
    ends at the first 200 with the (parsed json_Unmarshal) body, or with the parse error
    of that body without trying the endpoints left; otherwise it fails
    after every endpoint, with the error recorded last. *)
Theorem GenerateContent_failover (req : GenerateContentRequest) (n : nat) (w : World)
  (body : string) :
  json_Marshal (prepareAntigravityRequest uuid req n).1 = Ok body →
  ∃ (failures : list Tried) (final : option Tried),
    let out :=
      GenerateContent provider_GetCredentials provider_RefreshToken httpClient_Do
        json_Marshal json_Unmarshal uuid req n (w, []) in
    let tried := (failures ++ option_list final)%list in
    (triedEndpoint <$> tried) `prefix_of` Endpoints ∧
    out.2.2 = concat (triedCalls <$> tried) ∧
    Forall (wellFormed body) tried ∧
    Forall (λ t, (length (filter isRefresh (triedCalls t)) ≤ 1)%nat ∧
                 (length (filter isDo (triedCalls t)) ≤ 2)%nat ∧
                 Forall (sentTo (generateContentURL (triedEndpoint t))) (triedCalls t))
           tried ∧
    Forall failedOver failures ∧
    match final with
    | Some t =>
        ∃ resp respBody,
          triedAnswer t = Ok resp ∧ StatusCode resp = StatusOK ∧
          Body resp = Ok respBody ∧
          out.1 = match json_Unmarshal respBody with
                  | Ok v => Ok v
                  | Err e => Err (Errorf "could not unmarshal response body" (Some e))
                  end
    | None =>
        triedEndpoint <$> failures = Endpoints ∧
        ∃ t e, last failures = Some t ∧
               recordedError (triedEndpoint t) (triedAnswer t) = Some e ∧
               out.1 = Err e
    end.
Proof.
  intros Hbody.
  destruct (generateContentLoop_spec Endpoints body None w [])
    as (failures & final & H1 & H2 & H3 & H4 & H5).
  exists failures, final. unfold GenerateContent.
  destruct (prepareAntigravityRequest uuid req n) as [req1 n1]. simpl in Hbody.
  rewrite Hbody. cbv zeta in *.
  split; [done|]. split; [done|]. split; [done|].
  split.
  { eapply Forall_impl; [exact H1|]. intros t Ht. by apply attempt_shape in Ht. }
  split; [done|].
  destruct final as [t|]; [done|].
  destruct H5 as [H5 H6]. split; [done|].
  destruct (last failures) as [t|] eqn:EL.
  - pose proof (lastRecorded_last None failures t H4 EL) as HR.
    assert (failedOver t) as [e He].
    { eapply Forall_forall; [exact H4|]. by apply last_Some_elem_of. }
    exists t, e. split; [done|]. split; [done|]. rewrite H6, HR, He. done.
  - apply last_None in EL. subst failures. discriminate H5.
Qed.

End ClientProperties.

Lemma GenerateContent_failover_witness :
  ∃ (failures : list Tried) (final : option Tried),
    let out :=
      GenerateContent demoGetCredentials demoRefresh demoDo demoMarshalRequest
        demoUnmarshalResponse demoUUID demoRequest 0 (0%nat, []) in
    let tried := (failures ++ option_list final)%list in
    (triedEndpoint <$> tried) `prefix_of` Endpoints ∧
    out.2.2 = concat (triedCalls <$> tried) ∧
    Forall (wellFormed "{}") tried ∧
    Forall (λ t, (length (filter isRefresh (triedCalls t)) ≤ 1)%nat ∧
                 (length (filter isDo (triedCalls t)) ≤ 2)%nat ∧
                 Forall (sentTo (generateContentURL (triedEndpoint t))) (triedCalls t))
           tried ∧
    Forall failedOver failures ∧
    match final with
    | Some t =>
        ∃ resp respBody,
          triedAnswer t = Ok resp ∧ StatusCode resp = StatusOK ∧
          Body resp = Ok respBody ∧
          out.1 = match demoUnmarshalResponse respBody with
                  | Ok v => Ok v
                  | Err e => Err (Errorf "could not unmarshal response body" (Some e))
                  end
    | None =>
        triedEndpoint <$> failures = Endpoints ∧
        ∃ t e, last failures = Some t ∧
               recordedError (triedEndpoint t) (triedAnswer t) = Some e ∧
               out.1 = Err e
    end.
Proof.
  apply (GenerateContent_failover demoGetCredentials demoRefresh demoDo demoMarshalRequest
           demoUnmarshalResponse demoUUID demoRequest 0 0%nat "{}").
  reflexivity.
Defined.

(** The run of the example: two requests to the first endpoint around one
    refresh, then the second endpoint, whose body is returned. *)
Example GenerateContent_demo_run :
  let out :=
    GenerateContent demoGetCredentials demoRefresh demoDo demoMarshalRequest
      demoUnmarshalResponse demoUUID demoRequest 0 (0%nat, []) in
  out.1 = Ok (mkGenerateContentResponse None) ∧
  out.2.2 =
    [ GetCredentialsEvent (Ok (demoCredentials "token-0"));
      DoEvent (postJSON (generateContentURL endpointDaily) "{}" "token-0")
        (Ok (mkResponse 401 (Ok "") "text/plain"));
      RefreshTokenEvent None;
      GetCredentialsEvent (Ok (demoCredentials "token-1"));
      DoEvent (postJSON (generateContentURL endpointDaily) "{}" "token-1")
        (Ok (mkResponse 500 (Ok "busy") "text/plain"));
      GetCredentialsEvent (Ok (demoCredentials "token-2"));
      DoEvent (postJSON (generateContentURL endpointProd) "{}" "token-2")
        (Ok (mkResponse 200 (Ok "{}") "application/json")) ].
Proof. vm_compute. split; reflexivity. Qed.

(** C4, as the specification states it, fails: the first endpoint answers
    200 with a body that does not parse, and the call fails at once; the
    second endpoint is never tried. *)
Lemma GenerateContent_unparsable_body_counterexample :
  let out :=
    GenerateContent demoGetCredentials demoRefresh brokenDo demoMarshalRequest
      demoUnmarshalResponse demoUUID demoRequest 0 (0%nat, []) in
  out.1 = Err (Errorf "could not unmarshal response body"
                 (Some (Errorf "invalid character" None))) ∧
  out.2.2 =
    [ GetCredentialsEvent (Ok (demoCredentials "token-0"));
      DoEvent (postJSON (generateContentURL endpointDaily) "{}" "token-0")
        (Ok (mkResponse 200 (Ok "<html>") "text/html")) ] ∧
  Forall (λ ev, ¬ (isDo ev ∧ sentTo (generateContentURL endpointProd) ev)) out.2.2.
Proof.
  vm_compute. split; [reflexivity|]. split; [reflexivity|].
  repeat constructor; intros [H1 H2]; try done; discriminate H2.
Qed.

(** * Further properties *)

(** ** Sanitizing: the counters, and sanitizing again *)

Lemma sanitizeParts_count (todo parts : list ContentPart) (k : nat) :
  (sanitizeParts todo parts k).2 =
  (k + length (filter (λ p, ¬ keptPart p) todo))%nat.
Proof.
  revert parts k. induction todo as [|part todo IH]; intros parts k; simpl; [lia|].
  destruct (isEmptyContentPart part) eqn:E.
  - rewrite IH. rewrite filter_cons_True by (unfold keptPart; by rewrite E). simpl. lia.
  - rewrite IH. rewrite filter_cons_False; [done|]. unfold keptPart. by intros [].
Qed.

Lemma length_filter_split {A : Type} (P : A → Prop) `{!∀ x, Decision (P x)}
  (l : list A) :
  length l = (length (filter P l) + length (filter (λ x, ¬ P x) l))%nat.
Proof.
  induction l as [|x l IH]; [done|].
  destruct (decide (P x)).
  - rewrite filter_cons_True by done. rewrite filter_cons_False by tauto. simpl. lia.
  - rewrite filter_cons_False by done. rewrite filter_cons_True by done. simpl. lia.
Qed.

Lemma sanitizeLoop_counts (todo cleaned : list Content) (pp pc : nat) :
  (sanitizeLoop todo cleaned pp pc).1.2 =
    (pp + length (filter (λ p, ¬ keptPart p) (concat (Parts <$> todo))))%nat ∧
  (sanitizeLoop todo cleaned pp pc).2 =
    (pc + length (filter (λ c, ¬ keptContent c) (pruneContent <$> todo)))%nat.
Proof.
  revert cleaned pp pc.
  induction todo as [|content todo IH]; intros cleaned pp pc; [simpl; lia|].
  rewrite !fmap_cons, concat_cons, filter_app, length_app. cbn [sanitizeLoop].
  destruct (Parts content) as [|p ps] eqn:EP.
  - destruct (IH cleaned pp (S pc)) as [-> ->].
    rewrite (filter_cons_True (λ c, ¬ keptContent c))
      by (unfold keptContent, pruneContent; simpl; rewrite EP; simpl; lia).
    rewrite filter_nil. cbn [length]. lia.
  - pose proof (sanitizeParts_filter (p :: ps) [] pp) as HF.
    pose proof (sanitizeParts_count (p :: ps) [] pp) as HC.
    destruct (sanitizeParts (p :: ps) [] pp) as [parts pp'] eqn:ES.
    cbn [fst snd] in HF, HC. rewrite app_nil_l in HF. subst parts pp'.
    destruct (filter keptPart (p :: ps)) as [|q qs] eqn:EF.
    + destruct (IH cleaned (pp + length (filter (λ p, ¬ keptPart p) (p :: ps)))%nat (S pc))
        as [-> ->].
      rewrite (filter_cons_True (λ c, ¬ keptContent c))
        by (unfold keptContent, pruneContent; simpl; rewrite EP, EF; simpl; lia).
      cbn [length]. lia.
    + destruct (IH (cleaned ++ [mkContent (Role content) (q :: qs)])%list
                  (pp + length (filter (λ p, ¬ keptPart p) (p :: ps)))%nat pc) as [-> ->].
      rewrite (filter_cons_False (λ c, ¬ keptContent c)); [lia|].
      unfold keptContent, pruneContent. simpl. rewrite EP, EF. simpl. lia.
Qed.

Lemma sanitizeContents_counts (contents : list Content) :
  (sanitizeContents contents).1.2 =
    length (filter (λ p, ¬ keptPart p) (concat (Parts <$> contents))) ∧
  (sanitizeContents contents).2 =
    length (filter (λ c, ¬ keptContent c) (pruneContent <$> contents)).
Proof.
  unfold sanitizeContents. destruct contents as [|c cs]; [done|].
  by destruct (sanitizeLoop_counts (c :: cs) [] 0 0) as [-> ->].
Qed.

Lemma filter_all {A : Type} (P : A → Prop) `{!∀ x, Decision (P x)} (l : list A) :
  Forall P l → filter P l = l.
Proof.
  induction 1 as [|x l Hx _ IH]; [done|]. rewrite filter_cons_True by done. by rewrite IH.
Qed.

Lemma filter_none {A : Type} (P : A → Prop) `{!∀ x, Decision (P x)} (l : list A) :
  Forall P l → filter (λ x, ¬ P x) l = [].
Proof.
  induction 1 as [|x l Hx _ IH]; [done|]. by rewrite filter_cons_False by tauto.
Qed.

Lemma filter_none_all {A : Type} (P : A → Prop) `{!∀ x, Decision (P x)} (l : list A) :
  length (filter (λ x, ¬ P x) l) = 0%nat → Forall P l.
Proof.
  induction l as [|x l IH]; [constructor|].
  destruct (decide (P x)).
  - rewrite filter_cons_False by tauto. intros Hlen. constructor; auto.
  - rewrite filter_cons_True by done. simpl. lia.
Qed.

Lemma pruneContent_kept (c : Content) : Forall keptPart (Parts c) → pruneContent c = c.
Proof. intros H. unfold pruneContent. rewrite filter_all by done. by destruct c. Qed.

Lemma clean_fixed (contents : list Content) :
  allKept contents → Forall keptContent contents →
  filter keptContent (pruneContent <$> contents) = contents.
Proof.
  intros HK HC. induction contents as [|c cs IH]; [done|].
  apply Forall_cons in HK as [Hk HK]. apply Forall_cons in HC as [Hc HC].
  rewrite fmap_cons, (pruneContent_kept c Hk). rewrite filter_cons_True by done.
  by rewrite IH.
Qed.

Lemma sanitized_keptContent (contents : list Content) :
  Forall keptContent (sanitized contents).
Proof.
  rewrite sanitized_filter. apply Forall_forall. by intros c [Hc _]%list_elem_of_filter.
Qed.

Lemma elem_of_all_parts (contents : list Content) (p : ContentPart) :
  p ∈ concat (Parts <$> contents) ↔ ∃ c, c ∈ contents ∧ p ∈ Parts c.
Proof.
  induction contents as [|c0 cs IH].
  - simpl. split; [by intros ?%elem_of_nil|by intros (c & ?%elem_of_nil & _)].
  - rewrite fmap_cons, concat_cons, elem_of_app, IH. split.
    + intros [H|(c & Hc & Hp)]; [exists c0; split; [by left|done]|].
      exists c. split; [by right|done].
    + intros (c & Hc & Hp). apply elem_of_cons in Hc as [->|Hc]; [by left|].
      right. by exists c.
Qed.

(** X1.  The two counters of [sanitizeContents] account for everything it
    removes: the contents kept and the contents counted make up the
    contents given, the parts kept and the parts counted make up the
    parts given, and both counters are zero exactly when the contents
    are returned as they were (which is when the caller logs nothing). *)
Theorem sanitizeContents_counters (contents : list Content) :
  let '(cleaned, prunedParts, prunedContents) := sanitizeContents contents in
  length contents = (length cleaned + prunedContents)%nat ∧
  length (concat (Parts <$> contents)) =
    (length (concat (Parts <$> cleaned)) + prunedParts)%nat ∧
  (prunedParts = 0%nat ∧ prunedContents = 0%nat ↔ cleaned = contents).
Proof.
  pose proof (sanitized_filter contents) as HS.
  pose proof (sanitizeContents_counts contents) as [HP HC].
  unfold sanitized in HS.
  destruct (sanitizeContents contents) as [[cleaned pp] pc]. simpl in *. subst.
  assert (length contents =
          (length (filter keptContent (pruneContent <$> contents)) +
           length (filter (λ c, ¬ keptContent c) (pruneContent <$> contents)))%nat) as H1.
  { rewrite <- (length_filter_split keptContent). by rewrite length_fmap. }
  assert (length (concat (Parts <$> contents)) =
          (length (concat (Parts <$> filter keptContent (pruneContent <$> contents))) +
           length (filter (λ p, ¬ keptPart p) (concat (Parts <$> contents))))%nat) as H2.
  { rewrite filter_concat_prune. apply length_filter_split. }
  split; [done|]. split; [done|]. split.
  - intros [Hp Hc]. apply filter_none_all in Hp. apply filter_none_all in Hc.
    apply clean_fixed.
    + unfold allKept. apply Forall_forall. intros c Hin.
      apply Forall_forall. intros p Hp'.
      eapply Forall_forall in Hp; [exact Hp|]. apply elem_of_all_parts. by exists c.
    + apply Forall_forall. intros c Hin.
      assert (Forall keptPart (Parts c)) as Hk.
      { apply Forall_forall. intros p Hp'.
        eapply Forall_forall in Hp; [exact Hp|]. apply elem_of_all_parts. by exists c. }
      eapply Forall_forall in Hc; [|apply list_elem_of_fmap; by exists c].
      by rewrite (pruneContent_kept c Hk) in Hc.
  - intros E. rewrite E in H1, H2. lia.
Qed.

(** X2.  Sanitizing is idempotent: sanitized contents pass through
    [sanitizeContents] unchanged, with both counters at zero. *)
Theorem sanitizeContents_idempotent (contents : list Content) :
  sanitizeContents (sanitized contents) = (sanitized contents, 0%nat, 0%nat).
Proof.
  pose proof (sanitized_allKept contents) as HK.
  pose proof (sanitized_keptContent contents) as HC.
  pose proof (sanitized_filter (sanitized contents)) as HS.
  pose proof (sanitizeContents_counts (sanitized contents)) as [HP HN].
  rewrite (clean_fixed _ HK HC) in HS. unfold sanitized at 1 in HS.
  destruct (sanitizeContents (sanitized contents)) as [[cleaned pp] pc]. simpl in *.
  subst cleaned. f_equal; [f_equal|].
  - rewrite HP. rewrite filter_none; [done|].
    apply Forall_forall. intros p (c & Hc & Hp)%elem_of_all_parts.
    eapply Forall_forall in HK; [|exact Hc]. by eapply Forall_forall in HK.
  - rewrite HN. rewrite filter_none; [done|].
    apply Forall_forall. intros c (c0 & -> & Hc)%list_elem_of_fmap.
    eapply Forall_forall in HK as Hk; [|exact Hc].
    rewrite (pruneContent_kept c0 Hk). by eapply Forall_forall in HC.
Qed.

(** ** [removeFirstMatch] *)

Lemma removeFirst_absent (values : list string) (target : string) :
  target ∉ values → removeFirst values target = values.
Proof.
  induction values as [|v values IH]; [done|].
  intros [Hne Hnin]%not_elem_of_cons. simpl.
  rewrite decide_False by done. by rewrite IH.
Qed.

Lemma removeFirst_split (before after : list string) (target : string) :
  target ∉ before →
  removeFirst (before ++ target :: after) target = (before ++ after)%list.
Proof.
  induction before as [|v before IH]; simpl.
  - intros _. by rewrite decide_True.
  - intros [Hne Hnin]%not_elem_of_cons. rewrite decide_False by done. by rewrite IH.
Qed.

Lemma removeFirst_elem (values : list string) (target id : string) :
  id ∈ removeFirst values target → id ∈ values.
Proof.
  induction values as [|v values IH]; [done|]. simpl.
  destruct (decide (v = target)).
  - intros H. by right.
  - intros [->|H]%elem_of_cons; [by left|]. right. by apply IH.
Qed.

Lemma removeFirstMatch_elem (values : list string) (target id : string) :
  id ∈ removeFirstMatch values target → id ∈ values.
Proof.
  unfold removeFirstMatch. destruct (decide (target = "")); [done|].
  apply removeFirst_elem.
Qed.

(** X3.  [removeFirstMatch] removes the first occurrence of the target and
    nothing else; an empty target, or a target that does not occur,
    leaves the values as they are. *)
Theorem removeFirstMatch_first_occurrence (values : list string) (target : string) :
  (target = "" → removeFirstMatch values target = values) ∧
  (target ∉ values → removeFirstMatch values target = values) ∧
  (∀ before after,
     target ≠ "" → values = (before ++ target :: after)%list → target ∉ before →
     removeFirstMatch values target = (before ++ after)%list) ∧
  (target ≠ "" → target ∈ values →
     S (length (removeFirstMatch values target)) = length values).
Proof.
  unfold removeFirstMatch. repeat split.
  - intros ->. done.
  - intros Hnin. destruct (decide (target = "")); [done|]. by apply removeFirst_absent.
  - intros before after Hne -> Hb. rewrite decide_False by done. by apply removeFirst_split.
  - intros Hne Hin. rewrite decide_False by done.
    induction values as [|v values IH]; [by apply elem_of_nil in Hin|].
    simpl. destruct (decide (v = target)); [done|].
    apply elem_of_cons in Hin as [->|Hin]; [done|]. simpl. by rewrite IH.
Qed.

Lemma removeFirstMatch_first_occurrence_witness :
  removeFirstMatch ["a"; "b"; "a"; "c"] "a" = (["b"; "a"; "c"])%list ∧
  S (length (removeFirstMatch ["a"; "b"; "a"; "c"] "a")) = 4%nat ∧
  removeFirstMatch ["a"; "b"] "z" = ["a"; "b"].
Proof.
  destruct (removeFirstMatch_first_occurrence ["a"; "b"; "a"; "c"] "a")
    as (_ & _ & H3 & H4).
  destruct (removeFirstMatch_first_occurrence ["a"; "b"] "z") as (_ & H2 & _).
  split; [|split].
  - apply (H3 [] ["b"; "a"; "c"]); [done|done|]. apply not_elem_of_nil.
  - apply H4; [done|]. by left.
  - apply H2. by_evaluation.
Defined.

(** ** Function-response ids *)

Lemma known_enqueue (seen : list string) (q : Queues) (name id : string) :
  known seen q → known (seen ++ [id]) (enqueueCall q name id).
Proof.
  intros [Hp Hn]. split; simpl.
  - intros i [H| ->%list_elem_of_singleton]%elem_of_app; apply elem_of_app; auto.
    right. by left.
  - intros nm i. destruct (decide (name = "")) as [|Hne].
    + intros H. apply elem_of_app. left. by eapply Hn.
    + unfold queue at 1. destruct (decide (name = nm)) as [<-|Hd].
      * rewrite lookup_insert_eq. simpl.
        intros [H| ->%list_elem_of_singleton]%elem_of_app; apply elem_of_app.
        -- left. by eapply Hn.
        -- right. by left.
      * rewrite lookup_insert_ne by done. intros H. apply elem_of_app. left. by eapply Hn.
Qed.

Lemma known_update (seen : list string) (q : Queues) (pending' : list string)
  (name : string) (ids : list string) (k : nat) :
  known seen q →
  (∀ id, id ∈ pending' → id ∈ pending q) →
  (∀ id, id ∈ ids → id ∈ queue (perName q) name) →
  known seen (mkQueues pending' (<[name := ids]> (perName q)) k).
Proof.
  intros [Hp Hn] H1 H2. split; simpl; [by auto|].
  intros nm i. unfold queue at 1. destruct (decide (name = nm)) as [<-|Hd].
  - rewrite lookup_insert_eq. simpl. intros H. eapply Hn. by apply H2.
  - rewrite lookup_insert_ne by done. apply Hn.
Qed.

Lemma known_pending (seen : list string) (q : Queues) (pending' : list string) (k : nat) :
  known seen q → (∀ id, id ∈ pending' → id ∈ pending q) →
  known seen (mkQueues pending' (perName q) k).
Proof. intros [Hp Hn] H1. split; simpl; auto. Qed.

Lemma known_consume (seen : list string) (q : Queues) (name id : string) :
  known seen q → known seen (consumeID q name id).
Proof.
  intros Hk. unfold consumeID. destruct (decide (name = "")).
  - apply known_pending; [done|]. intros i. apply removeFirstMatch_elem.
  - apply known_update; [done| |]; intros i; apply removeFirstMatch_elem.
Qed.

(** The id an id-less response receives is a known one, and the queues
    stay known. *)
Lemma take_known (seen : list string) (q : Queues) (name : string) :
  known seen q →
  let '(assigned, pending2, perName2) := takeFromPending name (takeFromName q name) in
  (assigned ≠ "" → assigned ∈ seen) ∧
  ∀ k, known seen (mkQueues pending2 perName2 k).
Proof.
  intros Hk. pose proof Hk as [Hp Hn].
  assert (∀ k, known seen (mkQueues (pending q) (perName q) k)) as Hsame.
  { intros k. by apply known_pending. }
  unfold takeFromName.
  destruct (decide (name = "")) as [Hname|Hname].
  - unfold takeFromPending. rewrite decide_True by done.
    destruct (pending q) as [|id0 rest] eqn:EP.
    + split; [done|]. intros k. specialize (Hsame k). rewrite ?EP in Hsame. exact Hsame.
    + rewrite decide_True by done. split.
      * intros _. apply Hp. rewrite ?EP. by left.
      * intros k. apply known_pending; [done|]. intros i Hi. rewrite ?EP. by right.
  - destruct (queue (perName q) name) as [|id0 ids] eqn:EQ.
    + unfold takeFromPending. rewrite decide_True by done.
      destruct (pending q) as [|p0 rest] eqn:EP.
      * split; [done|]. intros k. specialize (Hsame k). rewrite ?EP in Hsame. exact Hsame.
      * rewrite decide_False by done. split.
        -- intros _. apply Hp. rewrite ?EP. by left.
        -- intros k. apply known_update; [done| |].
           ++ intros i Hi. rewrite ?EP. by right.
           ++ intros i Hi%removeFirstMatch_elem. exact Hi.
    + unfold takeFromPending.
      destruct (decide (id0 = "")) as [->|Hid].
      * change (removeFirstMatch (pending q) "") with (pending q).
        assert (∀ k, known seen (mkQueues (pending q) (<[name := ids]> (perName q)) k))
          as Hk1.
        { intros k. apply known_update; [done|done|]. intros i Hi. rewrite EQ. by right. }
        destruct (pending q) as [|p0 rest] eqn:EP.
        -- split; [done|]. intros k. specialize (Hk1 k). rewrite ?EP in Hk1. exact Hk1.
        -- rewrite decide_False by done. split.
           ++ intros _. apply Hp. rewrite ?EP. by left.
           ++ intros k.
              specialize (Hk1 k). rewrite ?EP in Hk1.
              pose proof (known_update seen _ rest name
                            (removeFirstMatch (queue (<[name := ids]> (perName q)) name) p0)
                            k Hk1) as Hk2.
              simpl in Hk2. apply Hk2.
              ** intros i Hi. by right.
              ** by intros i Hi%removeFirstMatch_elem.
      * split.
        -- intros _. apply (Hn name). rewrite ?EQ. by left.
        -- intros k. apply known_update; [done| |].
           ++ intros i. apply removeFirstMatch_elem.
           ++ intros i Hi. rewrite ?EQ. by right.
Qed.

Lemma reconcilePart_filled (seen : list string) (q : Queues) (part : ContentPart) :
  known seen q →
  let '(q1, part1) := reconcilePart q part in
  known (seen ++ queuedID part) q1 ∧
  ((part1 = part ∧ missing q1 = missing q) ∨
   (∃ fr id, idlessResponse part = Some fr ∧ id ∈ seen ∧ id ≠ "" ∧ queuedID part = [] ∧
             part1 = setResponseID part fr id ∧ missing q1 = S (missing q))).
Proof.
  intros Hk. unfold reconcilePart, queuedID, idlessResponse.
  destruct (PartFunctionCall part) as [fc|] eqn:EC.
  { destruct (decide (Strings.TrimSpace (fcID fc) = "")).
    - rewrite app_nil_r. split; [done|]. by left.
    - split; [by apply known_enqueue|]. by left. }
  rewrite app_nil_r.
  destruct (PartFunctionResponse part) as [fr|] eqn:ER; [|split; [done|by left]].
  destruct (decide (Strings.TrimSpace (frID fr) = "")) as [Hid|Hid].
  - pose proof (take_known seen q (Strings.TrimSpace (frName fr)) Hk) as Ht.
    destruct (takeFromPending _ _) as [[assigned pending2] perName2].
    destruct Ht as [Ha Hq].
    destruct (decide (assigned = "")) as [->|Hne].
    + split; [apply Hq|]. by left.
    + split; [apply Hq|]. right. exists fr, assigned. repeat split; auto.
  - split; [by apply known_consume|]. by left.
Qed.

Lemma reconcileParts_filled (seen : list string) (q : Queues) (parts : list ContentPart) :
  known seen q →
  let '(q1, parts1) := reconcileParts q parts in
  ∃ k, filled seen parts parts1 k ∧ missing q1 = (missing q + k)%nat ∧
       known (seen ++ (parts ≫= queuedID)) q1.
Proof.
  revert seen q. induction parts as [|part parts IH]; intros seen q Hk.
  - simpl. exists 0%nat. rewrite app_nil_r. split; [constructor|]. split; [lia|done].
  - simpl. pose proof (reconcilePart_filled seen q part Hk) as H1.
    destruct (reconcilePart q part) as [q1 part1]. destruct H1 as [Hk1 H1].
    specialize (IH (seen ++ queuedID part)%list q1 Hk1).
    destruct (reconcileParts q1 parts) as [q2 parts1].
    destruct IH as (k & Hf & Hm & Hk2). rewrite <- app_assoc in Hk2.
    destruct H1 as [[-> Hm1]|(fr & id & Hfr & Hin & Hne & Hq & -> & Hm1)].
    + exists k. split; [by constructor|]. split; [lia|done].
    + exists (S k). rewrite Hq, app_nil_r in Hf. split; [by constructor|].
      split; [lia|done].
Qed.

Lemma filled_app (seen : list string) (ps ps' qs qs' : list ContentPart) (k j : nat) :
  filled seen ps ps' k → filled (seen ++ (ps ≫= queuedID)) qs qs' j →
  filled seen (ps ++ qs) (ps' ++ qs') (k + j).
Proof.
  induction 1 as [seen|seen part parts parts' k Hf IH
                 |seen part fr id parts parts' k Hfr Hin Hne Hf IH]; intros Hq.
  - simpl in Hq. by rewrite app_nil_r in Hq.
  - simpl. constructor. apply IH. simpl in Hq. by rewrite <- app_assoc.
  - simpl. constructor; [done|done|done|]. apply IH. simpl in Hq.
    assert (queuedID part = []) as E.
    { unfold idlessResponse in Hfr. unfold queuedID.
      by destruct (PartFunctionCall part). }
    by rewrite E in Hq.
Qed.

Lemma reconcileContents_filled (seen : list string) (q : Queues) (contents : list Content) :
  known seen q →
  let '(q1, contents1) := reconcileContents q contents in
  ∃ k, filled seen (concat (Parts <$> contents)) (concat (Parts <$> contents1)) k ∧
       missing q1 = (missing q + k)%nat ∧
       Role <$> contents1 = Role <$> contents ∧
       (λ c, length (Parts c)) <$> contents1 = (λ c, length (Parts c)) <$> contents.
Proof.
  revert seen q. induction contents as [|c cs IH]; intros seen q Hk.
  - simpl. exists 0%nat. split; [constructor|]. split; [lia|done].
  - simpl. pose proof (reconcileParts_filled seen q (Parts c) Hk) as H1.
    destruct (reconcileParts q (Parts c)) as [q1 parts1].
    destruct H1 as (k & Hf & Hm & Hk1).
    specialize (IH _ q1 Hk1).
    destruct (reconcileContents q1 cs) as [q2 cs1].
    destruct IH as (j & Hf2 & Hm2 & HR & HL).
    exists (k + j)%nat. simpl.
    split; [by apply filled_app|]. split; [lia|].
    split; [by f_equal|]. f_equal; [|done].
    clear -Hf. induction Hf; simpl; auto.
Qed.

Lemma filled_without_calls (ps ps' : list ContentPart) (k : nat) :
  filled [] ps ps' k → ps ≫= queuedID = [] → ps' = ps ∧ k = 0%nat.
Proof.
  remember [] as seen eqn:Es. intros Hf. revert Es.
  induction Hf as [seen|seen part parts parts' k Hf IH
                  |seen part fr id parts parts' k Hfr Hin Hne Hf IH]; intros -> Hq.
  - done.
  - simpl in Hq. apply app_eq_nil in Hq as [Hq1 Hq2]. rewrite Hq1 in IH.
    destruct (IH eq_refl Hq2) as [-> ->]. done.
  - by apply elem_of_nil in Hin.
Qed.

(** X5.  [ensureFunctionResponseIDs] changes nothing but the ids of
    function responses that had none: the contents keep their roles and
    their number of parts, every other part is as it was, each id filled
    in is the trimmed id of a function call met earlier in the contents,
    and the number returned counts the ids filled in.  Without a function
    call that has an id, the contents come back unchanged. *)
Theorem ensureFunctionResponseIDs_fills_from_earlier_calls (contents : list Content) :
  let '(contents1, filledIn) := ensureFunctionResponseIDs contents in
  Role <$> contents1 = Role <$> contents ∧
  (λ c, length (Parts c)) <$> contents1 = (λ c, length (Parts c)) <$> contents ∧
  filled [] (concat (Parts <$> contents)) (concat (Parts <$> contents1)) filledIn ∧
  (concat (Parts <$> contents) ≫= queuedID = [] →
   contents1 = contents ∧ filledIn = 0%nat).
Proof.
  unfold ensureFunctionResponseIDs.
  pose proof (reconcileContents_filled [] (mkQueues [] ∅ 0) contents) as H.
  destruct (reconcileContents (mkQueues [] ∅ 0) contents) as [q contents1].
  destruct H as (k & Hf & Hm & HR & HL).
  { split; simpl; [by intros i ?%elem_of_nil|].
    intros name i. unfold queue. rewrite lookup_empty. by intros ?%elem_of_nil. }
  simpl in Hm. subst k. split; [done|]. split; [done|]. split; [done|].
  intros Hq. destruct (filled_without_calls _ _ _ Hf Hq) as [Hp Hk]. split; [|done].
  clear -Hp HR HL. revert contents1 HR HL Hp.
  induction contents as [|c cs IH]; intros [|c1 cs1] HR HL Hp; try done.
  simpl in *. injection HR as HR1 HR2. injection HL as HL1 HL2.
  apply app_inj_1 in Hp as [Hp1 Hp2]; [|done].
  f_equal; [destruct c, c1; simpl in *; congruence|by apply IH].
Qed.

(** ** Fresh ids are not blank *)

Lemma string_app_assoc (a b c : string) : (a ++ b) ++ c = a ++ (b ++ c).
Proof.
  induction a as [|x a IH]; [done|].
  change (String x ((a ++ b) ++ c) = String x (a ++ (b ++ c))). by f_equal.
Qed.

Lemma list_ascii_app (a b : string) :
  list_ascii_of_string (a ++ b) = (list_ascii_of_string a ++ list_ascii_of_string b)%list.
Proof. induction a as [|c a IH]; simpl; [done|]. by rewrite IH. Qed.

Lemma string_of_list_app (l1 l2 : list ascii) :
  string_of_list_ascii (l1 ++ l2) = string_of_list_ascii l1 ++ string_of_list_ascii l2.
Proof. induction l1 as [|c l1 IH]; simpl; [done|]. by rewrite IH. Qed.

Lemma rev_string_app (a b : string) :
  Strings.rev_string (a ++ b) = Strings.rev_string b ++ Strings.rev_string a.
Proof.
  unfold Strings.rev_string. by rewrite list_ascii_app, rev_app_distr, string_of_list_app.
Qed.

Lemma rev_string_length (s : string) : String.length (Strings.rev_string s) = String.length s.
Proof.
  unfold Strings.rev_string.
  rewrite <- (string_of_list_ascii_of_string s) at 2.
  generalize (list_ascii_of_string s). intros l.
  assert (∀ l, String.length (string_of_list_ascii l) = length l) as HL.
  { intros l0. induction l0 as [|c l0 IH]; simpl; [done|]. by rewrite IH. }
  rewrite !HL. apply length_rev.
Qed.

(** A prefix free of the byte that starts [t] cannot reach into [t]. *)
Lemma HasPrefix_app_inv (p x t' : string) (c : ascii) :
  c ∉ list_ascii_of_string p →
  Strings.HasPrefix (x ++ String c t') p = true → Strings.HasPrefix x p = true.
Proof.
  revert x. induction p as [|b p IH]; intros x Hc; [done|].
  simpl in Hc. apply not_elem_of_cons in Hc as [Hne Hc].
  destruct x as [|a x]; simpl.
  - destruct (Ascii.eqb b c) eqn:E; [|done]. apply Ascii.eqb_eq in E. congruence.
  - destruct (Ascii.eqb b a); [|done]. by apply IH.
Qed.

Lemma drop_bytes_app_l (n : nat) (p x t : string) :
  Strings.HasPrefix x p = true → n = String.length p →
  Strings.drop_bytes n (x ++ t) = Strings.drop_bytes n x ++ t.
Proof.
  intros H ->. revert x H. induction p as [|b p IH]; intros x H; simpl.
  - by destruct x.
  - destruct x as [|a x]; [done|]. simpl in *.
    destruct (Ascii.eqb b a); [|done]. by apply IH.
Qed.

Lemma underscore_in_no_space :
  Forall (λ sp, ascii_of_nat 95 ∉ list_ascii_of_string (Strings.rev_string sp))
    Strings.spaces.
Proof. by_evaluation. Qed.

Lemma trailing_space_elem (r sp : string) :
  Strings.trailing_space r = Some sp →
  sp ∈ Strings.spaces ∧ Strings.HasPrefix r (Strings.rev_string sp) = true.
Proof.
  unfold Strings.trailing_space. intros H. apply List.find_some in H as [H1 H2].
  split; [by apply list_elem_of_In|done].
Qed.

Lemma TrimRight_fuel_keeps (fuel : nat) (x t' : string) :
  ∃ x', Strings.TrimRight_fuel fuel (x ++ String (ascii_of_nat 95) t') =
        x' ++ String (ascii_of_nat 95) t'.
Proof.
  revert x. induction fuel as [|fuel IH]; intros x; [by exists x|].
  simpl. destruct (Strings.trailing_space _) as [sp|] eqn:E; [|by exists x].
  apply trailing_space_elem in E as [Hsp Hp].
  pose proof underscore_in_no_space as HU.
  eapply Forall_forall in HU; [|exact Hsp].
  apply HasPrefix_app_inv in Hp; [|done].
  rewrite (drop_bytes_app_l _ (Strings.rev_string sp)); [apply IH|done|].
  by rewrite rev_string_length.
Qed.

Lemma TrimSpace_toolu (u : string) : Strings.TrimSpace ("toolu_" ++ u) ≠ "".
Proof.
  unfold Strings.TrimSpace.
  assert (Strings.TrimLeft ("toolu_" ++ u) = "toolu_" ++ u) as ->.
  { unfold Strings.TrimLeft. simpl. reflexivity. }
  unfold Strings.TrimRight.
  change ("toolu_" ++ u) with ("toolu" ++ (String (ascii_of_nat 95) u)) at 2.
  rewrite rev_string_app.
  assert (Strings.rev_string (String (ascii_of_nat 95) u) =
          Strings.rev_string u ++ String (ascii_of_nat 95) "") as E.
  { change (String (ascii_of_nat 95) u) with ("_" ++ u). by rewrite rev_string_app. }
  rewrite E, string_app_assoc.
  change (String (ascii_of_nat 95) "" ++ Strings.rev_string "toolu")
    with (String (ascii_of_nat 95) "uloot").
  destruct (TrimRight_fuel_keeps (String.length ("toolu_" ++ u)) (Strings.rev_string u)
              "uloot") as [x' ->].
  change (String (ascii_of_nat 95) "uloot") with ("_" ++ "uloot").
  rewrite <- string_app_assoc, rev_string_app. by vm_compute.
Qed.

(** ** Function-call ids *)

Lemma freshened_widen (uuid : nat → string) (n m n1 m1 : nat) (l l' : list ContentPart) :
  (n ≤ m)%nat → (m1 ≤ n1)%nat →
  Forall2 (freshened uuid m m1) l l' → Forall2 (freshened uuid n n1) l l'.
Proof.
  intros Hn Hm HF. eapply Forall2_impl; [exact HF|].
  intros p p1 [H|(fc & i & H1 & H2 & H3 & H4)]; [by left|]. right.
  exists fc, i. repeat split; auto; lia.
Qed.

Lemma fillCallIDs_spec (uuid : nat → string) (parts : list ContentPart) (n k : nat) :
  let '(parts1, n1, k1) := fillCallIDs uuid parts n k in
  n1 = (n + length (filter blankCall parts))%nat ∧
  k1 = (k + length (filter blankCall parts))%nat ∧
  Forall2 (freshened uuid n n1) parts parts1 ∧
  Forall (λ p, ¬ blankCall p) parts1.
Proof.
  revert n k. induction parts as [|part parts IH]; intros n k.
  { simpl. repeat split; try lia; constructor. }
  cbn [fillCallIDs].
  destruct (PartFunctionCall part) as [fc|] eqn:EC.
  - destruct (decide (Strings.TrimSpace (fcID fc) = "")) as [Hb|Hb].
    + specialize (IH (S n) (S k)).
      destruct (fillCallIDs uuid parts (S n) (S k)) as [[parts1 n1] k1].
      destruct IH as (-> & -> & HF & HN).
      rewrite filter_cons_True by (unfold blankCall; by rewrite EC).
      cbn [length]. split; [lia|]. split; [lia|]. split.
      * constructor; [|eapply freshened_widen; [| |exact HF]; lia].
        right. exists fc, n. repeat split; auto; lia.
      * constructor; [|done]. unfold blankCall. simpl. apply TrimSpace_toolu.
    + specialize (IH n k). destruct (fillCallIDs uuid parts n k) as [[parts1 n1] k1].
      destruct IH as (-> & -> & HF & HN).
      rewrite filter_cons_False by (unfold blankCall; by rewrite EC).
      split; [done|]. split; [done|]. split.
      * constructor; [|done]. left. split; [|done]. unfold blankCall. by rewrite EC.
      * constructor; [|done]. unfold blankCall. by rewrite EC.
  - specialize (IH n k). destruct (fillCallIDs uuid parts n k) as [[parts1 n1] k1].
    destruct IH as (-> & -> & HF & HN).
    rewrite filter_cons_False by (unfold blankCall; rewrite EC; tauto).
    split; [done|]. split; [done|]. split.
    + constructor; [|done]. left. split; [|done]. unfold blankCall. rewrite EC. tauto.
    + constructor; [|done]. unfold blankCall. rewrite EC. tauto.
Qed.

Lemma ensureFunctionCallIDs_loop_spec (uuid : nat → string) (contents : list Content)
  (n k : nat) :
  let '(contents1, n1, k1) := ensureFunctionCallIDs_loop uuid contents n k in
  n1 = (n + length (filter blankCall (concat (Parts <$> contents))))%nat ∧
  k1 = (k + length (filter blankCall (concat (Parts <$> contents))))%nat ∧
  Role <$> contents1 = Role <$> contents ∧
  Forall2 (λ c c1, Forall2 (freshened uuid n n1) (Parts c) (Parts c1)) contents contents1 ∧
  Forall (λ p, ¬ blankCall p) (concat (Parts <$> contents1)).
Proof.
  revert n k. induction contents as [|c cs IH]; intros n k.
  { simpl. repeat split; try lia; constructor. }
  cbn [ensureFunctionCallIDs_loop].
  pose proof (fillCallIDs_spec uuid (Parts c) n k) as H1.
  destruct (fillCallIDs uuid (Parts c) n k) as [[parts1 n1] k1].
  destruct H1 as (-> & -> & HF & HN).
  specialize (IH (n + length (filter blankCall (Parts c)))%nat
                 (k + length (filter blankCall (Parts c)))%nat).
  destruct (ensureFunctionCallIDs_loop uuid cs _ _) as [[cs1 n2] k2].
  destruct IH as (-> & -> & HR & HF2 & HN2).
  rewrite !fmap_cons, !concat_cons, filter_app, length_app.
  split; [lia|]. split; [lia|]. split; [simpl; by f_equal|]. split.
  - constructor.
    + simpl. eapply freshened_widen; [| |exact HF]; lia.
    + eapply Forall2_impl; [exact HF2|]. intros c0 c1 H.
      eapply freshened_widen; [| |exact H]; lia.
  - simpl. apply Forall_app. by split.
Qed.

Lemma fillCallIDs_none (uuid : nat → string) (parts : list ContentPart) (n k : nat) :
  Forall (λ p, ¬ blankCall p) parts → fillCallIDs uuid parts n k = (parts, n, k).
Proof.
  induction 1 as [|part parts Hp _ IH]; [done|].
  cbn [fillCallIDs]. unfold blankCall in Hp.
  destruct (PartFunctionCall part) as [fc|].
  - rewrite decide_False by done. by rewrite IH.
  - by rewrite IH.
Qed.

Lemma ensureFunctionCallIDs_loop_none (uuid : nat → string) (contents : list Content)
  (n k : nat) :
  Forall (λ p, ¬ blankCall p) (concat (Parts <$> contents)) →
  ensureFunctionCallIDs_loop uuid contents n k = (contents, n, k).
Proof.
  induction contents as [|c cs IH]; [done|].
  rewrite fmap_cons, concat_cons. intros [H1 H2]%Forall_app.
  cbn [ensureFunctionCallIDs_loop]. rewrite (fillCallIDs_none uuid _ n k H1).
  rewrite (IH H2). by destruct c.
Qed.

(** X4.  [ensureFunctionCallIDs] gives a fresh id, made of ["toolu_"] and
    the next string of the random source, to each function call whose id
    is blank and touches nothing else; it returns the number of ids it
    made and draws that many strings.  Afterwards no function call has a
    blank id, so running it again changes nothing and draws nothing. *)
Theorem ensureFunctionCallIDs_fills_blank_ids (uuid : nat → string)
  (contents : list Content) (n : nat) :
  let '(contents1, n1, made) := ensureFunctionCallIDs uuid contents n in
  made = length (filter blankCall (concat (Parts <$> contents))) ∧
  n1 = (n + made)%nat ∧
  Role <$> contents1 = Role <$> contents ∧
  Forall2 (λ c c1, Forall2 (freshened uuid n n1) (Parts c) (Parts c1)) contents contents1 ∧
  Forall (λ p, ¬ blankCall p) (concat (Parts <$> contents1)) ∧
  ∀ uuid' n', ensureFunctionCallIDs uuid' contents1 n' = (contents1, n', 0%nat).
Proof.
  unfold ensureFunctionCallIDs.
  pose proof (ensureFunctionCallIDs_loop_spec uuid contents n 0) as H.
  destruct (ensureFunctionCallIDs_loop uuid contents n 0) as [[contents1 n1] made].
  destruct H as (-> & -> & HR & HF & HN).
  split; [done|]. split; [done|]. split; [done|]. split; [done|]. split; [done|].
  intros uuid' n'. by apply ensureFunctionCallIDs_loop_none.
Qed.

(** ** The session id without user text, and the system instruction *)

Lemma deriveSessionID_no_user_text (uuid : nat → string) (contents : list Content) (n : nat) :
  firstUserText contents = None → deriveSessionID uuid contents n = (uuid n, S n).
Proof.
  unfold firstUserText.
  induction contents as [|c cs IH]; [done|].
  simpl. rewrite collectTexts_filter. simpl. fold (textsOf c).
  destruct (decide (isUserText c)) as [Hu|Hn].
  - by rewrite filter_cons_True by done.
  - rewrite filter_cons_False by done. intros H. specialize (IH H).
    destruct (decide (Strings.ToLower (Role c) = "user")) as [Hr|Hr]; [|done].
    destruct (textsOf c) eqn:E; [done|].
    exfalso. apply Hn. split; [done|]. by rewrite E.
Qed.

(** X7.  Contents without user text get a session id from the random
    source: the next string of the source, which is then consumed.  Two
    such derivations in a row give two different ids as long as the
    source does not repeat itself. *)
Theorem deriveSessionID_random_without_user_text (uuid : nat → string)
  (contents1 contents2 : list Content) (n : nat) :
  firstUserText contents1 = None → firstUserText contents2 = None →
  let '(id1, n1) := deriveSessionID uuid contents1 n in
  let '(id2, n2) := deriveSessionID uuid contents2 n1 in
  id1 = uuid n ∧ id2 = uuid (S n) ∧ n2 = S (S n) ∧
  ((∀ i j, uuid i = uuid j → i = j) → id1 ≠ id2).
Proof.
  intros H1 H2.
  rewrite (deriveSessionID_no_user_text uuid contents1 n H1).
  rewrite (deriveSessionID_no_user_text uuid contents2 (S n) H2).
  repeat split. intros Hinj E. apply Hinj in E. lia.
Qed.

Lemma deriveSessionID_random_without_user_text_witness :
  let '(id1, n1) :=
    deriveSessionID demoUUID [mkContent "model" [textPart "hi"]; mkContent "user" []] 3 in
  let '(id2, n2) :=
    deriveSessionID demoUUID [mkContent "user" [callPart (mkFunctionCall "1" "f" ∅)]] n1 in
  id1 = demoUUID 3 ∧ id2 = demoUUID 4 ∧ n2 = 5%nat ∧
  ((∀ i j, demoUUID i = demoUUID j → i = j) → id1 ≠ id2).
Proof.
  apply (deriveSessionID_random_without_user_text demoUUID
           [mkContent "model" [textPart "hi"]; mkContent "user" []]
           [mkContent "user" [callPart (mkFunctionCall "1" "f" ∅)]] 3); reflexivity.
Defined.

Lemma texts_of_plain (l : list ContentPart) :
  Forall plainText l → textPart <$> filter (λ t, t ≠ "") (Text <$> l) = l.
Proof.
  induction 1 as [|p l (H1 & H2 & H3 & H4) _ IH]; [done|].
  rewrite fmap_cons, filter_cons_True by done. rewrite fmap_cons, IH.
  f_equal. destruct p. simpl in *. unfold textPart. by subst.
Qed.

Lemma buildAntigravitySystemInstruction_parts (existing : option SystemInstruction) :
  siParts (buildAntigravitySystemInstruction existing) =
  (preamble ++
   (textPart <$> filter (λ t, t ≠ "")
      (Text <$> match existing with Some e => siParts e | None => [] end)))%list.
Proof. unfold buildAntigravitySystemInstruction. by destruct existing. Qed.

Lemma buildAntigravitySystemInstruction_plain (existing : option SystemInstruction) :
  Forall plainText (siParts (buildAntigravitySystemInstruction existing)).
Proof.
  rewrite buildAntigravitySystemInstruction_parts. apply Forall_app. split.
  - repeat constructor; done.
  - apply Forall_fmap, Forall_forall. intros t [Ht _]%list_elem_of_filter.
    by repeat split.
Qed.

Lemma buildAntigravitySystemInstruction_rebuilt (existing : option SystemInstruction) :
  buildAntigravitySystemInstruction (Some (buildAntigravitySystemInstruction existing)) =
  mkSystemInstruction "user"
    (preamble ++ siParts (buildAntigravitySystemInstruction existing)).
Proof.
  unfold buildAntigravitySystemInstruction at 1. f_equal.
  change [textPart SystemInstructionText;
          textPart ("Please ignore the following [ignore]" ++ SystemInstructionText ++
                    "[/ignore]")] with preamble.
  f_equal. apply texts_of_plain, buildAntigravitySystemInstruction_plain.
Qed.

(** X6.  The system instruction built for a request always has the role
    [user] and starts with the two fixed parts; the caller's non-empty
    texts follow in their order, and nothing else of the caller's
    instruction is kept (its role, empty parts, thought signatures and
    function payloads are gone): every part is a plain non-empty text.
    Building from an instruction that was already built repeats the two
    fixed parts. *)
Theorem buildAntigravitySystemInstruction_shape (existing : option SystemInstruction) :
  let si := buildAntigravitySystemInstruction existing in
  siRole si = "user" ∧
  siParts si =
    (preamble ++
     (textPart <$> filter (λ t, t ≠ "")
                     (Text <$> match existing with Some e => siParts e | None => [] end)))%list ∧
  Forall plainText (siParts si) ∧
  siParts (buildAntigravitySystemInstruction (Some si)) = (preamble ++ siParts si)%list.
Proof.
  cbn zeta. split; [done|].
  split; [apply buildAntigravitySystemInstruction_parts|].
  split; [apply buildAntigravitySystemInstruction_plain|].
  by rewrite buildAntigravitySystemInstruction_rebuilt.
Qed.

(** ** Tool declarations without parameters *)

Lemma filter_nothing {A : Type} (P : A → Prop) `{!∀ x, Decision (P x)} (l : list A) :
  Forall (λ x, ¬ P x) l → filter P l = [].
Proof.
  induction 1 as [|x l Hx _ IH]; [done|]. by rewrite filter_cons_False.
Qed.

Lemma declarations_cons (tool : Tool) (tools : list Tool) :
  declarations (tool :: tools) = (FunctionDeclarations tool ++ declarations tools)%list.
Proof. done. Qed.

Lemma count_inner (fns : list FunctionDeclaration) (missing : nat) :
  foldl (λ missing fn, match fdParameters fn with None => S missing | Some _ => missing end)
    missing fns = (missing + length (filter withoutParameters fns))%nat.
Proof.
  revert missing. induction fns as [|fn fns IH]; intros missing; simpl; [lia|].
  rewrite IH. unfold filter at 2. simpl. fold (filter withoutParameters fns).
  destruct (decide (withoutParameters fn)) as [H|H]; unfold withoutParameters in H.
  - rewrite H. simpl. lia.
  - destruct (fdParameters fn); [lia|done].
Qed.

Lemma fillMissingParameters_missing_count (tools : list Tool) :
  fillMissingParameters_missing tools = length (filter withoutParameters (declarations tools)).
Proof.
  unfold fillMissingParameters_missing.
  enough (∀ missing,
            foldl (λ missing tool,
                     foldl (λ missing fn,
                              match fdParameters fn with
                              | None => S missing
                              | Some _ => missing
                              end) missing (FunctionDeclarations tool)) missing tools
            = (missing + length (filter withoutParameters (declarations tools)))%nat) as H
    by apply (H 0%nat).
  induction tools as [|tool tools IH]; intros missing; simpl; [lia|].
  rewrite IH, count_inner, declarations_cons, filter_app, length_app. lia.
Qed.

Lemma fillMissingParameters_declarations (tools : list Tool) :
  declarations (fillMissingParameters tools) =
  (λ fn, match fdParameters fn with
         | Some _ => fn
         | None => mkFunctionDeclaration (fdName fn) (fdDescription fn) (Some objectSchema)
         end) <$> declarations tools.
Proof.
  unfold declarations, fillMissingParameters.
  induction tools as [|tool tools IH]; [done|].
  rewrite !fmap_cons, !concat_cons, fmap_app. cbn [FunctionDeclarations]. by rewrite IH.
Qed.

Lemma fillMissingParameters_fixed (tools : list Tool) :
  Forall (λ fn, ¬ withoutParameters fn) (declarations tools) →
  fillMissingParameters tools = tools.
Proof.
  unfold declarations, fillMissingParameters.
  induction tools as [|[fns] tools IH]; [done|].
  rewrite fmap_cons, concat_cons, Forall_app. intros [H1 H2].
  rewrite fmap_cons, IH by done. f_equal. cbn [FunctionDeclarations] in *. f_equal.
  clear -H1. induction H1 as [|fn fns H _ IH]; [done|].
  rewrite fmap_cons, IH. f_equal. unfold withoutParameters in H.
  by destruct (fdParameters fn).
Qed.

(** X8.  [fillMissingParameters] returns the number of declarations that
    had no parameters and leaves none without: such a declaration gets the
    schema of type [OBJECT] and nothing else, its name and description are
    kept, a declaration that had parameters is unchanged, and the tools
    keep their number and the number of their declarations.  A second
    run changes nothing and returns 0. *)
Theorem fillMissingParameters_fills_exactly_the_missing (tools : list Tool) :
  let tools1 := fillMissingParameters tools in
  fillMissingParameters_missing tools
    = length (filter withoutParameters (declarations tools)) ∧
  length <$> (FunctionDeclarations <$> tools1) = length <$> (FunctionDeclarations <$> tools) ∧
  Forall2 (λ fn fn1,
             fdName fn1 = fdName fn ∧ fdDescription fn1 = fdDescription fn ∧
             fdParameters fn1 = Some (default objectSchema (fdParameters fn)))
    (declarations tools) (declarations tools1) ∧
  fillMissingParameters tools1 = tools1 ∧
  fillMissingParameters_missing tools1 = 0%nat.
Proof.
  assert (Forall (λ fn, ¬ withoutParameters fn) (declarations (fillMissingParameters tools)))
    as Hnone.
  { rewrite fillMissingParameters_declarations. apply Forall_fmap, Forall_forall.
    intros fn _. unfold withoutParameters. simpl.
    destruct (fdParameters fn) eqn:E; simpl; by rewrite ?E. }
  split; [apply fillMissingParameters_missing_count|].
  split.
  { unfold fillMissingParameters. rewrite <- !list_fmap_compose.
    apply list_fmap_ext. intros _ tool _. simpl. by rewrite length_fmap. }
  split.
  { rewrite fillMissingParameters_declarations. apply Forall2_fmap_r, Forall_Forall2_diag.
    apply Forall_forall. intros fn _. by destruct fn as [? ? []]. }
  split; [by apply fillMissingParameters_fixed|].
  rewrite fillMissingParameters_missing_count.
  by rewrite filter_nothing.
Qed.

Lemma missingNames_fns_spec (fns : list FunctionDeclaration) (limit : Z) (names : list string) :
  (Z.of_nat (length names) < limit)%Z →
  let all := (names ++ (fdName <$> filter withoutParameters fns))%list in
  match missingNames_fns fns limit names with
  | inl r => r = take (Z.to_nat limit) all ∧ (limit <= Z.of_nat (length all))%Z
  | inr r => r = all ∧ (Z.of_nat (length r) < limit)%Z
  end.
Proof.
  revert names. induction fns as [|fn fns IH]; intros names Hlt; cbn zeta.
  - simpl. rewrite app_nil_r. split; [done|lia].
  - simpl. destruct (decide (withoutParameters fn)) as [H|H]; unfold withoutParameters in H.
    + rewrite filter_cons_True by done. rewrite H, fmap_cons.
      replace (names ++ fdName fn :: (fdName <$> filter withoutParameters fns))%list
        with ((names ++ [fdName fn]) ++ (fdName <$> filter withoutParameters fns))%list
        by (by rewrite <- (assoc_L (++))).
      destruct (Z.leb_spec limit (Z.of_nat (length (names ++ [fdName fn])%list))) as [Hle|Hgt];
        cbv iota.
      * split.
        -- rewrite take_app_le by lia. rewrite take_ge; [done|].
           rewrite length_app in *. simpl in *. lia.
        -- rewrite length_app. lia.
      * apply IH. done.
    + rewrite filter_cons_False by done.
      destruct (fdParameters fn); [|done]. by apply IH.
Qed.

Lemma missingNames_tools_spec (tools : list Tool) (limit : Z) (names : list string) :
  (Z.of_nat (length names) < limit)%Z →
  let all := (names ++ (fdName <$> filter withoutParameters (declarations tools)))%list in
  match missingNames_tools tools limit names with
  | inl r => r = take (Z.to_nat limit) all ∧ (limit <= Z.of_nat (length all))%Z
  | inr r => r = all ∧ (Z.of_nat (length r) < limit)%Z
  end.
Proof.
  revert names. induction tools as [|tool tools IH]; intros names Hlt; cbn zeta.
  - simpl. rewrite app_nil_r. split; [done|lia].
  - simpl. rewrite declarations_cons, filter_app, fmap_app, (assoc_L (++)).
    pose proof (missingNames_fns_spec (FunctionDeclarations tool) limit names Hlt) as Hf.
    cbn zeta in Hf.
    destruct (missingNames_fns (FunctionDeclarations tool) limit names) as [r|r].
    + destruct Hf as [-> Hle]. split.
      * symmetry. apply take_app_le.
        apply Nat2Z.inj_le. rewrite Z2Nat.id by lia. exact Hle.
      * rewrite length_app, Nat2Z.inj_add. lia.
    + destruct Hf as [<- Hr]. by apply IH.
Qed.

(** X9.  [missingParameterNames] joins with commas the names of the first
    [limit] declarations without parameters, in the order of the tools; a
    limit of zero or less gives the empty string.  After
    [fillMissingParameters] it returns the empty string for every limit:
    the names can only be read before the parameters are defaulted. *)
Theorem missingParameterNames_lists_first_missing (tools : list Tool) (limit : Z) :
  missingParameterNames tools limit =
    Strings.Join
      (take (Z.to_nat limit) (fdName <$> filter withoutParameters (declarations tools))) "," ∧
  missingParameterNames (fillMissingParameters tools) limit = "".
Proof.
  assert (∀ tools,
            missingParameterNames tools limit =
            Strings.Join
              (take (Z.to_nat limit)
                 (fdName <$> filter withoutParameters (declarations tools))) ",") as Hspec.
  { clear tools. intros tools. unfold missingParameterNames.
    destruct (Z.leb_spec limit 0) as [Hle|Hgt].
    - replace (Z.to_nat limit) with 0%nat by lia. done.
    - pose proof (missingNames_tools_spec tools limit [] ltac:(simpl; lia)) as H.
      cbn zeta in H. rewrite app_nil_l in H.
      destruct (missingNames_tools tools limit []) as [r|r].
      + by destruct H as [-> _].
      + destruct H as [-> Hr]. rewrite take_ge; [done|]. lia. }
  split; [apply Hspec|].
  rewrite Hspec, filter_nothing; [by rewrite fmap_nil, take_nil|].
  rewrite fillMissingParameters_declarations. apply Forall_fmap, Forall_forall.
  intros fn _. unfold withoutParameters. simpl.
  destruct (fdParameters fn) eqn:E; simpl; by rewrite ?E.
Qed.

(** ** Trimming twice *)

Lemma spaces_not_empty : Forall (λ sp, (0 < String.length sp)%nat) Strings.spaces.
Proof. by_evaluation. Qed.

Lemma drop_bytes_length (n : nat) (s : string) :
  String.length (Strings.drop_bytes n s) = (String.length s - n)%nat.
Proof.
  revert s. induction n as [|n IH]; intros s; simpl; [lia|].
  destruct s as [|c s]; simpl; [done|]. apply IH.
Qed.

Lemma drop_bytes_suffix (n : nat) (s : string) : ∃ a, s = a ++ Strings.drop_bytes n s.
Proof.
  revert s. induction n as [|n IH]; intros s; [by exists ""|].
  destruct s as [|c s]; [by exists ""|].
  destruct (IH s) as [a Ha]. exists (String c a).
  change (String c s = String c (a ++ Strings.drop_bytes n s)). by f_equal.
Qed.

Lemma rev_string_involutive (s : string) : Strings.rev_string (Strings.rev_string s) = s.
Proof.
  unfold Strings.rev_string.
  by rewrite list_ascii_of_string_of_list_ascii, rev_involutive,
    string_of_list_ascii_of_string.
Qed.

Lemma find_nothing {A : Type} (f : A → bool) (l : list A) :
  (∀ x, x ∈ l → f x = false) → List.find f l = None.
Proof.
  induction l as [|x l IH]; intros H; [done|]. simpl.
  rewrite (H x) by (by left). apply IH. intros y Hy. apply H. by right.
Qed.

Lemma find_nothing_inv {A : Type} (f : A → bool) (l : list A) (x : A) :
  List.find f l = None → x ∈ l → f x = false.
Proof. intros H Hx. eapply List.find_none; [exact H|]. by apply list_elem_of_In. Qed.

Lemma HasPrefix_app_l (p t sp : string) :
  Strings.HasPrefix p sp = true → Strings.HasPrefix (p ++ t) sp = true.
Proof.
  revert p. induction sp as [|b sp IH]; intros p; [done|].
  destruct p as [|a p]; [done|]. simpl.
  destruct (Ascii.eqb b a); [apply IH|done].
Qed.

Lemma leading_space_prefix (p t : string) :
  Strings.leading_space (p ++ t) = None → Strings.leading_space p = None.
Proof.
  unfold Strings.leading_space. intros H. apply find_nothing. intros sp Hsp.
  pose proof (find_nothing_inv _ _ sp H Hsp) as Hf.
  destruct (Strings.HasPrefix p sp) eqn:E; [|done].
  by rewrite (HasPrefix_app_l p t sp E) in Hf.
Qed.

Lemma TrimLeft_fuel_done (fuel : nat) (s : string) :
  (String.length s ≤ fuel)%nat → Strings.leading_space (Strings.TrimLeft_fuel fuel s) = None.
Proof.
  revert s. induction fuel as [|fuel IH]; intros s Hs.
  - destruct s; [by vm_compute|simpl in Hs; lia].
  - simpl. destruct (Strings.leading_space s) as [sp|] eqn:E; [|done].
    apply IH. rewrite drop_bytes_length.
    unfold Strings.leading_space in E. apply List.find_some in E as [Hsp _].
    apply list_elem_of_In in Hsp.
    pose proof spaces_not_empty as HS. eapply Forall_forall in HS; [|exact Hsp]. lia.
Qed.

Lemma TrimRight_fuel_done (fuel : nat) (r : string) :
  (String.length r ≤ fuel)%nat →
  Strings.trailing_space (Strings.TrimRight_fuel fuel r) = None.
Proof.
  revert r. induction fuel as [|fuel IH]; intros r Hr.
  - destruct r; [by vm_compute|simpl in Hr; lia].
  - simpl. destruct (Strings.trailing_space r) as [sp|] eqn:E; [|done].
    apply IH. rewrite drop_bytes_length.
    apply trailing_space_elem in E as [Hsp _].
    pose proof spaces_not_empty as HS. eapply Forall_forall in HS; [|exact Hsp]. lia.
Qed.

Lemma TrimRight_fuel_suffix (fuel : nat) (r : string) :
  ∃ a, r = a ++ Strings.TrimRight_fuel fuel r.
Proof.
  revert r. induction fuel as [|fuel IH]; intros r; [by exists ""|].
  simpl. destruct (Strings.trailing_space r) as [sp|]; [|by exists ""].
  destruct (drop_bytes_suffix (String.length sp) r) as [a Ha].
  destruct (IH (Strings.drop_bytes (String.length sp) r)) as [b Hb].
  exists (a ++ b). rewrite string_app_assoc, <- Hb. exact Ha.
Qed.

Lemma TrimRight_prefix (s : string) : ∃ t, s = Strings.TrimRight s ++ t.
Proof.
  unfold Strings.TrimRight.
  destruct (TrimRight_fuel_suffix (String.length s) (Strings.rev_string s)) as [a Ha].
  exists (Strings.rev_string a).
  rewrite <- rev_string_app, <- Ha. by rewrite rev_string_involutive.
Qed.

Lemma TrimSpace_idempotent (s : string) :
  Strings.TrimSpace (Strings.TrimSpace s) = Strings.TrimSpace s.
Proof.
  unfold Strings.TrimSpace.
  set (z := Strings.TrimLeft s).
  assert (Strings.leading_space z = None) as Hz by (by apply TrimLeft_fuel_done).
  destruct (TrimRight_prefix z) as [t Ht].
  assert (Strings.TrimLeft (Strings.TrimRight z) = Strings.TrimRight z) as ->.
  { rewrite Ht in Hz. apply leading_space_prefix in Hz.
    unfold Strings.TrimLeft. destruct (String.length _); simpl; [done|]. by rewrite Hz. }
  set (w := Strings.TrimRight_fuel (String.length z) (Strings.rev_string z)).
  assert (Strings.trailing_space w = None) as Hw.
  { apply TrimRight_fuel_done. by rewrite rev_string_length. }
  assert (Strings.TrimRight z = Strings.rev_string w) as -> by done.
  unfold Strings.TrimRight. rewrite rev_string_involutive.
  destruct (String.length (Strings.rev_string w)); simpl; [done|]. by rewrite Hw.
Qed.

(** ** Function-response ids: a second run *)

Lemma solid_not_empty (id : string) : Strings.TrimSpace id ≠ "" → id ≠ "".
Proof. intros H ->. by apply H. Qed.

Lemma removeFirstMatch_head (id : string) (ids : list string) :
  id ≠ "" → removeFirstMatch (id :: ids) id = ids.
Proof.
  intros H. unfold removeFirstMatch. rewrite decide_False by done.
  simpl. by rewrite decide_True.
Qed.

Lemma solid_update (q : Queues) (pending' : list string) (name : string)
  (ids : list string) (k : nat) :
  solidQueues q →
  (∀ id, id ∈ pending' → id ∈ pending q) →
  (∀ id, id ∈ ids → id ∈ queue (perName q) name) →
  solidQueues (mkQueues pending' (<[name := ids]> (perName q)) k).
Proof.
  intros [Hp Hn] H1 H2. split; simpl; [by auto|].
  intros nm i. unfold queue at 1. destruct (decide (name = nm)) as [<-|Hd].
  - rewrite lookup_insert_eq. simpl. intros H. eapply Hn. by apply H2.
  - rewrite lookup_insert_ne by done. apply Hn.
Qed.

Lemma solid_pending (q : Queues) (pending' : list string) (k : nat) :
  solidQueues q → (∀ id, id ∈ pending' → id ∈ pending q) →
  solidQueues (mkQueues pending' (perName q) k).
Proof. intros [Hp Hn] H1. split; simpl; auto. Qed.

Lemma solid_consume (q : Queues) (name id : string) :
  solidQueues q → solidQueues (consumeID q name id).
Proof.
  intros Hk. unfold consumeID. destruct (decide (name = "")).
  - apply solid_pending; [done|]. intros i. apply removeFirstMatch_elem.
  - apply solid_update; [done| |]; intros i; apply removeFirstMatch_elem.
Qed.

Lemma solid_enqueue (q : Queues) (name id : string) :
  solidQueues q → Strings.TrimSpace id ≠ "" → solidQueues (enqueueCall q name id).
Proof.
  intros [Hp Hn] Hid. split; simpl.
  - intros i [H| ->%list_elem_of_singleton]%elem_of_app; auto.
  - intros nm i. destruct (decide (name = "")) as [|Hne]; [apply Hn|].
    unfold queue at 1. destruct (decide (name = nm)) as [<-|Hd].
    + rewrite lookup_insert_eq. simpl.
      intros [H| ->%list_elem_of_singleton]%elem_of_app; [by eapply Hn|done].
    + rewrite lookup_insert_ne by done. apply Hn.
Qed.

(** What an id-less response takes from solid queues: nothing, and the
    queues stay as they are, or an id that is not blank, and the queues
    become what consuming that id makes of them. *)
Lemma take_solid (q : Queues) (name : string) :
  solidQueues q →
  let '(assigned, pending2, perName2) := takeFromPending name (takeFromName q name) in
  (∀ k, solidQueues (mkQueues pending2 perName2 k)) ∧
  ((assigned = "" ∧ pending2 = pending q ∧ perName2 = perName q) ∨
   (Strings.TrimSpace assigned ≠ "" ∧
    ∀ k, mkQueues pending2 perName2 k = recount (consumeID q name assigned) k)).
Proof.
  intros Hs. pose proof Hs as [Hp Hn].
  assert (∀ k, solidQueues (mkQueues (pending q) (perName q) k)) as Hsame.
  { intros k. by apply solid_pending. }
  assert (∀ id0 rest k, pending q = id0 :: rest →
            Strings.TrimSpace id0 ≠ "" ∧
            solidQueues
              (mkQueues rest
                 (if decide (name = "") then perName q
                  else <[name := removeFirstMatch (queue (perName q) name) id0]> (perName q))
                 k) ∧
            mkQueues rest
              (if decide (name = "") then perName q
               else <[name := removeFirstMatch (queue (perName q) name) id0]> (perName q)) k
            = recount (consumeID q name id0) k) as Hfallback.
  { intros id0 rest k EP.
    assert (Strings.TrimSpace id0 ≠ "") as Hid by (apply Hp; rewrite EP; by left).
    split; [done|]. split.
    - destruct (decide (name = "")).
      + apply solid_pending; [done|]. intros i Hi. rewrite EP. by right.
      + apply solid_update; [done| |].
        * intros i Hi. rewrite EP. by right.
        * intros i. apply removeFirstMatch_elem.
    - unfold recount, consumeID. simpl. rewrite EP.
      rewrite removeFirstMatch_head by (by apply solid_not_empty). done. }
  unfold takeFromName.
  destruct (decide (name = "")) as [Hname|Hname].
  - unfold takeFromPending. rewrite decide_True by done.
    destruct (pending q) as [|id0 rest] eqn:EP.
    + split; [|by left]. intros k. specialize (Hsame k). by rewrite ?EP in Hsame.
    + destruct (Hfallback id0 rest 0%nat eq_refl) as (Hid & _ & _).
      rewrite decide_True by done.
      split; [intros k; apply (Hfallback id0 rest k eq_refl)|].
      right. split; [done|]. intros k. apply (Hfallback id0 rest k eq_refl).
  - destruct (queue (perName q) name) as [|id0 ids] eqn:EQ.
    + unfold takeFromPending. rewrite decide_True by done.
      destruct (pending q) as [|p0 rest] eqn:EP.
      * split; [|by left]. intros k. specialize (Hsame k). by rewrite ?EP in Hsame.
      * destruct (Hfallback p0 rest 0%nat eq_refl) as (Hid & _ & _).
        rewrite decide_False by done. rewrite ?EQ.
        split; [intros k; apply (Hfallback p0 rest k eq_refl)|].
        right. split; [done|]. intros k. apply (Hfallback p0 rest k eq_refl).
    + assert (Strings.TrimSpace id0 ≠ "") as Hid by (apply (Hn name); rewrite EQ; by left).
      unfold takeFromPending. rewrite decide_False by (by apply solid_not_empty).
      split.
      * intros k. apply solid_update; [done| |].
        -- intros i. apply removeFirstMatch_elem.
        -- intros i Hi. rewrite EQ. by right.
      * right. split; [done|]. intros k. unfold recount, consumeID. simpl.
        rewrite decide_False by done. rewrite EQ.
        rewrite removeFirstMatch_head by (by apply solid_not_empty). done.
Qed.

Lemma reconcilePart_again (q : Queues) (part : ContentPart) (k : nat) :
  solidQueues q →
  let '(q1, part1) := reconcilePart q part in
  solidQueues q1 ∧ reconcilePart (recount q k) part1 = (recount q1 k, part1).
Proof.
  intros Hs. unfold reconcilePart at 1.
  destruct (PartFunctionCall part) as [fc|] eqn:EC.
  { destruct (decide (Strings.TrimSpace (fcID fc) = "")) as [Hb|Hb].
    - split; [done|]. unfold reconcilePart. rewrite EC. by rewrite decide_True.
    - split.
      + apply solid_enqueue; [done|]. by rewrite TrimSpace_idempotent.
      + unfold reconcilePart. rewrite EC. by rewrite decide_False. }
  destruct (PartFunctionResponse part) as [fr|] eqn:ER.
  2: { split; [done|]. unfold reconcilePart. by rewrite EC, ER. }
  destruct (decide (Strings.TrimSpace (frID fr) = "")) as [Hb|Hb].
  - pose proof (take_solid q (Strings.TrimSpace (frName fr)) Hs) as Ht.
    assert (reconcilePart (recount q k) part =
            let '(assigned, pending2, perName2) :=
              takeFromPending (Strings.TrimSpace (frName fr))
                (takeFromName q (Strings.TrimSpace (frName fr))) in
            if decide (assigned = "") then (mkQueues pending2 perName2 k, part)
            else (mkQueues pending2 perName2 (S k), setResponseID part fr assigned)) as Hsame.
    { unfold reconcilePart. rewrite EC, ER. by rewrite decide_True. }
    destruct (takeFromPending _ _) as [[assigned pending2] perName2].
    destruct Ht as [Hsolid [(-> & -> & ->)|[Ha Hq]]].
    + rewrite decide_True by done. rewrite decide_True in Hsame by done.
      split; [apply Hsolid|]. exact Hsame.
    + rewrite decide_False by (by apply solid_not_empty).
      split; [apply Hsolid|].
      unfold reconcilePart. cbn [setResponseID PartFunctionCall PartFunctionResponse frID frName].
      rewrite EC. rewrite decide_False by done.
      unfold recount at 2. cbn [pending perName]. rewrite (Hq k).
      unfold recount, consumeID. simpl. done.
  - split; [by apply solid_consume|].
    unfold reconcilePart. rewrite EC, ER. by rewrite decide_False.
Qed.

Lemma reconcileParts_again (q : Queues) (parts : list ContentPart) (k : nat) :
  solidQueues q →
  let '(q1, parts1) := reconcileParts q parts in
  solidQueues q1 ∧ reconcileParts (recount q k) parts1 = (recount q1 k, parts1).
Proof.
  revert q. induction parts as [|part parts IH]; intros q Hs; [done|].
  simpl. pose proof (reconcilePart_again q part k Hs) as H1.
  destruct (reconcilePart q part) as [q1 part1]. destruct H1 as [Hs1 H1].
  specialize (IH q1 Hs1).
  destruct (reconcileParts q1 parts) as [q2 parts1]. destruct IH as [Hs2 IH].
  split; [done|]. simpl. rewrite H1, IH. done.
Qed.

Lemma reconcileContents_again (q : Queues) (contents : list Content) (k : nat) :
  solidQueues q →
  let '(q1, contents1) := reconcileContents q contents in
  solidQueues q1 ∧ reconcileContents (recount q k) contents1 = (recount q1 k, contents1).
Proof.
  revert q. induction contents as [|c cs IH]; intros q Hs; [done|].
  simpl. pose proof (reconcileParts_again q (Parts c) k Hs) as H1.
  destruct (reconcileParts q (Parts c)) as [q1 parts1]. destruct H1 as [Hs1 H1].
  specialize (IH q1 Hs1).
  destruct (reconcileContents q1 cs) as [q2 cs1]. destruct IH as [Hs2 IH].
  split; [done|]. simpl. rewrite H1, IH. done.
Qed.

Lemma ensureFunctionResponseIDs_again (contents : list Content) :
  ensureFunctionResponseIDs (ensureFunctionResponseIDs contents).1
  = ((ensureFunctionResponseIDs contents).1, 0%nat).
Proof.
  unfold ensureFunctionResponseIDs.
  assert (solidQueues (mkQueues [] ∅ 0)) as Hs.
  { split; simpl; [by intros id Hid%elem_of_nil|].
    intros name id. unfold queue. rewrite lookup_empty. by intros Hid%elem_of_nil. }
  pose proof (reconcileContents_again (mkQueues [] ∅ 0) contents 0 Hs) as H.
  destruct (reconcileContents (mkQueues [] ∅ 0) contents) as [q1 contents1].
  destruct H as [_ H]. simpl. unfold recount in H. simpl in H. by rewrite H.
Qed.

(** X10.  [ensureFunctionResponseIDs] is idempotent: run on its own
    output it changes nothing and returns 0, whatever the contents were.
    A response that received an id consumes, on the second run, the very
    id it took from the queues on the first. *)
Theorem ensureFunctionResponseIDs_idempotent (contents : list Content) :
  let '(contents1, _) := ensureFunctionResponseIDs contents in
  ensureFunctionResponseIDs contents1 = (contents1, 0%nat).
Proof.
  pose proof (ensureFunctionResponseIDs_again contents) as H.
  by destruct (ensureFunctionResponseIDs contents) as [contents1 made].
Qed.

(** ** The prepared request *)

Lemma sanitizeContents_fixed (contents : list Content) :
  allKept contents → Forall keptContent contents →
  sanitizeContents contents = (contents, 0%nat, 0%nat).
Proof.
  intros HK HC.
  pose proof (sanitized_filter contents) as HS.
  pose proof (sanitizeContents_counts contents) as [HP HN].
  rewrite (clean_fixed _ HK HC) in HS. unfold sanitized in HS.
  destruct (sanitizeContents contents) as [[cleaned pp] pc]. simpl in *.
  subst cleaned. f_equal; [f_equal|].
  - rewrite HP. rewrite filter_none; [done|].
    apply Forall_forall. intros p (c & Hc & Hp)%elem_of_all_parts.
    eapply Forall_forall in HK; [|exact Hc]. by eapply Forall_forall in HK.
  - rewrite HN. rewrite filter_none; [done|].
    apply Forall_forall. intros c (c0 & -> & Hc)%list_elem_of_fmap.
    eapply Forall_forall in HK as Hk; [|exact Hc].
    rewrite (pruneContent_kept c0 Hk). by eapply Forall_forall in HC.
Qed.

Lemma keptContent_lengths (contents contents1 : list Content) :
  (λ c, length (Parts c)) <$> contents1 = (λ c, length (Parts c)) <$> contents →
  Forall keptContent contents → Forall keptContent contents1.
Proof.
  revert contents1. induction contents as [|c cs IH]; intros [|c1 cs1] E HF; try done.
  rewrite !fmap_cons in E. injection E as E1 E2.
  apply Forall_cons in HF as [Hc HF]. constructor; [|by apply IH].
  unfold keptContent in *. by rewrite E1.
Qed.

Lemma freshened_lengths (uuid : nat → string) (n n1 : nat) (contents contents1 : list Content) :
  Forall2 (λ c c1, Forall2 (freshened uuid n n1) (Parts c) (Parts c1)) contents contents1 →
  (λ c, length (Parts c)) <$> contents1 = (λ c, length (Parts c)) <$> contents.
Proof.
  induction 1 as [|c c1 cs cs1 H _ IH]; [done|].
  rewrite !fmap_cons, IH. f_equal. symmetry. by eapply Forall2_length.
Qed.

Lemma filled_no_blank_call (seen : list string) (ps ps' : list ContentPart) (k : nat) :
  filled seen ps ps' k →
  Forall (λ p, ¬ blankCall p) ps → Forall (λ p, ¬ blankCall p) ps'.
Proof.
  induction 1 as [seen|seen part parts parts' k Hf IH
                 |seen part fr id parts parts' k Hfr Hin Hne Hf IH];
    intros HF; [done| |]; apply Forall_cons in HF as [Hp HF].
  - constructor; [done|by apply IH].
  - constructor; [|by apply IH]. unfold blankCall in *. simpl. exact Hp.
Qed.

(** The contents of a prepared request: no empty part, no content without
    parts, no call with a blank id, and nothing left for a second
    preparation to do. *)
Lemma prepareContents_ready (uuid : nat → string) (contents : list Content) (n : nat) :
  let '(contents3, n1) := prepareContents uuid contents n in
  allKept contents3 ∧ Forall keptContent contents3 ∧
  Forall (λ p, ¬ blankCall p) (concat (Parts <$> contents3)) ∧
  (n ≤ n1)%nat ∧
  ∀ uuid' n', prepareContents uuid' contents3 n' = (contents3, n').
Proof.
  pose proof (prepareContents_allKept uuid contents n) as HK.
  unfold prepareContents in *.
  pose proof (sanitized_keptContent contents) as HC0. unfold sanitized in HC0.
  destruct (sanitizeContents contents) as [[c1 pp] pc]. simpl in HC0.
  unfold ensureFunctionCallIDs in *.
  pose proof (ensureFunctionCallIDs_loop_spec uuid c1 n 0) as H2.
  destruct (ensureFunctionCallIDs_loop uuid c1 n 0) as [[c2 n1] k1].
  destruct H2 as (Hn1 & _ & _ & HF2 & HB2).
  pose proof (ensureFunctionResponseIDs_again c2) as Hagain.
  unfold ensureFunctionResponseIDs in *.
  pose proof (reconcileContents_filled [] (mkQueues [] ∅ 0) c2) as H3.
  destruct (reconcileContents (mkQueues [] ∅ 0) c2) as [q c3].
  destruct H3 as (k & Hf & _ & _ & HL).
  { split; simpl; [by intros i ?%elem_of_nil|].
    intros name i. unfold queue. rewrite lookup_empty. by intros ?%elem_of_nil. }
  simpl in HK, Hagain.
  assert (Forall keptContent c3) as HC3.
  { eapply keptContent_lengths; [exact HL|].
    eapply keptContent_lengths; [by eapply freshened_lengths|done]. }
  assert (Forall (λ p, ¬ blankCall p) (concat (Parts <$> c3))) as HB3
    by (by eapply filled_no_blank_call).
  split; [done|]. split; [done|]. split; [done|]. split; [lia|].
  intros uuid' n'. rewrite (sanitizeContents_fixed c3 HK HC3).
  rewrite (ensureFunctionCallIDs_loop_none uuid' c3 n' 0 HB3).
  destruct (reconcileContents (mkQueues [] ∅ 0) c3) as [q' c4].
  by injection Hagain as ->.
Qed.

Lemma applyGeminiThinkingPreset_again (model : string) (cfg : option GeminiGenerationConfig) :
  applyGeminiThinkingPreset model (applyGeminiThinkingPreset model cfg)
  = applyGeminiThinkingPreset model cfg.
Proof.
  unfold applyGeminiThinkingPreset.
  by destruct (decide (thinkingLevelOf model = "")).
Qed.

Lemma fillMissingParameters_none_left (tools : list Tool) :
  Forall (λ fn, ¬ withoutParameters fn) (declarations (fillMissingParameters tools)).
Proof.
  rewrite fillMissingParameters_declarations. apply Forall_fmap, Forall_forall.
  intros fn _. unfold withoutParameters. simpl.
  destruct (fdParameters fn) eqn:E; simpl; by rewrite ?E.
Qed.

(** X11.  Whatever request comes in, the prepared request carries the
    user agent [antigravity] and the request type [agent], a request id
    that is not empty (the caller's when it gave one), the caller's
    session id when it gave one and otherwise the id derived from the
    contents as they came in, contents without empty parts, without
    contents left empty and without function calls with a blank id, tools
    whose declarations all have parameters, and a system instruction of
    role [user] that starts with the two fixed parts.  Model, project and
    prompt id are not touched. *)
Theorem prepareAntigravityRequest_ready (uuid : nat → string) (req : GenerateContentRequest)
  (n : nat) :
  let '(req1, n1) := prepareAntigravityRequest uuid req n in
  let r := Request req in
  let r1 := Request req1 in
  (UserAgent req1 = "antigravity" ∧ RequestType req1 = "agent" ∧
   Model req1 = Model req ∧ Project req1 = Project req ∧
   UserPromptID req1 = UserPromptID req ∧ EnvelopeSessionID req1 = EnvelopeSessionID req) ∧
  (RequestID req1 ≠ "" ∧
   RequestID req1 = if decide (RequestID req = "") then "agent-" ++ uuid n else RequestID req) ∧
  (SessionID r1 =
     if decide (SessionID r = "")
     then (deriveSessionID uuid (Contents r) (if decide (RequestID req = "") then S n else n)).1
     else SessionID r) ∧
  (allKept (Contents r1) ∧ Forall keptContent (Contents r1) ∧
   Forall (λ p, ¬ blankCall p) (concat (Parts <$> Contents r1))) ∧
  Forall (λ fn, ¬ withoutParameters fn) (declarations (Tools r1)) ∧
  (∃ si, ReqSystemInstruction r1 = Some si ∧ siRole si = "user" ∧
         take 2 (siParts si) = preamble) ∧
  (n ≤ n1)%nat.
Proof.
  unfold prepareAntigravityRequest.
  set (idn := if decide (RequestID req = "") then ("agent-" ++ uuid n, S n)
              else (RequestID req, n)).
  assert (idn.1 ≠ "" ∧
          idn.1 = (if decide (RequestID req = "") then "agent-" ++ uuid n else RequestID req) ∧
          idn.2 = (if decide (RequestID req = "") then S n else n)) as (Hid1 & Hid2 & Hid3).
  { unfold idn. destruct (decide (RequestID req = "")); simpl; done. }
  destruct idn as [requestID m1]. simpl in Hid1, Hid2, Hid3.
  set (sidn := if decide (SessionID (Request req) = "")
               then deriveSessionID uuid (Contents (Request req)) m1
               else (SessionID (Request req), m1)).
  assert (sidn.1 = (if decide (SessionID (Request req) = "")
                    then (deriveSessionID uuid (Contents (Request req)) m1).1
                    else SessionID (Request req)) ∧ (m1 ≤ sidn.2)%nat) as [Hs1 Hs2].
  { unfold sidn. destruct (decide (SessionID (Request req) = "")); simpl; [|done].
    split; [done|].
    destruct (firstUserText (Contents (Request req))) as [t|] eqn:E.
    - by rewrite (deriveSessionID_first_user_text _ _ _ _ E).
    - rewrite (deriveSessionID_no_user_text _ _ _ E). simpl. lia. }
  destruct sidn as [sessionID m2]. simpl in Hs1, Hs2.
  pose proof (prepareContents_ready uuid (Contents (Request req)) m2) as HC.
  destruct (prepareContents uuid (Contents (Request req)) m2) as [contents m3].
  destruct HC as (HK & HC & HB & Hle & _). cbn zeta. simpl.
  split; [done|]. split; [done|]. split; [by rewrite Hs1, Hid3|].
  split; [done|]. split; [apply fillMissingParameters_none_left|].
  split; [|destruct (decide (RequestID req = "")); lia].
  eexists. split; [done|]. split; [done|]. done.
Qed.

(** X12.  Preparing a prepared request again leaves its contents, tools,
    generation config, request id and envelope as they are and, when the
    session id is set, draws nothing from the random source; only the
    system instruction changes: the two fixed parts are put in front of
    it once more. *)
Theorem prepareAntigravityRequest_again (uuid uuid' : nat → string)
  (req : GenerateContentRequest) (n n' : nat) :
  let '(req1, _) := prepareAntigravityRequest uuid req n in
  let '(req2, n2) := prepareAntigravityRequest uuid' req1 n' in
  let r1 := Request req1 in
  let r2 := Request req2 in
  Contents r2 = Contents r1 ∧ Tools r2 = Tools r1 ∧
  GenerationConfig r2 = GenerationConfig r1 ∧
  (RequestID req2 = RequestID req1 ∧ UserAgent req2 = UserAgent req1 ∧
   RequestType req2 = RequestType req1 ∧ Model req2 = Model req1 ∧
   Project req2 = Project req1 ∧ UserPromptID req2 = UserPromptID req1 ∧
   EnvelopeSessionID req2 = EnvelopeSessionID req1) ∧
  (SessionID r1 ≠ "" → SessionID r2 = SessionID r1 ∧ n2 = n') ∧
  ∃ si, ReqSystemInstruction r1 = Some si ∧
        ReqSystemInstruction r2 = Some (mkSystemInstruction "user" (preamble ++ siParts si)).
Proof.
  unfold prepareAntigravityRequest at 1.
  set (idn := if decide (RequestID req = "") then ("agent-" ++ uuid n, S n)
              else (RequestID req, n)).
  assert (idn.1 ≠ "") as Hid.
  { unfold idn. destruct (decide (RequestID req = "")); simpl; done. }
  destruct idn as [requestID m1]. simpl in Hid.
  destruct (if decide (SessionID (Request req) = "")
            then deriveSessionID uuid (Contents (Request req)) m1
            else (SessionID (Request req), m1)) as [sessionID m2].
  pose proof (prepareContents_ready uuid (Contents (Request req)) m2) as HC.
  destruct (prepareContents uuid (Contents (Request req)) m2) as [contents m3].
  destruct HC as (_ & _ & _ & _ & Hagain).
  unfold prepareAntigravityRequest. cbn [RequestID Request SessionID Contents Model
    Project UserPromptID EnvelopeSessionID GenerationConfig Tools ReqSystemInstruction].
  rewrite (decide_False (P := requestID = "")) by done.
  assert (∀ m, prepareContents uuid' contents m = (contents, m)) as Hagain' by (intros; apply Hagain).
  destruct (decide (sessionID = "")) as [Hs|Hs].
  - destruct (deriveSessionID uuid' contents n') as [sessionID' m4].
    rewrite Hagain'. simpl.
    split; [done|]. split; [apply fillMissingParameters_fixed, fillMissingParameters_none_left|].
    split; [apply applyGeminiThinkingPreset_again|]. split; [done|]. split; [done|].
    eexists. split; [done|]. f_equal.
    apply buildAntigravitySystemInstruction_rebuilt.
  - rewrite Hagain'. simpl.
    split; [done|]. split; [apply fillMissingParameters_fixed, fillMissingParameters_none_left|].
    split; [apply applyGeminiThinkingPreset_again|]. split; [done|]. split; [done|].
    eexists. split; [done|]. f_equal.
    apply buildAntigravitySystemInstruction_rebuilt.
Qed.

(** ** Message translation: the shape of the result *)

Section TranslatorShape.

Variable json_Unmarshal : string → result (option (gmap string JSON)).
Variable uuid : nat → string.

Local Abbreviation madeFrom' := (madeFrom json_Unmarshal uuid).
Local Abbreviation shaped' := (shaped json_Unmarshal uuid).

Lemma madeFrom_widen (n m n1 m1 : nat) (tc : ToolCall) (fc : FunctionCall) :
  (n ≤ m)%nat → (m1 ≤ n1)%nat → madeFrom' m m1 tc fc → madeFrom' n n1 tc fc.
Proof.
  intros H1 H2 (Hn & Ha & Hi). split; [done|]. split; [done|].
  destruct (decide (blankID tc)); [|done].
  destruct Hi as (i & Hi & E). exists i. split; [lia|done].
Qed.

Lemma madeFrom_not_blank (n n1 : nat) (tc : ToolCall) (fc : FunctionCall) :
  madeFrom' n n1 tc fc → Strings.TrimSpace (fcID fc) ≠ "".
Proof.
  intros (_ & _ & Hi). destruct (decide (blankID tc)) as [Hb|Hb].
  - destruct Hi as (i & _ & ->). apply TrimSpace_toolu.
  - by rewrite Hi.
Qed.

Lemma callParts_made (names ids : gmap string string) (n : nat) (tcs : list ToolCall) :
  let '(_, _, n1, parts) := callParts json_Unmarshal uuid names ids n tcs in
  n1 = (n + length (filter blankID tcs))%nat ∧
  Forall2 (madeFrom' n n1) tcs (omap PartFunctionCall parts) ∧
  length parts = length tcs.
Proof.
  revert names ids n. induction tcs as [|tc tcs IH]; intros names ids n.
  { simpl. split; [lia|]. split; [constructor|done]. }
  simpl.
  destruct (decide (Strings.TrimSpace (tcID tc) = "")) as [Hb|Hb].
  - destruct (decide (tcFunctionName tc = "")).
    + specialize (IH names ids (S n)).
      destruct (callParts _ _ _ _ _ _) as [[[names2 ids2] n2] parts].
      destruct IH as (-> & HF & HL).
      rewrite filter_cons_True by done. simpl. split; [lia|]. split; [|by rewrite HL].
      constructor.
      * split; [done|]. split; [done|]. rewrite decide_True by done.
        exists n. split; [lia|done].
      * eapply Forall2_impl; [exact HF|]. intros tc0 fc0 H.
        eapply madeFrom_widen; [| |exact H]; lia.
    + specialize (IH (<["toolu_" ++ uuid n := tcFunctionName tc]> names)
                     (<[tcFunctionName tc := "toolu_" ++ uuid n]> ids) (S n)).
      destruct (callParts _ _ _ _ _ _) as [[[names2 ids2] n2] parts].
      destruct IH as (-> & HF & HL).
      rewrite filter_cons_True by done. simpl. split; [lia|]. split; [|by rewrite HL].
      constructor.
      * split; [done|]. split; [done|]. rewrite decide_True by done.
        exists n. split; [lia|done].
      * eapply Forall2_impl; [exact HF|]. intros tc0 fc0 H.
        eapply madeFrom_widen; [| |exact H]; lia.
  - destruct (decide (tcFunctionName tc = "")).
    + specialize (IH names ids n).
      destruct (callParts _ _ _ _ _ _) as [[[names2 ids2] n2] parts].
      destruct IH as (-> & HF & HL).
      rewrite filter_cons_False by done. simpl. split; [lia|]. split; [|by rewrite HL].
      constructor; [|done].
      split; [done|]. split; [done|]. by rewrite decide_False.
    + specialize (IH (<[tcID tc := tcFunctionName tc]> names)
                     (<[tcFunctionName tc := tcID tc]> ids) n).
      destruct (callParts _ _ _ _ _ _) as [[[names2 ids2] n2] parts].
      destruct IH as (-> & HF & HL).
      rewrite filter_cons_False by done. simpl. split; [lia|]. split; [|by rewrite HL].
      constructor; [|done].
      split; [done|]. split; [done|]. by rewrite decide_False.
Qed.

Lemma contentParts_no_call (st : Translation) (msg : Message) (parts : list ContentPart) :
  contentParts st msg = Ok parts → Forall (λ p, PartFunctionCall p = None) parts.
Proof.
  unfold contentParts, toolResponse.
  destruct (msgContent msg) as [| | |content|content|]; try (intros [= <-]; constructor).
  - destruct (decide (msgRole msg = "tool")).
    + destruct (decide (resolveName _ _ = "")); [done|]. intros [= <-]. by repeat constructor.
    + intros [= <-]. by repeat constructor.
  - destruct (decide (msgRole msg = "tool")).
    + destruct (decide (resolveName _ _ = "")); [done|]. intros [= <-]. by repeat constructor.
    + intros [= <-]. apply Forall_fmap, Forall_forall. by intros t _.
Qed.

Lemma omap_no_call (parts : list ContentPart) :
  Forall (λ p, PartFunctionCall p = None) parts → omap PartFunctionCall parts = [].
Proof. induction 1 as [|p parts H _ IH]; [done|]. simpl. by rewrite H. Qed.

Lemma callsOf_snoc (contents : list Content) (c : Content) :
  callsOf (contents ++ [c]) = (callsOf contents ++ omap PartFunctionCall (Parts c))%list.
Proof.
  unfold callsOf. rewrite fmap_app, concat_app, omap_app. simpl. by rewrite app_nil_r.
Qed.

Lemma systemParts_snoc (before : list Message) (msg : Message) :
  systemParts (before ++ [msg]) =
  (systemParts before ++
   if decide (isSystem msg) then textPart <$> systemTexts (msgContent msg) else [])%list.
Proof.
  unfold systemParts. rewrite filter_app, bind_app, fmap_app. f_equal.
  destruct (decide (isSystem msg)).
  - rewrite filter_cons_True by done. simpl. by rewrite app_nil_r.
  - by rewrite filter_cons_False.
Qed.

Lemma geminiRole_values (role : string) : geminiRole role = "user" ∨ geminiRole role = "model".
Proof.
  unfold geminiRole. destruct (decide (role = "user")); [by left|].
  destruct (decide (role = "assistant")); [by right|by left].
Qed.

Lemma assistantCalls_snoc (before : list Message) (msg : Message) :
  (before ++ [msg])%list ≫= assistantCalls
  = ((before ≫= assistantCalls) ++ assistantCalls msg)%list.
Proof. rewrite bind_app. simpl. by rewrite app_nil_r. Qed.

Lemma filter_isSystem_snoc (before : list Message) (msg : Message) :
  filter isSystem (before ++ [msg])%list =
  (filter isSystem before ++ if decide (isSystem msg) then [msg] else [])%list.
Proof.
  by rewrite filter_app.
Qed.

Lemma translateMessage_shaped (n : nat) (st st1 : Translation) (msg : Message)
  (before : list Message) :
  translateMessage json_Unmarshal uuid st msg = Ok st1 →
  shaped' n st before → shaped' n st1 (before ++ [msg]).
Proof.
  unfold translateMessage, shaped.
  intros H (Hsi & Hc & Hp & Hn & Hcalls).
  rewrite assistantCalls_snoc, filter_isSystem_snoc, filter_app, length_app,
    systemParts_snoc.
  unfold assistantCalls at 2 4. unfold isSystem at 2 4.
  revert H. destruct (decide (msgRole msg = "system")) as [Hs|Hs]; intros H.
  { injection H as <-. cbn [systemInstruction geminiContents pendingToolParts nextUUID].
    rewrite (decide_False (P := msgRole msg = "assistant")) by (rewrite Hs; done).
    rewrite filter_nil. cbn [length]. rewrite !app_nil_r, Nat.add_0_r.
    split; [|done]. rewrite Hsi, (decide_True (P := isSystem msg)) by done.
    unfold appendSystem, systemParts.
    by destruct (filter isSystem before). }
  rewrite (decide_False (P := isSystem msg)) by done. rewrite !app_nil_r.
  destruct (contentParts st msg) as [parts0|e] eqn:EC; [|done].
  pose proof (contentParts_no_call st msg parts0 EC) as H0.
  revert H. destruct (decide (msgRole msg = "assistant")) as [Ha|Ha]; intros H.
  - pose proof (callParts_made (toolCallNameByID st) (toolCallIDByName st) (nextUUID st)
                  (msgToolCalls msg)) as Hmade.
    destruct (callParts json_Unmarshal uuid _ _ _ _) as [[[names ids] m] calls].
    destruct Hmade as (Hm & HF & HL).
    rewrite decide_False in H by (rewrite Ha; done).
    injection H as <-. cbn [systemInstruction geminiContents pendingToolParts nextUUID].
    split; [done|]. split; [|split; [done|]]; [|split; [lia|]].
    + destruct (parts0 ++ calls)%list eqn:E; [done|].
      apply Forall_app. split; [done|]. constructor; [|constructor].
      split; [apply geminiRole_values|done].
    + assert (callsOf
                match (parts0 ++ calls)%list with
                | [] => geminiContents st
                | _ :: _ =>
                    (geminiContents st ++
                     [mkContent (geminiRole (msgRole msg)) (parts0 ++ calls)])%list
                end = (callsOf (geminiContents st) ++ omap PartFunctionCall calls)%list) as ->.
      { destruct (parts0 ++ calls)%list eqn:E.
        - apply app_eq_nil in E as [-> ->]. simpl. by rewrite app_nil_r.
        - rewrite <- E, callsOf_snoc. cbn [Parts].
          by rewrite omap_app, (omap_no_call parts0 H0). }
      apply Forall2_app.
      * eapply Forall2_impl; [exact Hcalls|]. intros tc fc Hfc.
        eapply madeFrom_widen; [| |exact Hfc]; lia.
      * eapply Forall2_impl; [exact HF|]. intros tc fc Hfc.
        eapply madeFrom_widen; [| |exact Hfc]; lia.
  - rewrite app_nil_r in H. rewrite filter_nil. cbn [length].
    rewrite !app_nil_r, Nat.add_0_r.
    revert H. destruct (decide (Strings.ToLower (msgRole msg) = "tool")) as [Hd|Hd]; intros H.
    + injection H as <-. cbn [systemInstruction geminiContents pendingToolParts nextUUID].
      split; [done|]. split; [done|].
      split; [by apply Forall_app|]. done.
    + injection H as <-. cbn [systemInstruction geminiContents pendingToolParts nextUUID].
      split; [done|].
      destruct parts0 as [|p parts0]; [done|].
      split; [|split; [done|]]; [|split; [done|]].
      * apply Forall_app. split; [done|]. constructor; [|constructor].
        split; [apply geminiRole_values|done].
      * rewrite callsOf_snoc. cbn [Parts].
        by rewrite (omap_no_call (p :: parts0) H0), app_nil_r.
Qed.

Lemma translateMessages_shaped (n : nat) (st st1 : Translation)
  (messages before : list Message) (n1 : nat) :
  translateMessages json_Unmarshal uuid st messages = (Ok st1, n1) →
  shaped' n st before → shaped' n st1 (before ++ messages) ∧ n1 = nextUUID st1.
Proof.
  revert st before. induction messages as [|msg messages IH]; intros st before.
  - simpl. intros [= <- <-]. by rewrite app_nil_r.
  - simpl. destruct (translateMessage json_Unmarshal uuid st msg) as [st2|e] eqn:E; [|done].
    intros H Ht. rewrite (cons_middle msg), app_assoc.
    apply (IH st2); [done|]. by eapply translateMessage_shaped.
Qed.

Lemma convertMessages_shaped (messages : list Message) (n n1 : nat)
  (contents : list Content) (si : option SystemInstruction) :
  convertMessagesToGeminiContents json_Unmarshal uuid messages n = (Ok (contents, si), n1) →
  ∃ st, shaped' n st messages ∧ n1 = nextUUID st ∧ si = systemInstruction st ∧
        contents = (geminiContents st ++ trailing (pendingToolParts st))%list.
Proof.
  unfold convertMessagesToGeminiContents.
  destruct (translateMessages _ _ _ _) as [[st|e] n2] eqn:E; [|done].
  intros [= <- <- <-].
  pose proof (translateMessages_shaped n _ st messages [] n2 E) as [Hs Hn].
  { unfold shaped. simpl. split; [done|]. split; [constructor|]. split; [constructor|].
    split; [lia|constructor]. }
  by exists st.
Qed.

(** X13.  In a successful translation the system instruction is nil
    exactly when no message has the role [system]; otherwise it has the
    role [system] and its parts are the non-empty texts of the system
    messages in the order of the messages (a string content, or the text
    items of an array content), each as a plain text part: system
    messages with nothing but empty text still give an instruction, with
    no parts. *)
Theorem convertMessages_system_instruction (messages : list Message) (n n1 : nat)
  (contents : list Content) (si : option SystemInstruction) :
  convertMessagesToGeminiContents json_Unmarshal uuid messages n = (Ok (contents, si), n1) →
  si = match filter isSystem messages with
       | [] => None
       | _ :: _ => Some (mkSystemInstruction "system" (systemParts messages))
       end ∧
  Forall plainText (systemParts messages).
Proof.
  intros (st & (Hsi & _) & _ & -> & _)%convertMessages_shaped. split; [done|].
  unfold systemParts. apply Forall_fmap, Forall_forall.
  intros t (msg & Ht & _)%list_elem_of_bind. repeat split; simpl.
  unfold systemTexts in Ht. destruct (msgContent msg) as [| | |s|items|].
  - by apply elem_of_nil in Ht.
  - by apply elem_of_nil in Ht.
  - by apply elem_of_nil in Ht.
  - destruct (decide (s = "")); [by apply elem_of_nil in Ht|].
    by apply list_elem_of_singleton in Ht as ->.
  - by apply list_elem_of_filter in Ht as [Ht _].
  - by apply elem_of_nil in Ht.
Qed.

(** X14.  In a successful translation every content has the role [user]
    or [model] and at least one part, and no function call has a blank
    id: [ensureFunctionCallIDs] finds nothing to do on the result.  The
    translation draws one string from the random source for each tool
    call of an assistant message whose id is blank, and no other. *)
Theorem convertMessages_contents_shape (messages : list Message) (n n1 : nat)
  (contents : list Content) (si : option SystemInstruction) :
  convertMessagesToGeminiContents json_Unmarshal uuid messages n = (Ok (contents, si), n1) →
  Forall (λ c, (Role c = "user" ∨ Role c = "model") ∧ Parts c ≠ []) contents ∧
  Forall (λ p, ¬ blankCall p) (concat (Parts <$> contents)) ∧
  n1 = (n + length (filter blankID (messages ≫= assistantCalls)))%nat ∧
  ∀ uuid' n', ensureFunctionCallIDs uuid' contents n' = (contents, n', 0%nat).
Proof.
  intros (st & (_ & Hc & Hp & Hn & Hcalls) & -> & _ & ->)%convertMessages_shaped.
  assert (Forall (λ p, ¬ blankCall p)
            (concat (Parts <$> (geminiContents st ++ trailing (pendingToolParts st))%list)))
    as Hblank.
  { rewrite fmap_app, concat_app. apply Forall_app. split.
    - apply Forall_forall. intros p Hin. unfold blankCall.
      destruct (PartFunctionCall p) as [fc|] eqn:E; [|tauto].
      assert (fc ∈ callsOf (geminiContents st)) as Hfc.
      { unfold callsOf. apply list_elem_of_omap. by exists p. }
      apply list_elem_of_lookup in Hfc as [i Hi].
      destruct (Forall2_lookup_r _ _ _ _ _ Hcalls Hi) as (tc & _ & Hmade).
      by eapply madeFrom_not_blank.
    - unfold trailing. destruct (pendingToolParts st) as [|p ps] eqn:E; [constructor|].
      simpl. rewrite app_nil_r. eapply Forall_impl; [exact Hp|].
      intros q Hq. unfold blankCall. rewrite Hq. tauto. }
  split; [|split; [done|split; [done|]]].
  - apply Forall_app. split; [done|]. unfold trailing.
    destruct (pendingToolParts st) as [|p ps]; [constructor|].
    constructor; [|constructor]. split; [by left|done].
  - intros uuid' n'. unfold ensureFunctionCallIDs.
    by rewrite (ensureFunctionCallIDs_loop_none uuid' _ n' 0 Hblank).
Qed.

(** X15.  In a successful translation the function calls of the contents
    are the tool calls of the assistant messages, one for one and in
    order: each keeps its function name, carries the arguments parsed from
    the tool call's argument string (the empty map when they do not
    parse), and keeps its id unless that is blank, in which case the id is
    [toolu_] followed by a string drawn during this translation. *)
Theorem convertMessages_function_calls (messages : list Message) (n n1 : nat)
  (contents : list Content) (si : option SystemInstruction) :
  convertMessagesToGeminiContents json_Unmarshal uuid messages n = (Ok (contents, si), n1) →
  Forall2 (madeFrom json_Unmarshal uuid n n1) (messages ≫= assistantCalls) (callsOf contents).
Proof.
  intros (st & (_ & _ & Hp & _ & Hcalls) & -> & _ & ->)%convertMessages_shaped.
  assert (callsOf (geminiContents st ++ trailing (pendingToolParts st))
          = callsOf (geminiContents st)) as ->; [|done].
  unfold trailing. destruct (pendingToolParts st) as [|p ps]; [by rewrite app_nil_r|].
  rewrite callsOf_snoc. cbn [Parts]. by rewrite (omap_no_call _ Hp), app_nil_r.
Qed.

End TranslatorShape.

Lemma convertMessages_system_instruction_witness :
  Some (mkSystemInstruction "system" [textPart "be brief"; textPart "no emoji"]) =
    match filter isSystem demoSystemConversation with
    | [] => None
    | _ :: _ => Some (mkSystemInstruction "system" (systemParts demoSystemConversation))
    end ∧
  Forall plainText (systemParts demoSystemConversation).
Proof.
  apply (convertMessages_system_instruction demoArguments demoUUID demoSystemConversation
           7 8 demoSystemContents).
  vm_compute. reflexivity.
Defined.

Lemma convertMessages_contents_shape_witness :
  Forall (λ c, (Role c = "user" ∨ Role c = "model") ∧ Parts c ≠ []) demoSystemContents ∧
  Forall (λ p, ¬ blankCall p) (concat (Parts <$> demoSystemContents)) ∧
  8%nat = (7 + length (filter blankID (demoSystemConversation ≫= assistantCalls)))%nat ∧
  ∀ uuid' n', ensureFunctionCallIDs uuid' demoSystemContents n' = (demoSystemContents, n', 0%nat).
Proof.
  apply (convertMessages_contents_shape demoArguments demoUUID demoSystemConversation 7 8
           demoSystemContents
           (Some (mkSystemInstruction "system" [textPart "be brief"; textPart "no emoji"]))).
  vm_compute. reflexivity.
Defined.

Lemma convertMessages_function_calls_witness :
  Forall2 (madeFrom demoArguments demoUUID 7 8)
    (demoSystemConversation ≫= assistantCalls) (callsOf demoSystemContents).
Proof.
  apply (convertMessages_function_calls demoArguments demoUUID demoSystemConversation 7 8
           demoSystemContents
           (Some (mkSystemInstruction "system" [textPart "be brief"; textPart "no emoji"]))).
  vm_compute. reflexivity.
Defined.

(** ** Unwrapping a response once *)

(** X16.  [unwrapCloudCodeResponse] returns its argument as it is (the nil
    map included) unless the key [response] holds an object.  When it
    does, the keys of the result are those of the nested object and the
    top-level keys other than [response]; the result has a key [response]
    only if the nested object has one, with the nested value: one level is
    unwrapped, never two.  Unless that nested [response] is again an
    object, unwrapping the result once more changes nothing. *)
Theorem unwrapCloudCodeResponse_one_level (cloudCodeResp : option (gmap string JSON)) :
  (as_object (cloudCodeResp ≫= λ m, m !! "response") = None →
   unwrapCloudCodeResponse cloudCodeResp = cloudCodeResp) ∧
  (∀ m response,
     cloudCodeResp = Some m → m !! "response" = Some (JObj response) →
     ∃ geminiResp,
       unwrapCloudCodeResponse cloudCodeResp = Some geminiResp ∧
       dom geminiResp = dom response ∪ dom m ∖ {["response"]} ∧
       geminiResp !! "response" = response !! "response" ∧
       (as_object (response !! "response") = None →
        unwrapCloudCodeResponse (Some geminiResp) = Some geminiResp)).
Proof.
  split.
  - destruct cloudCodeResp as [m|]; [|done]. simpl. intros H.
    unfold unwrapCloudCodeResponse. by rewrite H.
  - intros m response -> Hr. exists (response ∪ delete "response" m).
    split; [by apply unwrap_nested|].
    split; [by rewrite dom_union_L, dom_delete_L|].
    assert ((response ∪ delete "response" m) !! "response" = response !! "response") as E.
    { rewrite flattened_lookup. by destruct (response !! "response"). }
    split; [done|]. intros H. unfold unwrapCloudCodeResponse. by rewrite E, H.
Qed.

(** ** Schema conversion: the keys that are read *)

(** The keys [ConvertSchema] reads. *)
Lemma convertBody_insert (rec : gmap string JSON → GeminiParameterSchema)
  (input : gmap string JSON) (k : string) (v : JSON) :
  k ∉ schemaKeys → convertBody rec (<[k := v]> input) = convertBody rec input.
Proof.
  intros Hk.
  assert (∀ key, key ∈ schemaKeys → <[k := v]> input !! key = input !! key) as Hl.
  { intros key Hkey. apply lookup_insert_ne. intros ->. by apply Hk. }
  unfold convertBody, subSchemasOf, convertFields, withParentDescription.
  rewrite !Hl by (unfold schemaKeys; set_solver). done.
Qed.

Lemma convertBody_delete (rec : gmap string JSON → GeminiParameterSchema)
  (input : gmap string JSON) (k : string) :
  k ∉ schemaKeys → convertBody rec (delete k input) = convertBody rec input.
Proof.
  intros Hk.
  assert (∀ key, key ∈ schemaKeys → delete k input !! key = input !! key) as Hl.
  { intros key Hkey. apply lookup_delete_ne. intros ->. by apply Hk. }
  unfold convertBody, subSchemasOf, convertFields, withParentDescription.
  rewrite !Hl by (unfold schemaKeys; set_solver). done.
Qed.

(** X17.  [ConvertSchema] reads eight keys of a schema map: [type],
    [description], [properties], [items], [required], [enum], [anyOf] and
    [oneOf].  Adding, changing or removing any other key of the map
    ([$schema], [additionalProperties], [default], ...) does not change
    the result; the same holds at every level, the sub-schemas being
    converted by the same function. *)
Theorem ConvertSchema_ignores_other_keys (input : gmap string JSON) (k : string) :
  k ∉ schemaKeys →
  (∀ v, ConvertSchema (Some (<[k := v]> input)) = ConvertSchema (Some input)) ∧
  ConvertSchema (Some (delete k input)) = ConvertSchema (Some input) ∧
  convertMap input = convertBody convertMap input.
Proof.
  intros Hk. unfold ConvertSchema. simpl. split; [|split].
  - intros v. f_equal. rewrite (convertMap_unfold (<[k := v]> input)).
    rewrite convertBody_insert by done. by rewrite <- convertMap_unfold.
  - f_equal. rewrite (convertMap_unfold (delete k input)).
    rewrite convertBody_delete by done. by rewrite <- convertMap_unfold.
  - apply convertMap_unfold.
Qed.

Lemma ConvertSchema_ignores_other_keys_witness :
  (∀ v, ConvertSchema (Some (<["$schema" := v]> {[ "type" := JStr "object" ]}))
        = ConvertSchema (Some {[ "type" := JStr "object" ]})) ∧
  ConvertSchema (Some (delete "$schema" {[ "type" := JStr "object" ]}))
  = ConvertSchema (Some {[ "type" := JStr "object" ]}) ∧
  convertMap {[ "type" := JStr "object" ]} = convertBody convertMap {[ "type" := JStr "object" ]}.
Proof.
  apply (ConvertSchema_ignores_other_keys {[ "type" := JStr "object" ]} "$schema").
  by_evaluation.
Defined.

(** ** Tool names *)

Lemma spaces_start_outside :
  Forall (λ sp, startsOutside sp = true ∧ startsOutside (Strings.rev_string sp) = true)
    Strings.spaces.
Proof. by_evaluation. Qed.

Lemma HasPrefix_outside (s sp : string) :
  Forall (λ b, keepsByte b = true) (list_ascii_of_string s) →
  startsOutside sp = true → Strings.HasPrefix s sp = false.
Proof.
  intros Hs Hsp. destruct sp as [|c sp]; [done|]. destruct s as [|b s]; [done|].
  simpl in *. apply Forall_cons in Hs as [Hb _].
  destruct (Ascii.eqb c b) eqn:E; [|done].
  apply Ascii.eqb_eq in E as ->. by rewrite Hb in Hsp.
Qed.

Lemma list_ascii_rev_string (s : string) :
  list_ascii_of_string (Strings.rev_string s) = rev (list_ascii_of_string s).
Proof. unfold Strings.rev_string. by rewrite list_ascii_of_string_of_list_ascii. Qed.

Lemma TrimSpace_kept (s : string) :
  Forall (λ b, keepsByte b = true) (list_ascii_of_string s) → Strings.TrimSpace s = s.
Proof.
  intros Hs.
  assert (Strings.leading_space s = None) as Hl.
  { apply find_nothing. intros sp Hsp.
    pose proof spaces_start_outside as HO. eapply Forall_forall in HO as [HO _]; [|exact Hsp].
    by apply HasPrefix_outside. }
  assert (Strings.trailing_space (Strings.rev_string s) = None) as Ht.
  { apply find_nothing. intros sp Hsp.
    pose proof spaces_start_outside as HO. eapply Forall_forall in HO as [_ HO]; [|exact Hsp].
    apply HasPrefix_outside; [|done]. rewrite list_ascii_rev_string. by apply Forall_rev. }
  unfold Strings.TrimSpace.
  assert (Strings.TrimLeft s = s) as ->.
  { unfold Strings.TrimLeft. destruct (String.length s); simpl; [done|]. by rewrite Hl. }
  unfold Strings.TrimRight.
  assert (Strings.TrimRight_fuel (String.length s) (Strings.rev_string s)
          = Strings.rev_string s) as ->.
  { destruct (String.length s); simpl; [done|]. by rewrite Ht. }
  apply rev_string_involutive.
Qed.

Lemma sanitizeRune_kept (b : ascii) : keepsByte (sanitizeRune b) = true.
Proof. unfold sanitizeRune. by destruct (keepsByte b) eqn:E. Qed.

Lemma mapRunes_kept (fuel : nat) (s : string) :
  Forall (λ b, keepsByte b = true) (list_ascii_of_string (mapRunes fuel s)).
Proof.
  revert s. induction fuel as [|fuel IH]; intros s; [constructor|].
  destruct s as [|b s]; [constructor|]. cbn [mapRunes list_ascii_of_string].
  constructor; [apply sanitizeRune_kept|apply IH].
Qed.

Lemma keepsByte_ascii (b : ascii) : keepsByte b = true → (nat_of_ascii b < 128)%nat.
Proof.
  unfold keepsByte, Utf8.between. intros H.
  repeat (apply orb_true_iff in H as [H|H]);
    repeat (apply andb_true_iff in H as [? H]);
    repeat match goal with
           | H : (_ <=? _)%nat = true |- _ => apply Nat.leb_le in H
           | H : (_ =? _)%nat = true |- _ => apply Nat.eqb_eq in H
           end; lia.
Qed.

Lemma width_ascii (b : ascii) (s : string) :
  (nat_of_ascii b < 128)%nat → Utf8.width (String b s) = 1%nat.
Proof.
  intros H. unfold Utf8.width, Utf8.values. cbn [list_ascii_of_string fmap list_fmap].
  destruct (Nat.ltb_spec (nat_of_ascii b) 194); [done|lia].
Qed.

Lemma mapRunes_fixed (fuel : nat) (s : string) :
  Forall (λ b, keepsByte b = true) (list_ascii_of_string s) →
  (String.length s ≤ fuel)%nat → mapRunes fuel s = s.
Proof.
  revert s. induction fuel as [|fuel IH]; intros s Hs Hl.
  - destruct s; [done|simpl in Hl; lia].
  - destruct s as [|b s]; [done|]. cbn [mapRunes].
    simpl in Hs. apply Forall_cons in Hs as [Hb Hs].
    rewrite (width_ascii b s) by (by apply keepsByte_ascii).
    unfold sanitizeRune. rewrite Hb. simpl. f_equal. apply IH; [done|]. simpl in Hl. lia.
Qed.

Lemma mapRunes_empty (s : string) : mapRunes (String.length s) s = "" → s = "".
Proof. by destruct s. Qed.

Lemma slice_to_bytes (n : nat) (s : string) :
  list_ascii_of_string (slice_to n s) = take n (list_ascii_of_string s).
Proof.
  unfold slice_to. revert s. induction n as [|n IH]; intros s.
  - by destruct s.
  - destruct s as [|b s]; [done|]. simpl. by rewrite IH.
Qed.

Lemma string_length_bytes (s : string) : String.length s = length (list_ascii_of_string s).
Proof. induction s as [|b s IH]; simpl; [done|]. by rewrite IH. Qed.

Lemma sanitizeToolName_name (name : string) : validName (sanitizeToolName name).
Proof.
  unfold sanitizeToolName, validName.
  destruct (decide (name = "")); [split; [constructor|simpl; lia]|].
  set (name2 := mapRunes _ _).
  pose proof (mapRunes_kept (String.length (Strings.TrimSpace name))
                (Strings.TrimSpace name)) as Hk. fold name2 in Hk.
  destruct (Nat.ltb_spec 64 (String.length name2)) as [Hlt|Hge]; [|by split].
  split.
  - rewrite slice_to_bytes. by apply Forall_take.
  - rewrite string_length_bytes, slice_to_bytes, length_take. lia.
Qed.

Lemma sanitizeToolName_fixed (name : string) :
  validName name → sanitizeToolName name = name.
Proof.
  intros [Hk Hl]. unfold sanitizeToolName.
  destruct (decide (name = "")); [done|].
  rewrite (TrimSpace_kept name Hk), (mapRunes_fixed _ name Hk) by done.
  destruct (Nat.ltb_spec 64 (String.length name)); [lia|done].
Qed.

(** X18.  [sanitizeToolName] always returns a name of at most 64 bytes
    made of ASCII letters, digits, [_] and [-]; a name that already has
    this form is returned unchanged, so the function is idempotent; and
    the result is empty exactly when the name is empty or white space,
    whatever else it contains being replaced, not removed. *)
Theorem sanitizeToolName_valid (name : string) :
  validName (sanitizeToolName name) ∧
  (validName name → sanitizeToolName name = name) ∧
  sanitizeToolName (sanitizeToolName name) = sanitizeToolName name ∧
  (sanitizeToolName name = "" ↔ Strings.TrimSpace name = "").
Proof.
  split; [apply sanitizeToolName_name|]. split; [apply sanitizeToolName_fixed|].
  split; [apply sanitizeToolName_fixed, sanitizeToolName_name|].
  unfold sanitizeToolName.
  destruct (decide (name = "")) as [->|Hne]; [done|].
  set (t := Strings.TrimSpace name).
  destruct (Nat.ltb_spec 64 (String.length (mapRunes (String.length t) t))) as [Hlt|Hge].
  - split.
    + intros E. exfalso.
      pose proof (substring_length 64 (mapRunes (String.length t) t)) as HL.
      unfold slice_to in E. rewrite E in HL. simpl in HL. lia.
    + intros E. rewrite E in Hlt. simpl in Hlt. lia.
  - split; [apply mapRunes_empty|]. by intros ->.
Qed.

(** ** Raw tools *)

Lemma buildFunctionDeclarations_loop_omap (items : list (gmap string JSON))
  (fns : list FunctionDeclaration) :
  buildFunctionDeclarations_loop items fns = (fns ++ omap declarationOf items)%list.
Proof.
  revert fns. induction items as [|item items IH]; intros fns; simpl.
  - by rewrite app_nil_r.
  - destruct (declarationOf item) as [fn|]; rewrite IH; [|done].
    by rewrite <- app_assoc.
Qed.

Lemma buildFunctionDeclarations_omap (items : list (gmap string JSON)) :
  buildFunctionDeclarations items = omap declarationOf items.
Proof.
  unfold buildFunctionDeclarations. destruct items; [done|].
  by rewrite buildFunctionDeclarations_loop_omap.
Qed.

Lemma nameOf_valid (item : gmap string JSON) : validName (nameOf item).
Proof.
  unfold nameOf, extractToolFields.
  destruct (fillFrom _ _) as [[name description] schema]. simpl.
  apply sanitizeToolName_name.
Qed.

Lemma declarationOf_named (item : gmap string JSON) :
  match declarationOf item with
  | Some fn => fdName fn = nameOf item ∧ nameOf item ≠ "" ∧ fdParameters fn ≠ None
  | None => nameOf item = ""
  end.
Proof.
  unfold declarationOf, nameOf.
  destruct (extractToolFields item) as [[name description] schema]. simpl.
  by destruct (decide (name = "")).
Qed.

Lemma names_of_declarations (items : list (gmap string JSON)) :
  fdName <$> omap declarationOf items = nameOf <$> filter (λ item, ¬ unnamed item) items.
Proof.
  induction items as [|item items IH]; [done|].
  pose proof (declarationOf_named item) as H.
  destruct (declarationOf item) as [fn|] eqn:Ed.
  - assert (omap declarationOf (item :: items) = fn :: omap declarationOf items) as ->
      by (simpl; by rewrite Ed).
    destruct H as (E & Hne & _). rewrite filter_cons_True by (unfold unnamed; tauto).
    rewrite !fmap_cons, IH. by f_equal.
  - assert (omap declarationOf (item :: items) = omap declarationOf items) as ->
      by (simpl; by rewrite Ed).
    rewrite filter_cons_False by (unfold unnamed; tauto). exact IH.
Qed.

Lemma summarizeItem_fields (stats : toolStats) (item : gmap string JSON) :
  let stats1 := summarizeItem stats item in
  rawCount stats1 = rawCount stats ∧
  names stats1 = (names stats ++ (nameOf <$> filter (λ i, ¬ unnamed i) [item]))%list ∧
  missingName stats1 = (missingName stats + length (filter unnamed [item]))%nat ∧
  missingSchema stats1 = (missingSchema stats + length (filter schemaless [item]))%nat ∧
  customCount stats1 = (customCount stats + length (filter isCustom [item]))%nat.
Proof.
  cbn zeta.
  assert (∀ (P : gmap string JSON → Prop) `{!∀ x, Decision (P x)},
            length (filter P [item]) = if decide (P item) then 1%nat else 0%nat) as HL.
  { intros P HP. rewrite filter_cons, filter_nil. by destruct (decide (P item)). }
  rewrite !HL.
  assert (nameOf <$> filter (λ i, ¬ unnamed i) [item]
          = if decide (unnamed item) then [] else [nameOf item]) as ->.
  { rewrite filter_cons, filter_nil.
    destruct (decide (unnamed item)).
    - by rewrite decide_False by tauto.
    - by rewrite decide_True by tauto. }
  destruct (decide (unnamed item)) as [Hu|Hu];
    destruct (decide (schemaless item)) as [Hs|Hs];
    destruct (decide (isCustom item)) as [Hc|Hc];
    revert Hu Hs Hc;
    unfold summarizeItem, unnamed, schemaless, isCustom, nameOf;
    destruct (extractToolFields item) as [[name description] schema]; simpl;
    intros Hu Hs Hc;
    destruct (decide (name = "")); try done;
    destruct schema; try done;
    destruct (as_object (item !! "custom")); try done; simpl;
    rewrite ?app_nil_r; repeat split; try lia; by destruct Hc.
Qed.

Lemma summarize_fold (items : list (gmap string JSON)) (stats : toolStats) :
  let stats1 := foldl summarizeItem stats items in
  rawCount stats1 = rawCount stats ∧
  names stats1 = (names stats ++ (nameOf <$> filter (λ i, ¬ unnamed i) items))%list ∧
  missingName stats1 = (missingName stats + length (filter unnamed items))%nat ∧
  missingSchema stats1 = (missingSchema stats + length (filter schemaless items))%nat ∧
  customCount stats1 = (customCount stats + length (filter isCustom items))%nat.
Proof.
  revert stats. induction items as [|item items IH]; intros stats.
  - simpl. rewrite app_nil_r. repeat split; lia.
  - cbn zeta. cbn [foldl].
    destruct (IH (summarizeItem stats item)) as (-> & -> & -> & -> & ->).
    destruct (summarizeItem_fields stats item) as (-> & -> & -> & -> & ->).
    change (item :: items) with ([item] ++ items)%list.
    rewrite !filter_app, !length_app, fmap_app, <- !app_assoc.
    repeat split; lia.
Qed.

(** X19.  [buildFunctionDeclarations] gives one declaration, in order, for
    each raw tool in which a name is found (at the top level, else under
    [custom], else under [function]) that is not blank; every declaration
    has a valid non-empty name and parameters, so that
    [fillMissingParameters] finds nothing to fill.  [summarizeRawTools]
    counts the same items: its names are the names of the declarations,
    the tools it reports without a name are the ones left out, and its
    other counters are the items without a schema and the items with a
    [custom] object. *)
Theorem buildFunctionDeclarations_and_summary (items : list (gmap string JSON)) :
  let fns := buildFunctionDeclarations items in
  let stats := summarizeRawTools items in
  fns = omap declarationOf items ∧
  fdName <$> fns = nameOf <$> filter (λ item, ¬ unnamed item) items ∧
  Forall (λ fn, fdName fn ≠ "" ∧ validName (fdName fn) ∧ ¬ withoutParameters fn) fns ∧
  fillMissingParameters [mkTool fns] = [mkTool fns] ∧
  (rawCount stats = length items ∧ names stats = fdName <$> fns ∧
   (length fns + missingName stats = length items)%nat ∧
   missingSchema stats = length (filter schemaless items) ∧
   customCount stats = length (filter isCustom items)).
Proof.
  cbn zeta. rewrite buildFunctionDeclarations_omap.
  assert (Forall (λ fn, fdName fn ≠ "" ∧ validName (fdName fn) ∧ ¬ withoutParameters fn)
            (omap declarationOf items)) as HF.
  { apply Forall_forall. intros fn (item & _ & Hd)%list_elem_of_omap.
    pose proof (declarationOf_named item) as H. rewrite Hd in H.
    destruct H as (-> & Hne & Hp). split; [done|]. split; [apply nameOf_valid|done]. }
  split; [done|]. split; [apply names_of_declarations|]. split; [done|].
  split.
  { apply fillMissingParameters_fixed. unfold declarations. simpl. rewrite app_nil_r.
    eapply Forall_impl; [exact HF|]. by intros fn (_ & _ & H). }
  unfold summarizeRawTools.
  destruct (summarize_fold items (mkToolStats (length items) 0 0 0 []))
    as (-> & -> & -> & -> & ->). simpl.
  split; [done|]. split; [by rewrite names_of_declarations|].
  split; [|done].
  rewrite <- (length_fmap fdName), names_of_declarations, length_fmap.
  pose proof (length_filter_split unnamed items). lia.
Qed.

Example buildFunctionDeclarations_demo :
  buildFunctionDeclarations demoRawTools =
    [ mkFunctionDeclaration "read_file" "" (Some (mkSchema "OBJECT" "" None None [] []));
      mkFunctionDeclaration "grep" "search" (Some (mkSchema "OBJECT" "" None None [] [])) ] ∧
  summarizeRawTools demoRawTools = mkToolStats 3 1 1 1 ["read_file"; "grep"] ∧
  sanitizeToolName "  héllo wörld/v2  " = "h_llo_w_rld_v2".
Proof. vm_compute. done. Qed.

(** ** The other upstream calls *)

Section UpstreamProperties.

Context {World : Type}.
Variable provider_GetCredentials : World → result OAuthCredentials * World.
Variable provider_RefreshToken : World → option error * World.
Variable httpClient_Do : HTTPRequest → World → result Response * World.

Local Abbreviation doRequest' :=
  (doRequest provider_GetCredentials provider_RefreshToken httpClient_Do).

(** One call of [doRequest] appends the calls of one exchange to the
    log. *)
Lemma doRequest_exchange (method url body accept : string) (w : World) (log : list Event) :
  ∃ calls,
    (doRequest' method url body accept (w, log)).2.2 = (log ++ calls)%list ∧
    exchange (mkHTTPRequest method url body accept) calls
      (doRequest' method url body accept (w, log)).1.
Proof.
  unfold doRequest, doRequestWithToken, GetCredentials, RefreshTokenCall, Do.
  destruct (provider_GetCredentials w) as [[creds|e] w1]; simpl;
    [|eexists; split; [done|constructor]].
  destruct (decide (AccessToken creds = "")) as [Ht|Ht]; simpl;
    [eexists; split; [done|by constructor]|].
  destruct (httpClient_Do _ w1) as [[resp|e] w2]; simpl;
    [|eexists; split; [by rewrite <- app_assoc|by constructor]].
  destruct (decide (StatusCode resp = StatusUnauthorized)) as [Hs|Hs]; simpl;
    [|eexists; split; [by rewrite <- app_assoc|by constructor]].
  destruct (provider_RefreshToken w2) as [[e|] w3]; simpl;
    [eexists; split; [by rewrite <- !app_assoc|by constructor]|].
  destruct (provider_GetCredentials w3) as [[refreshed|e] w4]; simpl;
    [|eexists; split; [by rewrite <- !app_assoc|by constructor]].
  destruct (httpClient_Do _ w4) as [answer w5] eqn:E; simpl.
  exists [GetCredentialsEvent (Ok creds);
          DoEvent (mkHTTPRequest method url body accept (AccessToken creds)) (Ok resp);
          RefreshTokenEvent None; GetCredentialsEvent (Ok refreshed);
          DoEvent (mkHTTPRequest method url body accept (AccessToken refreshed)) answer].
  split.
  - destruct answer; simpl; by rewrite <- !app_assoc.
  - pose proof (exchange_retried (mkHTTPRequest method url body accept) creds refreshed resp
                  answer Ht Hs) as H.
    by destruct answer.
Qed.

Lemma endpointLoop_spec {A : Type} (method body accept : string) (url : string → string)
  (judge : string → Response → verdict A) (none : error)
  (endpoints : list string) (lastErr : option error) (w : World) (log : list Event) :
  ∃ (failures : list Tried) (final : option Tried),
    let out :=
      endpointLoop (λ endpoint, doRequest' method (url endpoint) body accept) judge none
        endpoints lastErr (w, log) in
    let tried := (failures ++ option_list final)%list in
    (triedEndpoint <$> tried) `prefix_of` endpoints ∧
    out.2.2 = (log ++ concat (triedCalls <$> tried))%list ∧
    Forall (λ t, exchange (λ token, mkHTTPRequest method (url (triedEndpoint t)) body accept token)
                   (triedCalls t) (triedAnswer t)) tried ∧
    Forall (λ t, is_Some (leftError judge t)) failures ∧
    match final with
    | Some t =>
        ∃ resp, triedAnswer t = Ok resp ∧ judge (triedEndpoint t) resp = Stop out.1
    | None =>
        triedEndpoint <$> failures = endpoints ∧
        out.1 = Err (default none
                       match last failures with
                       | Some t => leftError judge t
                       | None => lastErr
                       end)
    end.
Proof.
  revert lastErr w log.
  induction endpoints as [|endpoint endpoints IH]; intros lastErr w log.
  { exists [], None. simpl. rewrite app_nil_r.
    split; [done|]. split; [done|]. split; [constructor|]. split; [constructor|done]. }
  destruct (doRequest_exchange method (url endpoint) body accept w log)
    as (calls & Hlog & Hex).
  cbn [endpointLoop].
  destruct (doRequest' method (url endpoint) body accept (w, log))
    as [answer [w1 log1]] eqn:ED.
  simpl in Hlog, Hex. subst log1.
  set (t := mkTried endpoint calls answer).
  assert (∀ e, leftError judge t = Some e →
            ∃ failures final,
              let out :=
                endpointLoop (λ endpoint, doRequest' method (url endpoint) body accept)
                  judge none endpoints (Some e) (w1, (log ++ calls)%list) in
              let tried := (failures ++ option_list final)%list in
              (triedEndpoint <$> tried) `prefix_of` (endpoint :: endpoints) ∧
              out.2.2 = (log ++ concat (triedCalls <$> tried))%list ∧
              Forall (λ t, exchange
                             (λ token, mkHTTPRequest method (url (triedEndpoint t)) body
                                         accept token)
                             (triedCalls t) (triedAnswer t)) tried ∧
              Forall (λ t, is_Some (leftError judge t)) failures ∧
              match final with
              | Some t =>
                  ∃ resp, triedAnswer t = Ok resp ∧ judge (triedEndpoint t) resp = Stop out.1
              | None =>
                  triedEndpoint <$> failures = endpoint :: endpoints ∧
                  out.1 = Err (default none
                                 match last failures with
                                 | Some t => leftError judge t
                                 | None => lastErr
                                 end)
              end) as Hfail.
  { intros e He.
    destruct (IH (Some e) w1 (log ++ calls)%list)
      as (failures & final & H1 & H2 & H3 & H4 & H5).
    exists (t :: failures), final. cbn zeta in *.
    split; [by apply prefix_cons|].
    split; [by rewrite H2, <- app_assoc|].
    split; [by constructor|].
    split; [constructor; [by rewrite He|done]|].
    destruct final as [tf|]; [done|].
    destruct H5 as [H5 H6]. split; [by rewrite fmap_cons, H5|].
    etransitivity; [exact H6|].
    destruct failures as [|t1 failures]; [simpl; by rewrite He|].
    change (last (t :: t1 :: failures)) with (last (t1 :: failures)).
    destruct (last (t1 :: failures)) eqn:EL; [done|]. by apply last_None in EL. }
  destruct answer as [resp|e]; [|by apply (Hfail e)].
  destruct (judge endpoint resp) as [r|e] eqn:EJ.
  - exists [], (Some t). simpl. rewrite app_nil_r.
    split; [apply prefix_cons, prefix_nil|]. split; [done|].
    split; [by repeat constructor|]. split; [constructor|].
    by exists resp.
  - apply (Hfail e). unfold leftError. simpl. by rewrite EJ.
Qed.

Lemma endpointLoop_failsOver {A : Type} (method body accept : string) (url : string → string)
  (judge : string → Response → verdict A) (none : error) (endpoints : list string)
  (w : World) (log : list Event) :
  failsOver (λ endpoint token, mkHTTPRequest method (url endpoint) body accept token)
    judge none endpoints log
    (endpointLoop (λ endpoint, doRequest' method (url endpoint) body accept) judge none
       endpoints None (w, log)).
Proof.
  destruct (endpointLoop_spec method body accept url judge none endpoints None w log)
    as (failures & final & H1 & H2 & H3 & H4 & H5).
  exists failures, final. cbn zeta in *.
  split; [done|]. split; [done|]. split; [done|]. split; [done|].
  destruct final; [done|]. destruct H5 as [H5 H6]. split; [done|].
  rewrite H6. by destruct (last failures).
Qed.

Variable json_Marshal_LoadCodeAssistRequest : result string.
Variable json_Marshal_emptyMap : result string.
Variable json_Marshal : GenerateContentRequest → result string.
Variable json_Unmarshal_LoadCodeAssistResponse : string → result LoadCodeAssistResponse.
Variable json_Unmarshal_FetchAvailableModelsResponse :
  string → result FetchAvailableModelsResponse.
Variable uuid : nat → string.

Lemma loadCodeAssistLoop_endpointLoop (endpoints : list string) (body : string)
  (lastErr : option error) (s : World * list Event) :
  loadCodeAssistLoop provider_GetCredentials provider_RefreshToken httpClient_Do
    json_Unmarshal_LoadCodeAssistResponse endpoints body lastErr s =
  endpointLoop (λ endpoint, doRequest' "POST" (loadCodeAssistURL endpoint) body
                              "application/json")
    (judgeParsed json_Unmarshal_LoadCodeAssistResponse (statusError "auth check"))
    (Errorf "loadCodeAssist failed with no endpoints available" None) endpoints lastErr s.
Proof.
  revert lastErr s. induction endpoints as [|endpoint endpoints IH]; intros lastErr s.
  { simpl. by destruct lastErr. }
  cbn [loadCodeAssistLoop endpointLoop].
  destruct (doRequest' _ _ _ _ s) as [[resp|e] s1]; [|apply IH].
  unfold judgeParsed. destruct (Body resp) as [respBody|e]; [|apply IH].
  destruct (decide (StatusCode resp = StatusOK)); [|apply IH].
  by destruct (json_Unmarshal_LoadCodeAssistResponse respBody).
Qed.

Lemma fetchAvailableModelsLoop_endpointLoop (endpoints : list string) (body : string)
  (lastErr : option error) (s : World * list Event) :
  fetchAvailableModelsLoop provider_GetCredentials provider_RefreshToken httpClient_Do
    json_Unmarshal_FetchAvailableModelsResponse endpoints body lastErr s =
  endpointLoop (λ endpoint, doRequest' "POST" (fetchAvailableModelsURL endpoint) body
                              "application/json")
    (judgeParsed json_Unmarshal_FetchAvailableModelsResponse
       (statusError "fetchAvailableModels"))
    (Errorf "fetchAvailableModels failed with no endpoints available" None)
    endpoints lastErr s.
Proof.
  revert lastErr s. induction endpoints as [|endpoint endpoints IH]; intros lastErr s.
  { simpl. by destruct lastErr. }
  cbn [fetchAvailableModelsLoop endpointLoop].
  destruct (doRequest' _ _ _ _ s) as [[resp|e] s1]; [|apply IH].
  unfold judgeParsed. destruct (Body resp) as [respBody|e]; [|apply IH].
  destruct (decide (StatusCode resp = StatusOK)); [|apply IH].
  by destruct (json_Unmarshal_FetchAvailableModelsResponse respBody).
Qed.

Lemma streamGenerateContentLoop_endpointLoop (endpoints : list string) (body : string)
  (lastErr : option error) (s : World * list Event) :
  streamGenerateContentLoop provider_GetCredentials provider_RefreshToken httpClient_Do
    endpoints body lastErr s =
  endpointLoop (λ endpoint, doRequest' "POST" (streamGenerateContentURL endpoint) body
                              "text/event-stream")
    judgeStream
    (Errorf "streamGenerateContent failed with no endpoints available" None)
    endpoints lastErr s.
Proof.
  revert lastErr s. induction endpoints as [|endpoint endpoints IH]; intros lastErr s.
  { simpl. by destruct lastErr. }
  cbn [streamGenerateContentLoop endpointLoop].
  destruct (doRequest' _ _ _ _ s) as [[resp|e] s1]; [|apply IH].
  unfold judgeStream. destruct (decide (StatusCode resp = StatusOK)); [done|].
  destruct (Body resp) as [respBody|e]; apply IH.
Qed.

(** X20.  [StreamGenerateContent], when the prepared request serializes,
    tries the endpoints in the order of [Endpoints], each with one
    exchange of [doRequest] (POST to the endpoint's
    [streamGenerateContent?alt=sse] URL, [Accept: text/event-stream], at
    most one refresh and one retry).  It returns [nil] at the first
    response of status 200, whose body it has not read, and contacts no
    further endpoint; a failed exchange or any other status is recorded
    (an upstream error with the body, or the read error of the body) and
    the next endpoint is tried; after the last one the error recorded
    last is returned. *)
Theorem StreamGenerateContent_failover (req : GenerateContentRequest) (n : nat) (w : World)
  (body : string) :
  json_Marshal (prepareAntigravityRequest uuid req n).1 = Ok body →
  failsOver
    (λ endpoint token,
       mkHTTPRequest "POST" (endpoint ++ "/v1internal:streamGenerateContent?alt=sse") body
         "text/event-stream" token)
    judgeStream (Errorf "streamGenerateContent failed with no endpoints available" None)
    Endpoints []
    (StreamGenerateContent provider_GetCredentials provider_RefreshToken httpClient_Do
       json_Marshal uuid req n (w, [])) ∧
  ∀ endpoint resp,
    (StatusCode resp = StatusOK → judgeStream endpoint resp = Stop (Ok resp)) ∧
    (StatusCode resp ≠ StatusOK → ∃ e, judgeStream endpoint resp = Next e).
Proof.
  intros Hbody. split.
  - unfold StreamGenerateContent.
    destruct (prepareAntigravityRequest uuid req n) as [req1 n1]. simpl in Hbody.
    rewrite Hbody, streamGenerateContentLoop_endpointLoop.
    apply (endpointLoop_failsOver "POST" body "text/event-stream" streamGenerateContentURL).
  - intros endpoint resp. unfold judgeStream. split; intros H.
    + by rewrite decide_True.
    + rewrite decide_False by done. destruct (Body resp); by eexists.
Qed.

(** X21.  [LoadCodeAssist], when its request serializes, tries the
    endpoints in the order of [Endpoints], each with one exchange of
    [doRequest] to the endpoint's [loadCodeAssist] URL.  A failed
    exchange, an unreadable body or a status other than 200 (recorded as
    [auth check failed with status <code>: <body>]) sends it to the next
    endpoint; the first readable 200 ends the call, with the parsed body
    or, if the body does not parse, with the parse error and without
    trying the endpoints left; after the last endpoint the error recorded
    last is returned. *)
Theorem LoadCodeAssist_failover (w : World) (body : string) :
  json_Marshal_LoadCodeAssistRequest = Ok body →
  failsOver
    (λ endpoint token,
       mkHTTPRequest "POST" (endpoint ++ "/v1internal:loadCodeAssist") body
         "application/json" token)
    (judgeParsed json_Unmarshal_LoadCodeAssistResponse (statusError "auth check"))
    (Errorf "loadCodeAssist failed with no endpoints available" None)
    Endpoints []
    (LoadCodeAssist provider_GetCredentials provider_RefreshToken httpClient_Do
       json_Marshal_LoadCodeAssistRequest json_Unmarshal_LoadCodeAssistResponse (w, [])).
Proof.
  intros Hbody. unfold LoadCodeAssist. rewrite Hbody, loadCodeAssistLoop_endpointLoop.
  apply (endpointLoop_failsOver "POST" body "application/json" loadCodeAssistURL).
Qed.

(** X22.  [FetchAvailableModels] follows the same discipline on the
    endpoint's [fetchAvailableModels] URL: endpoints in order, one
    exchange each, the next endpoint after a failed exchange, an
    unreadable body or a status other than 200 (recorded as
    [fetchAvailableModels failed with status <code>: <body>]), the parsed
    body or the parse error at the first readable 200, and the error
    recorded last when no endpoint is left. *)
Theorem FetchAvailableModels_failover (w : World) (body : string) :
  json_Marshal_emptyMap = Ok body →
  failsOver
    (λ endpoint token,
       mkHTTPRequest "POST" (endpoint ++ "/v1internal:fetchAvailableModels") body
         "application/json" token)
    (judgeParsed json_Unmarshal_FetchAvailableModelsResponse
       (statusError "fetchAvailableModels"))
    (Errorf "fetchAvailableModels failed with no endpoints available" None)
    Endpoints []
    (FetchAvailableModels provider_GetCredentials provider_RefreshToken httpClient_Do
       json_Marshal_emptyMap json_Unmarshal_FetchAvailableModelsResponse (w, [])).
Proof.
  intros Hbody. unfold FetchAvailableModels.
  rewrite Hbody, fetchAvailableModelsLoop_endpointLoop.
  apply (endpointLoop_failsOver "POST" body "application/json" fetchAvailableModelsURL).
Qed.

End UpstreamProperties.

Lemma StreamGenerateContent_failover_witness :
  failsOver
    (λ endpoint token,
       mkHTTPRequest "POST" (endpoint ++ "/v1internal:streamGenerateContent?alt=sse") "{}"
         "text/event-stream" token)
    judgeStream (Errorf "streamGenerateContent failed with no endpoints available" None)
    Endpoints []
    (StreamGenerateContent demoGetCredentials demoRefresh demoDo demoMarshalRequest demoUUID
       demoRequest 0 (0%nat, [])) ∧
  ∀ endpoint resp,
    (StatusCode resp = StatusOK → judgeStream endpoint resp = Stop (Ok resp)) ∧
    (StatusCode resp ≠ StatusOK → ∃ e, judgeStream endpoint resp = Next e).
Proof.
  apply (StreamGenerateContent_failover demoGetCredentials demoRefresh demoDo
           demoMarshalRequest demoUUID demoRequest 0 0%nat "{}").
  reflexivity.
Defined.

Lemma LoadCodeAssist_failover_witness :
  failsOver
    (λ endpoint token,
       mkHTTPRequest "POST" (endpoint ++ "/v1internal:loadCodeAssist") "{}"
         "application/json" token)
    (judgeParsed demoUnmarshalLoad (statusError "auth check"))
    (Errorf "loadCodeAssist failed with no endpoints available" None)
    Endpoints []
    (LoadCodeAssist demoGetCredentials demoRefresh demoDo (Ok "{}") demoUnmarshalLoad
       (0%nat, [])).
Proof.
  apply (LoadCodeAssist_failover demoGetCredentials demoRefresh demoDo (Ok "{}")
           demoUnmarshalLoad 0%nat "{}").
  reflexivity.
Defined.

Lemma FetchAvailableModels_failover_witness :
  failsOver
    (λ endpoint token,
       mkHTTPRequest "POST" (endpoint ++ "/v1internal:fetchAvailableModels") "{}"
         "application/json" token)
    (judgeParsed demoUnmarshalModels (statusError "fetchAvailableModels"))
    (Errorf "fetchAvailableModels failed with no endpoints available" None)
    Endpoints []
    (FetchAvailableModels demoGetCredentials demoRefresh demoDo (Ok "{}") demoUnmarshalModels
       (0%nat, [])).
Proof.
  apply (FetchAvailableModels_failover demoGetCredentials demoRefresh demoDo (Ok "{}")
           demoUnmarshalModels 0%nat "{}").
  reflexivity.
Defined.

Example StreamGenerateContent_demo_run :
  let out :=
    StreamGenerateContent demoGetCredentials demoRefresh demoDo demoMarshalRequest demoUUID
      demoRequest 0 (0%nat, []) in
  out.1 = Ok (mkResponse 200 (Ok "{}") "application/json") ∧
  length (filter isDo out.2.2) = 3%nat ∧ length (filter isRefresh out.2.2) = 1%nat.
Proof. vm_compute. done. Qed.

(** ** Project discovery *)

Section ProjectProperties.

Context {World : Type}.
Variable provider_GetCredentials : World → result OAuthCredentials * World.
Variable provider_RefreshToken : World → option error * World.
Variable httpClient_Do : HTTPRequest → World → result Response * World.
Variable json_Marshal : JSON → result string.
Variable json_Unmarshal : string → result (gmap string JSON).

Local Abbreviation callEndpointLoop' :=
  (callEndpointLoop provider_GetCredentials provider_RefreshToken httpClient_Do
     json_Unmarshal).
Local Abbreviation callEndpoint' :=
  (callEndpoint provider_GetCredentials provider_RefreshToken httpClient_Do json_Marshal
     json_Unmarshal).
Local Abbreviation pollOnboarding' :=
  (pollOnboarding provider_GetCredentials provider_RefreshToken httpClient_Do json_Marshal
     json_Unmarshal).
Local Abbreviation runOnboardingFlow' :=
  (runOnboardingFlow provider_GetCredentials provider_RefreshToken httpClient_Do json_Marshal
     json_Unmarshal).
Local Abbreviation Discover' :=
  (Discover provider_GetCredentials provider_RefreshToken httpClient_Do json_Marshal
     json_Unmarshal).

Lemma disciplined_nil {A : Type} (method reqBody : string) (endpoints : list string)
  (token : option string) (answer : result A) :
  disciplined method reqBody endpoints token [] answer.
Proof.
  split; [done|]. split; [constructor|]. split; [simpl; lia|]. split; [simpl; lia|].
  by intros ev ?%elem_of_nil.
Qed.

Lemma disciplined_step {A : Type} (method reqBody endpoint : string) (endpoints : list string)
  (token token1 : option string) (prefix calls : list Event) (answer : result A) :
  (∀ calls', authorized token1 calls' → authorized token (prefix ++ calls')%list) →
  Forall (callsMethod method reqBody (endpoint :: endpoints)) prefix →
  Forall (λ ev, ¬ refreshBroke ev) prefix →
  (length (filter isDo prefix) ≤ 2)%nat → (length (filter isRefresh prefix) ≤ 1)%nat →
  disciplined method reqBody endpoints token1 calls answer →
  disciplined method reqBody (endpoint :: endpoints) token (prefix ++ calls)%list answer.
Proof.
  intros Hauth Hsent Hok Hdo Hre (H1 & H2 & H3 & H4 & H5).
  split; [by apply Hauth|]. split.
  { apply Forall_app. split; [done|]. eapply Forall_impl; [exact H2|].
    intros [| |req a]; simpl; try done.
    intros (Hm & Hb & Ha & ep & Hep & Hu). repeat split; try done.
    exists ep. split; [by right|done]. }
  rewrite !filter_app, !length_app. cbn [length].
  split; [lia|]. split; [lia|].
  intros ev [Hin|Hin]%elem_of_app Hbroke.
  - eapply Forall_forall in Hok; [|exact Hin]. done.
  - destruct (H5 ev Hin Hbroke) as [Hlast Herr]. split; [|done].
    rewrite last_app, Hlast. done.
Qed.

(** A run that gives up inside the block entered on a 401. *)
Lemma disciplined_abort (method reqBody endpoint : string) (endpoints : list string)
  (token : option string) (prefix : list Event) (ev : Event) (e : error) :
  authorized token (prefix ++ [ev])%list →
  Forall (callsMethod method reqBody (endpoint :: endpoints)) (prefix ++ [ev])%list →
  Forall (λ ev, ¬ refreshBroke ev) prefix →
  (length (filter isDo (prefix ++ [ev])%list) ≤ 2)%nat →
  (length (filter isRefresh (prefix ++ [ev])%list) ≤ 1)%nat →
  disciplined (A := gmap string JSON) method reqBody (endpoint :: endpoints) token
    (prefix ++ [ev])%list (Err e).
Proof.
  intros Hauth Hsent Hok Hdo Hre.
  split; [done|]. split; [done|]. split; [simpl; lia|]. split; [simpl; lia|].
  intros ev' [Hin|Hin%list_elem_of_singleton]%elem_of_app Hbroke.
  - eapply Forall_forall in Hok; [|exact Hin]. done.
  - subst ev'. by rewrite last_snoc.
Qed.

Lemma callEndpointLoop_disciplined (method reqBody : string) (endpoints : list string)
  (accessToken : string) (lastErr : option error) (w : World) (log : list Event) :
  ∃ calls,
    (callEndpointLoop' method reqBody endpoints accessToken lastErr (w, log)).2.2
    = (log ++ calls)%list ∧
    disciplined method reqBody endpoints (Some accessToken) calls
      (callEndpointLoop' method reqBody endpoints accessToken lastErr (w, log)).1.
Proof.
  revert accessToken lastErr w log.
  induction endpoints as [|endpoint endpoints IH]; intros accessToken lastErr w log.
  { exists []. simpl. rewrite app_nil_r. split; [by destruct lastErr|].
    apply disciplined_nil. }
  cbn [callEndpointLoop]. unfold reauthorize, Do, RefreshTokenCall, GetCredentials.
  set (url := endpoint ++ "/" ++ CodeAssistAPIVersion ++ ":" ++ method).
  set (send := mkHTTPRequest "POST" url reqBody "application/json").
  assert (∀ token a, callsMethod method reqBody (endpoint :: endpoints)
                       (DoEvent (send token) a)) as Hsent.
  { intros token a. simpl. repeat split; try done. exists endpoint. split; [by left|done]. }
  (* The code after the block entered on a 401. *)
  assert (∀ (resp1 : Response) (accessToken1 : string) (w2 : World) (prefix : list Event),
            (∀ calls', authorized (Some accessToken1) calls' →
                       authorized (Some accessToken) (prefix ++ calls')%list) →
            Forall (callsMethod method reqBody (endpoint :: endpoints)) prefix →
            Forall (λ ev, ¬ refreshBroke ev) prefix →
            (length (filter isDo prefix) ≤ 2)%nat →
            (length (filter isRefresh prefix) ≤ 1)%nat →
            ∃ calls,
              (match Body resp1 with
               | Ok respBody =>
                   if decide (StatusCode resp1 = StatusOK)
                   then match json_Unmarshal respBody with
                        | Ok result => (Ok result, (w2, (log ++ prefix)%list))
                        | Err e => (Err e, (w2, (log ++ prefix)%list))
                        end
                   else callEndpointLoop' method reqBody endpoints accessToken1
                          (Some (Errorf ("API call failed with status " ++
                                         pretty (StatusCode resp1) ++ ": " ++ respBody) None))
                          (w2, (log ++ prefix)%list)
               | Err e =>
                   callEndpointLoop' method reqBody endpoints accessToken1 (Some e)
                     (w2, (log ++ prefix)%list)
               end).2.2 = (log ++ calls)%list ∧
              disciplined method reqBody (endpoint :: endpoints) (Some accessToken) calls
                (match Body resp1 with
                 | Ok respBody =>
                     if decide (StatusCode resp1 = StatusOK)
                     then match json_Unmarshal respBody with
                          | Ok result => (Ok result, (w2, (log ++ prefix)%list))
                          | Err e => (Err e, (w2, (log ++ prefix)%list))
                          end
                     else callEndpointLoop' method reqBody endpoints accessToken1
                            (Some (Errorf ("API call failed with status " ++
                                           pretty (StatusCode resp1) ++ ": " ++ respBody)
                                     None))
                            (w2, (log ++ prefix)%list)
                 | Err e =>
                     callEndpointLoop' method reqBody endpoints accessToken1 (Some e)
                       (w2, (log ++ prefix)%list)
                 end).1) as Hrest.
  { intros resp1 accessToken1 w2 prefix Hauth Hpre Hok Hdo Hre.
    assert (∀ lastErr1,
              ∃ calls,
                (callEndpointLoop' method reqBody endpoints accessToken1 lastErr1
                   (w2, (log ++ prefix)%list)).2.2 = (log ++ calls)%list ∧
                disciplined method reqBody (endpoint :: endpoints) (Some accessToken) calls
                  (callEndpointLoop' method reqBody endpoints accessToken1 lastErr1
                     (w2, (log ++ prefix)%list)).1) as Hnext.
    { intros lastErr1.
      destruct (IH accessToken1 lastErr1 w2 (log ++ prefix)%list) as (calls & Hlog & Hd).
      exists (prefix ++ calls)%list. split; [by rewrite Hlog, <- app_assoc|].
      by apply (disciplined_step method reqBody endpoint endpoints (Some accessToken)
                  (Some accessToken1)). }
    assert (∀ answer : result (gmap string JSON),
              disciplined method reqBody (endpoint :: endpoints) (Some accessToken)
                prefix answer) as Hstop.
    { intros answer. rewrite <- (app_nil_r prefix).
      apply (disciplined_step method reqBody endpoint endpoints (Some accessToken)
               (Some accessToken1)); try done. apply disciplined_nil. }
    destruct (Body resp1) as [respBody|e]; [|apply Hnext].
    destruct (decide (StatusCode resp1 = StatusOK)); [|apply Hnext].
    exists prefix. destruct (json_Unmarshal respBody); simpl; (split; [done|apply Hstop]). }
  destruct (httpClient_Do (send accessToken) w) as [[resp|e] w1].
  2: { cbn beta iota zeta.
       destruct (IH accessToken (Some e) w1 (log ++ [DoEvent (send accessToken) (Err e)])%list)
         as (calls & Hlog & Hd).
       exists ([DoEvent (send accessToken) (Err e)] ++ calls)%list.
       split; [by rewrite Hlog, <- app_assoc|].
       apply (disciplined_step method reqBody endpoint endpoints (Some accessToken)
                (Some accessToken));
         [ intros calls' H; simpl; by split
         | repeat (apply Forall_cons; split; [first [apply Hsent|exact I]|]);
           constructor
         | repeat (apply Forall_cons; split; [simpl; tauto|]);
           constructor
         | simpl; lia
         | simpl; lia
         | exact Hd ]. }
  cbn beta iota zeta.
  destruct (decide (StatusCode resp = StatusUnauthorized)) as [H401|H401].
  2: { apply (Hrest resp accessToken w1 [DoEvent (send accessToken) (Ok resp)]);
         [ intros calls' H; simpl; by split
         | repeat (apply Forall_cons; split; [first [apply Hsent|exact I]|]);
           constructor
         | repeat (apply Forall_cons; split; [simpl; tauto|]);
           constructor
         | simpl; lia
         | simpl; lia ]. }
  destruct (provider_RefreshToken w1) as [[e|] w2]; cbn beta iota zeta.
  { exists ([DoEvent (send accessToken) (Ok resp)] ++ [RefreshTokenEvent (Some e)])%list.
    split; [by rewrite <- !app_assoc|].
    apply disciplined_abort;
      [ simpl; by repeat split
      | repeat (apply Forall_cons; split; [first [apply Hsent|exact I]|]);
           constructor
      | repeat (apply Forall_cons; split; [simpl; tauto|]);
           constructor
      | simpl; lia
      | simpl; lia ]. }
  destruct (provider_GetCredentials w2) as [[refreshed|e] w3]; cbn beta iota zeta.
  2: { exists ([DoEvent (send accessToken) (Ok resp); RefreshTokenEvent None] ++
               [GetCredentialsEvent (Err e)])%list.
       split; [by rewrite <- !app_assoc|].
       apply disciplined_abort;
         [ simpl; by repeat split
         | repeat (apply Forall_cons; split; [first [apply Hsent|exact I]|]);
           constructor
         | repeat (apply Forall_cons; split; [simpl; tauto|]);
           constructor
         | simpl; lia
         | simpl; lia ]. }
  destruct (httpClient_Do (send (AccessToken refreshed)) w3) as [[resp1|e] w4];
    cbn beta iota zeta.
  2: { exists ([DoEvent (send accessToken) (Ok resp); RefreshTokenEvent None;
                GetCredentialsEvent (Ok refreshed)] ++
               [DoEvent (send (AccessToken refreshed)) (Err e)])%list.
       split; [by rewrite <- !app_assoc|].
       apply disciplined_abort;
         [ simpl; by repeat split
         | repeat (apply Forall_cons; split; [first [apply Hsent|exact I]|]);
           constructor
         | repeat (apply Forall_cons; split; [simpl; tauto|]);
           constructor
         | simpl; lia
         | simpl; lia ]. }
  rewrite <- !app_assoc.
  apply (Hrest resp1 (AccessToken refreshed) w4
           [DoEvent (send accessToken) (Ok resp); RefreshTokenEvent None;
            GetCredentialsEvent (Ok refreshed);
            DoEvent (send (AccessToken refreshed)) (Ok resp1)]);
    [ intros calls' H; simpl; by repeat split
    | repeat (apply Forall_cons; split; [first [apply Hsent|exact I]|]);
           constructor
    | repeat (apply Forall_cons; split; [simpl; tauto|]);
           constructor
    | simpl; lia
    | simpl; lia ].
Qed.

Lemma callEndpoint_calls (method : string) (body : JSON) (w : World) (log : list Event) :
  ∃ first calls,
    (callEndpoint' method body (w, log)).2.2
    = (log ++ GetCredentialsEvent first :: calls)%list ∧
    match first, json_Marshal body with
    | Err e, _ =>
        calls = [] ∧
        (callEndpoint' method body (w, log)).1
        = Err (Errorf "failed to get credentials" (Some e))
    | Ok _, Err e => calls = [] ∧ (callEndpoint' method body (w, log)).1 = Err e
    | Ok creds, Ok reqBody =>
        disciplined method reqBody Endpoints (Some (AccessToken creds)) calls
          (callEndpoint' method body (w, log)).1
    end.
Proof.
  unfold callEndpoint, GetCredentials.
  destruct (provider_GetCredentials w) as [[creds|e] w1]; cbn beta iota zeta.
  2: { exists (Err e), []. by split. }
  destruct (json_Marshal body) as [reqBody|e] eqn:EM.
  2: { exists (Ok creds), []. by split. }
  destruct (callEndpointLoop_disciplined method reqBody Endpoints (AccessToken creds) None w1
              (log ++ [GetCredentialsEvent (Ok creds)])%list) as (calls & Hlog & Hd).
  exists (Ok creds), calls. split; [|done].
  rewrite Hlog, <- app_assoc. done.
Qed.


Lemma callEndpoint_requests (method : string) (body : JSON) (reqBody : string) (w : World)
  (log : list Event) :
  json_Marshal body = Ok reqBody →
  ∃ calls,
    (callEndpoint' method body (w, log)).2.2 = (log ++ calls)%list ∧
    Forall (callsMethod method reqBody Endpoints) calls.
Proof.
  intros EM.
  destruct (callEndpoint_calls method body w log) as (first & calls & Hlog & H).
  exists (GetCredentialsEvent first :: calls). split; [done|].
  constructor; [done|]. rewrite EM in H.
  destruct first as [creds|e]; [by destruct H as (_ & H & _)|].
  destruct H as [-> _]. constructor.
Qed.

Lemma onboardedProject_not_empty (lroResponse : gmap string JSON) :
  onboardedProject lroResponse ≠ Ok "".
Proof.
  unfold onboardedProject.
  destruct (as_object (lroResponse !! "response")) as [response|]; [|done].
  destruct (as_object (response !! "cloudaicompanionProject")) as [project|]; [|done].
  destruct (as_string (project !! "id")) as [id|]; [|done].
  destruct (decide (id = "")); [done|]. congruence.
Qed.

Lemma pollOnboarding_spec (fuel : nat) (request : JSON) (reqBody : string)
  (lroResponse : gmap string JSON) (w : World) (log : list Event) :
  json_Marshal request = Ok reqBody →
  let out := pollOnboarding' fuel request lroResponse (w, log) in
  out.1 ≠ Some (Ok "") ∧
  (∃ calls, out.2.2 = (log ++ calls)%list ∧
            Forall (callsMethod "onboardUser" reqBody Endpoints) calls) ∧
  (∀ r, out.1 = Some r →
        ∀ k, pollOnboarding' (fuel + k) request lroResponse (w, log) = out).
Proof.
  intros EM. revert lroResponse w log.
  induction fuel as [|fuel IH]; intros lroResponse w log; cbn zeta.
  - simpl. destruct (isDone lroResponse) eqn:ED.
    + split; [intros [= E]; by apply onboardedProject_not_empty in E|].
      split; [exists []; by rewrite app_nil_r|].
      intros r _ k. destruct k; simpl; by rewrite ED.
    + split; [done|]. split; [exists []; by rewrite app_nil_r|]. done.
  - cbn [pollOnboarding Nat.add]. destruct (isDone lroResponse) eqn:ED.
    + split; [intros [= E]; by apply onboardedProject_not_empty in E|].
      split; [exists []; by rewrite app_nil_r|]. done.
    + destruct (callEndpoint_requests "onboardUser" request reqBody w log EM)
        as (calls & Hlog & Hsent).
      destruct (callEndpoint' "onboardUser" request (w, log)) as [[lro1|e] [w1 log1]].
      * simpl in Hlog. subst log1.
        destruct (IH lro1 w1 (log ++ calls)%list) as (H1 & (calls1 & Hlog1 & Hsent1) & H3).
        split; [done|]. split; [|done].
        exists (calls ++ calls1)%list. split; [by rewrite Hlog1, <- app_assoc|].
        by apply Forall_app.
      * simpl in Hlog. subst log1. split; [done|]. split; [by exists calls|]. done.
Qed.

(** X23.  [Discover] returns the project id of the environment when it is
    set, and otherwise that of the [loadCodeAssist] response when the
    account is not GCP-managed or the response names a project: in these
    cases it calls nothing.  It fails on a nil response.  Only a managed
    account without a project is onboarded: every request then goes to
    [onboardUser] with the same body, holding the id of the first default
    tier ([free-tier] if there is none), and the flow polls until an
    operation is done.  The project id returned is empty in one case
    only: an account that is not managed and whose response names no
    project.  A run that ends is not changed by more polls being
    allowed. *)
Theorem Discover_project_id (fuel : nat) (envProjectID : string)
  (loadAssist : option LoadCodeAssistResponse) (w : World) (log : list Event) :
  let out := Discover' fuel envProjectID loadAssist (w, log) in
  (envProjectID ≠ "" → out = (Some (Ok envProjectID), (w, log))) ∧
  (envProjectID = "" → loadAssist = None →
   out = (Some (Err (Errorf "loadAssist response is nil" None)), (w, log))) ∧
  (∀ l, envProjectID = "" → loadAssist = Some l →
        GCPManaged l = false ∨ CloudAICompanionProject l ≠ "" →
        out = (Some (Ok (CloudAICompanionProject l)), (w, log))) ∧
  (∀ l reqBody, envProjectID = "" → loadAssist = Some l →
        GCPManaged l = true → CloudAICompanionProject l = "" →
        json_Marshal (onboardRequest (onboardingTier l)) = Ok reqBody →
        ∃ calls, out.2.2 = (log ++ calls)%list ∧ calls ≠ [] ∧
                 Forall (callsMethod "onboardUser" reqBody Endpoints) calls) ∧
  (out.1 = Some (Ok "") ↔
   envProjectID = "" ∧
   ∃ l, loadAssist = Some l ∧ GCPManaged l = false ∧ CloudAICompanionProject l = "") ∧
  (∀ r, out.1 = Some r → ∀ k, Discover' (fuel + k) envProjectID loadAssist (w, log) = out).
Proof.
  cbn zeta. unfold Discover.
  destruct (decide (envProjectID = "")) as [He|He].
  2: { split; [done|]. split; [done|]. split; [done|]. split; [done|].
       split; [|done]. split; [intros [= E]; congruence|]. by intros [E _]. }
  split; [done|].
  destruct loadAssist as [l|].
  2: { split; [done|]. split; [done|]. split; [done|].
       split; [|done]. split; [done|]. by intros (_ & l & [=] & _). }
  split; [done|].
  destruct (GCPManaged l) eqn:EG.
  2: { split; [by intros l' _ [= <-] _|]. split; [intros l' r _ [= <-]; congruence|].
       split; [|done]. split.
       - intros [= E]. split; [done|]. by exists l.
       - intros (_ & l' & [= <-] & _ & E). by rewrite E. }
  unfold runOnboardingFlow.
  destruct (decide (CloudAICompanionProject l = "")) as [Hc|Hc].
  2: { split; [by intros l' _ [= <-] _|]. split; [intros l' r _ [= <-]; congruence|].
       split; [|done]. split.
       - intros [= E]. congruence.
       - intros (_ & l' & [= <-] & E & _). congruence. }
  split; [intros l' _ [= <-] [E|E]; congruence|].
  set (request := onboardRequest (onboardingTier l)).
  assert (∀ reqBody, json_Marshal request = Ok reqBody →
            ∃ calls,
              (let '(answer, s1) := callEndpoint' "onboardUser" request (w, log) in
               match answer with
               | Err e => (Some (Err (Errorf "failed to call onboardUser" (Some e))), s1)
               | Ok lroResponse => pollOnboarding' fuel request lroResponse s1
               end).2.2 = (log ++ calls)%list ∧ calls ≠ [] ∧
              Forall (callsMethod "onboardUser" reqBody Endpoints) calls) as Hcalls.
  { intros reqBody EM.
    destruct (callEndpoint_calls "onboardUser" request w log) as (first & calls & Hlog & _).
    destruct (callEndpoint_requests "onboardUser" request reqBody w log EM)
      as (calls0 & Hlog0 & Hsent).
    assert (calls0 = GetCredentialsEvent first :: calls) as E.
    { rewrite Hlog in Hlog0. by apply app_inv_head in Hlog0. }
    destruct (callEndpoint' "onboardUser" request (w, log)) as [[lro|e] [w1 log1]].
    - simpl in Hlog0. subst log1.
      destruct (pollOnboarding_spec fuel request reqBody lro w1 (log ++ calls0)%list EM)
        as (_ & (calls1 & Hlog1 & Hsent1) & _).
      exists (calls0 ++ calls1)%list. split; [by rewrite Hlog1, <- app_assoc|].
      split; [by rewrite E|]. by apply Forall_app.
    - simpl in Hlog0. subst log1. exists calls0. split; [done|]. split; [by rewrite E|done]. }
  split; [intros l' reqBody _ [= <-] _ _ EM; by apply Hcalls|].
  destruct (callEndpoint' "onboardUser" request (w, log)) as [[lro|e] [w1 log1]] eqn:EC.
  - destruct (json_Marshal request) as [reqBody|e] eqn:EM.
    + destruct (pollOnboarding_spec fuel request reqBody lro w1 log1 EM) as (H1 & _ & H3).
      split; [|done]. split; [done|]. intros (_ & l' & [= <-] & E & _). congruence.
    + exfalso. destruct (callEndpoint_calls "onboardUser" request w log)
        as (first & calls & _ & H).
      rewrite EM, EC in H. simpl in H. destruct first; by destruct H.
  - split; [|done]. split; [done|]. intros (_ & l' & [= <-] & E & _). congruence.
Qed.

End ProjectProperties.

Example Discover_demo_run :
  let out :=
    Discover demoGetCredentials demoRefresh demoOperationDo (λ _, Ok "{}")
      demoUnmarshalOperation 5 "" (Some demoManaged) (0%nat, []) in
  out.1 = Some (Ok "project-1") ∧
  length (filter isDo out.2.2) = 4%nat ∧ length (filter isRefresh out.2.2) = 1%nat ∧
  (Discover demoGetCredentials demoRefresh demoOperationDo (λ _, Ok "{}")
     demoUnmarshalOperation 1 "" (Some demoManaged) (0%nat, [])).1 = None.
Proof. vm_compute. done. Qed.

(** ** The callback page *)

Lemma escapeByte_cases (b : ascii) :
  (plainByte b = true ∧ escapeByte b = String b "") ∨
  (plainByte b = false ∧
   (b = ascii_of_nat 38 ∧ escapeByte b = "&amp;" ∨
    b = ascii_of_nat 60 ∧ escapeByte b = "&lt;" ∨
    b = ascii_of_nat 62 ∧ escapeByte b = "&gt;" ∨
    b = ascii_of_nat 34 ∧ escapeByte b = "&quot;" ∨
    b = ascii_of_nat 39 ∧ escapeByte b = "&#39;")).
Proof.
  unfold escapeByte, plainByte, markupByte.
  destruct (Nat.eqb_spec (nat_of_ascii b) 38) as [E|E].
  { right. rewrite <- E, ascii_nat_embedding. rewrite !andb_false_r. auto. }
  destruct (Nat.eqb_spec (nat_of_ascii b) 60) as [E1|E1].
  { right. rewrite <- E1, ascii_nat_embedding. simpl. auto 10. }
  destruct (Nat.eqb_spec (nat_of_ascii b) 62) as [E2|E2].
  { right. rewrite <- E2, ascii_nat_embedding. simpl. auto 10. }
  destruct (Nat.eqb_spec (nat_of_ascii b) 34) as [E3|E3].
  { right. rewrite <- E3, ascii_nat_embedding. simpl. auto 10. }
  destruct (Nat.eqb_spec (nat_of_ascii b) 39) as [E4|E4].
  { right. rewrite <- E4, ascii_nat_embedding. simpl. auto 10. }
  by left.
Qed.

Lemma htmlEscape_app (a b : string) : htmlEscape (a ++ b) = htmlEscape a ++ htmlEscape b.
Proof.
  induction a as [|c a IH]; [done|].
  change (htmlEscape (String c (a ++ b)) = (escapeByte c ++ htmlEscape a) ++ htmlEscape b).
  simpl. by rewrite IH, string_app_assoc.
Qed.

Lemma plainByte_not_amp (b : ascii) : plainByte b = true → b ≠ ascii_of_nat 38.
Proof. intros H ->. by vm_compute in H. Qed.

Lemma htmlEscape_injective (a b : string) : htmlEscape a = htmlEscape b → a = b.
Proof.
  revert b. induction a as [|x a IH]; intros [|y b].
  - done.
  - simpl. destruct (escapeByte_cases y) as [[_ ->]|[_ [[_ ->]|[[_ ->]|[[_ ->]|[[_ ->]|[_ ->]]]]]]];
      done.
  - simpl. destruct (escapeByte_cases x) as [[_ ->]|[_ [[_ ->]|[[_ ->]|[[_ ->]|[[_ ->]|[_ ->]]]]]]];
      done.
  - simpl.
    destruct (escapeByte_cases x)
      as [[Hx ->]|[_ [[-> ->]|[[-> ->]|[[-> ->]|[[-> ->]|[-> ->]]]]]]];
      destruct (escapeByte_cases y)
        as [[Hy ->]|[_ [[-> ->]|[[-> ->]|[[-> ->]|[[-> ->]|[-> ->]]]]]]];
      try (apply plainByte_not_amp in Hx); try (apply plainByte_not_amp in Hy);
      simpl; intros E; simplify_eq/=;
      first [ by f_equal; apply IH
            | by exfalso; apply Hx
            | by exfalso; apply Hy
            | done ].
Qed.

(** X25.  [htmlEscape] replaces each of the five bytes [&], [<], [>],
    double quote and single quote by its entity and keeps every other
    byte: the result holds none of [<], [>] and the two quotes, it is the
    string itself when the string has none of the five bytes, escaping
    distributes over concatenation, and no two strings have the same
    escape. *)
Theorem htmlEscape_safe (s : string) :
  Forall (λ b, markupByte b = false) (list_ascii_of_string (htmlEscape s)) ∧
  (Forall (λ b, plainByte b = true) (list_ascii_of_string s) → htmlEscape s = s) ∧
  (∀ t, htmlEscape (s ++ t) = htmlEscape s ++ htmlEscape t) ∧
  (∀ t, htmlEscape s = htmlEscape t → s = t).
Proof.
  split; [|split; [|split]].
  - induction s as [|b s IH]; [constructor|]. simpl. rewrite list_ascii_app.
    apply Forall_app. split; [|done].
    destruct (escapeByte_cases b) as [[H ->]|[_ [[_ ->]|[[_ ->]|[[_ ->]|[[_ ->]|[_ ->]]]]]]];
      try by_evaluation.
    simpl. constructor; [|constructor].
    unfold plainByte in H. apply andb_true_iff in H as [H _]. by apply negb_true_iff in H.
  - induction s as [|b s IH]; [done|]. simpl. intros [Hb Hs]%Forall_cons.
    destruct (escapeByte_cases b) as [[_ ->]|[H _]]; [|congruence].
    simpl. f_equal. by apply IH.
  - apply htmlEscape_app.
  - apply htmlEscape_injective.
Qed.

(** ** State and PKCE verifier *)

Lemma list_ind3 {A : Type} (P : list A → Prop) :
  P [] → (∀ a, P [a]) → (∀ a b, P [a; b]) →
  (∀ a b c l, P l → P (a :: b :: c :: l)) → ∀ l, P l.
Proof.
  intros H0 H1 H2 H3 l.
  enough (P l ∧ (∀ a, P (a :: l)) ∧ (∀ a b, P (a :: b :: l))) as [H _] by done.
  induction l as [|x l (IH0 & IH1 & IH2)]; [done|].
  split; [apply IH1|]. split; [intros a; apply IH2|]. intros a b. by apply H3.
Qed.

Lemma digit_urlSafe (n : Z) : (0 ≤ n < 64)%Z → Base64.digit n ∈ Base64.encodeURL.
Proof.
  intros H. unfold Base64.digit. apply list_elem_of_In, nth_In.
  change (length Base64.encodeURL) with 64%nat. lia.
Qed.

Lemma EncodeToString_urlSafe (src : list Z) :
  Forall isByte src → urlSafe (Base64.EncodeToString src).
Proof.
  unfold urlSafe, isByte. induction src as [|a|a b|a b c src IH] using list_ind3.
  - constructor.
  - intros [Ha _]%Forall_cons. simpl.
    repeat (constructor; [apply digit_urlSafe; Z.div_mod_to_equations; lia|]).
    constructor.
  - intros [Ha [Hb _]%Forall_cons]%Forall_cons. simpl.
    repeat (constructor; [apply digit_urlSafe; Z.div_mod_to_equations; lia|]).
    constructor.
  - intros [Ha [Hb [Hc Hs]%Forall_cons]%Forall_cons]%Forall_cons.
    cbn [Base64.EncodeToString list_ascii_of_string].
    do 4 (constructor; [apply digit_urlSafe; Z.div_mod_to_equations; lia|]).
    by apply IH.
Qed.

Lemma EncodeToString_length (src : list Z) :
  String.length (Base64.EncodeToString src) = ((4 * length src + 2) / 3)%nat.
Proof.
  induction src as [|a|a b|a b c src IH] using list_ind3; try done.
  cbn [Base64.EncodeToString String.length length]. rewrite IH.
  replace (4 * S (S (S (length src))) + 2)%nat with ((4 * length src + 2) + 4 * 3)%nat by lia.
  rewrite Nat.div_add by done. lia.
Qed.

Lemma be_bytes_isByte (width : nat) (x : Z) : Forall isByte (SHA256.be_bytes width x).
Proof.
  unfold SHA256.be_bytes. apply Forall_fmap, Forall_forall. intros i _. simpl.
  unfold isByte. change 255%Z with (Z.ones 8). rewrite Z.land_ones by done.
  apply Z.mod_pos_bound. done.
Qed.

Lemma Sum256_isByte (s : string) : Forall isByte (SHA256.Sum256 s).
Proof.
  unfold SHA256.Sum256. apply Forall_forall.
  intros x (w & Hx & _)%list_elem_of_bind.
  pose proof (be_bytes_isByte 4 w) as H. by eapply Forall_forall in H.
Qed.

(** X26.  Given 32 random bytes, [GeneratePKCEVerifier] returns a verifier
    of 43 characters over the URL-safe alphabet [A-Za-z0-9-_] and, as
    challenge, the unpadded URL-safe base 64 of the SHA-256 digest of the
    verifier's characters, again 43 characters of that alphabet: the
    [S256] method of RFC 7636.  Given 16 random bytes, [GenerateState]
    returns 22 such characters.  An error of the random source is
    returned as it is. *)
Theorem GeneratePKCEVerifier_S256 (b : list Z) :
  Forall isByte b →
  (length b = 32%nat →
   ∃ verifier challenge,
     GeneratePKCEVerifier (Ok b) = Ok (verifier, challenge) ∧
     String.length verifier = 43%nat ∧ urlSafe verifier ∧
     challenge = Base64.EncodeToString (SHA256.Sum256 verifier) ∧
     String.length challenge = 43%nat ∧ urlSafe challenge) ∧
  (length b = 16%nat →
   ∃ state, GenerateState (Ok b) = Ok state ∧
            String.length state = 22%nat ∧ urlSafe state) ∧
  (∀ e, GeneratePKCEVerifier (Err e) = Err e ∧ GenerateState (Err e) = Err e).
Proof.
  intros Hb. split; [|split; [|done]].
  - intros Hlen. eexists _, _. split; [reflexivity|].
    split; [by rewrite EncodeToString_length, Hlen|].
    split; [by apply EncodeToString_urlSafe|]. split; [done|].
    split; [by rewrite EncodeToString_length, Sum256_length|].
    apply EncodeToString_urlSafe, Sum256_isByte.
  - intros Hlen. eexists. split; [reflexivity|].
    split; [by rewrite EncodeToString_length, Hlen|]. by apply EncodeToString_urlSafe.
Qed.

Lemma GeneratePKCEVerifier_S256_witness :
  (length (replicate 32 255%Z) = 32%nat →
   ∃ verifier challenge,
     GeneratePKCEVerifier (Ok (replicate 32 255%Z)) = Ok (verifier, challenge) ∧
     String.length verifier = 43%nat ∧ urlSafe verifier ∧
     challenge = Base64.EncodeToString (SHA256.Sum256 verifier) ∧
     String.length challenge = 43%nat ∧ urlSafe challenge) ∧
  (length (replicate 32 255%Z) = 16%nat →
   ∃ state, GenerateState (Ok (replicate 32 255%Z)) = Ok state ∧
            String.length state = 22%nat ∧ urlSafe state) ∧
  (∀ e, GeneratePKCEVerifier (Err e) = Err e ∧ GenerateState (Err e) = Err e).
Proof.
  apply (GeneratePKCEVerifier_S256 (replicate 32 255%Z)).
  apply Forall_replicate. unfold isByte. lia.
Defined.

(** The vectors of RFC 4648 and the example of RFC 7636, appendix B. *)
Example GeneratePKCEVerifier_rfc7636 :
  Base64.EncodeToString [102; 111; 111; 98; 97]%Z = "Zm9vYmE" ∧
  Base64.EncodeToString [255; 239; 190]%Z = "_---" ∧
  GeneratePKCEVerifier
    (Ok [116; 24; 223; 180; 151; 153; 224; 37; 79; 250; 96; 125; 216; 173; 187; 186;
         22; 212; 37; 77; 105; 214; 191; 240; 91; 88; 5; 88; 83; 132; 141; 121]%Z)
  = Ok ("dBjftJeZ4CVP-mB92K27uhbUJU1p1r_wW1gFWFOEjXk",
        "E9Melhoa2OwvFrEMTJguCHaoeK1t8URWbuGJSstw-cM").
Proof. vm_compute. done. Qed.

(** ** The models endpoint *)

Lemma ascii_compare_lt_trans (a b c : ascii) :
  Ascii.compare a b = Lt → Ascii.compare b c = Lt → Ascii.compare a c = Lt.
Proof.
  unfold Ascii.compare. rewrite !N.compare_lt_iff. lia.
Qed.

Lemma string_compare_lt_trans (a b c : string) :
  String.compare a b = Lt → String.compare b c = Lt → String.compare a c = Lt.
Proof.
  revert b c. induction a as [|x a IH]; intros [|y b] [|z c]; simpl; try done.
  destruct (Ascii.compare x y) eqn:Exy; try done.
  - apply Ascii.compare_eq_iff in Exy as ->.
    destruct (Ascii.compare y z); try done. apply IH.
  - intros _. destruct (Ascii.compare y z) eqn:Eyz; try done.
    + apply Ascii.compare_eq_iff in Eyz as <-. by rewrite Exy.
    + by rewrite (ascii_compare_lt_trans x y z).
Qed.

Lemma less_trans (a b c : openAIModel) :
  less a b = true → less b c = true → less a c = true.
Proof.
  unfold less, String.ltb.
  destruct (String.compare (omID a) (omID b)) eqn:E1; try done.
  destruct (String.compare (omID b) (omID c)) eqn:E2; try done.
  by rewrite (string_compare_lt_trans _ _ _ E1 E2).
Qed.

Lemma less_or_later (x m : openAIModel) :
  less x m = false → omID m ≠ omID x → less m x = true.
Proof.
  unfold less, String.ltb. intros H Hne.
  rewrite String.compare_antisym.
  destruct (String.compare (omID x) (omID m)) eqn:E; try done.
  apply String.compare_eq_iff in E. by destruct Hne.
Qed.

Lemma insertModel_perm (m : openAIModel) (models : list openAIModel) :
  insertModel m models ≡ₚ m :: models.
Proof.
  induction models as [|x models IH]; simpl; [done|].
  destruct (less x m); [|done].
  rewrite IH. apply Permutation_swap.
Qed.

Lemma sortModels_perm (models : list openAIModel) : sortModels models ≡ₚ models.
Proof.
  induction models as [|m models IH]; simpl; [done|].
  by rewrite insertModel_perm, IH.
Qed.

Lemma insertModel_increasing (m : openAIModel) (models : list openAIModel) :
  increasingIDs models → omID m ∉ omID <$> models → increasingIDs (insertModel m models).
Proof.
  unfold increasingIDs.
  induction models as [|x models IH]; simpl; intros Hs Hm.
  { repeat constructor. }
  apply StronglySorted_inv in Hs as [Hs Hx].
  rewrite not_elem_of_cons in Hm. destruct Hm as [Hne Hm].
  destruct (less x m) eqn:E.
  - constructor; [by apply IH|].
    rewrite insertModel_perm. by constructor.
  - assert (less m x = true) as Hmx by by apply less_or_later.
    constructor; [by constructor|].
    constructor; [done|].
    eapply Forall_impl; [exact Hx|]. intros y Hy. by apply (less_trans m x y).
Qed.

Lemma sortModels_increasing (models : list openAIModel) :
  NoDup (omID <$> models) → increasingIDs (sortModels models).
Proof.
  induction models as [|m models IH]; simpl; intros Hn.
  { constructor. }
  apply NoDup_cons in Hn as [Hm Hn].
  apply insertModel_increasing; [by apply IH|].
  by rewrite sortModels_perm.
Qed.

Lemma collectModels_ids (created : Z) (data : FetchAvailableModelsResponse) :
  NoDup (omID <$> collectModels created data).
Proof.
  unfold collectModels. rewrite <- list_fmap_compose.
  pose proof (NoDup_fst_map_to_list (Models data)) as Hn.
  induction (map_to_list (Models data)) as [|entry l IH]; [constructor|].
  rewrite fmap_cons in Hn. apply NoDup_cons in Hn as [Hx Hn].
  rewrite filter_cons. destruct (decide (isSupportedModel entry.1 = true)); [|by apply IH].
  rewrite fmap_cons. apply NoDup_cons. split; [|by apply IH].
  simpl. intros Hin. apply Hx.
  apply list_elem_of_fmap in Hin as (y & Hy & Hin).
  apply list_elem_of_filter in Hin as [_ Hin].
  apply list_elem_of_fmap. by exists y.
Qed.

Lemma collectModels_spec (created : Z) (data : FetchAvailableModelsResponse)
  (m : openAIModel) :
  m ∈ sortModels (collectModels created data) ↔
  ∃ id modelData, Models data !! id = Some modelData ∧ isSupportedModel id = true ∧
                  m = modelEntry created id modelData.
Proof.
  rewrite sortModels_perm. unfold collectModels.
  rewrite list_elem_of_fmap. split.
  - intros ([id modelData] & -> & Hin).
    apply list_elem_of_filter in Hin as [Hs Hin].
    apply elem_of_map_to_list in Hin. by exists id, modelData.
  - intros (id & modelData & Hl & Hs & ->). exists (id, modelData). split; [done|].
    apply list_elem_of_filter. split; [done|]. by apply elem_of_map_to_list.
Qed.

Lemma find_model (created : Z) (data : FetchAvailableModelsResponse) (requested : string) :
  List.find (λ m, bool_decide (omID m = requested)) (sortModels (collectModels created data))
  = match Models data !! requested with
    | Some modelData =>
        if isSupportedModel requested then Some (modelEntry created requested modelData)
        else None
    | None => None
    end.
Proof.
  destruct (List.find _ _) as [m|] eqn:E.
  - apply find_some in E as [Hin Hid].
    apply bool_decide_eq_true in Hid. apply list_elem_of_In in Hin.
    apply collectModels_spec in Hin as (id & modelData & Hl & Hs & ->).
    simpl in Hid. subst id. by rewrite Hl, Hs.
  - destruct (Models data !! requested) as [modelData|] eqn:Hl; [|done].
    destruct (isSupportedModel requested) eqn:Hs; [|done].
    assert (modelEntry created requested modelData
            ∈ sortModels (collectModels created data)) as Hin.
    { apply collectModels_spec. by exists requested, modelData. }
    apply list_elem_of_In in Hin.
    pose proof (find_none _ _ E _ Hin) as Hn. simpl in Hn.
    by rewrite bool_decide_eq_false in Hn.
Qed.

(** *** The path *)

Lemma Split_whole (a : string) :
  slash ∉ list_ascii_of_string a → Split a slash = [a].
Proof.
  induction a as [|b a IH]; simpl; [done|]. intros Hn.
  rewrite not_elem_of_cons in Hn. destruct Hn as [Hb Hn].
  destruct (Ascii.eqb_spec b slash) as [->|_]; [done|].
  by rewrite IH.
Qed.

Lemma Split_piece (a r : string) :
  slash ∉ list_ascii_of_string a →
  Split (a ++ String slash r) slash = a :: Split r slash.
Proof.
  induction a as [|b a IH]; intros Hn.
  { done. }
  simpl in *.
  rewrite not_elem_of_cons in Hn. destruct Hn as [Hb Hn].
  destruct (Ascii.eqb_spec b slash) as [->|_]; [done|].
  by rewrite IH.
Qed.

Lemma Split_Join (segs : list string) :
  segs ≠ [] → Forall segment segs → Split (Strings.Join segs "/") slash = segs.
Proof.
  induction segs as [|e [|e' rest] IH]; intros Hne Hs; [done| |].
  - simpl. apply Forall_cons in Hs as [[_ He] _]. by apply Split_whole.
  - apply Forall_cons in Hs as [[_ He] Hs].
    change (Strings.Join (e :: e' :: rest) "/")
      with (e ++ String slash (Strings.Join (e' :: rest) "/")).
    rewrite Split_piece; [|done]. f_equal. by apply IH.
Qed.

(** A string that starts with a byte other than the slash. *)
Lemma trimLeftByte_keeps (b : ascii) (s : string) :
  b ≠ slash → trimLeftByte (String b s) slash = String b s.
Proof. intros Hb. simpl. by destruct (Ascii.eqb_spec b slash). Qed.

Lemma Join_first (segs : list string) :
  segs ≠ [] → Forall segment segs →
  ∃ b t, Strings.Join segs "/" = String b t ∧ b ≠ slash.
Proof.
  destruct segs as [|e rest]; [done|]. intros _ Hs.
  apply Forall_cons in Hs as [[He Hn] _].
  destruct e as [|b e]; [done|].
  simpl in Hn. rewrite not_elem_of_cons in Hn. destruct Hn as [Hb _].
  destruct rest; simpl; eauto.
Qed.

Lemma Join_last (segs : list string) :
  segs ≠ [] → Forall segment segs →
  ∃ b t, Strings.rev_string (Strings.Join segs "/") = String b t ∧ b ≠ slash.
Proof.
  induction segs as [|e [|e' rest] IH]; intros Hne Hs; [done| |].
  - simpl. apply Forall_cons in Hs as [[He Hn] _].
    destruct (Strings.rev_string e) as [|b t] eqn:E.
    + apply (f_equal Strings.rev_string) in E. rewrite rev_string_involutive in E.
      by destruct He.
    + exists b, t. split; [done|]. intros ->. apply Hn.
      apply (f_equal list_ascii_of_string) in E. rewrite list_ascii_rev_string in E.
      simpl in E. apply list_elem_of_In, in_rev. rewrite E. by left.
  - apply Forall_cons in Hs as [_ Hs].
    destruct IH as (b & t & E & Hb); [done|done|].
    change (Strings.Join (e :: e' :: rest) "/")
      with (e ++ String slash (Strings.Join (e' :: rest) "/")).
    change (String slash (Strings.Join (e' :: rest) "/"))
      with ("/" ++ Strings.Join (e' :: rest) "/").
    rewrite !rev_string_app, E. simpl. eauto.
Qed.

Lemma Trim_path (segs : list string) :
  segs ≠ [] → Forall segment segs →
  Trim ("/" ++ Strings.Join segs "/") slash = Strings.Join segs "/" ∧
  Trim ("/" ++ Strings.Join segs "/" ++ "/") slash = Strings.Join segs "/".
Proof.
  intros Hne Hs.
  destruct (Join_first segs Hne Hs) as (b & t & E & Hb).
  destruct (Join_last segs Hne Hs) as (b' & t' & E' & Hb').
  set (J := Strings.Join segs "/") in *.
  assert (Strings.rev_string "/" = "/") as Es by done.
  assert (trimLeftByte ("/" ++ J) slash = J) as Hl.
  { simpl. rewrite E. by apply trimLeftByte_keeps. }
  assert (Strings.rev_string (String b' t' ++ "/") = "/" ++ J) as Hr.
  { rewrite <- E', rev_string_app, rev_string_involutive. done. }
  assert (trimLeftByte (String b' (t' ++ "/")) slash = String b' t' ++ "/") as Hk.
  { by apply trimLeftByte_keeps. }
  unfold Trim, trimRightByte. split.
  - rewrite rev_string_app, E', Es.
    change (String b' t' ++ "/") with (String b' (t' ++ "/")) at 1.
    by rewrite Hk, Hr.
  - rewrite !rev_string_app, E', Es.
    change (("/" ++ String b' t') ++ "/") with (String slash (String b' (t' ++ "/"))).
    change (trimLeftByte (String slash (String b' (t' ++ "/"))) slash)
      with (trimLeftByte (String b' (t' ++ "/")) slash).
    by rewrite Hk, Hr.
Qed.

Section ModelsProperties.

Context {World : Type}.
Variable provider_GetCredentials : World → result OAuthCredentials * World.
Variable provider_RefreshToken : World → option error * World.
Variable httpClient_Do : HTTPRequest → World → result Response * World.
Variable json_Marshal_emptyMap : result string.
Variable json_Unmarshal_FetchAvailableModelsResponse :
  string → result FetchAvailableModelsResponse.

(** X27.  [modelsHandler] answers a method other than GET with 405 and
    makes no upstream call.  For GET it fetches the models once; a failed
    fetch gives status 500 with the text of the error.  Otherwise, for a
    catalogue whose ids are ASCII, the models served are those whose id
    contains claude or gemini in any letter case, each with object model,
    owner anthropic, the time of the call, and as description the display
    name or, when that is empty, the id; they are listed in strictly
    increasing order of id.  A path with a third segment asks for the model
    of that id and gets it, or 404 when the catalogue does not serve it;
    any other path gets the list.  After one leading slash and at most one
    trailing slash the segments of a path are its non-empty slash-free
    pieces. *)
Theorem modelsHandler_reply (method path : string) (created : Z)
  (s : World * list Event) :
  (method ≠ "GET" →
   modelsHandler provider_GetCredentials provider_RefreshToken httpClient_Do
     json_Marshal_emptyMap json_Unmarshal_FetchAvailableModelsResponse method path created s
   = (httpError "Method not allowed" 405, s)) ∧
  (method = "GET" →
   ∃ answer s1 written,
     FetchAvailableModels provider_GetCredentials provider_RefreshToken httpClient_Do
       json_Marshal_emptyMap json_Unmarshal_FetchAvailableModelsResponse s = (answer, s1) ∧
     modelsHandler provider_GetCredentials provider_RefreshToken httpClient_Do
       json_Marshal_emptyMap json_Unmarshal_FetchAvailableModelsResponse method path created s = (written, s1) ∧
     match answer with
     | Err err => written = apiError 500 (errorString err)
     | Ok data =>
         map_Forall (λ id _, asciiOnly id) (Models data) →
         ∃ models,
           increasingIDs models ∧
           (∀ m, m ∈ models ↔
                 ∃ id modelData, Models data !! id = Some modelData ∧
                   isSupportedModel id = true ∧
                   m = mkOpenAIModel id "model" created "anthropic"
                         (if decide (DisplayName modelData = "") then id
                          else DisplayName modelData)) ∧
           match Split (Trim path slash) slash !! 2%nat with
           | None => written = encodedList "list" models
           | Some requested =>
               written = match Models data !! requested with
                         | Some modelData =>
                             if isSupportedModel requested
                             then encodedModel (modelEntry created requested modelData)
                             else httpNotFound
                         | None => httpNotFound
                         end
           end
     end) ∧
  (∀ segs, segs ≠ [] → Forall segment segs →
     Split (Trim ("/" ++ Strings.Join segs "/") slash) slash = segs ∧
     Split (Trim ("/" ++ Strings.Join segs "/" ++ "/") slash) slash = segs).
Proof.
  unfold modelsHandler. split; [|split].
  - intros Hm. by destruct (decide (method ≠ "GET")).
  - intros ->. simpl.
    destruct (FetchAvailableModels _ _ _ _ _ s) as [answer s1] eqn:E.
    destruct answer as [data|err].
    + destruct (Split (Trim path slash) slash !! 2%nat) as [requested|] eqn:Ep.
      * rewrite find_model.
        exists (Ok data), s1.
        destruct (Models data !! requested) as [modelData|] eqn:El;
          [destruct (isSupportedModel requested) eqn:Es|];
          (eexists; split; [done|]; split; [done|]; intros _;
           exists (sortModels (collectModels created data));
           split; [apply sortModels_increasing, collectModels_ids|];
           split; [apply collectModels_spec|]; by rewrite ?El, ?Es).
      * eexists _, _, _. split; [done|]. split; [done|]. intros _.
        exists (sortModels (collectModels created data)).
        split; [apply sortModels_increasing, collectModels_ids|].
        split; [apply collectModels_spec|]. done.
    + by eexists _, _, _.
  - intros segs Hne Hs. destruct (Trim_path segs Hne Hs) as [-> ->].
    split; by apply Split_Join.
Qed.

End ModelsProperties.

Example modelsHandler_demo_run :
  let get path :=
    (modelsHandler demoGetCredentials demoRefresh demoDo (Ok "{}") (λ _, Ok demoCatalogue)
       "GET" path 1700000000 (0%nat, [])).1 in
  let flash := mkOpenAIModel "Gemini-Flash" "model" 1700000000 "anthropic" "Flash" in
  let sonnet :=
    mkOpenAIModel "claude-sonnet-4-5" "model" 1700000000 "anthropic" "claude-sonnet-4-5" in
  let pro := mkOpenAIModel "gemini-3-pro" "model" 1700000000 "anthropic" "Gemini 3 Pro" in
  map_Forall (λ id _, asciiOnly id) (Models demoCatalogue) ∧
  get "/v1/models" = encodedList "list" [flash; sonnet; pro] ∧
  get "/v1/models/" = encodedList "list" [flash; sonnet; pro] ∧
  get "/v1/models/claude-sonnet-4-5" = encodedModel sonnet ∧
  get "/v1/models/gemini-3-pro/versions" = encodedModel pro ∧
  get "/v1/models/gpt-oss-120b" = httpNotFound ∧
  get "/v1/models//gemini-3-pro" = httpNotFound ∧
  modelsHandler demoGetCredentials demoRefresh demoDo (Ok "{}") (λ _, Ok demoCatalogue)
    "POST" "/v1/models" 1700000000 (0%nat, [])
  = (httpError "Method not allowed" 405, (0%nat, [])).
Proof.
  split; [|by vm_compute].
  apply map_Forall_to_list. vm_compute. repeat constructor.
Qed.

(** ** The callback server *)

Lemma htmlEscape_markupCount (s : string) : markupCount (htmlEscape s) = 0%nat.
Proof.
  unfold markupCount. induction s as [|b s IH]; [done|].
  simpl. rewrite list_ascii_app, filter_app, length_app, IH, Nat.add_0_r.
  destruct (escapeByte_cases b) as [[H ->]|[_ [[_ ->]|[[_ ->]|[[_ ->]|[[_ ->]|[_ ->]]]]]]];
    try done.
  simpl. rewrite filter_cons.
  unfold plainByte in H. apply andb_true_iff in H as [H _]. apply negb_true_iff in H.
  destruct (decide (markupByte b = true)); [congruence|done].
Qed.

Lemma markupCount_app (a b : string) : markupCount (a ++ b) = (markupCount a + markupCount b)%nat.
Proof. unfold markupCount. by rewrite list_ascii_app, filter_app, length_app. Qed.

Lemma writeHTML_markupCount (status : Z) (title body : string) :
  markupCount (pageText (writeHTML status title body))
  = (markupCount (pageText (writeHTML 0 "" "")) + markupCount body)%nat.
Proof.
  unfold writeHTML, pageText.
  rewrite !markupCount_app, !htmlEscape_markupCount.
  change (markupCount "") with 0%nat. lia.
Qed.

Lemma arrive_first (arrivals : list Arrival) (chans : Channels) :
  resultCh (foldl arrive chans arrivals)
  = match resultCh chans with
    | Some res => Some res
    | None =>
        (λ q, mkCallbackResult (Values_Get q "code") (Values_Get q "state")) <$>
          head (filter accepted (callbacks arrivals))
    end ∧
  errCh (foldl arrive chans arrivals)
  = match errCh chans with
    | Some err => Some err
    | None => head (omap failureOf arrivals)
    end.
Proof.
  revert chans. induction arrivals as [|a arrivals IH]; intros chans.
  { simpl. by destruct (resultCh chans), (errCh chans). }
  simpl foldl. destruct (IH (arrive chans a)) as [-> ->]. clear IH.
  destruct a as [q|serveErr]; simpl.
  - unfold callbacks, callbackHandler, accepted. simpl.
    rewrite filter_cons.
    destruct (decide (Values_Get q "error" ≠ "")) as [He|He]; simpl.
    + rewrite decide_False by (intros [? ?]; done).
      split; [done|]. by destruct (errCh chans).
    + apply dec_stable in He.
      destruct (decide (Values_Get q "code" = "")) as [Hc|Hc]; simpl.
      * rewrite decide_False by (intros [? ?]; done).
        split; [done|]. by destruct (errCh chans).
      * rewrite decide_True by done.
        split; [|done]. by destruct (resultCh chans).
  - split; [done|]. by destruct (errCh chans).
Qed.

(** X28.  While [WaitForCallback] waits, the first callback that delivers
    a code (no error parameter, non-empty code) fills the result channel
    and the first failure (a callback with an error parameter or without
    code, or a failure of the server) fills the error channel; later ones
    are dropped.  So a result returned has a non-empty code and is the
    code and state, the state as sent and unchecked, of the first such
    callback; an error returned is the context's or the first failure's.
    Every page has status 200 (exactly for a callback that delivers a code)
    or 400, does not depend on code, state or the channels, and has
    exactly the markup bytes of the template, whatever the request. *)
Theorem callbackHandler_first_wins (arrivals : list Arrival) :
  let chans := foldl arrive emptyChannels arrivals in
  let first := head (filter accepted (callbacks arrivals)) in
  resultCh chans
  = (λ q, mkCallbackResult (Values_Get q "code") (Values_Get q "state")) <$> first ∧
  errCh chans = head (omap failureOf arrivals) ∧
  (∀ ctxErr outcome, WaitForCallback_select ctxErr chans outcome →
     match outcome with
     | Ok res =>
         Code res ≠ "" ∧
         ∃ q, first = Some q ∧ Values_Get q "error" = "" ∧
              res = mkCallbackResult (Values_Get q "code") (Values_Get q "state")
     | Err err => ctxErr = Some err ∨ head (omap failureOf arrivals) = Some err
     end) ∧
  (∀ q before,
     let page := (callbackHandler q before).1 in
     (pageStatus page = 200%Z ∧ accepted q ∨ pageStatus page = 400%Z ∧ ¬ accepted q) ∧
     markupCount (pageText page) = markupCount (pageText (writeHTML 0 "" "")) ∧
     ∀ q' before',
       Values_Get q' "error" = Values_Get q "error" →
       (Values_Get q' "code" = "" ↔ Values_Get q "code" = "") →
       (callbackHandler q' before').1 = page).
Proof.
  intros chans first.
  destruct (arrive_first arrivals emptyChannels) as [Hr He]. simpl in Hr, He.
  split; [exact Hr|]. split; [exact He|]. split.
  - intros ctxErr outcome Hsel.
    destruct Hsel as [err Hc|err Hc|res Hc].
    + by left.
    + right. by rewrite <- He.
    + fold chans in Hr. rewrite Hr in Hc. fold first in Hc.
      destruct first as [q|] eqn:Ef; [|done]. simpl in Hc. injection Hc as <-.
      assert (q ∈ filter accepted (callbacks arrivals)) as Hin.
      { unfold first in Ef. destruct (filter accepted (callbacks arrivals)); [done|].
        simpl in Ef. injection Ef as ->. by left. }
      apply list_elem_of_filter in Hin as [[Hqe Hqc] _].
      split; [done|]. by exists q.
  - intros q before page. unfold page, callbackHandler, accepted.
    destruct (decide (Values_Get q "error" ≠ "")) as [Hq|Hq].
    + split; [right; split; [done|]; by intros [? ?]|].
      split.
      { cbn [fst]. rewrite writeHTML_markupCount, markupCount_app, htmlEscape_markupCount. done. }
      intros q' before' E _. rewrite E. by rewrite decide_True.
    + apply dec_stable in Hq.
      destruct (decide (Values_Get q "code" = "")) as [Hc|Hc].
      * split; [right; split; [done|]; by intros [? ?]|].
        split; [by cbn [fst]; rewrite writeHTML_markupCount|].
        intros q' before' E Ec. rewrite E, Hq. rewrite decide_False by (by intros ?).
        by rewrite decide_True by by apply Ec.
      * split; [by left|].
        split; [by cbn [fst]; rewrite writeHTML_markupCount|].
        intros q' before' E Ec. rewrite E, Hq. rewrite decide_False by (by intros ?).
        rewrite decide_False; [done|]. intros Hc'. by apply Hc, Ec.
Qed.

Example callbackHandler_demo_run :
  let good : Values := {[ "code" := ["4/abc"]; "state" := ["s1"] ]} in
  let late : Values := {[ "code" := ["4/xyz"] ]} in
  let denied : Values := {[ "error" := ["<b>access_denied</b>"]; "code" := ["4/abc"] ]} in
  let chans := foldl arrive emptyChannels [Callback denied; Callback good; Callback late] in
  resultCh chans = Some (mkCallbackResult "4/abc" "s1") ∧
  errCh chans = Some (Errorf "oauth error: <b>access_denied</b>" None) ∧
  resultCh (foldl arrive emptyChannels [Callback late; Callback good])
  = Some (mkCallbackResult "4/xyz" "") ∧
  pageText (callbackHandler denied emptyChannels).1
  = pageText (writeHTML 400 "Authentication failed"
                "OAuth error: &lt;b&gt;access_denied&lt;/b&gt;").
Proof. by vm_compute. Qed.

(** ** The authorization URL *)

Lemma countByte_app (c : ascii) (a b : string) :
  countByte c (a ++ b) = (countByte c a + countByte c b)%nat.
Proof. unfold countByte. by rewrite list_ascii_app, filter_app, length_app. Qed.

Lemma escapeQueryByte_separators (b : ascii) :
  countByte ampersand (escapeQueryByte b) = 0%nat ∧
  countByte equalsSign (escapeQueryByte b) = 0%nat.
Proof.
  assert (forallb (λ n, (countByte ampersand (escapeQueryByte (ascii_of_nat n)) =? 0)%nat &&
                        (countByte equalsSign (escapeQueryByte (ascii_of_nat n)) =? 0)%nat)
            (seq 0 256) = true) as H.
  { vm_compute. reflexivity. }
  rewrite forallb_forall in H. specialize (H (nat_of_ascii b)).
  rewrite ascii_nat_embedding in H.
  assert (In (nat_of_ascii b) (seq 0 256)) as Hin.
  { apply in_seq. pose proof (nat_ascii_bounded b). lia. }
  apply H, andb_true_iff in Hin as [H1 H2].
  apply Nat.eqb_eq in H1. apply Nat.eqb_eq in H2. done.
Qed.

Lemma QueryEscape_separators (s : string) :
  countByte ampersand (QueryEscape s) = 0%nat ∧ countByte equalsSign (QueryEscape s) = 0%nat.
Proof.
  induction s as [|b s [IH1 IH2]]; [done|]. simpl.
  destruct (escapeQueryByte_separators b) as [H1 H2].
  by rewrite !countByte_app, H1, H2, IH1, IH2.
Qed.

Lemma QueryEscape_urlSafe (s : string) : urlSafe s → QueryEscape s = s.
Proof.
  assert (forallb (λ c, String.eqb (escapeQueryByte c) (String c "")) Base64.encodeURL
          = true) as H.
  { vm_compute. reflexivity. }
  rewrite forallb_forall in H.
  unfold urlSafe. induction s as [|c s IH]; [done|]. simpl.
  intros [Hc Hs]%Forall_cons.
  apply list_elem_of_In, H, String.eqb_eq in Hc. by rewrite Hc, IH.
Qed.

Lemma Values_Encode_parameters (clientID redirectURI scope state pkceChallenge : string) :
  let params : Values := ∅ in
  let params := Values_Set params "client_id" clientID in
  let params := Values_Set params "redirect_uri" redirectURI in
  let params := Values_Set params "response_type" "code" in
  let params := Values_Set params "scope" scope in
  let params := Values_Set params "access_type" "offline" in
  let params := Values_Set params "prompt" "consent" in
  let params := Values_Set params "include_granted_scopes" "true" in
  let params := Values_Set params "state" state in
  let params := Values_Set params "code_challenge" pkceChallenge in
  let params := Values_Set params "code_challenge_method" "S256" in
  Values_Encode params
  = "access_type=offline"
    ++ "&client_id=" ++ QueryEscape clientID
    ++ "&code_challenge=" ++ QueryEscape pkceChallenge
    ++ "&code_challenge_method=S256"
    ++ "&include_granted_scopes=true"
    ++ "&prompt=consent"
    ++ "&redirect_uri=" ++ QueryEscape redirectURI
    ++ "&response_type=code"
    ++ "&scope=" ++ QueryEscape scope
    ++ "&state=" ++ QueryEscape state.
Proof.
  intros params0 params1 params2 params3 params4 params5 params6 params7 params8 params9
    params.
  unfold Values_Encode.
  assert (sortedKeys params
          = ["access_type"; "client_id"; "code_challenge"; "code_challenge_method";
             "include_granted_scopes"; "prompt"; "redirect_uri"; "response_type";
             "scope"; "state"]) as ->.
  { vm_compute. reflexivity. }
  assert (params !! "access_type" = Some ["offline"]) as E1 by (vm_compute; reflexivity).
  assert (params !! "client_id" = Some [clientID]) as E2 by (vm_compute; reflexivity).
  assert (params !! "code_challenge" = Some [pkceChallenge]) as E3
    by (vm_compute; reflexivity).
  assert (params !! "code_challenge_method" = Some ["S256"]) as E4
    by (vm_compute; reflexivity).
  assert (params !! "include_granted_scopes" = Some ["true"]) as E5
    by (vm_compute; reflexivity).
  assert (params !! "prompt" = Some ["consent"]) as E6 by (vm_compute; reflexivity).
  assert (params !! "redirect_uri" = Some [redirectURI]) as E7 by (vm_compute; reflexivity).
  assert (params !! "response_type" = Some ["code"]) as E8 by (vm_compute; reflexivity).
  assert (params !! "scope" = Some [scope]) as E9 by (vm_compute; reflexivity).
  assert (params !! "state" = Some [state]) as E10 by (vm_compute; reflexivity).
  cbn [mbind list_bind app]. rewrite E1, E2, E3, E4, E5, E6, E7, E8, E9, E10.
  clearbody params. clear.
  reflexivity.
Qed.

(** X29.  [AuthorizationURL] fails without client id or redirect URI, and
    then without scopes.  Otherwise the URL is the authorization endpoint
    followed by ten parameters in alphabetical order of their names, every
    value escaped: whatever the configuration, the state and the challenge
    contain, the query has exactly nine [&] and ten [=], so no value can
    add or end a parameter.  A state and a challenge over the URL-safe
    alphabet, as [GenerateState] and [GeneratePKCEVerifier] produce them,
    appear unchanged. *)
Theorem AuthorizationURL_parameters (cfg : Config) (state pkceChallenge : string) :
  (ClientID cfg = "" ∨ RedirectURI cfg = "" →
   AuthorizationURL cfg state pkceChallenge
   = Err (Errorf "missing client_id or redirect_uri" None)) ∧
  (ClientID cfg ≠ "" → RedirectURI cfg ≠ "" → Scopes cfg = [] →
   AuthorizationURL cfg state pkceChallenge = Err (Errorf "no scopes configured" None)) ∧
  (ClientID cfg ≠ "" → RedirectURI cfg ≠ "" → Scopes cfg ≠ [] →
   ∃ query,
     AuthorizationURL cfg state pkceChallenge = Ok (googleAuthURL ++ "?" ++ query) ∧
     query = "access_type=offline"
             ++ "&client_id=" ++ QueryEscape (ClientID cfg)
             ++ "&code_challenge=" ++ QueryEscape pkceChallenge
             ++ "&code_challenge_method=S256"
             ++ "&include_granted_scopes=true"
             ++ "&prompt=consent"
             ++ "&redirect_uri=" ++ QueryEscape (RedirectURI cfg)
             ++ "&response_type=code"
             ++ "&scope=" ++ QueryEscape (Strings.Join (Scopes cfg) " ")
             ++ "&state=" ++ QueryEscape state ∧
     countByte ampersand query = 9%nat ∧ countByte equalsSign query = 10%nat) ∧
  (urlSafe state → QueryEscape state = state) ∧
  (urlSafe pkceChallenge → QueryEscape pkceChallenge = pkceChallenge).
Proof.
  split; [|split; [|split; [|split]]].
  - intros H. unfold AuthorizationURL. by rewrite decide_True.
  - intros H1 H2 H3. unfold AuthorizationURL.
    rewrite decide_False by (by intros [?|?]). by rewrite H3.
  - intros H1 H2 H3. unfold AuthorizationURL.
    rewrite decide_False by (by intros [?|?]).
    rewrite decide_False by (by destruct (Scopes cfg)).
    eexists. split; [reflexivity|].
    split; [apply Values_Encode_parameters|].
    rewrite Values_Encode_parameters.
    destruct (QueryEscape_separators (ClientID cfg)) as [A1 E1].
    destruct (QueryEscape_separators pkceChallenge) as [A2 E2].
    destruct (QueryEscape_separators (RedirectURI cfg)) as [A3 E3].
    destruct (QueryEscape_separators (Strings.Join (Scopes cfg) " ")) as [A4 E4].
    destruct (QueryEscape_separators state) as [A5 E5].
    rewrite !countByte_app, A1, A2, A3, A4, A5, E1, E2, E3, E4, E5. done.
  - apply QueryEscape_urlSafe.
  - apply QueryEscape_urlSafe.
Qed.

Example AuthorizationURL_demo :
  AuthorizationURL
    (mkConfig "id.apps" "secret" "http://localhost:51121/oauth-callback"
       ["https://www.googleapis.com/auth/cclog"; "openid"])
    "a&b=c" "E9Melhoa2OwvFrEMTJguCHaoeK1t8URWbuGJSstw-cM"
  = Ok (googleAuthURL ++ "?access_type=offline&client_id=id.apps"
        ++ "&code_challenge=E9Melhoa2OwvFrEMTJguCHaoeK1t8URWbuGJSstw-cM"
        ++ "&code_challenge_method=S256&include_granted_scopes=true&prompt=consent"
        ++ "&redirect_uri=http%3A%2F%2Flocalhost%3A51121%2Foauth-callback"
        ++ "&response_type=code"
        ++ "&scope=https%3A%2F%2Fwww.googleapis.com%2Fauth%2Fcclog+openid"
        ++ "&state=a%26b%3Dc").
Proof. by vm_compute. Qed.
